(** * dbctool: a shallow embedding of [dbctool.py]

    The development follows the layout of the Python module: the classes
    [Range], [Switch], [Signal], [SignalGroup], [Message], [Bus] and
    [Parser] become modules of the same name, their methods functions of
    the same name.  Python exceptions are values of [exn]; code that may
    raise lives in the error monad [Res]. *)

From Stdlib Require Import String Ascii List Bool Arith NArith ZArith QArith Lia.
From Stdlib Require Import DecimalString.
Import ListNotations.

Local Close Scope Q_scope.
Local Open Scope nat_scope.
Local Open Scope list_scope.
Local Open Scope string_scope.

(** ** Exceptions and the error monad *)

(** The exceptions the module can raise.  [ParseError] and [DatabaseError]
    are the two classes of [dbctool.py]; the others are Python's own
    ([NameError] includes [UnboundLocalError], [Exception_] is a plain
    [Exception]).  [ModelError] is never raised by the Python code: it
    marks a state the embedding cannot reach, a reference to a signal
    that was never created or a loop that outran its bound. *)
Inductive exn : Type :=
| ParseError (line col : nat) (msg : string) (args : list string)
| DatabaseError (msg : string)
| IndexError
| NameError (name : string)
| TypeError
| ValueError
| RecursionError
| Exception_ (msg : string)
| ModelError (what : string).

Inductive Res (A : Type) : Type :=
| Ok (a : A)
| Raise (e : exn).
Arguments Ok {A} a.
Arguments Raise {A} e.

Definition bind {A B : Type} (m : Res A) (k : A -> Res B) : Res B :=
  match m with
  | Ok a => k a
  | Raise e => Raise e
  end.

Notation "x <- m ;; k" := (bind m (fun x => k))
  (at level 61, m at next level, right associativity).
Notation "' pat <- m ;; k" := (bind m (fun x => match x with pat => k end))
  (at level 61, pat pattern, m at next level, right associativity).

(** [for x in l: acc = step(acc, x)], where a raised exception leaves the
    loop. *)
Fixpoint foldM {A S : Type} (step : S -> A -> Res S) (l : list A) (s : S)
  : Res S :=
  match l with
  | [] => Ok s
  | x :: l' => s' <- step s x ;; foldM step l' s'
  end.

Definition is_DatabaseError (e : exn) : bool :=
  match e with DatabaseError _ => true | _ => false end.

Definition is_ParseError (e : exn) : bool :=
  match e with ParseError _ _ _ _ => true | _ => false end.

(** ** Integers as text: [str(n)] and ["{}".format(n)] *)

Definition str_N (n : N) : string := NilEmpty.string_of_uint (N.to_uint n).
Definition str_Z (z : Z) : string := NilZero.string_of_int (Z.to_int z).
Definition str_nat (n : nat) : string := str_N (N.of_nat n).

(** ** Python dictionaries

    A [dict] keeps its keys in insertion order; assigning to a key that is
    present replaces the value and keeps the key's place. *)
Section Dict.
Context {K V : Type} (keq : K -> K -> bool).

Definition dict := list (K * V).

Fixpoint dict_get (k : K) (d : dict) : option V :=
  match d with
  | [] => None
  | (k', v) :: d' => if keq k k' then Some v else dict_get k d'
  end.

Definition dict_mem (k : K) (d : dict) : bool :=
  match dict_get k d with Some _ => true | None => false end.

Fixpoint dict_set (k : K) (v : V) (d : dict) : dict :=
  match d with
  | [] => [(k, v)]
  | (k', v') :: d' =>
      if keq k k' then (k', v) :: d' else (k', v') :: dict_set k v d'
  end.

Definition dict_keys (d : dict) : list K := map fst d.

(** [a == b] on dictionaries: the same keys, bound to equal values. *)
Definition opt_eqb (veq : V -> V -> bool) (x y : option V) : bool :=
  match x, y with
  | Some a, Some b => veq a b
  | None, None => true
  | _, _ => false
  end.

Definition dict_eqb (veq : V -> V -> bool) (a b : dict) : bool :=
  forallb (fun k => opt_eqb veq (dict_get k a) (dict_get k b))
          (dict_keys a ++ dict_keys b)%list.
End Dict.

Arguments dict K V : clear implicits.

(** [set(a) - set(b)], as the list of the elements of [a] not in [b]. *)
Definition set_diff {A : Type} (eq : A -> A -> bool) (a b : list A) : list A :=
  filter (fun x => negb (existsb (eq x) b)) a.

(** [if l:] on a list or set. *)
Definition nonempty {A : Type} (l : list A) : bool :=
  match l with [] => false | _ => true end.

(** ** class Range *)
Module Range.

Record t (A : Type) : Type := Range { minval : A; maxval : A }.
Arguments Range {A} minval maxval.
Arguments minval {A} _.
Arguments maxval {A} _.

Definition limits {A} (self : t A) : A * A := (minval self, maxval self).

(** [__eq__] *)
Definition eqb {A} (eq : A -> A -> bool) (self other : t A) : bool :=
  eq (minval other) (minval self) && eq (maxval other) (maxval self).

(** The numeric methods, with the rationals standing for the numbers. *)
Definition Qlt_bool (x y : Q) : bool := negb (Qle_bool y x).

(** Python's [min(a, b)] and [max(a, b)] answer the first argument
    unless the second is strictly better. *)
Definition py_min (a b : Q) : Q := if Qlt_bool b a then b else a.
Definition py_max (a b : Q) : Q := if Qlt_bool a b then b else a.

Definition within (self : t Q) (x : Q) : bool :=
  Qle_bool (minval self) x && Qle_bool x (maxval self).

Definition intersection (self other : t Q) : option (t Q) :=
  if Qlt_bool (maxval other) (minval self)
     || Qlt_bool (maxval self) (minval other)
  then None
  else
    let new_max := py_min (maxval self) (maxval other) in
    let new_min := py_max (minval self) (minval other) in
    Some (Range new_min new_max).

(** Equality of two results of [intersection]: both [None], or both a
    range and [==]. *)
Definition result_eqb (a b : option (t Q)) : bool :=
  match a, b with
  | None, None => true
  | Some r, Some r' => eqb Qeq_bool r r'
  | _, _ => false
  end.

(** Two ranges, read as closed intervals, are disjoint when no number
    lies within both. *)
Definition disjoint (r1 r2 : t Q) : Prop :=
  ~ exists x : Q, within r1 x = true /\ within r2 x = true.

End Range.


(** ** Characters and text *)

Definition dq : string := String "034"%char EmptyString.      (* the double quote *)
Definition nl : ascii := "010"%char.                 (* newline *)
Definition backslash : ascii := "092"%char.

(** [s[k:]] *)
Fixpoint str_from (k : nat) (s : string) : string :=
  match k, s with
  | O, _ => s
  | S k', String _ s' => str_from k' s'
  | S _, EmptyString => EmptyString
  end.

(** [s[a:a+k]] *)
Definition str_slice (a k : nat) (s : string) : string := substring a k s.

(** The longest prefix of [s] whose characters satisfy [f]. *)
Fixpoint take_while (f : ascii -> bool) (s : string) : string :=
  match s with
  | String c s' => if f c then String c (take_while f s') else EmptyString
  | EmptyString => EmptyString
  end.

(** [c in chars] for a one-character string [c]. *)
Definition char_in (c : ascii) (chars : string) : bool :=
  existsb (Ascii.eqb c) (list_ascii_of_string chars).

(** [s in l] for a list or tuple of strings. *)
Definition str_in (s : string) (l : list string) : bool :=
  existsb (String.eqb s) l.

(** [s.replace(dq, backslash + dq)] *)
Fixpoint escape_dq (s : string) : string :=
  match s with
  | String c s' =>
      if Ascii.eqb c "034"%char
      then String backslash (String c (escape_dq s'))
      else String c (escape_dq s')
  | EmptyString => EmptyString
  end.

(** [l.remove(x)]: drops the first occurrence. *)
Fixpoint remove_first (x : string) (l : list string) : list string :=
  match l with
  | [] => []
  | y :: l' => if String.eqb x y then l' else y :: remove_first x l'
  end.

(** ** Floating-point numbers

    The module reads numbers with [float(...)], prints them with [str], and
    compares them with [==].  These three operations of Python's binary64
    are taken as given.  Every float of a database is the result of
    [float] on a matched decimal literal, which is never a NaN, so [==] is
    reflexive on them. *)
Class FloatModel : Type := {
  float : Type;
  float_of_text : string -> float;        (* float(text) *)
  float_str : float -> string;            (* str(x), "{}".format(x) *)
  float_eqb : float -> float -> bool;     (* x == y *)
  float_eq_int : float -> Z -> bool;      (* x == k for an int k *)
  float_eqb_refl : forall x, float_eqb x x = true;
  float_eqb_sym : forall x y, float_eqb x y = float_eqb y x
}.

(** ** The parsed sections

    [Parser.parse] answers a list of tuples whose first component names the
    section; they are the constructors of [Sec] here. *)

(** A number or string read as an attribute value. *)
Inductive Literal `{FloatModel} : Type :=
| LitInt (k : Z)
| LitFloat (x : float)
| LitStr (s : string).

(** The object a [CM_] or [BA_] statement is about:
    [('BU_', name)], [('BO_', id)], [('SG_', id, name)], [('EV_', name)]
    or [('',)]. *)
Inductive objref : Type :=
| RefBU (name : string)
| RefBO (id : N)
| RefSG (id : N) (name : string)
| RefEV (name : string)
| RefGlobal.

(** The object kind of a [BA_DEF_]: ['BU_'], ['BO_'], ['SG_'], ['EV_'] or
    ['']. *)
Inductive scope : Type := ScGlobal | ScBU | ScBO | ScSG | ScEV.

Definition scope_str (s : scope) : string :=
  match s with
  | ScGlobal => EmptyString | ScBU => "BU_" | ScBO => "BO_" | ScSG => "SG_"
  | ScEV => "EV_"
  end.

Definition scope_eqb (a b : scope) : bool :=
  String.eqb (scope_str a) (scope_str b).

(** The type of an attribute in a [BA_DEF_]. *)
Inductive attr_type `{FloatModel} : Type :=
| TyINT (lo hi : Z)
| TyHEX (lo hi : Z)
| TyFLOAT (lo hi : float)
| TySTRING
| TyENUM (vals : list string).

(** The dictionary [Parser.signal] answers.  [little_endian] and [signed]
    are [None] when [Parser.endian] or [Parser.signed] fell through;
    [receivers] is a first receiver followed by the additional ones. *)
Record signal_dict `{FloatModel} : Type := {
  sd_name : string;
  sd_multiplex_value : option N;
  sd_is_multiplexor : bool;
  sd_start : N;
  sd_size : N;
  sd_little_endian : option bool;
  sd_signed : option bool;
  sd_factor : float;
  sd_offset : float;
  sd_range : float * float;
  sd_unit : string;
  sd_receivers : string * list string
}.

(** The dictionary of a [BO_] section. *)
Record message_dict `{FloatModel} : Type := {
  md_id : N;
  md_name : string;
  md_size : N;
  md_transmitter : string;
  md_signals : list signal_dict
}.

Inductive Sec `{FloatModel} : Type :=
| SecVERSION (version : string)
| SecNS (symbols : list string)
| SecBS (timing : option (N * N * N))
| SecBU (nodes : list string)
| SecVAL_TABLE (name : string) (table : list (Z * string))
| SecBO (d : message_dict)
| SecBO_TX_BU (id : N) (transmitters : list string)
| SecCM (spec : objref) (comment : string)
| SecBA_DEF (spec : scope) (name : string) (typ : attr_type)
| SecBA_DEF_DEF (name : string) (val : Literal)
| SecBA (name : string) (desc : objref) (val : Literal)
| SecVAL (id : N) (signame : string) (vals : list (Z * string))
| SecSIG_GROUP (id : N) (name : string) (number : N) (sigs : list string)
| SecSIG_VALTYPE (id : N) (signame : string) (tn : N)
| SecSG_MUL_VAL (id : N) (signame muxname : string) (ranges : list (N * N)).

(** The first component of the tuple. *)
Definition sec_tag `{FloatModel} (s : Sec) : string :=
  match s with
  | SecVERSION _ => "VERSION"
  | SecNS _ => "NS_"
  | SecBS _ => "BS_"
  | SecBU _ => "BU_"
  | SecVAL_TABLE _ _ => "VAL_TABLE_"
  | SecBO _ => "BO_"
  | SecBO_TX_BU _ _ => "BO_TX_BU_"
  | SecCM _ _ => "CM_"
  | SecBA_DEF _ _ _ => "BA_DEF_"
  | SecBA_DEF_DEF _ _ => "BA_DEF_DEF_"
  | SecBA _ _ _ => "BA_"
  | SecVAL _ _ _ => "VAL_"
  | SecSIG_GROUP _ _ _ _ => "SIG_GROUP_"
  | SecSIG_VALTYPE _ _ _ => "SIG_VALTYPE_"
  | SecSG_MUL_VAL _ _ _ _ => "SG_MUL_VAL_"
  end.

(** ** class Parser *)
Module Parser.

Definition keywords : list string :=
  ["VERSION"; "NS_"; "NS_DESC_"; "CM_"; "BA_DEF_";
   "BA_"; "VAL_"; "CAT_DEF_"; "CAT_"; "FILTER"; "BA_DEF_DEF_";
   "EV_DATA_"; "ENVVAR_DATA_"; "SGTYPE_"; "SGTYPE_VAL_";
   "BA_DEF_SGTYPE_"; "BA_SGTYPE_"; "SIG_TYPE_REF_"; "VAL_TABLE_";
   "SIG_GROUP_"; "SIG_VALTYPE_"; "SIGTYPE_VALTYPE_"; "BO_TX_BU_";
   "BA_DEF_REL_"; "BA_REL_"; "BA_DEF_DEF_REL_"; "BU_SG_REL_";
   "BU_EV_REL_"; "BU_BO_REL_"; "SG_MUL_VAL_"; "BS_"; "BU_";
   "BO_"; "SG_"; "EV_"; "VECTOR__INDEPENDENT_SIG_MSG";
   "Vector__XXX"].

Definition keywords_BO : list string :=
  remove_first "VECTOR__INDEPENDENT_SIG_MSG" keywords.

Definition keywords_most : list string :=
  remove_first "Vector__XXX" keywords.

Definition sections : list string :=
  ["BA_DEF_DEF_"; "BA_DEF_"; "BA_";
   "BO_TX_BU_"; "BO_"; "BS_"; "BU_";
   "CM_"; "ENVVAR_DATA_"; "EV_"; "NS_";
   "SIG_GROUP_"; "SIG_TYPE_REF_"; "SIG_VALTYPE_";
   "SGTYPE_"; "SG_MUL_VAL_";
   "VAL_TABLE_"; "VAL_"; "VERSION"].

(** The cursor: [self.n], [self.line] and [self.col]. *)
Record pos : Type := Pos { n : nat; line : nat; col : nat }.

(** A rule reads and moves the cursor, and answers or raises. *)
Definition parser (A : Type) : Type := pos -> Res (A * pos).

Definition ret {A} (a : A) : parser A := fun s => Ok (a, s).

Definition pbind {A B} (p : parser A) (k : A -> parser B) : parser B :=
  fun s =>
    match p s with
    | Ok (a, s') => k a s'
    | Raise e => Raise e
    end.

Notation "x <~ p ;; k" := (pbind p (fun x => k))
  (at level 61, p at next level, right associativity).

Definition getpos : parser pos := fun s => Ok (s, s).

Definition setpos (p : pos) : parser unit := fun _ => Ok (tt, p).

(** [raise ParseError(self.line, self.col, msg, *args)] *)
Definition parse_error {A} (msg : string) (args : list string) : parser A :=
  fun s => Raise (ParseError (line s) (col s) msg args).

(** [self.n += k; self.col += k] *)
Definition advance (k : nat) : parser unit :=
  fun s => Ok (tt, Pos (n s + k) (line s) (col s + k)).

(** [int(s)] for a run of decimal digits. *)
Definition digit_val (c : ascii) : N := N.of_nat (nat_of_ascii c - 48).

Fixpoint int_of_digits (acc : N) (s : string) : N :=
  match s with
  | String c s' => int_of_digits (10 * acc + digit_val c)%N s'
  | EmptyString => acc
  end.

Definition is_digit (c : ascii) : bool := char_in c "0123456789".
Definition is_sign (c : ascii) : bool := char_in c "-+".

(** The prefix matched by [[-+]?[0-9]+], if any. *)
Definition match_sint (s : string) : option string :=
  match s with
  | String c s' =>
      if is_sign c then
        match take_while is_digit s' with
        | EmptyString => None
        | ds => Some (String c ds)
        end
      else
        match take_while is_digit s with
        | EmptyString => None
        | ds => Some ds
        end
  | EmptyString => None
  end.

(** [int(s)] for a text matched by [match_sint]. *)
Definition int_of_text (s : string) : Z :=
  match s with
  | String c s' =>
      if Ascii.eqb c "-" then (- Z.of_N (int_of_digits 0 s'))%Z
      else if Ascii.eqb c "+" then Z.of_N (int_of_digits 0 s')
      else Z.of_N (int_of_digits 0 s)
  | EmptyString => 0%Z
  end.

(** The prefix matched by [[0-9]*\.?[0-9]+]: the digits, a point and
    more digits when the point is followed by a digit, the digits alone
    otherwise. *)
Definition match_mantissa (s : string) : option string :=
  let d1 := take_while is_digit s in
  match str_from (String.length d1) s with
  | String c s' =>
      if Ascii.eqb c "." then
        match take_while is_digit s' with
        | EmptyString =>
            match d1 with EmptyString => None | _ => Some d1 end
        | d2 => Some (d1 ++ String c d2)
        end
      else match d1 with EmptyString => None | _ => Some d1 end
  | EmptyString => match d1 with EmptyString => None | _ => Some d1 end
  end.

(** The prefix matched by [([eE][-+]?[0-9]+)?]. *)
Definition match_exponent (s : string) : string :=
  match s with
  | String c s' =>
      if char_in c "eE" then
        match match_sint s' with
        | Some e => String c e
        | None => EmptyString
        end
      else EmptyString
  | EmptyString => EmptyString
  end.

(** The prefix matched by [[-+]?[0-9]*\.?[0-9]+([eE][-+]?[0-9]+)?]. *)
Definition match_double (s : string) : option string :=
  let with_exponent (m : string) (rest : string) : string :=
    m ++ match_exponent (str_from (String.length m) rest) in
  match s with
  | String c s' =>
      if is_sign c then
        match match_mantissa s' with
        | Some m => Some (String c (with_exponent m s'))
        | None => None
        end
      else
        match match_mantissa s with
        | Some m => Some (with_exponent m s)
        | None => None
        end
  | EmptyString => None
  end.

(** The separators given to [eat_pattern]. *)
Inductive sep_pattern : Type :=
| Spaces            (* ^[ ]* *)
| SpacesCommas      (* ^[ ,]* *)
| CommaInSpaces.    (* ^[ ]*,[ ]* *)

Definition is_space (c : ascii) : bool := Ascii.eqb c " ".

(** The length of the match of a separator pattern, if it matches. *)
Definition match_sep (p : sep_pattern) (s : string) : option nat :=
  match p with
  | Spaces => Some (String.length (take_while is_space s))
  | SpacesCommas =>
      Some (String.length (take_while (fun c => char_in c " ,") s))
  | CommaInSpaces =>
      let k1 := String.length (take_while is_space s) in
      match str_from k1 s with
      | String c s' =>
          if Ascii.eqb c ","
          then Some (k1 + 1 + String.length (take_while is_space s'))
          else None
      | EmptyString => None
      end
  end.

(** [s.count(newline)] and [s.rfind(newline)]. *)
Fixpoint count_nl (s : string) : nat :=
  match s with
  | String c s' => (if Ascii.eqb c nl then 1 else 0) + count_nl s'
  | EmptyString => 0
  end.

Fixpoint rfind_nl (s : string) : option nat :=
  match s with
  | String c s' =>
      match rfind_nl s' with
      | Some i => Some (S i)
      | None => if Ascii.eqb c nl then Some 0 else None
      end
  | EmptyString => None
  end.

(** [str.isidentifier()] for a run of letters, digits and underscores. *)
Definition isidentifier (s : string) : bool :=
  match s with
  | String c _ => negb (is_digit c)
  | EmptyString => false
  end.

Definition idchar (c : ascii) : bool :=
  let o := nat_of_ascii c in
  (Nat.leb (nat_of_ascii "a") o && Nat.leb o (nat_of_ascii "z"))
  || (Nat.leb (nat_of_ascii "A") o && Nat.leb o (nat_of_ascii "Z"))
  || (Nat.leb (nat_of_ascii "0") o && Nat.leb o (nat_of_ascii "9"))
  || Ascii.eqb c "_".

Definition whitespace : list ascii :=
  [" "; "012"; "011"; "013"; "009"; "010"]%char.

Fixpoint eat_whitespace_loop (rest : string) (s : pos) : pos :=
  match rest with
  | String c rest' =>
      if existsb (Ascii.eqb c) whitespace then
        let s1 := Pos (S (n s)) (line s) (col s) in
        let s2 := if Ascii.eqb c " "
                  then Pos (n s1) (line s1) (S (col s1)) else s1 in
        let s3 := if Ascii.eqb c nl
                  then Pos (n s2) (S (line s2)) 0 else s2 in
        eat_whitespace_loop rest' s3
      else s
  | EmptyString => s
  end.

Fixpoint string_loop (rest : string) (acc : string) (s : pos)
  : Res (string * pos) :=
  match rest with
  | String c rest' =>
      let s1 := if Ascii.eqb c nl then Pos (n s) (S (line s)) 0 else s in
      if negb (Ascii.eqb c nl) && Ascii.eqb c backslash then
        Raise (ParseError (line s) (col s)
                          "Encounted backslash in string at " [])
      else
        let s2 := Pos (S (n s1)) (line s1) (S (col s1)) in
        if Ascii.eqb c "034" then Ok (acc, s2)
        else string_loop rest' (acc ++ String c EmptyString) s2
  | EmptyString =>
      Raise (ParseError (line s) (col s)
                        "Reached end while parsing string" [])
  end.

Section Rules.
Context `{FloatModel}.
Variable text : string.

(** Every loop of the parser reads at least one character in each
    round, so the length of the text bounds the rounds. *)
Let fuel : nat := S (String.length text).

(** [self.n < self.len] *)
Definition more : parser bool :=
  fun s => Ok (Nat.ltb (n s) (String.length text), s).

(** [self.text[self.n]] *)
Definition peek : parser ascii :=
  fun s =>
    match String.get (n s) text with
    | Some c => Ok (c, s)
    | None => Raise IndexError
    end.

(** [self.text[self.n:]] *)
Definition rest : parser string :=
  fun s => Ok (str_from (n s) text, s).

Definition assert_at_end : parser unit :=
  b <~ more ;;
  if b then parse_error "Unrecognizable text remains from" []
  else ret tt.

Definition eat_whitespace : parser unit :=
  fun s => Ok (tt, eat_whitespace_loop (str_from (n s) text) s).

Definition charmatch (c : ascii) : parser unit :=
  b <~ more ;;
  if negb b then
    parse_error ("Reached end while looking for " ++ dq ++ "{}" ++ dq
                   ++ " at") [String c EmptyString]
  else
    c' <~ peek ;;
    if Ascii.eqb c' c then
      fun s =>
        let s1 := Pos (S (n s)) (line s) (S (col s)) in
        Ok (tt, if Ascii.eqb c nl then Pos (n s1) (S (line s1)) 0 else s1)
    else
      parse_error ("Expected " ++ dq ++ "{}" ++ dq ++ ", found "
                     ++ dq ++ "{}" ++ dq ++ " at")
                  [String c EmptyString; String c' EmptyString].

Definition strmatch (str : string) : parser string :=
  r <~ rest ;;
  if String.prefix str r then
    _ <~ advance (String.length str) ;;
    ret str
  else
    parse_error ("Expected " ++ dq ++ "{}" ++ dq ++ ", found "
                   ++ dq ++ "{}" ++ dq ++ " at ")
                [str; str_slice 0 (String.length str) r].

Definition uint : parser N :=
  r <~ rest ;;
  match take_while is_digit r with
  | EmptyString =>
      parse_error ("Expected unsigned int, found " ++ dq ++ "{}" ++ dq
                     ++ " at") [str_slice 0 10 r]
  | ds =>
      _ <~ advance (String.length ds) ;;
      ret (int_of_digits 0 ds)
  end.

Definition double : parser float :=
  r <~ rest ;;
  match match_double r with
  | Some m =>
      _ <~ advance (String.length m) ;;
      ret (float_of_text m)
  | None =>
      parse_error ("Expected a floating point, found " ++ dq ++ "{}"
                     ++ dq ++ " at") [str_slice 0 10 r]
  end.

Definition sint : parser Z :=
  r <~ rest ;;
  match match_sint r with
  | Some m =>
      _ <~ advance (String.length m) ;;
      ret (int_of_text m)
  | None =>
      parse_error ("Expected a signed integer, found " ++ dq ++ "{}"
                     ++ dq ++ " at") [str_slice 0 10 r]
  end.

(** The line count and the column are corrected from the text that
    follows the match, as [self.n] has moved on when they are
    computed. *)
Definition eat_pattern (pattern : sep_pattern) : parser unit :=
  fun s =>
    match match_sep pattern (str_from (n s) text) with
    | Some k =>
        let n' := n s + k in
        let window := str_slice 0 k (str_from n' text) in
        let nln := count_nl window in
        match nln, rfind_nl window with
        | S _, Some i => Ok (tt, Pos n' (line s + nln) (k - 1 - i))
        | _, _ => Ok (tt, Pos n' (line s) (col s + k))
        end
    | None => Ok (tt, s)
    end.

Definition string_ : parser string :=
  c <~ peek ;;
  if negb (Ascii.eqb c "034") then
    parse_error "expected '\{}' but found '{}' at " [dq; String c EmptyString]
  else
    fun s =>
      string_loop (str_from (S (n s)) text) EmptyString
                  (Pos (S (n s)) (line s) (S (col s))).

Definition identifier (reserved : list string) : parser string :=
  r <~ rest ;;
  let str := take_while idchar r in
  if isidentifier str && negb (str_in str reserved) then
    _ <~ advance (String.length str) ;;
    ret str
  else if str_in str reserved then
    parse_error ("Identifier equals reserved word " ++ dq ++ "{}" ++ dq
                   ++ " at") [str]
  else
    parse_error ("Expected identifier, but found " ++ dq ++ "{}" ++ dq
                   ++ " at") [str].

Definition identifier_ws (reserved : list string) : parser string :=
  res <~ identifier reserved ;;
  _ <~ eat_whitespace ;;
  ret res.

(** [try: rule() except ParseError: ...]: the handler runs at the
    state the rule was entered in when it is given the saved
    position. *)
Definition optional {A} (rule : parser A) : parser (option A) :=
  fun s =>
    match rule s with
    | Ok (a, s') => Ok (Some a, s')
    | Raise (ParseError _ _ _ _) => Ok (None, s)
    | Raise e => Raise e
    end.

Fixpoint any_number_of_loop {A} (k : nat) (rule : parser A)
  : parser (list A) :=
  fun s =>
    if Nat.ltb (n s) (String.length text) then
      match k with
      | O => Raise (ModelError "fuel")
      | S k' =>
          match rule s with
          | Ok (res0, s') =>
              match any_number_of_loop k' rule s' with
              | Ok (res, s'') => Ok (res0 :: res, s'')
              | Raise e => Raise e
              end
          | Raise (ParseError _ _ _ _) => Ok ([], s)
          | Raise e => Raise e
          end
      end
    else Ok ([], s).

Definition any_number_of {A} (rule : parser A) : parser (list A) :=
  any_number_of_loop fuel rule.

(** [ln], [cn] and [ex] of [one_of] travel as [best]. *)
Fixpoint one_of_loop {A} (rules : list (parser A))
         (best : nat * nat * option exn) : parser A :=
  fun s =>
    match rules with
    | rule :: rules' =>
        match rule s with
        | Ok r => Ok r
        | Raise (ParseError ln0 cn0 msg args) =>
            let '(ln, cn, ex) := best in
            if Nat.ltb ln ln0 || (Nat.eqb ln0 ln && Nat.ltb cn cn0)
            then one_of_loop rules'
                   (ln0, cn0, Some (ParseError ln0 cn0 msg args)) s
            else one_of_loop rules' best s
        | Raise e => Raise e
        end
    | [] =>
        match best with
        | (_, _, Some ex) => Raise ex
        | (_, _, None) => Raise TypeError
        end
    end.

Definition one_of {A} (rules : list (parser A)) : parser A :=
  one_of_loop rules (0, 0, None).

(** The [while] loop shared by [identifier_list] and [string_list];
    [truthy] is the test [if res:]. *)
Fixpoint separated_loop (k : nat) (pattern : sep_pattern)
         (item : parser string) : parser (list string) :=
  fun s =>
    if Nat.ltb (n s) (String.length text) then
      match k with
      | O => Raise (ModelError "fuel")
      | S k' =>
          (_ <~ eat_pattern pattern ;;
           res <~ optional item ;;
           match res with
           | Some (String c r) =>
               idl <~ separated_loop k' pattern item ;;
               ret (String c r :: idl)
           | _ => _ <~ setpos s ;; ret []
           end) s
      end
    else Ok ([], s).

Definition identifier_list (reserved : list string)
           (pattern : sep_pattern) : parser (list string) :=
  res <~ optional (identifier reserved) ;;
  match res with
  | None => ret []
  | Some id =>
      idl <~ separated_loop fuel pattern (identifier reserved) ;;
      ret (id :: idl)
  end.

Definition string_list (pattern : sep_pattern) : parser (list string) :=
  res <~ optional string_ ;;
  match res with
  | None => ret []
  | Some str =>
      idl <~ separated_loop fuel pattern string_ ;;
      ret (str :: idl)
  end.

Definition section_body_VERSION : parser Sec :=
  _ <~ eat_whitespace ;;
  v <~ string_ ;;
  ret (SecVERSION v).

Definition symnames : list string :=
  ["BA_DEF_DEF_REL_"; "BA_DEF_DEF_"; "BA_DEF_SGTYPE_";
   "BA_DEF_REL_"; "BA_DEF_"; "BA_REL_"; "BA_SGTYPE_"; "BA_";
   "BO_TX_BU_"; "BU_SG_REL_"; "BU_EV_REL_"; "BU_BO_REL_";
   "CM_"; "CAT_DEF_"; "CAT_";
   "ENVVAR_DATA_"; "EV_DATA_"; "FILTER";
   "NS_DESC_";
   "SIG_GROUP_"; "SIG_TYPE_REF_"; "SIG_VALTYPE_";
   "SIGTYPE_VALTYPE_"; "SGTYPE_VAL_"; "SGTYPE_";
   "SG_MUL_VAL_";
   "VAL_TABLE_"; "VAL_"].

(** The loop of [section_body_NS_]; [names] (the list [list]) is kept in reading order
    and [stored_pos] is the position before the last name read. *)
Fixpoint ns_loop (k : nat) (names : list string) (stored_pos : pos)
  : parser (list string) :=
  fun s =>
    if Nat.ltb (n s) (String.length text) then
      match k with
      | O => Raise (ModelError "fuel")
      | S k' =>
          (_ <~ eat_whitespace ;;
           c <~ peek ;;
           if Ascii.eqb c ":" then
             match names with
             | [] =>
                 parse_error ("Expected reserved word, found " ++ dq ++ ":" ++ dq
                                ++ " at") []
             | _ =>
                 _ <~ setpos stored_pos ;;
                 ret (removelast names)
             end
           else
             stored <~ getpos ;;
             str <~ identifier [] ;;
             if str_in str symnames then
               ns_loop k' (names ++ [str])%list stored
             else if str_in str keywords then
               _ <~ setpos stored ;;
               ret names
             else ns_loop k' names stored) s
      end
    else Ok (names, s).

Definition section_body_NS_ : parser Sec :=
  _ <~ eat_whitespace ;;
  c <~ peek ;;
  if negb (Ascii.eqb c ":") then
    parse_error ("Expected " ++ dq ++ ":" ++ dq ++ ", found " ++ dq
                   ++ "{}" ++ dq ++ " at") [String c EmptyString]
  else
    _ <~ advance 1 ;;
    _ <~ eat_whitespace ;;
    here <~ getpos ;;
    names <~ ns_loop fuel [] here ;;
    ret (SecNS names).

Definition baudrate : parser (N * N * N) :=
  baudrate <~ uint ;;
  _ <~ eat_whitespace ;;
  _ <~ charmatch ":" ;;
  _ <~ eat_whitespace ;;
  btr1 <~ uint ;;
  _ <~ eat_whitespace ;;
  _ <~ charmatch "," ;;
  _ <~ eat_whitespace ;;
  btr2 <~ uint ;;
  ret (baudrate, btr1, btr2).

Definition section_body_BS_ : parser Sec :=
  _ <~ eat_whitespace ;;
  _ <~ charmatch ":" ;;
  _ <~ eat_whitespace ;;
  res <~ optional baudrate ;;
  ret (SecBS res).

Definition section_body_BU_ : parser Sec :=
  _ <~ eat_whitespace ;;
  _ <~ charmatch ":" ;;
  _ <~ eat_whitespace ;;
  nodes <~ any_number_of (identifier_ws keywords_most) ;;
  ret (SecBU nodes).

Definition value_entry : parser (Z * string) :=
  _ <~ eat_whitespace ;;
  value <~ sint ;;
  _ <~ eat_whitespace ;;
  text <~ string_ ;;
  ret (value, text).

Definition section_body_VAL_TABLE_ : parser Sec :=
  _ <~ eat_whitespace ;;
  name <~ identifier keywords ;;
  _ <~ eat_whitespace ;;
  table <~ any_number_of value_entry ;;
  _ <~ eat_whitespace ;;
  _ <~ charmatch ";" ;;
  ret (SecVAL_TABLE name table).

Definition multiplex_value : parser N :=
  _ <~ charmatch "m" ;;
  _ <~ eat_whitespace ;;
  uint.

(** [charmatch] raises before it moves the cursor, so the handler of
    the [try] runs at the position the [try] was entered in. *)
Definition multiplex_spec : parser (option N * bool) :=
  mval <~ optional multiplex_value ;;
  _ <~ eat_whitespace ;;
  m <~ optional (charmatch "M") ;;
  ret (mval, match m with Some _ => true | None => false end).

(** In the last branch a [ParseError] is built and dropped: the
    method ends there and answers [None]. *)
Definition endian : parser (option bool) :=
  c <~ peek ;;
  if Ascii.eqb c "1" then
    _ <~ advance 1 ;; ret (Some true)
  else if Ascii.eqb c "0" then
    _ <~ advance 1 ;; ret (Some false)
  else ret None.

Definition signed : parser (option bool) :=
  c <~ peek ;;
  if Ascii.eqb c "+" then
    _ <~ advance 1 ;; ret (Some false)
  else if Ascii.eqb c "-" then
    _ <~ advance 1 ;; ret (Some true)
  else ret None.

Definition additional_receiver : parser string :=
  _ <~ eat_whitespace ;;
  _ <~ charmatch "," ;;
  _ <~ eat_whitespace ;;
  identifier keywords_most.

Definition signal : parser signal_dict :=
  _ <~ eat_whitespace ;;
  _ <~ strmatch "SG_" ;;
  _ <~ eat_whitespace ;;
  name <~ identifier keywords ;;
  _ <~ eat_whitespace ;;
  multi <~ multiplex_spec ;;
  _ <~ eat_whitespace ;;
  _ <~ charmatch ":" ;;
  _ <~ eat_whitespace ;;
  start <~ uint ;;
  _ <~ eat_whitespace ;;
  _ <~ charmatch "|" ;;
  _ <~ eat_whitespace ;;
  size <~ uint ;;
  _ <~ eat_whitespace ;;
  _ <~ charmatch "@" ;;
  _ <~ eat_whitespace ;;
  little <~ endian ;;
  _ <~ eat_whitespace ;;
  signed_value <~ signed ;;
  _ <~ eat_whitespace ;;
  _ <~ charmatch "(" ;;
  _ <~ eat_whitespace ;;
  factor <~ double ;;
  _ <~ eat_whitespace ;;
  _ <~ charmatch "," ;;
  _ <~ eat_whitespace ;;
  offset <~ double ;;
  _ <~ eat_whitespace ;;
  _ <~ charmatch ")" ;;
  _ <~ eat_whitespace ;;
  _ <~ charmatch "[" ;;
  _ <~ eat_whitespace ;;
  minimum <~ double ;;
  _ <~ eat_whitespace ;;
  _ <~ charmatch "|" ;;
  _ <~ eat_whitespace ;;
  maximum <~ double ;;
  _ <~ eat_whitespace ;;
  _ <~ charmatch "]" ;;
  _ <~ eat_whitespace ;;
  unit <~ string_ ;;
  _ <~ eat_whitespace ;;
  receiver <~ identifier keywords_most ;;
  receivers <~ any_number_of additional_receiver ;;
  ret {| sd_name := name;
         sd_multiplex_value := fst multi;
         sd_is_multiplexor := snd multi;
         sd_start := start;
         sd_size := size;
         sd_little_endian := little;
         sd_signed := signed_value;
         sd_factor := factor;
         sd_offset := offset;
         sd_range := (minimum, maximum);
         sd_unit := unit;
         sd_receivers := (receiver, receivers) |}.

Definition section_body_BO_ : parser Sec :=
  _ <~ eat_whitespace ;;
  message_id <~ uint ;;
  _ <~ eat_whitespace ;;
  message_name <~ identifier keywords_BO ;;
  _ <~ eat_whitespace ;;
  _ <~ charmatch ":" ;;
  _ <~ eat_whitespace ;;
  size <~ uint ;;
  _ <~ eat_whitespace ;;
  transmitter <~ identifier keywords_most ;;
  _ <~ eat_whitespace ;;
  signals <~ any_number_of signal ;;
  ret (SecBO {| md_id := message_id;
                md_name := message_name;
                md_size := size;
                md_transmitter := transmitter;
                md_signals := signals |}).

Definition section_body_BO_TX_BU_ : parser Sec :=
  _ <~ eat_whitespace ;;
  id <~ uint ;;
  _ <~ eat_whitespace ;;
  _ <~ charmatch ":" ;;
  _ <~ eat_whitespace ;;
  transmitters <~ identifier_list keywords_most SpacesCommas ;;
  _ <~ eat_whitespace ;;
  _ <~ charmatch ";" ;;
  ret (SecBO_TX_BU id transmitters).

(** [cm_specifier_BU_] and [desc_BA_BU_] are the same rule, and so
    are the other three pairs. *)
Definition cm_specifier_BU_ : parser objref :=
  _ <~ strmatch "BU_" ;;
  _ <~ eat_whitespace ;;
  name <~ identifier keywords ;;
  ret (RefBU name).

Definition cm_specifier_BO_ : parser objref :=
  _ <~ strmatch "BO_" ;;
  _ <~ eat_whitespace ;;
  message_id <~ uint ;;
  ret (RefBO message_id).

Definition cm_specifier_SG_ : parser objref :=
  _ <~ strmatch "SG_" ;;
  _ <~ eat_whitespace ;;
  message_id <~ uint ;;
  _ <~ eat_whitespace ;;
  name <~ identifier keywords ;;
  ret (RefSG message_id name).

Definition cm_specifier_EV_ : parser objref :=
  _ <~ strmatch "EV_" ;;
  _ <~ eat_whitespace ;;
  name <~ identifier keywords ;;
  ret (RefEV name).

Definition section_body_CM_ : parser Sec :=
  _ <~ eat_whitespace ;;
  spec <~ one_of [cm_specifier_SG_; cm_specifier_BU_; cm_specifier_BO_;
                  cm_specifier_EV_; ret RefGlobal] ;;
  _ <~ eat_whitespace ;;
  comment <~ string_ ;;
  _ <~ eat_whitespace ;;
  _ <~ charmatch ";" ;;
  ret (SecCM spec comment).

Definition sig_val_type_spec : parser N :=
  c <~ peek ;;
  if char_in c "0123" then
    _ <~ advance 1 ;;
    ret (digit_val c)
  else
    parse_error ("Expected one of " ++ dq ++ "0123" ++ dq ++ ", found "
                   ++ dq ++ "{}" ++ dq ++ " at") [String c EmptyString].

Definition section_body_SIG_VALTYPE_ : parser Sec :=
  _ <~ eat_whitespace ;;
  message_id <~ uint ;;
  _ <~ eat_whitespace ;;
  signal_name <~ identifier keywords ;;
  _ <~ eat_whitespace ;;
  _ <~ charmatch ":" ;;
  _ <~ eat_whitespace ;;
  tn <~ sig_val_type_spec ;;
  _ <~ eat_whitespace ;;
  _ <~ charmatch ";" ;;
  ret (SecSIG_VALTYPE message_id signal_name tn).

Definition uint_range : parser (N * N) :=
  low <~ uint ;;
  _ <~ eat_whitespace ;;
  _ <~ charmatch "-" ;;
  _ <~ eat_whitespace ;;
  high <~ uint ;;
  ret (low, high).

Definition sep_uint_range (pattern : sep_pattern) : parser (N * N) :=
  _ <~ eat_pattern pattern ;;
  uint_range.

Definition uint_ranges (pattern : sep_pattern) : parser (list (N * N)) :=
  _ <~ eat_whitespace ;;
  first <~ uint_range ;;
  more_ranges <~ any_number_of (sep_uint_range pattern) ;;
  ret (first :: more_ranges).

Definition section_body_SG_MUL_VAL_ : parser Sec :=
  _ <~ eat_whitespace ;;
  message_id <~ uint ;;
  _ <~ eat_whitespace ;;
  signal_name <~ identifier keywords ;;
  _ <~ eat_whitespace ;;
  multiplexor_name <~ identifier keywords ;;
  _ <~ eat_whitespace ;;
  ranges <~ optional (uint_ranges SpacesCommas) ;;
  _ <~ eat_whitespace ;;
  _ <~ charmatch ";" ;;
  ret (SecSG_MUL_VAL message_id signal_name multiplexor_name
                     match ranges with Some r => r | None => [] end).

Definition section_body_VAL_ : parser Sec :=
  _ <~ eat_whitespace ;;
  message_id <~ uint ;;
  _ <~ eat_whitespace ;;
  sig_name <~ identifier keywords ;;
  _ <~ eat_whitespace ;;
  vals <~ any_number_of value_entry ;;
  _ <~ eat_whitespace ;;
  _ <~ charmatch ";" ;;
  ret (SecVAL message_id sig_name vals).

Definition ba_int : parser attr_type :=
  _ <~ strmatch "INT" ;;
  _ <~ eat_whitespace ;;
  val1 <~ sint ;;
  _ <~ eat_whitespace ;;
  val2 <~ sint ;;
  ret (TyINT val1 val2).

Definition ba_hex : parser attr_type :=
  _ <~ strmatch "HEX" ;;
  _ <~ eat_whitespace ;;
  val1 <~ sint ;;
  _ <~ eat_whitespace ;;
  val2 <~ sint ;;
  ret (TyHEX val1 val2).

Definition ba_float : parser attr_type :=
  _ <~ strmatch "FLOAT" ;;
  _ <~ eat_whitespace ;;
  val1 <~ double ;;
  _ <~ eat_whitespace ;;
  val2 <~ double ;;
  ret (TyFLOAT val1 val2).

Definition ba_string : parser attr_type :=
  _ <~ strmatch "STRING" ;;
  ret TySTRING.

Definition ba_enum : parser attr_type :=
  _ <~ strmatch "ENUM" ;;
  _ <~ eat_whitespace ;;
  strs <~ string_list CommaInSpaces ;;
  ret (TyENUM strs).

Definition scope_keyword (sc : scope) : parser scope :=
  _ <~ strmatch (scope_str sc) ;;
  ret sc.

Definition section_body_BA_DEF_ : parser Sec :=
  _ <~ eat_whitespace ;;
  spec <~ one_of [scope_keyword ScBU; scope_keyword ScBO;
                  scope_keyword ScSG; scope_keyword ScEV;
                  ret ScGlobal] ;;
  _ <~ eat_whitespace ;;
  _ <~ charmatch "034" ;;
  name <~ identifier keywords ;;
  _ <~ charmatch "034" ;;
  _ <~ eat_whitespace ;;
  typ <~ one_of [ba_float; ba_int; ba_hex; ba_string; ba_enum] ;;
  _ <~ eat_whitespace ;;
  _ <~ strmatch ";" ;;
  ret (SecBA_DEF spec name typ).

Definition lit_uint : parser Literal :=
  k <~ uint ;; ret (LitInt (Z.of_N k)).
Definition lit_sint : parser Literal :=
  k <~ sint ;; ret (LitInt k).
Definition lit_double : parser Literal :=
  x <~ double ;; ret (LitFloat x).
Definition lit_string : parser Literal :=
  s <~ string_ ;; ret (LitStr s).

Definition section_body_BA_DEF_DEF_ : parser Sec :=
  _ <~ eat_whitespace ;;
  _ <~ charmatch "034" ;;
  name <~ identifier keywords ;;
  _ <~ charmatch "034" ;;
  _ <~ eat_whitespace ;;
  val <~ one_of [lit_uint; lit_sint; lit_double; lit_string] ;;
  _ <~ eat_whitespace ;;
  _ <~ charmatch ";" ;;
  ret (SecBA_DEF_DEF name val).

Definition desc_BA_BU_ : parser objref := cm_specifier_BU_.
Definition desc_BA_BO_ : parser objref := cm_specifier_BO_.
Definition desc_BA_SG_ : parser objref := cm_specifier_SG_.
Definition desc_BA_EV_ : parser objref := cm_specifier_EV_.

Definition section_body_BA_ : parser Sec :=
  _ <~ eat_whitespace ;;
  name <~ string_ ;;
  _ <~ eat_whitespace ;;
  desc <~ one_of [desc_BA_BU_; desc_BA_BO_; desc_BA_SG_; desc_BA_EV_;
                  ret RefGlobal] ;;
  _ <~ eat_whitespace ;;
  val <~ one_of [lit_double; lit_uint; lit_sint; lit_string] ;;
  _ <~ eat_whitespace ;;
  _ <~ charmatch ";" ;;
  ret (SecBA name desc val).

Definition section_body_SIG_GROUP_ : parser Sec :=
  _ <~ eat_whitespace ;;
  msg_id <~ uint ;;
  _ <~ eat_whitespace ;;
  name <~ identifier keywords ;;
  _ <~ eat_whitespace ;;
  number <~ uint ;;
  _ <~ eat_whitespace ;;
  _ <~ charmatch ":" ;;
  _ <~ eat_whitespace ;;
  sigs <~ any_number_of (identifier_ws keywords) ;;
  _ <~ eat_whitespace ;;
  _ <~ charmatch ";" ;;
  ret (SecSIG_GROUP msg_id name number sigs).

(** The first section keyword, in the order of [sections], that the
    text at the cursor starts with. *)
Fixpoint section_keyword_loop (strs : list string) : parser string :=
  match strs with
  | str :: strs' =>
      r <~ rest ;;
      let ll := String.length str in
      if String.eqb (str_slice 0 ll r) str then
        _ <~ advance ll ;;
        ret str
      else section_keyword_loop strs'
  | [] =>
      r <~ rest ;;
      parse_error ("Expected section keyword but found instead " ++ dq
                     ++ "{}" ++ dq ++ " at")
                  [escape_dq (str_slice 0 10 r)]
  end.

Definition section_keyword : parser string :=
  section_keyword_loop sections.

(** [getattr(self, "section_body_" + name, None)] *)
Definition section_body (name : string) : option (parser Sec) :=
  if String.eqb name "VERSION" then Some section_body_VERSION
  else if String.eqb name "NS_" then Some section_body_NS_
  else if String.eqb name "BS_" then Some section_body_BS_
  else if String.eqb name "BU_" then Some section_body_BU_
  else if String.eqb name "VAL_TABLE_" then Some section_body_VAL_TABLE_
  else if String.eqb name "BO_" then Some section_body_BO_
  else if String.eqb name "BO_TX_BU_" then Some section_body_BO_TX_BU_
  else if String.eqb name "CM_" then Some section_body_CM_
  else if String.eqb name "SIG_VALTYPE_"
  then Some section_body_SIG_VALTYPE_
  else if String.eqb name "SG_MUL_VAL_" then Some section_body_SG_MUL_VAL_
  else if String.eqb name "VAL_" then Some section_body_VAL_
  else if String.eqb name "BA_DEF_" then Some section_body_BA_DEF_
  else if String.eqb name "BA_DEF_DEF_" then Some section_body_BA_DEF_DEF_
  else if String.eqb name "BA_" then Some section_body_BA_
  else if String.eqb name "SIG_GROUP_" then Some section_body_SIG_GROUP_
  else None.

Definition section : parser Sec :=
  name <~ section_keyword ;;
  match section_body name with
  | None =>
      parse_error "Unimplemented section type {} encountered near" [name]
  | Some rule => rule
  end.

Fixpoint start_loop (k : nat) : parser (list Sec) :=
  fun s =>
    if Nat.ltb (n s) (String.length text) then
      match k with
      | O => Raise (ModelError "fuel")
      | S k' =>
          (res <~ section ;;
           _ <~ eat_whitespace ;;
           secs <~ start_loop k' ;;
           ret (res :: secs)) s
      end
    else Ok ([], s).

Definition start : parser (list Sec) :=
  _ <~ eat_whitespace ;;
  start_loop fuel.

(** The cursor [parse] starts from. *)
Definition initial : pos := Pos 0 1 0.

Definition parse : Res (list Sec) :=
  match (value <~ start ;; _ <~ assert_at_end ;; ret value) initial with
  | Ok (value, _) => Ok value
  | Raise e => Raise e
  end.

End Rules.
End Parser.

(** ** The objects of a database

    A [Message] holds its [Signal] objects twice, in the list [signals]
    and in the dictionary [signals_dict], and a [Switch] holds signals of
    the same message again.  All of them are the same Python objects, so a
    change made through one is seen through the others.  The embedding
    keeps the objects of a message in a store, [Message.objs], in the
    order [Message.append] received them, and [signals], [signals_dict]
    and the switches refer to an object by its index there; [==] on two
    signals, which is identity in Python, is equality of the indices. *)

(** [sorted(l, key=lambda x: x[0], reverse=True)]: stable, so entries
    with equal keys stay in their order. *)
Fixpoint insert_desc {V : Type} (x : Z * V) (l : list (Z * V))
  : list (Z * V) :=
  match l with
  | [] => [x]
  | y :: l' => if Z.leb (fst y) (fst x) then x :: y :: l'
               else y :: insert_desc x l'
  end.

Definition sort_desc {V : Type} (l : list (Z * V)) : list (Z * V) :=
  fold_right insert_desc [] l.

(** [list(dict.fromkeys(l))], and the loop that keeps the first
    occurrence of each name. *)
Fixpoint dedup_from (seen l : list string) : list string :=
  match l with
  | [] => []
  | x :: l' => if str_in x seen then dedup_from seen l'
               else x :: dedup_from (x :: seen) l'
  end.

Definition dedup (l : list string) : list string := dedup_from [] l.

(** [sep.join(l)] *)
Definition join (sep : string) (l : list string) : string :=
  String.concat sep l.

(** ** class Switch *)
Module Switch.

(** [self._e] *)
Definition t : Type := list (Range.t N * nat).

Definition init : t := [].

Definition append (range : Range.t N) (sig : nat) (self : t) : t :=
  if existsb (fun e => Range.eqb N.eqb range (fst e) && Nat.eqb sig (snd e))
             self
  then self
  else (self ++ [(range, sig)])%list.

(** [len(self)], which is also the truth value of a switch. *)
Definition len (self : t) : nat := List.length self.

(** The number of entries of [self] for the signal [sig]: [d[sig]]. *)
Definition count (sig : nat) (self : t) : nat :=
  List.length (filter (fun e => Nat.eqb sig (snd e)) self).

Definition any_multiples (self : t) : bool :=
  existsb (fun e => Nat.ltb 1 (count (snd e) self)) self.

(** [signame] reads the name of the signal a reference stands for.  The
    result is the list [sigs] and the dictionary [d]. *)
Definition range_str (r : Range.t N) : string :=
  str_N (Range.minval r) ++ "-" ++ str_N (Range.maxval r).

Definition dbc_sg_mul_val_strs (signame : nat -> Res string) (self : t)
  : Res (list nat * dict string string) :=
  ' (sigs, d) <-
    foldM (fun (acc : list nat * dict string (list (Range.t N))) e =>
             let '(sigs, d) := acc in
             let sig := snd e in
             name <- signame sig ;;
             let r := fst e in
             match dict_get String.eqb name d with
             | Some rs => Ok (sigs, dict_set String.eqb name (rs ++ [r])%list d)
             | None => Ok ((sigs ++ [sig])%list,
                           dict_set String.eqb name [r] d)
             end)
          self ([], []) ;;
  Ok (sigs, map (fun kv => (fst kv, join " " (map range_str (snd kv)))) d).

End Switch.

(** ** class Signal *)
Module Signal.

Record t `{FloatModel} : Type := Signal {
  name : string;
  multiplex_value : option N;
  is_multiplexor : bool;
  is_little_endian : option bool;
  is_signed : option bool;
  start_bit : N;
  numbits : N;
  factor : float;
  offset : float;
  range : Range.t float;
  unit : string;
  receivers : string * list string;
  switch : Switch.t;
  comments : list string;
  attributes : dict string Literal;
  value_descriptions : dict Z string;
  value_type : option N
}.

Section Methods.
Context `{FloatModel}.

(** [Signal(d)] *)
Definition init (d : signal_dict) : t :=
  {| name := sd_name d;
     multiplex_value := sd_multiplex_value d;
     is_multiplexor := sd_is_multiplexor d;
     is_little_endian := sd_little_endian d;
     is_signed := sd_signed d;
     start_bit := sd_start d;
     numbits := sd_size d;
     factor := sd_factor d;
     offset := sd_offset d;
     range := Range.Range (fst (sd_range d)) (snd (sd_range d));
     unit := sd_unit d;
     receivers := sd_receivers d;
     switch := Switch.init;
     comments := [];
     attributes := [];
     value_descriptions := [];
     value_type := None |}.

(** The assignments and in-place changes the builder makes. *)
Definition set_switch (sw : Switch.t) (s : t) : t :=
  {| name := name s; multiplex_value := multiplex_value s;
     is_multiplexor := is_multiplexor s;
     is_little_endian := is_little_endian s; is_signed := is_signed s;
     start_bit := start_bit s; numbits := numbits s;
     factor := factor s; offset := offset s; range := range s;
     unit := unit s; receivers := receivers s;
     switch := sw;
     comments := comments s; attributes := attributes s;
     value_descriptions := value_descriptions s;
     value_type := value_type s |}.

Definition set_comments (c : list string) (s : t) : t :=
  {| name := name s; multiplex_value := multiplex_value s;
     is_multiplexor := is_multiplexor s;
     is_little_endian := is_little_endian s; is_signed := is_signed s;
     start_bit := start_bit s; numbits := numbits s;
     factor := factor s; offset := offset s; range := range s;
     unit := unit s; receivers := receivers s;
     switch := switch s;
     comments := c; attributes := attributes s;
     value_descriptions := value_descriptions s;
     value_type := value_type s |}.

Definition set_value_descriptions (v : dict Z string) (s : t) : t :=
  {| name := name s; multiplex_value := multiplex_value s;
     is_multiplexor := is_multiplexor s;
     is_little_endian := is_little_endian s; is_signed := is_signed s;
     start_bit := start_bit s; numbits := numbits s;
     factor := factor s; offset := offset s; range := range s;
     unit := unit s; receivers := receivers s;
     switch := switch s;
     comments := comments s; attributes := attributes s;
     value_descriptions := v;
     value_type := value_type s |}.

Definition set_value_type (v : option N) (s : t) : t :=
  {| name := name s; multiplex_value := multiplex_value s;
     is_multiplexor := is_multiplexor s;
     is_little_endian := is_little_endian s; is_signed := is_signed s;
     start_bit := start_bit s; numbits := numbits s;
     factor := factor s; offset := offset s; range := range s;
     unit := unit s; receivers := receivers s;
     switch := switch s;
     comments := comments s; attributes := attributes s;
     value_descriptions := value_descriptions s;
     value_type := v |}.

(** [val >= 0] holds of every unsigned [val]. *)
Definition multiplexes (self : t) (val : N) : bool :=
  is_multiplexor self && N.ltb val (2 ^ numbits self).

(** [if x:] for [x] a boolean or [None]. *)
Definition truthy (x : option bool) : bool :=
  match x with Some b => b | None => false end.

Definition dbc (self : t) : string :=
  let string := "SG_ " ++ name self ++ " " in
  let string := match multiplex_value self with
                | Some v => string ++ "m" ++ str_N v
                | None => string
                end in
  let string := if is_multiplexor self then string ++ "M" else string in
  let one_more := match multiplex_value self with
                  | Some _ => true
                  | None => is_multiplexor self
                  end in
  let string := if one_more then string ++ " " else string in
  let string := string ++ ":" in
  let string := string ++ " " ++ str_N (start_bit self) ++ "|"
                       ++ str_N (numbits self) ++ "@" in
  let string := if truthy (is_little_endian self)
                then string ++ "1" else string ++ "0" in
  let string := if truthy (is_signed self)
                then string ++ "-" else string ++ "+" in
  let string := string ++ " (" ++ float_str (factor self) ++ ","
                       ++ float_str (offset self) ++ ")" in
  let string := string ++ " [" ++ float_str (Range.minval (range self))
                       ++ "|" ++ float_str (Range.maxval (range self))
                       ++ "]" in
  let string := string ++ " " ++ dq ++ unit self ++ dq ++ "  "
                       ++ fst (receivers self) in
  let string := fold_left (fun acc r => acc ++ ", " ++ r)
                          (snd (receivers self)) string in
  string ++ String nl EmptyString.

(** [objs] is the store of the message the signal belongs to; the
    recursion follows the switches and is bounded by [depth], Python's
    recursion limit. *)
Fixpoint dbc_sg_mul_val (depth : nat) (objs : list t) (self : t)
  : Res (list string) :=
  match depth with
  | O => Raise RecursionError
  | S depth' =>
      if negb (is_multiplexor self) then Ok []
      else
        let obj i := match nth_error objs i with
                     | Some s => Ok s
                     | None => Raise (ModelError "reference")
                     end in
        ' (sigs, d) <-
          Switch.dbc_sg_mul_val_strs
            (fun i => s <- obj i ;; Ok (name s)) (switch self) ;;
        foldM (fun strings i =>
                 sig <- obj i ;;
                 ranges <- match dict_get String.eqb (name sig) d with
                           | Some r => Ok r
                           | None => Raise (ModelError "reference")
                           end ;;
                 below <- dbc_sg_mul_val depth' objs sig ;;
                 let str := name sig ++ " " ++ name self ++ " " ++ ranges in
                 Ok (strings ++ str :: below)%list)
              sigs []
  end.

(** [diff] answers [''] when the two lines are the same, and the two
    lines otherwise. *)
Definition diff (self other : t) : string :=
  let self_dbc := dbc self in
  let other_dbc := dbc other in
  if negb (String.eqb self_dbc other_dbc)
  then " < " ++ dbc self ++ " > " ++ dbc other
  else EmptyString.

End Methods.
End Signal.

(** ** class SignalGroup *)
Module SignalGroup.

(** A list of signal names with the repetitions [n]. *)
Record t : Type := SignalGroup { n : N; names : list string }.

Definition dbc (self : t) : string :=
  let string := str_N (n self) ++ " :" in
  let string := fold_left (fun acc signame => acc ++ " " ++ signame)
                          (names self) string in
  string ++ ";".

(** [set(self) != set(other)] *)
Definition set_neq (a b : list string) : bool :=
  nonempty (set_diff String.eqb a b) || nonempty (set_diff String.eqb b a).

Definition diff (self other : t) : string :=
  if set_neq (names self) (names other)
  then "< " ++ dbc self ++ String nl EmptyString ++ "> " ++ dbc other
  else EmptyString.

End SignalGroup.

(** ** class Message *)
Module Message.

Record t `{FloatModel} : Type := Message {
  id : N;
  name : string;
  size : N;
  transmitters : list string;
  objs : list Signal.t;             (* the Signal objects, by creation *)
  signals : list nat;
  signals_dict : dict string nat;
  comments : list string;
  attributes : dict string Literal;
  signal_groups : dict string SignalGroup.t
}.

(** What [Message.diff] found: the check that failed first.  The text
    the method answers is [''] for no difference and a description that
    is never empty otherwise; Python's rendering of the sets, lists and
    dictionaries in it is not part of the embedding. *)
Inductive difference : Type :=
| DiffId
| DiffName
| DiffSize
| DiffTransmitters
| DiffSignals
| DiffSignal (signame : string) (lines : string)
| DiffComments
| DiffAttributes
| DiffSignalGroups
| DiffSignalGroup (groupname : string) (lines : string).

Section Methods.
Context `{FloatModel}.

Definition init (id : N) (name : string) (size : N)
           (transmitter : string) : t :=
  {| id := id; name := name; size := size;
     transmitters := [transmitter];
     objs := []; signals := []; signals_dict := [];
     comments := []; attributes := []; signal_groups := [] |}.

(** The assignments and in-place changes the builder makes. *)
Definition set_transmitters (x : list string) (m : t) : t :=
  {| id := id m; name := name m; size := size m;
     transmitters := x;
     objs := objs m; signals := signals m;
     signals_dict := signals_dict m;
     comments := comments m; attributes := attributes m;
     signal_groups := signal_groups m |}.

Definition set_objs (x : list Signal.t) (m : t) : t :=
  {| id := id m; name := name m; size := size m;
     transmitters := transmitters m;
     objs := x; signals := signals m;
     signals_dict := signals_dict m;
     comments := comments m; attributes := attributes m;
     signal_groups := signal_groups m |}.

Definition set_signals (x : list nat) (m : t) : t :=
  {| id := id m; name := name m; size := size m;
     transmitters := transmitters m;
     objs := objs m; signals := x;
     signals_dict := signals_dict m;
     comments := comments m; attributes := attributes m;
     signal_groups := signal_groups m |}.

Definition set_comments (x : list string) (m : t) : t :=
  {| id := id m; name := name m; size := size m;
     transmitters := transmitters m;
     objs := objs m; signals := signals m;
     signals_dict := signals_dict m;
     comments := x; attributes := attributes m;
     signal_groups := signal_groups m |}.

Definition set_attributes (x : dict string Literal) (m : t) : t :=
  {| id := id m; name := name m; size := size m;
     transmitters := transmitters m;
     objs := objs m; signals := signals m;
     signals_dict := signals_dict m;
     comments := comments m; attributes := x;
     signal_groups := signal_groups m |}.

Definition set_signal_groups (x : dict string SignalGroup.t) (m : t)
  : t :=
  {| id := id m; name := name m; size := size m;
     transmitters := transmitters m;
     objs := objs m; signals := signals m;
     signals_dict := signals_dict m;
     comments := comments m; attributes := attributes m;
     signal_groups := x |}.

(** [self.signals.append(sg); self.signals_dict[sg.name] = sg], with
    the new object placed at the end of the store. *)
Definition append (sg : Signal.t) (self : t) : t :=
  let ref := List.length (objs self) in
  {| id := id self; name := name self; size := size self;
     transmitters := transmitters self;
     objs := (objs self ++ [sg])%list;
     signals := (signals self ++ [ref])%list;
     signals_dict := dict_set String.eqb (Signal.name sg) ref
                              (signals_dict self);
     comments := comments self; attributes := attributes self;
     signal_groups := signal_groups self |}.

(** The object a reference stands for. *)
Definition obj (self : t) (ref : nat) : Res Signal.t :=
  match nth_error (objs self) ref with
  | Some s => Ok s
  | None => Raise (ModelError "reference")
  end.

(** A change made to the object [ref] stands for. *)
Fixpoint update_nth (ref : nat) (f : Signal.t -> Signal.t)
         (l : list Signal.t) : list Signal.t :=
  match l, ref with
  | [], _ => []
  | s :: l', O => f s :: l'
  | s :: l', S ref' => s :: update_nth ref' f l'
  end.

Definition update_obj (ref : nat) (f : Signal.t -> Signal.t) (self : t)
  : t :=
  set_objs (update_nth ref f (objs self)) self.

(** [self.signals_dict[signame]], for a name known to be a key. *)
Definition signal_named (self : t) (signame : string) : Res Signal.t :=
  match dict_get String.eqb signame (signals_dict self) with
  | Some ref => obj self ref
  | None => Raise (ModelError "key")
  end.

(** The objects of [self.signals_dict], in the order of the keys. *)
Definition dict_signals (self : t) : Res (list (string * Signal.t)) :=
  foldM (fun acc kv =>
           s <- obj self (snd kv) ;;
           Ok (acc ++ [(fst kv, s)])%list)
        (signals_dict self) [].

Definition dbc (self : t) : Res string :=
  tx <- match transmitters self with
        | tx :: _ => Ok tx
        | [] => Raise IndexError
        end ;;
  let string := "BO_ " ++ str_N (id self) ++ " " ++ name self ++ ": "
                       ++ str_N (size self) ++ " " ++ tx
                       ++ String nl EmptyString in
  sigs <- dict_signals self ;;
  Ok (fold_left (fun acc kv => acc ++ " " ++ Signal.dbc (snd kv))
                sigs string).

Definition dbc_sg_mul_val (self : t) : Res string :=
  sd <- dict_signals self ;;
  let multiple_muxes :=
    Nat.ltb 1 (List.length
                 (filter (fun kv => Signal.is_multiplexor (snd kv)) sd)) in
  let multiple_switches :=
    existsb (fun kv => Switch.any_multiples (Signal.switch (snd kv))) sd in
  if multiple_muxes || multiple_switches then
    foldM (fun sigstr ref =>
             s <- obj self ref ;;
             sstrs <- Signal.dbc_sg_mul_val
                        (S (List.length (objs self))) (objs self) s ;;
             Ok (fold_left
                   (fun acc sstr =>
                      acc ++ "SG_MUL_VAL_ " ++ str_N (id self) ++ " "
                          ++ sstr ++ ";" ++ String nl EmptyString)
                   sstrs sigstr))
          (signals self) EmptyString
  else Ok EmptyString.

(** [unique_own or unique_other], for the two sets of strings. *)
Definition sets_differ (own other : list string) : bool :=
  nonempty (set_diff String.eqb own other)
  || nonempty (set_diff String.eqb other own).

(** [a != b] on attribute values: numbers compare by value, whether
    [int] or [float]; a string is equal to a string only. *)
Definition lit_eqb (a b : Literal) : bool :=
  match a, b with
  | LitInt x, LitInt y => Z.eqb x y
  | LitFloat x, LitFloat y => float_eqb x y
  | LitInt x, LitFloat y => float_eq_int y x
  | LitFloat x, LitInt y => float_eq_int x y
  | LitStr x, LitStr y => String.eqb x y
  | _, _ => false
  end.

(** [a == b] on lists of strings. *)
Definition strs_eqb (a b : list string) : bool :=
  if list_eq_dec string_dec a b then true else false.

(** [for signame in self.signals_dict:], up to the first signal
    whose line differs from the line of the signal of that name in
    [other]. *)
Fixpoint diff_signals (self other : t) (signames : list string)
  : Res (option difference) :=
  match signames with
  | [] => Ok None
  | signame :: signames' =>
      sig_self <- signal_named self signame ;;
      sig_other <- signal_named other signame ;;
      let string := Signal.diff sig_self sig_other in
      if negb (String.eqb string EmptyString)
      then Ok (Some (DiffSignal signame string))
      else diff_signals self other signames'
  end.

(** [self.signal_groups[groupname]], for a name known to be a key. *)
Definition group_named (self : t) (groupname : string)
  : Res SignalGroup.t :=
  match dict_get String.eqb groupname (signal_groups self) with
  | Some g => Ok g
  | None => Raise (ModelError "key")
  end.

Fixpoint diff_groups (self other : t) (groupnames : list string)
  : Res (option difference) :=
  match groupnames with
  | [] => Ok None
  | groupname :: groupnames' =>
      group_self <- group_named self groupname ;;
      group_other <- group_named other groupname ;;
      let string := SignalGroup.diff group_self group_other in
      if negb (String.eqb string EmptyString)
      then Ok (Some (DiffSignalGroup groupname string))
      else diff_groups self other groupnames'
  end.

Definition diff (self other : t) : Res (option difference) :=
  if negb (N.eqb (id self) (id other)) then Ok (Some DiffId)
  else if negb (String.eqb (name self) (name other))
  then Ok (Some DiffName)
  else if negb (N.eqb (size self) (size other)) then Ok (Some DiffSize)
  else if sets_differ (transmitters self) (transmitters other)
  then Ok (Some DiffTransmitters)
  else if sets_differ (dict_keys (signals_dict self))
                      (dict_keys (signals_dict other))
  then Ok (Some DiffSignals)
  else
    d <- diff_signals self other (dict_keys (signals_dict self)) ;;
    match d with
    | Some x => Ok (Some x)
    | None =>
        if negb (strs_eqb (comments self) (comments other))
        then Ok (Some DiffComments)
        else if negb (dict_eqb String.eqb lit_eqb (attributes self)
                               (attributes other))
        then Ok (Some DiffAttributes)
        else if sets_differ (dict_keys (signal_groups self))
                            (dict_keys (signal_groups other))
        then Ok (Some DiffSignalGroups)
        else diff_groups self other (dict_keys (signal_groups self))
    end.

End Methods.
End Message.

(** ** class Bus *)
Module Bus.

(** The value [self.nodes] keeps for a node:
    [{'comments': [...], 'attributes': {...}}]. *)
Record node `{FloatModel} : Type := Node {
  node_comments : list string;
  node_attributes : dict string Literal
}.

Record t `{FloatModel} : Type := Bus {
  version : string;
  baudrate : option N;
  btr : option (N * N);
  nodes : dict string node;
  newsymbols : list string;
  global_values : dict string (dict Z string);
  messages : dict N Message.t;
  comments : list string;
  attrib_typedefs : dict scope (dict string attr_type);
  attrib_defaults : dict string Literal;
  attributes : dict string Literal
}.

(** What [Bus.diff] found; see [Message.difference]. *)
Inductive difference : Type :=
| DiffVersion (own other : string)
| DiffBaudrate (own other : option N)
| DiffBtr1
| DiffBtr2
| DiffNodes
| DiffNodeValues
| DiffNewSymbols
| DiffGlobalValues
| DiffMessageIds
| DiffMessage (msgid : N) (d : Message.difference)
| DiffComments
| DiffAttribTypedefs
| DiffAttribDefaults
| DiffAttributes.

Section Methods.
Context `{FloatModel}.

Definition quoted (s : string) : string := dq ++ s ++ dq.

(** The assignments the builder makes to [self]. *)
Definition set_nodes (x : dict string node) (b : t) : t :=
  {| version := version b; baudrate := baudrate b; btr := btr b;
     nodes := x; newsymbols := newsymbols b;
     global_values := global_values b; messages := messages b;
     comments := comments b; attrib_typedefs := attrib_typedefs b;
     attrib_defaults := attrib_defaults b;
     attributes := attributes b |}.

Definition set_global_values (x : dict string (dict Z string)) (b : t)
  : t :=
  {| version := version b; baudrate := baudrate b; btr := btr b;
     nodes := nodes b; newsymbols := newsymbols b;
     global_values := x; messages := messages b;
     comments := comments b; attrib_typedefs := attrib_typedefs b;
     attrib_defaults := attrib_defaults b;
     attributes := attributes b |}.

Definition set_messages (x : dict N Message.t) (b : t) : t :=
  {| version := version b; baudrate := baudrate b; btr := btr b;
     nodes := nodes b; newsymbols := newsymbols b;
     global_values := global_values b; messages := x;
     comments := comments b; attrib_typedefs := attrib_typedefs b;
     attrib_defaults := attrib_defaults b;
     attributes := attributes b |}.

Definition set_comments (x : list string) (b : t) : t :=
  {| version := version b; baudrate := baudrate b; btr := btr b;
     nodes := nodes b; newsymbols := newsymbols b;
     global_values := global_values b; messages := messages b;
     comments := x; attrib_typedefs := attrib_typedefs b;
     attrib_defaults := attrib_defaults b;
     attributes := attributes b |}.

Definition set_attrib_typedefs (x : dict scope (dict string attr_type))
           (b : t) : t :=
  {| version := version b; baudrate := baudrate b; btr := btr b;
     nodes := nodes b; newsymbols := newsymbols b;
     global_values := global_values b; messages := messages b;
     comments := comments b; attrib_typedefs := x;
     attrib_defaults := attrib_defaults b;
     attributes := attributes b |}.

Definition set_attrib_defaults (x : dict string Literal) (b : t) : t :=
  {| version := version b; baudrate := baudrate b; btr := btr b;
     nodes := nodes b; newsymbols := newsymbols b;
     global_values := global_values b; messages := messages b;
     comments := comments b; attrib_typedefs := attrib_typedefs b;
     attrib_defaults := x;
     attributes := attributes b |}.

Definition set_attributes (x : dict string Literal) (b : t) : t :=
  {| version := version b; baudrate := baudrate b; btr := btr b;
     nodes := nodes b; newsymbols := newsymbols b;
     global_values := global_values b; messages := messages b;
     comments := comments b; attrib_typedefs := attrib_typedefs b;
     attrib_defaults := attrib_defaults b;
     attributes := x |}.

(** [_xtract_sec]: the sections of one kind, in their order, and the
    list without them.  [sel] picks the sections whose first component
    is the wanted name and answers what follows it. *)
Definition xtract_sec {A : Type} (sel : Sec -> option A)
           (seclist : list Sec) : list A * list Sec :=
  (flat_map (fun s => match sel s with Some a => [a] | None => [] end)
            seclist,
   filter (fun s => match sel s with Some _ => false | None => true end)
          seclist).

Definition VERSION (s : Sec) :=
  match s with SecVERSION v => Some v | _ => None end.
Definition BS_ (s : Sec) :=
  match s with SecBS t => Some t | _ => None end.
Definition BU_ (s : Sec) :=
  match s with SecBU nl => Some nl | _ => None end.
Definition NS_ (s : Sec) :=
  match s with SecNS l => Some l | _ => None end.
Definition VAL_TABLE_ (s : Sec) :=
  match s with SecVAL_TABLE name tab => Some (name, tab) | _ => None end.
Definition BO_ (s : Sec) :=
  match s with SecBO d => Some d | _ => None end.
Definition BO_TX_BU_ (s : Sec) :=
  match s with SecBO_TX_BU id txs => Some (id, txs) | _ => None end.
Definition CM_ (s : Sec) :=
  match s with SecCM spec c => Some (spec, c) | _ => None end.
Definition BA_DEF_ (s : Sec) :=
  match s with
  | SecBA_DEF ct name typ => Some (ct, name, typ)
  | _ => None
  end.
Definition BA_DEF_DEF_ (s : Sec) :=
  match s with SecBA_DEF_DEF name val => Some (name, val) | _ => None end.
Definition BA_ (s : Sec) :=
  match s with SecBA name d val => Some (name, d, val) | _ => None end.
Definition VAL_ (s : Sec) :=
  match s with
  | SecVAL id signame vals => Some (id, signame, vals)
  | _ => None
  end.
Definition SIG_GROUP_ (s : Sec) :=
  match s with
  | SecSIG_GROUP id name number sigs => Some (id, name, number, sigs)
  | _ => None
  end.
Definition SIG_VALTYPE_ (s : Sec) :=
  match s with
  | SecSIG_VALTYPE id signame tn => Some (id, signame, tn)
  | _ => None
  end.
Definition SG_MUL_VAL_ (s : Sec) :=
  match s with
  | SecSG_MUL_VAL id signame muxname ranges =>
      Some (id, signame, muxname, ranges)
  | _ => None
  end.

(** The one section of a kind that must be there once. *)
Definition exactly_one {A : Type} (sec : string) (sl : list A) : Res A :=
  match sl with
  | [] => Raise (DatabaseError ("missing section: " ++ quoted sec))
  | [x] => Ok x
  | _ => Raise (DatabaseError ("more than one section of type "
                                 ++ quoted sec))
  end.

(** [msg = self.messages[id]] and the changes made to [msg], which
    are changes of the object the dictionary holds. *)
Definition on_message (self : t) (id : N) (missing : exn)
           (f : Message.t -> Res Message.t) : Res t :=
  match dict_get N.eqb id (messages self) with
  | Some msg =>
      msg' <- f msg ;;
      Ok (set_messages (dict_set N.eqb id msg' (messages self)) self)
  | None => Raise missing
  end.

(** A change made to [msg.signals_dict[signame]]. *)
Definition on_signal (msg : Message.t) (signame : string)
           (missing : exn) (f : Signal.t -> Signal.t) : Res Message.t :=
  match dict_get String.eqb signame (Message.signals_dict msg) with
  | Some ref => Ok (Message.update_obj ref f msg)
  | None => Raise missing
  end.

(** [for id in self.messages: ...], with the changes [f] makes to
    each message. *)
Fixpoint each_message (f : Message.t -> Res Message.t)
         (ms : dict N Message.t) : Res (dict N Message.t) :=
  match ms with
  | [] => Ok []
  | (id, msg) :: ms' =>
      msg' <- f msg ;;
      rest <- each_message f ms' ;;
      Ok ((id, msg') :: rest)
  end.

(** [l.remove(x)] *)
Fixpoint list_remove (x : nat) (l : list nat) : Res (list nat) :=
  match l with
  | [] => Raise ValueError
  | y :: l' =>
      if Nat.eqb y x then Ok l'
      else l'' <- list_remove x l' ;; Ok (y :: l'')
  end.

(** *** VAL_TABLE_ *)
Definition table_values (table : list (Z * string)) : dict Z string :=
  fold_left (fun vals t => dict_set Z.eqb (fst t) (snd t) vals)
            (sort_desc table) [].

Definition add_table (self : t) (tab : string * list (Z * string))
  : Res t :=
  let tabname := fst tab in
  if dict_mem String.eqb tabname (global_values self) then
    Raise (DatabaseError ("multiply defined table " ++ quoted tabname))
  else
    Ok (set_global_values
          (dict_set String.eqb tabname (table_values (snd tab))
                    (global_values self)) self).

(** *** BO_ *)
Definition new_message (msg_d : message_dict) : Message.t :=
  fold_left (fun msg sig_d => Message.append (Signal.init sig_d) msg)
            (md_signals msg_d)
            (Message.init (md_id msg_d) (md_name msg_d) (md_size msg_d)
                          (md_transmitter msg_d)).

Definition add_message (self : t) (msg_d : message_dict) : Res t :=
  if dict_mem N.eqb (md_id msg_d) (messages self) then
    Raise (DatabaseError ("multiple definitions of message "
                            ++ str_N (md_id msg_d) ++ " "
                            ++ md_name msg_d ++ " "))
  else
    Ok (set_messages
          (dict_set N.eqb (md_id msg_d) (new_message msg_d)
                    (messages self)) self).

(** *** BO_TX_BU_ *)
Definition add_transmitter (nodes : dict string node)
           (msg : Message.t) (tx : string) : Res Message.t :=
  if negb (dict_mem String.eqb tx nodes) then
    Raise (DatabaseError ("transmitter " ++ quoted tx
                            ++ " not among defined nodes"))
  else if negb (str_in tx (Message.transmitters msg)) then
    Ok (Message.set_transmitters
          (Message.transmitters msg ++ [tx])%list msg)
  else Ok msg.

Definition add_transmitters (self : t) (bo : N * list string) : Res t :=
  let id := fst bo in
  on_message self id
    (DatabaseError ("undefined message id " ++ quoted (str_N id)
                      ++ " in BO_TX_BU-statement"))
    (fun msg => foldM (add_transmitter (nodes self)) (snd bo) msg).

(** *** CM_

    [DatabaseError] takes one argument; the statement that reports a
    comment for an undefined node gives it two, which is a
    [TypeError]. *)
Definition add_comment (self : t) (c : objref * string) : Res t :=
  let text := snd c in
  match fst c with
  | RefGlobal => Ok (set_comments (comments self ++ [text])%list self)
  | RefBU name =>
      match dict_get String.eqb name (nodes self) with
      | Some nd =>
          Ok (set_nodes
                (dict_set String.eqb name
                   {| node_comments := (node_comments nd ++ [text])%list;
                      node_attributes := node_attributes nd |}
                   (nodes self)) self)
      | None => Raise TypeError
      end
  | RefBO msg_id =>
      on_message self msg_id
        (DatabaseError ("comment for undefined message "
                          ++ quoted (str_N msg_id)))
        (fun msg => Ok (Message.set_comments
                          (Message.comments msg ++ [text])%list msg))
  | RefSG msg_id name =>
      on_message self msg_id
        (DatabaseError ("comment for signal " ++ quoted name
                          ++ " in undefined message "
                          ++ quoted (str_N msg_id)))
        (fun msg =>
           on_signal msg name
             (DatabaseError ("comment for undefined signal "
                               ++ quoted name ++ " in message "
                               ++ quoted (str_N msg_id)))
             (fun s => Signal.set_comments
                         (Signal.comments s ++ [text])%list s))
  | RefEV _ => Raise (DatabaseError "CM_ EV_ not implented")
  end.

(** *** BA_DEF_ *)
Definition initial_typedefs : dict scope (dict string attr_type) :=
  [(ScGlobal, []); (ScBU, []); (ScBO, []); (ScSG, []); (ScEV, [])].

Definition add_typedef (self : t) (c0 : scope * string * attr_type)
  : Res t :=
  let '(ct, name, typ) := c0 in
  match dict_get scope_eqb ct (attrib_typedefs self) with
  | None =>
      Raise (DatabaseError ("unknown object type "
                              ++ quoted (scope_str ct) ++ " in BA_DEF_"))
  | Some defs =>
      if dict_mem String.eqb name defs then
        Raise (DatabaseError ("attribute " ++ quoted name
                                ++ " already defined for "
                                ++ quoted (scope_str ct)))
      else
        Ok (set_attrib_typedefs
              (dict_set scope_eqb ct (dict_set String.eqb name typ defs)
                        (attrib_typedefs self)) self)
  end.

(** *** BA_DEF_DEF_

    The report of a second default has the same two arguments. *)
Definition add_default (self : t) (c : string * Literal) : Res t :=
  let '(name, val) := c in
  if dict_mem String.eqb name (attrib_defaults self) then Raise TypeError
  else Ok (set_attrib_defaults
             (dict_set String.eqb name val (attrib_defaults self)) self).

(** *** BA_

    In the [SG_] branch the error messages name [sig], a variable
    that has no value yet, and the branch ends after its last check:
    it assigns nothing. *)
Definition add_attribute (self : t) (c : string * objref * Literal)
  : Res t :=
  let '(name, d, val) := c in
  match d with
  | RefGlobal =>
      if dict_mem String.eqb name (attributes self) then
        Raise (DatabaseError ("general attribute " ++ quoted name
                                ++ " multiply defined "))
      else Ok (set_attributes
                 (dict_set String.eqb name val (attributes self)) self)
  | RefBU node =>
      match dict_get String.eqb node (nodes self) with
      | None =>
          Raise (DatabaseError ("unknown node " ++ quoted node
                                  ++ " in attribute value statement"))
      | Some nd =>
          let nda := node_attributes nd in
          if dict_mem String.eqb name nda then
            Raise (DatabaseError ("attribute " ++ quoted name
                                    ++ " multiply defined for node "
                                    ++ quoted node))
          else
            Ok (set_nodes
                  (dict_set String.eqb node
                     {| node_comments := node_comments nd;
                        node_attributes :=
                          dict_set String.eqb name val nda |}
                     (nodes self)) self)
      end
  | RefBO id =>
      on_message self id
        (DatabaseError ("unknown message id " ++ quoted (str_N id)
                          ++ " in attribute value statement"))
        (fun msg =>
           if dict_mem String.eqb name (Message.attributes msg) then
             Raise (DatabaseError ("attribute " ++ quoted name
                                     ++ " multiply defined for message "
                                     ++ quoted (str_N id)))
           else
             Ok (Message.set_attributes
                   (dict_set String.eqb name val (Message.attributes msg))
                   msg))
  | RefSG id signame =>
      match dict_get N.eqb id (messages self) with
      | None => Raise (NameError "sig")
      | Some msg =>
          match dict_get String.eqb signame (Message.signals_dict msg) with
          | None => Raise (NameError "sig")
          | Some ref =>
              s <- Message.obj msg ref ;;
              let attr := Signal.attributes s in
              if dict_mem String.eqb name attr
              then Raise (NameError "sig")
              else Ok self
          end
      end
  | RefEV _ => Raise (DatabaseError "attributes for EV_ not implemented")
  end.

(** *** VAL_ *)
Definition add_value_descriptions (self : t)
           (c : N * string * list (Z * string)) : Res t :=
  let '(id, signame, vals) := c in
  on_message self id
    (DatabaseError ("unknown message id " ++ quoted (str_N id)
                      ++ " in signal value description for signal "
                      ++ quoted signame))
    (fun msg =>
       on_signal msg signame
         (DatabaseError ("unknown message - signal designation "
                           ++ quoted (str_N id) ++ " - " ++ quoted signame
                           ++ " in signal value description"))
         (fun s =>
            Signal.set_value_descriptions
              (fold_left (fun d t => dict_set Z.eqb (fst t) (snd t) d)
                         vals (Signal.value_descriptions s)) s)).

(** *** SIG_GROUP_

    The two reports of this section name [goup_name] and [groupname],
    which are no variables of the program. *)
Definition add_signal_group (self : t)
           (c : N * string * N * list string) : Res t :=
  let '(id, group_name, number, sigs) := c in
  on_message self id
    (DatabaseError ("unknown message id " ++ quoted (str_N id)
                      ++ " in definition of signal group "
                      ++ quoted group_name))
    (fun msg =>
       if dict_mem String.eqb group_name (Message.signal_groups msg) then
         Raise (NameError "goup_name")
       else
         let signals := dedup sigs in
         let undef :=
           set_diff String.eqb signals
                    (dict_keys (Message.signals_dict msg)) in
         if nonempty undef then Raise (NameError "groupname")
         else
           Ok (Message.set_signal_groups
                 (dict_set String.eqb group_name
                           (SignalGroup.SignalGroup number signals)
                           (Message.signal_groups msg)) msg)).

(** *** SIG_VALTYPE_ *)
Definition set_signal_value_type (self : t) (c : N * string * N)
  : Res t :=
  let '(id, signame, tn) := c in
  on_message self id
    (DatabaseError ("unknown message id " ++ quoted (str_N id)
                      ++ " in signal value-type statement for signal "
                      ++ quoted signame))
    (fun msg =>
       on_signal msg signame
         (DatabaseError ("unknown message - signal desgination "
                           ++ quoted (str_N id) ++ " - " ++ quoted signame
                           ++ " in signal value-type statement"))
         (Signal.set_value_type (Some tn))).

(** *** Messages with one multiplexor *)

(** The first loop: [mux], [multiplexed] and [num_muxes]. *)
Definition scan (msg : Message.t) : Res (option nat * list nat * nat) :=
  foldM (fun (acc : option nat * list nat * nat) sig =>
           let '(mux, multiplexed, num_muxes) := acc in
           s <- Message.obj msg sig ;;
           let mux' := if Signal.is_multiplexor s then Some sig
                       else mux in
           let num_muxes' := if Signal.is_multiplexor s then S num_muxes
                             else num_muxes in
           let multiplexed' :=
             match Signal.multiplex_value s with
             | Some _ => (multiplexed ++ [sig])%list
             | None => multiplexed
             end in
           Ok (mux', multiplexed', num_muxes'))
        (Message.signals msg) (None, [], 0).

(** One round of the second loop. *)
Definition attach (mux : nat) (msg : Message.t) (sig : nat)
  : Res Message.t :=
  s <- Message.obj msg sig ;;
  m <- Message.obj msg mux ;;
  match Signal.multiplex_value s with
  | None => Raise TypeError
  | Some v =>
      if Signal.multiplexes m v then
        let r := Range.Range v v in
        let msg := Message.update_obj mux
                     (fun m => Signal.set_switch
                                 (Switch.append r sig (Signal.switch m)) m)
                     msg in
        signals <- list_remove sig (Message.signals msg) ;;
        Ok (Message.set_signals signals msg)
      else
        Raise (DatabaseError
                 ("multiplex value for signal " ++ quoted (Signal.name s)
                    ++ " in message " ++ quoted (str_N (Message.id msg))
                    ++ " is not in range of multiplexor "
                    ++ quoted (Signal.name m)))
  end.

Definition organize (msg : Message.t) : Res Message.t :=
  ' (mux, multiplexed, num_muxes) <- scan msg ;;
  if Nat.eqb num_muxes 1 then
    match mux with
    | Some mux => foldM (attach mux) multiplexed msg
    | None => Raise (ModelError "mux")
    end
  else Ok msg.

(** *** SG_MUL_VAL_ *)
Definition multiplex_by (signame muxname : string)
           (ranges : list (N * N)) (msg : Message.t) : Res Message.t :=
  let id := Message.id msg in
  match dict_get String.eqb signame (Message.signals_dict msg) with
  | None =>
      Raise (DatabaseError
               ("unknown signal name " ++ quoted signame
                  ++ " in extended multiplexing statement for message id "
                  ++ quoted (str_N id)))
  | Some sig =>
      match dict_get String.eqb muxname (Message.signals_dict msg) with
      | None =>
          Raise (DatabaseError
                   ("unknown multiplexor name " ++ quoted muxname
                      ++ " in extended multiplexing statement for "
                      ++ "message id " ++ quoted (str_N id)))
      | Some mux =>
          m <- Message.obj msg mux ;;
          if negb (Signal.is_multiplexor m) then
            Raise (DatabaseError
                     ("named multiplexor " ++ quoted muxname
                        ++ " in extended multiplexing statement for "
                        ++ "message id " ++ quoted (str_N id)
                        ++ " is not a multiplexor"))
          else if existsb (Nat.eqb sig) (Message.signals msg) then
            signals <- list_remove sig (Message.signals msg) ;;
            let msg := Message.set_signals signals msg in
            Ok (Message.update_obj mux
                  (fun m =>
                     Signal.set_switch
                       (fold_left
                          (fun sw r0 =>
                             Switch.append
                               (Range.Range (fst r0) (snd r0)) sig sw)
                          ranges (Signal.switch m)) m)
                  msg)
          else
            Raise (DatabaseError
                     ("signal " ++ quoted signame ++ " in message "
                        ++ quoted (str_N id)
                        ++ " multiplexed be more than one multiplexor"))
      end
  end.

(** The key [id] of [self.messages] holds the message of that id. *)
Definition add_mul_val (self : t)
           (c : N * string * string * list (N * N)) : Res t :=
  let '(id, signame, muxname, ranges) := c in
  on_message self id
    (DatabaseError ("unknown message id " ++ quoted (str_N id)
                      ++ " in extended multiplexing statement for signal "
                      ++ quoted signame ++ " and mux " ++ quoted muxname
                      ++ " "))
    (multiplex_by signame muxname ranges).

(** *** Signals left without a multiplexor *)
Definition nonmuxed_of (msg : Message.t) : Res (list (N * string)) :=
  foldM (fun acc sig =>
           s <- Message.obj msg sig ;;
           match Signal.multiplex_value s with
           | Some _ => Ok (acc ++ [(Message.id msg, Signal.name s)])%list
           | None => Ok acc
           end)
        (Message.signals msg) [].

Definition check_nonmuxed (self : t) : Res unit :=
  nonmuxed <- foldM (fun acc kv =>
                       l <- nonmuxed_of (snd kv) ;; Ok (acc ++ l)%list)
                    (messages self) [] ;;
  if nonempty nonmuxed then
    Raise (DatabaseError
             (fold_left
                (fun s t => s ++ String nl "    " ++ quoted (str_N (fst t))
                              ++ ": " ++ quoted (snd t))
                nonmuxed
                "there were signals with unspecified multiplexor: "))
  else Ok tt.

(** *** __init__

    [usermode] and [debugmode] have their default values: nothing is
    printed. The warnings, which change no result, are left out. *)

(** One optional section kind: its sections are taken from the list
    and handled in their order. *)
Definition run {A : Type} (sel : Sec -> option A)
           (handle : t -> A -> Res t) (st : t * list Sec)
  : Res (t * list Sec) :=
  let '(sl, seclist) := xtract_sec sel (snd st) in
  self <- foldM handle sl (fst st) ;;
  Ok (self, seclist).

(** The mandatory sections, [NS_], and the fields as they are before
    the first optional section is read. *)
Definition init_head (seclist0 : list Sec) : Res (t * list Sec) :=
  let seclist := seclist0 in
  let '(sl, seclist) := xtract_sec VERSION seclist in
  version <- exactly_one "VERSION" sl ;;
  let '(sl, seclist) := xtract_sec BS_ seclist in
  t <- exactly_one "BS_" sl ;;
  let baudrate := match t with
                  | Some (b, _, _) => Some b
                  | None => None
                  end in
  let btr := match t with
             | Some (_, btr1, btr2) => Some (btr1, btr2)
             | None => None
             end in
  let '(sl, seclist) := xtract_sec BU_ seclist in
  nl <- exactly_one "BU_" sl ;;
  let not_unique := List.length nl - List.length (dedup nl) in
  let nl := if Nat.eqb not_unique 0 then nl else dedup nl in
  let nodes :=
    fold_left (fun d node =>
                 dict_set String.eqb node
                          {| node_comments := [];
                             node_attributes := [] |} d)
              nl [] in
  let '(sl, seclist) := xtract_sec NS_ seclist in
  newsymbols <- match sl with
                | [] => Ok []
                | [x] => Ok x
                | _ => Raise (DatabaseError
                                ("more than one section of type "
                                   ++ quoted "NS_"))
                end ;;
  Ok ({| version := version; baudrate := baudrate; btr := btr;
         nodes := nodes; newsymbols := newsymbols;
         global_values := []; messages := []; comments := [];
         attrib_typedefs := initial_typedefs;
         attrib_defaults := []; attributes := [] |},
      seclist).

Definition init (seclist0 : list Sec) : Res t :=
  st <- init_head seclist0 ;;
  st <- run VAL_TABLE_ add_table st ;;
  st <- run BO_ add_message st ;;
  st <- run BO_TX_BU_ add_transmitters st ;;
  st <- run CM_ add_comment st ;;
  st <- run BA_DEF_ add_typedef st ;;
  st <- run BA_DEF_DEF_ add_default st ;;
  st <- run BA_ add_attribute st ;;
  st <- run VAL_ add_value_descriptions st ;;
  st <- run SIG_GROUP_ add_signal_group st ;;
  st <- run SIG_VALTYPE_ set_signal_value_type st ;;
  ms <- each_message organize (messages (fst st)) ;;
  st <- run SG_MUL_VAL_ add_mul_val (set_messages ms (fst st), snd st) ;;
  _ <- check_nonmuxed (fst st) ;;
  if nonempty (snd st)
  then Raise (Exception_ "sections left to unpack: ")
  else Ok (fst st).

(** *** dbc *)

Definition nls : string := String nl EmptyString.

(** ["{}".format(val)] and [str(val)] for an attribute value. *)
Definition lit_str (val : Literal) : string :=
  match val with
  | LitInt k => str_Z k
  | LitFloat x => float_str x
  | LitStr s => s
  end.

(** The value as the [BA_] and [BA_DEF_DEF_] lines show it: quoted if
    it is a string. *)
Definition lit_dbc (val : Literal) : string :=
  match val with
  | LitStr s => quoted s
  | _ => lit_str val
  end.

(** The entries of a table as a [VAL_TABLE_] or [VAL_] line shows
    them: the value and the quoted label, highest value first. *)
Definition dbc_table (d : dict Z string) : string :=
  fold_left (fun acc t => acc ++ " " ++ str_Z (fst t) ++ " "
                              ++ quoted (snd t))
            (sort_desc d) EmptyString.

(** Each block of lines below is followed by an empty line when the
    block wrote something: [if count:]. *)
Definition block (lines : list string) : string :=
  String.concat EmptyString lines ++ (if nonempty lines then nls else EmptyString).

Definition dbc_typedef (ot : scope) (attrname : string)
           (tdef : attr_type) : string :=
  (if Nat.eqb (String.length (scope_str ot)) 0 then "BA_DEF_ "
   else "BA_DEF_ " ++ scope_str ot ++ " ")
    ++ dq ++ attrname ++ dq ++ " "
    ++ match tdef with
       | TyINT lo hi => "INT " ++ str_Z lo ++ " " ++ str_Z hi
       | TyHEX lo hi => "HEX " ++ str_Z lo ++ " " ++ str_Z hi
       | TyFLOAT lo hi => "FLOAT " ++ float_str lo ++ " " ++ float_str hi
       | TySTRING => "STRING "
       | TyENUM vals => "ENUM " ++ join ", " (map quoted vals)
       end
    ++ ";" ++ nls.

(** The signals of all messages, as [(msgid, signals_dict items)]. *)
Definition all_signals (self : t)
  : Res (list (N * Message.t * list (string * Signal.t))) :=
  foldM (fun acc kv =>
           sigs <- Message.dict_signals (snd kv) ;;
           Ok (acc ++ [(fst kv, snd kv, sigs)])%list)
        (messages self) [].

Definition escaped (c : string) : string := quoted (escape_dq c).

Definition dbc (self : t) : Res string :=
  msgs <- all_signals self ;;
  let string := EmptyString in
  let string := string ++ "VERSION " ++ dq ++ version self ++ dq
                       ++ nls ++ nls in
  let string := string ++ "NS_ :" ++ nls in
  let string := fold_left (fun acc s => acc ++ "    " ++ s ++ nls)
                          (newsymbols self) string in
  let string := string ++ nls in
  let string := string ++ "BS_:" in
  let string :=
    match baudrate self, btr self with
    | Some b, Some (btr1, btr2) =>
        if N.eqb b 0 then string
        else string ++ " " ++ str_N b ++ ": " ++ str_N btr1 ++ ", "
                    ++ str_N btr2
    | _, _ => string
    end in
  let string := string ++ nls ++ nls in
  let string := string ++ "BU_:" in
  let string := fold_left (fun acc node => acc ++ " " ++ fst node)
                          (nodes self) string in
  let string := string ++ nls ++ nls in
  let string :=
    string ++ block (map (fun tab => "VAL_TABLE_ " ++ fst tab
                                       ++ dbc_table (snd tab) ++ " ;"
                                       ++ nls)
                         (global_values self)) in
  bo <- foldM (fun acc kv => s <- Message.dbc (snd kv) ;;
                             Ok (acc ++ [s])%list)
              (messages self) [] ;;
  let string := string ++ block bo in
  let string :=
    string ++ block
      (flat_map
         (fun kv =>
            let msg := snd kv in
            if Nat.ltb 1 (List.length (Message.transmitters msg)) then
              [fold_left (fun acc tx => acc ++ " " ++ tx)
                         (Message.transmitters msg)
                         ("BO_TX_BU_ " ++ str_N (fst kv) ++ ":")
                 ++ " ;" ++ nls]
            else [])
         (messages self)) in
  let string :=
    string ++ block
      (List.concat
         [map (fun c => "CM_ " ++ escaped c ++ ";" ++ nls)
              (comments self);
          flat_map
            (fun nd =>
               map (fun c => "CM_ BU_ " ++ fst nd ++ " " ++ escaped c
                               ++ ";" ++ nls)
                   (node_comments (snd nd)))
            (nodes self);
          flat_map
            (fun x =>
               let '(msgid, msg, sigs) := x in
               List.app
                 (map (fun c => "CM_ BO_ " ++ str_N msgid ++ " "
                                  ++ escaped c ++ ";" ++ nls)
                      (Message.comments msg))
                 (flat_map
                    (fun kv =>
                       map (fun c => "CM_ SG_ " ++ str_N msgid ++ " "
                                       ++ fst kv ++ " " ++ escaped c
                                       ++ ";" ++ nls)
                           (Signal.comments (snd kv)))
                    sigs))
            msgs]) in
  let string :=
    string ++ block
      (flat_map (fun od => map (fun ad => dbc_typedef (fst od) (fst ad)
                                                      (snd ad))
                               (snd od))
                (attrib_typedefs self)) in
  let string :=
    string ++ block
      (map (fun a => "BA_DEF_DEF_ " ++ dq ++ fst a ++ dq ++ " "
                       ++ lit_dbc (snd a) ++ ";" ++ nls)
           (attrib_defaults self)) in
  let string :=
    string ++ block
      (List.concat
         [map (fun a => "BA_ " ++ quoted (fst a) ++ " " ++ lit_dbc (snd a)
                          ++ ";" ++ nls)
              (attributes self);
          flat_map
            (fun nd =>
               map (fun a => "BA_ " ++ quoted (fst a) ++ " BU_ "
                               ++ fst nd ++ " " ++ lit_dbc (snd a)
                               ++ ";" ++ nls)
                   (node_attributes (snd nd)))
            (nodes self);
          flat_map
            (fun x =>
               let '(msgid, msg, sigs) := x in
               List.app
                 (map (fun a => "BA_ " ++ quoted (fst a) ++ " BO_ "
                                  ++ str_N msgid ++ " " ++ lit_dbc (snd a)
                                  ++ ";" ++ nls)
                      (Message.attributes msg))
                 (flat_map
                    (fun kv =>
                       map (fun a => "BA_ " ++ quoted (fst a) ++ " SG_ "
                                       ++ str_N msgid ++ " " ++ fst kv
                                       ++ " " ++ lit_dbc (snd a)
                                       ++ ";" ++ nls)
                           (Signal.attributes (snd kv)))
                    sigs))
            msgs]) in
  let string :=
    string ++ block
      (flat_map
         (fun x =>
            let '(msgid, msg, sigs) := x in
            flat_map
              (fun kv =>
                 if nonempty (Signal.value_descriptions (snd kv)) then
                   ["VAL_ " ++ str_N msgid ++ " " ++ fst kv
                      ++ dbc_table (Signal.value_descriptions (snd kv))
                      ++ " ;" ++ nls]
                 else [])
              sigs)
         msgs) in
  let string :=
    string ++ block
      (flat_map
         (fun kv =>
            map (fun g => "SIG_GROUP_ " ++ str_N (fst kv) ++ " " ++ fst g
                            ++ " " ++ SignalGroup.dbc (snd g) ++ nls)
                (Message.signal_groups (snd kv)))
         (messages self)) in
  foldM (fun acc kv => s <- Message.dbc_sg_mul_val (snd kv) ;;
                       Ok (acc ++ s))
        (messages self) string.

(** *** diff *)

Definition opt_N_eqb (a b : option N) : bool :=
  match a, b with
  | Some x, Some y => N.eqb x y
  | None, None => true
  | _, _ => false
  end.

Definition node_eqb (a b : node) : bool :=
  Message.strs_eqb (node_comments a) (node_comments b)
  && dict_eqb String.eqb Message.lit_eqb
              (node_attributes a) (node_attributes b).

(** [==] on the values of [attrib_typedefs]: the same type name and
    equal values. *)
Definition attr_type_eqb (a b : attr_type) : bool :=
  match a, b with
  | TyINT l h, TyINT l' h' => Z.eqb l l' && Z.eqb h h'
  | TyHEX l h, TyHEX l' h' => Z.eqb l l' && Z.eqb h h'
  | TyFLOAT l h, TyFLOAT l' h' => float_eqb l l' && float_eqb h h'
  | TySTRING, TySTRING => true
  | TyENUM v, TyENUM v' => Message.strs_eqb v v'
  | _, _ => false
  end.

Definition ids_differ (own other : list N) : bool :=
  nonempty (set_diff N.eqb own other)
  || nonempty (set_diff N.eqb other own).

(** [self.messages[msgid]], for an id known to be a key. *)
Definition message_of (self : t) (msgid : N) : Res Message.t :=
  match dict_get N.eqb msgid (messages self) with
  | Some m => Ok m
  | None => Raise (ModelError "key")
  end.

(** [for msgid in self.messages:], up to the first message that
    differs. *)
Fixpoint diff_messages (self other : t) (msgids : list N)
  : Res (option difference) :=
  match msgids with
  | [] => Ok None
  | msgid :: msgids' =>
      msg_self <- message_of self msgid ;;
      msg_other <- message_of other msgid ;;
      string <- Message.diff msg_self msg_other ;;
      match string with
      | Some d => Ok (Some (DiffMessage msgid d))
      | None => diff_messages self other msgids'
      end
  end.

(** The two [btr] differ: the first components are compared, then
    the second.  [None] has no components. *)
Definition diff_btr (own other : option (N * N))
  : Res (option difference) :=
  match own, other with
  | Some (a1, a2), Some (b1, b2) =>
      if negb (N.eqb a1 b1) then Ok (Some DiffBtr1)
      else if negb (N.eqb a2 b2) then Ok (Some DiffBtr2)
      else Ok None
  | None, None => Ok None
  | _, _ => Raise TypeError
  end.

Definition diff (self other : t) : Res (option difference) :=
  if negb (String.eqb (version self) (version other))
  then Ok (Some (DiffVersion (version self) (version other)))
  else if negb (opt_N_eqb (baudrate self) (baudrate other))
  then Ok (Some (DiffBaudrate (baudrate self) (baudrate other)))
  else
    d <- diff_btr (btr self) (btr other) ;;
    match d with
    | Some x => Ok (Some x)
    | None =>
        if Message.sets_differ (dict_keys (nodes self))
                               (dict_keys (nodes other))
        then Ok (Some DiffNodes)
        else if existsb
                  (fun k =>
                     negb (opt_eqb node_eqb
                             (dict_get String.eqb k (nodes self))
                             (dict_get String.eqb k (nodes other))))
                  (dict_keys (nodes self))
        then Ok (Some DiffNodeValues)
        else if Message.sets_differ (newsymbols self) (newsymbols other)
        then Ok (Some DiffNewSymbols)
        else if negb (dict_eqb String.eqb (dict_eqb Z.eqb String.eqb)
                               (global_values self) (global_values other))
        then Ok (Some DiffGlobalValues)
        else if ids_differ (dict_keys (messages self))
                           (dict_keys (messages other))
        then Ok (Some DiffMessageIds)
        else
          d <- diff_messages self other (dict_keys (messages self)) ;;
          match d with
          | Some x => Ok (Some x)
          | None =>
              if negb (Message.strs_eqb (comments self) (comments other))
              then Ok (Some DiffComments)
              else if negb (dict_eqb scope_eqb
                                     (dict_eqb String.eqb attr_type_eqb)
                                     (attrib_typedefs self)
                                     (attrib_typedefs other))
              then Ok (Some DiffAttribTypedefs)
              else if negb (dict_eqb String.eqb Message.lit_eqb
                                     (attrib_defaults self)
                                     (attrib_defaults other))
              then Ok (Some DiffAttribDefaults)
              else if negb (dict_eqb String.eqb Message.lit_eqb
                                     (attributes self) (attributes other))
              then Ok (Some DiffAttributes)
              else Ok None
          end
    end.

End Methods.
End Bus.

(** ** A model of the float operations for closed examples

    A float is kept as the text of its literal: [float] is the identity,
    [str] gives the text back and [==] compares the texts.  It serves to
    evaluate the parser, the builder, the serializer and [diff] on
    concrete inputs whose outcome does not depend on how Python rounds or
    prints a number. *)
Definition literal_floats : FloatModel :=
  {| float := string;
     float_of_text := fun s => s;
     float_str := fun s => s;
     float_eqb := String.eqb;
     float_eq_int := fun x k => String.eqb x (str_Z k);
     float_eqb_refl := String.eqb_refl;
     float_eqb_sym := String.eqb_sym |}.

(** Text with line ends, for the examples: the lines joined and ended by
    a newline each. *)
Definition lines (l : list string) : string :=
  String.concat EmptyString (map (fun s => s ++ String nl EmptyString) l).

(** ** The builder, the serializer and diff on concrete inputs *)

Section Examples.
#[local] Existing Instance literal_floats.

(** A database whose baud rate is 0. *)
Definition zero_baudrate_text : string :=
  lines ["VERSION " ++ dq ++ dq; "NS_ :"; "BS_: 0: 1, 2"; "BU_:"].

(** What [Bus.dbc] writes for it: the [BS_] line has lost its values. *)
Definition zero_baudrate_dbc : string :=
  lines ["VERSION " ++ dq ++ dq; EmptyString; "NS_ :"; EmptyString;
         "BS_:"; EmptyString; "BU_:"; EmptyString].

Definition header : list Sec := [SecVERSION EmptyString; SecBS None; SecBU ["N"]].

Definition plain_signal (name : string) : signal_dict :=
  {| sd_name := name;
     sd_multiplex_value := None;
     sd_is_multiplexor := false;
     sd_start := 0;
     sd_size := 8;
     sd_little_endian := Some true;
     sd_signed := Some false;
     sd_factor := "1";
     sd_offset := "0";
     sd_range := ("0", "1");
     sd_unit := EmptyString;
     sd_receivers := ("N", []) |}.

(** [BO_ 1 M: 8 N] with the signals of the given names. *)
Definition message_1 (names : list string) : Sec :=
  SecBO {| md_id := 1; md_name := "M"; md_size := 8;
           md_transmitter := "N";
           md_signals := map plain_signal names |}.

(** The attributes of the signal [signame] of message [id]. *)
Definition signal_attributes (b : Bus.t) (id : N) (signame : string)
  : option (dict string Literal) :=
  match dict_get N.eqb id (Bus.messages b) with
  | Some msg =>
      match Message.signal_named msg signame with
      | Ok s => Some (Signal.attributes s)
      | Raise _ => None
      end
  | None => None
  end.

(** The message of the third scenario of the specification: a
    multiplexor [Sel] of 8 bits and two signals [A], for the values 0
    and 2. *)
Definition selected_signal (name : string) (v : N) : signal_dict :=
  {| sd_name := name;
     sd_multiplex_value := Some v;
     sd_is_multiplexor := false;
     sd_start := 8;
     sd_size := 16;
     sd_little_endian := Some true;
     sd_signed := Some false;
     sd_factor := "1";
     sd_offset := "0";
     sd_range := ("0", "0");
     sd_unit := EmptyString;
     sd_receivers := ("N2", []) |}.

Definition selector_signal (name : string) : signal_dict :=
  {| sd_name := name;
     sd_multiplex_value := None;
     sd_is_multiplexor := true;
     sd_start := 0;
     sd_size := 8;
     sd_little_endian := Some true;
     sd_signed := Some false;
     sd_factor := "1";
     sd_offset := "0";
     sd_range := ("0", "3");
     sd_unit := EmptyString;
     sd_receivers := ("N2", []) |}.

Definition message_100 : message_dict :=
  {| md_id := 100; md_name := "Msg"; md_size := 8;
     md_transmitter := "N1";
     md_signals := [selector_signal "Sel"; selected_signal "A" 0;
                    selected_signal "A" 2] |}.

(** Message 1 with a [BO_TX_BU_] line that names its first transmitter
    again and another node twice. *)
Definition repeated_transmitters : list Sec :=
  [SecVERSION EmptyString; SecBS None; SecBU ["N"; "N2"];
   message_1 ["S"]; SecBO_TX_BU 1 ["N"; "N2"; "N2"]].

(** The third scenario of the specification: the message above after
    the mandatory sections. *)
Definition scenario_3 : list Sec :=
  [SecVERSION EmptyString; SecBS None; SecBU ["N1"; "N2"];
   SecBO message_100].

(** The same with the names [A] and [B] for the two multiplexed
    signals. *)
Definition message_100_AB : message_dict :=
  {| md_id := 100; md_name := "Msg"; md_size := 8;
     md_transmitter := "N1";
     md_signals := [selector_signal "Sel"; selected_signal "A" 0;
                    selected_signal "B" 2] |}.

Definition scenario_3_AB : list Sec :=
  [SecVERSION EmptyString; SecBS None; SecBU ["N1"; "N2"];
   SecBO message_100_AB].

(** A multiplexor [Sel], a plain signal [P], and the statement
    [SG_MUL_VAL_ 100 P Sel ;], which has no range. *)
Definition message_100_P : message_dict :=
  {| md_id := 100; md_name := "Msg"; md_size := 8;
     md_transmitter := "N1";
     md_signals := [selector_signal "Sel"; plain_signal "P"] |}.

Definition no_ranges : list Sec :=
  [SecVERSION EmptyString; SecBS None; SecBU ["N1"; "N2"];
   SecBO message_100_P; SecSG_MUL_VAL 100 "P" "Sel" []].

(** A message whose only signal is a multiplexor with a multiplex
    value, [SG_ Sel m0M ...]. *)
Definition selecting_itself : signal_dict :=
  {| sd_name := "Sel";
     sd_multiplex_value := Some 0%N;
     sd_is_multiplexor := true;
     sd_start := 0;
     sd_size := 8;
     sd_little_endian := Some true;
     sd_signed := Some false;
     sd_factor := "1";
     sd_offset := "0";
     sd_range := ("0", "3");
     sd_unit := EmptyString;
     sd_receivers := ("N2", []) |}.

Definition self_multiplexed : list Sec :=
  [SecVERSION EmptyString; SecBS None; SecBU ["N1"; "N2"];
   SecBO {| md_id := 100; md_name := "Msg"; md_size := 8;
            md_transmitter := "N1";
            md_signals := [selecting_itself] |}].

(** Two multiplexors [A] and [B], and the statements
    [SG_MUL_VAL_ 100 A B 1-1;] and [SG_MUL_VAL_ 100 B A 1-1;]. *)
Definition multiplexed_in_a_cycle : list Sec :=
  [SecVERSION EmptyString; SecBS None; SecBU ["N1"; "N2"];
   SecBO {| md_id := 100; md_name := "Msg"; md_size := 8;
            md_transmitter := "N1";
            md_signals := [selector_signal "A"; selector_signal "B"] |};
   SecSG_MUL_VAL 100 "A" "B" [(1, 1)%N];
   SecSG_MUL_VAL 100 "B" "A" [(1, 1)%N]].

(** The message with the multiplex value 300 for the signal [B]: the
    multiplexor [Sel] has 8 bits. *)
Definition message_100_wide : message_dict :=
  {| md_id := 100; md_name := "Msg"; md_size := 8;
     md_transmitter := "N1";
     md_signals := [selector_signal "Sel"; selected_signal "A" 0;
                    selected_signal "B" 300] |}.

Definition out_of_range : list Sec :=
  [SecVERSION EmptyString; SecBS None; SecBU ["N1"; "N2"];
   SecBO message_100_wide].

(** The message of id [id] of the bus built from [secs]. *)
Definition built_message (secs : list Sec) (id : N) : option Message.t :=
  match Bus.init secs with
  | Ok b => dict_get N.eqb id (Bus.messages b)
  | Raise _ => None
  end.
End Examples.

(** ** Notions used to state the properties *)

Section Notions.
Context `{FloatModel}.

(** A reference stands for an object of the message. *)
Definition valid_ref (msg : Message.t) (ref : nat) : Prop :=
  ref < List.length (Message.objs msg).

(** The signal [ref] stands for is a multiplexor; it has a multiplex
    value; that value (0 if it has none). *)
Definition is_mux (msg : Message.t) (ref : nat) : bool :=
  match nth_error (Message.objs msg) ref with
  | Some s => Signal.is_multiplexor s
  | None => false
  end.

Definition has_selector (msg : Message.t) (ref : nat) : bool :=
  match nth_error (Message.objs msg) ref with
  | Some s => match Signal.multiplex_value s with
              | Some _ => true
              | None => false
              end
  | None => false
  end.

Definition selector (msg : Message.t) (ref : nat) : N :=
  match nth_error (Message.objs msg) ref with
  | Some s => match Signal.multiplex_value s with
              | Some v => v
              | None => 0%N
              end
  | None => 0%N
  end.

(** The signals held by the switches of a message. *)
Definition switch_refs (msg : Message.t) : list nat :=
  flat_map (fun s => map snd (Signal.switch s)) (Message.objs msg).

(** The signals of a message that are in its top-level list or in a
    switch. *)
Definition placed_refs (msg : Message.t) : list nat :=
  (Message.signals msg ++ switch_refs msg)%list.

(** The name of the signal a reference stands for. *)
Definition name_of (msg : Message.t) (ref : nat) : option string :=
  option_map Signal.name (nth_error (Message.objs msg) ref).

(** A change of a signal that leaves its name, its multiplexing and
    its switch as they are. *)
Definition decoration (f : Signal.t -> Signal.t) : Prop :=
  forall s,
    Signal.name (f s) = Signal.name s /\
    Signal.multiplex_value (f s) = Signal.multiplex_value s /\
    Signal.is_multiplexor (f s) = Signal.is_multiplexor s /\
    Signal.numbits (f s) = Signal.numbits s /\
    Signal.switch (f s) = Signal.switch s /\
    Signal.attributes (f s) = Signal.attributes s.

(** The messages [Bus.__init__] can hold while it reads the sections
    [secs]: a message is made from a [BO_] section, and every step
    after that changes it in one of these ways. *)
Inductive built (secs : list Sec) : Message.t -> Prop :=
| built_new d :
    In (SecBO d) secs -> built secs (Bus.new_message d)
| built_transmitter msg nodes tx msg' :
    built secs msg -> Bus.add_transmitter nodes msg tx = Ok msg' ->
    built secs msg'
| built_comments msg c :
    built secs msg -> built secs (Message.set_comments c msg)
| built_attributes msg a :
    built secs msg -> built secs (Message.set_attributes a msg)
| built_signal_groups msg g :
    built secs msg -> built secs (Message.set_signal_groups g msg)
| built_decorated msg ref f :
    built secs msg -> decoration f ->
    built secs (Message.update_obj ref f msg)
| built_organized msg msg' :
    built secs msg -> Bus.organize msg = Ok msg' -> built secs msg'
| built_multiplexed msg msg' id signame muxname ranges :
    In (SecSG_MUL_VAL id signame muxname ranges) secs ->
    built secs msg ->
    Bus.multiplex_by signame muxname ranges msg = Ok msg' ->
    built secs msg'.

(** The two multiplexing steps change a message in one way: a signal
    [r] leaves the top-level list and the switch of one signal [mux]
    gets entries for [r]; with [placed], it has such an entry
    afterwards. *)
Definition rewired (placed : bool) (msg msg' : Message.t) : Prop :=
  exists (mux r : nat) (m : Signal.t) (sw' : Switch.t) (L' : list nat),
    Message.obj msg mux = Ok m /\
    Bus.list_remove r (Message.signals msg) = Ok L' /\
    incl (Signal.switch m) sw' /\
    (forall e, In e sw' -> In e (Signal.switch m) \/ snd e = r) /\
    (placed = true -> In r (map snd sw')) /\
    msg' = Message.set_signals L'
             (Message.update_obj mux (Signal.set_switch sw') msg).

(** Every reference of a message stands for one of its objects. *)
Definition refs_valid (msg : Message.t) : Prop :=
  Forall (valid_ref msg) (Message.signals msg) /\
  Forall (valid_ref msg) (switch_refs msg) /\
  Forall (fun kv => valid_ref msg (snd kv)) (Message.signals_dict msg).

(** [signals_dict] is an index of the objects by name: its keys are
    distinct, each key is the name of the signal it is bound to, and
    the name of every object is a key. *)
Definition names_indexed (msg : Message.t) : Prop :=
  NoDup (dict_keys (Message.signals_dict msg)) /\
  (forall k ref, In (k, ref) (Message.signals_dict msg) ->
                 name_of msg ref = Some k) /\
  (forall ref s, nth_error (Message.objs msg) ref = Some s ->
                 In (Signal.name s) (dict_keys (Message.signals_dict msg))).

(** Every object of the message is in the top-level list or in a
    switch. *)
Definition all_placed (msg : Message.t) : Prop :=
  forall ref, valid_ref msg ref -> In ref (placed_refs msg).

(** The signals of a message that are reachable: those of its
    top-level list, and those in the switch of a reachable signal. *)
Inductive reachable (msg : Message.t) : nat -> Prop :=
| reachable_top ref :
    In ref (Message.signals msg) -> reachable msg ref
| reachable_switch mux m e :
    reachable msg mux ->
    nth_error (Message.objs msg) mux = Some m ->
    In e (Signal.switch m) ->
    reachable msg (snd e).

(** The switches of a message hold no cycle: its signals have depths
    such that every signal in a switch is deeper than the signal the
    switch belongs to. *)
Definition no_cycle (msg : Message.t) : Prop :=
  exists depth : nat -> nat,
    forall mux m e,
      nth_error (Message.objs msg) mux = Some m ->
      In e (Signal.switch m) ->
      depth mux < depth (snd e).

(** No two objects of the message have the same name. *)
Definition names_distinct (msg : Message.t) : Prop :=
  NoDup (map Signal.name (Message.objs msg)).

(** The [BO_] sections give the signals of a message distinct names. *)
Definition distinct_signal_names (secs : list Sec) : Prop :=
  forall d, In (SecBO d) secs -> NoDup (map sd_name (md_signals d)).

(** Every [SG_MUL_VAL_] section has a range. *)
Definition ranges_given (secs : list Sec) : Prop :=
  forall id signame muxname ranges,
    In (SecSG_MUL_VAL id signame muxname ranges) secs -> ranges <> [].

(** All messages of a bus are such messages. *)
Definition all_built (secs : list Sec) (b : Bus.t) : Prop :=
  Forall (fun kv => built secs (snd kv)) (Bus.messages b).

(** What a step may do to the bus: it keeps the messages built. *)
Definition keeps_built (secs : list Sec) (self self' : Bus.t) : Prop :=
  all_built secs self -> all_built secs self'.

(** The entry the step makes for a multiplexed signal. *)
Definition switch_step (msg : Message.t) (sw : Switch.t) (r : nat)
  : Switch.t :=
  Switch.append (Range.Range (selector msg r) (selector msg r)) r sw.

(** The message in the middle of the second loop: the top-level list is
    [L] and the switch of the multiplexor is [sw]. *)
Definition in_loop (msg : Message.t) (mux : nat) (L : list nat)
           (sw : Switch.t) : Message.t :=
  Message.set_signals L (Message.update_obj mux (Signal.set_switch sw) msg).
End Notions.

(** ** Further notions *)

Section MoreNotions.
Context `{FloatModel}.

(** Two messages that [Message.diff] cannot tell apart: all that may
    differ is what the lines of their signals do not show. *)
Definition same_but_signals (a' a : Message.t) : Prop :=
  Message.id a' = Message.id a /\
  Message.name a' = Message.name a /\
  Message.size a' = Message.size a /\
  Message.transmitters a' = Message.transmitters a /\
  Message.signals_dict a' = Message.signals_dict a /\
  Message.comments a' = Message.comments a /\
  Message.attributes a' = Message.attributes a /\
  Message.signal_groups a' = Message.signal_groups a /\
  (forall k, match Message.signal_named a' k, Message.signal_named a k with
             | Ok s', Ok s => Signal.dbc s' = Signal.dbc s
             | Raise e', Raise e => e' = e
             | _, _ => False
             end).
End MoreNotions.

(** A text without double quote and without backslash. *)
Definition plain_text (s : string) : bool :=
  forallb (fun c => negb (Ascii.eqb c "034") && negb (Ascii.eqb c backslash))
          (list_ascii_of_string s).

(** A character [eat_whitespace] skips. *)
Definition is_whitespace (c : ascii) : bool :=
  existsb (Ascii.eqb c) Parser.whitespace.

(** No word of the list is the beginning of a longer word that comes
    later in the list. *)
Fixpoint longest_first (l : list string) : bool :=
  match l with
  | [] => true
  | x :: l' =>
      forallb (fun y => negb (String.prefix x y) || String.eqb x y) l'
      && longest_first l'
  end.

(** The position of a [ParseError] [e'] is not behind that of [e]. *)
Definition not_behind (e e' : exn) : Prop :=
  match e, e' with
  | ParseError ln cn _ _, ParseError ln' cn' _ _ =>
      ln < ln' \/ (ln = ln' /\ cn <= cn')
  | _, _ => False
  end.

(** A text of whitespace only. *)
Definition blank (s : string) : bool :=
  forallb is_whitespace (list_ascii_of_string s).

Section BusNotions.
Context `{FloatModel}.

(** The sections of one kind, in the order of the list. *)
Definition sections_of {A : Type} (sel : Sec -> option A)
           (secs : list Sec) : list A :=
  fst (Bus.xtract_sec sel secs).

(** [Bus.__init__] as the run of its steps over the sections of each
    kind, taken from the list it was given. *)
Definition init_chain (secs : list Sec) : Res Bus.t :=
  st <- Bus.init_head secs ;;
  b <- foldM Bus.add_table (sections_of Bus.VAL_TABLE_ secs) (fst st) ;;
  b <- foldM Bus.add_message (sections_of Bus.BO_ secs) b ;;
  b <- foldM Bus.add_transmitters (sections_of Bus.BO_TX_BU_ secs) b ;;
  b <- foldM Bus.add_comment (sections_of Bus.CM_ secs) b ;;
  b <- foldM Bus.add_typedef (sections_of Bus.BA_DEF_ secs) b ;;
  b <- foldM Bus.add_default (sections_of Bus.BA_DEF_DEF_ secs) b ;;
  b <- foldM Bus.add_attribute (sections_of Bus.BA_ secs) b ;;
  b <- foldM Bus.add_value_descriptions (sections_of Bus.VAL_ secs) b ;;
  b <- foldM Bus.add_signal_group (sections_of Bus.SIG_GROUP_ secs) b ;;
  b <- foldM Bus.set_signal_value_type
             (sections_of Bus.SIG_VALTYPE_ secs) b ;;
  ms <- Bus.each_message Bus.organize (Bus.messages b) ;;
  b <- foldM Bus.add_mul_val (sections_of Bus.SG_MUL_VAL_ secs)
             (Bus.set_messages ms b) ;;
  _ <- Bus.check_nonmuxed b ;;
  Ok b.
End BusNotions.

Section BusFrames.
Context `{FloatModel}.

(** What the steps after the mandatory sections leave as it is. *)
Definition same_head (a b : Bus.t) : Prop :=
  Bus.version b = Bus.version a /\
  Bus.baudrate b = Bus.baudrate a /\
  Bus.btr b = Bus.btr a /\
  Bus.newsymbols b = Bus.newsymbols a /\
  dict_keys (Bus.nodes b) = dict_keys (Bus.nodes a).

(** Every message is kept under its own id. *)
Definition keyed (b : Bus.t) : Prop :=
  Forall (fun kv => Message.id (snd kv) = fst kv) (Bus.messages b).

(** A step that adds no message and keeps the messages under their
    ids. *)
Definition keeps_frame (a b : Bus.t) : Prop :=
  same_head a b /\
  dict_keys (Bus.messages b) = dict_keys (Bus.messages a) /\
  (keyed a -> keyed b).
End BusFrames.

Section References.
Context `{FloatModel}.

(** The message [msg] has the id, the name, the size, the first
    transmitter and the signal names of the [BO_] section [d]. *)
Definition made_from (d : message_dict) (msg : Message.t) : Prop :=
  Message.id msg = md_id d /\
  Message.name msg = md_name d /\
  Message.size msg = md_size d /\
  (exists more, Message.transmitters msg = md_transmitter d :: more) /\
  map Signal.name (Message.objs msg) = map sd_name (md_signals d).

(** What the sections of a list define: a message id, a signal of a
    message, a node. *)
Definition defined_message (secs : list Sec) (id : N) : Prop :=
  exists d, In (SecBO d) secs /\ md_id d = id.

Definition defined_signal (secs : list Sec) (id : N) (signame : string)
  : Prop :=
  exists d, In (SecBO d) secs /\ md_id d = id /\
            In signame (map sd_name (md_signals d)).

Definition defined_node (secs : list Sec) (name : string) : Prop :=
  exists nl, In (SecBU nl) secs /\ In name nl.

(** The object a [CM_] or [BA_] section is about is defined; there is
    no such object for [EV_]. *)
Definition defined_ref (secs : list Sec) (ref : objref) : Prop :=
  match ref with
  | RefGlobal => True
  | RefBU name => defined_node secs name
  | RefBO id => defined_message secs id
  | RefSG id name => defined_signal secs id name
  | RefEV _ => False
  end.

(** The state of the builder once the mandatory sections are read. *)
Definition well_formed (secs : list Sec) (s : Bus.t) : Prop :=
  all_built secs s /\ keyed s /\
  (forall name, In name (dict_keys (Bus.nodes s)) ->
                defined_node secs name).
End References.

Section Handled.
Context `{FloatModel}.

(** Every section of one kind was handled without error, in a state
    of the builder that was well formed. *)
Definition handled {A : Type} (secs : list Sec) (sel : Sec -> option A)
           (handle : Bus.t -> A -> Res Bus.t) : Prop :=
  forall x, In x (sections_of sel secs) ->
            exists s s', well_formed secs s /\ handle s x = Ok s'.
End Handled.

Section MoreExamples.
#[local] Existing Instance literal_floats.

(** Message 100 with the multiplexor [Sel] and the signal [P], and
    statements of every kind about them. *)
Definition annotated : list Sec :=
  [SecVERSION "1"; SecBS (Some (500, 1, 2)%N); SecBU ["N1"; "N2"];
   SecBO message_100_P;
   SecBO_TX_BU 100 ["N2"];
   SecCM RefGlobal "a bus";
   SecCM (RefBU "N1") "a node";
   SecCM (RefBO 100) "a message";
   SecCM (RefSG 100 "P") "a signal";
   SecBA "x" (RefBO 100) (LitInt 1);
   SecVAL 100 "P" [(1%Z, "one")];
   SecSIG_GROUP 100 "g" 1 ["P"; "Sel"];
   SecSIG_VALTYPE 100 "P" 1;
   SecSG_MUL_VAL 100 "P" "Sel" [(1, 1)%N]].
End MoreExamples.

(** ** dbcdiff.py *)

Section Script.
Context `{FloatModel}.

(** The script, on the texts of its two files: what it prints, [None]
    when it prints nothing. *)
Definition dbcdiff (dbcstr1 dbcstr2 : string)
  : Res (option Bus.difference) :=
  secs1 <- Parser.parse dbcstr1 ;;
  b1 <- Bus.init secs1 ;;
  secs2 <- Parser.parse dbcstr2 ;;
  b2 <- Bus.init secs2 ;;
  Bus.diff b1 b2.
End Script.

(** ** [Bus._xtract_sec] by indices *)

Section Extraction.
Context `{FloatModel}.

(** [seclist.pop(ii)] *)
Fixpoint pop {A : Type} (ii : nat) (l : list A) : Res (A * list A) :=
  match l, ii with
  | [], _ => Raise IndexError
  | x :: l', O => Ok (x, l')
  | x :: l', S i =>
      ' (y, r) <- pop i l' ;;
      Ok (y, x :: r)
  end.

(** [indices.sort(reverse=True)] *)
Fixpoint insert_reverse (x : nat) (l : list nat) : list nat :=
  match l with
  | [] => [x]
  | y :: l' => if Nat.leb y x then x :: l else y :: insert_reverse x l'
  end.

Definition sort_reverse (l : list nat) : list nat :=
  fold_right insert_reverse [] l.

(** [[kk for kk in range(len(seclist)) if seclist[kk][0] == sec]] *)
Definition indices_of (wanted : Sec -> bool) (seclist : list Sec)
  : list nat :=
  filter (fun kk => match nth_error seclist kk with
                    | Some s => wanted s
                    | None => false
                    end)
         (seq 0 (List.length seclist)).

(** The method as it is written: the indices of the wanted sections,
    highest first, each popped from the list; it answers [xtr] and the
    list as the pops leave it. *)
Definition xtract_sec_by_index (wanted : Sec -> bool) (seclist : list Sec)
  : Res (list Sec * list Sec) :=
  let indices := indices_of wanted seclist in
  let indices := sort_reverse indices in
  st <- foldM (fun (st : list Sec * list Sec) ii =>
                 ' (x, seclist) <- pop ii (snd st) ;;
                 Ok ((fst st ++ [x])%list, seclist))
              indices ([], seclist) ;;
  Ok (rev (fst st), snd st).

(** [seclist[kk][0] == sec], for the kind of section [sel] picks. *)
Definition wanted {A : Type} (sel : Sec -> option A) (s : Sec) : bool :=
  match sel s with Some _ => true | None => false end.
End Extraction.

(** ** The builder up to the step for single multiplexors *)

Section BeforeOrganize.
Context `{FloatModel}.

(** [Bus.__init__] from the mandatory sections to the [SIG_VALTYPE_]
    sections: all that comes before the step for messages with one
    multiplexor. *)
Definition init_before_organize (secs : list Sec) : Res Bus.t :=
  st <- Bus.init_head secs ;;
  b <- foldM Bus.add_table (sections_of Bus.VAL_TABLE_ secs) (fst st) ;;
  b <- foldM Bus.add_message (sections_of Bus.BO_ secs) b ;;
  b <- foldM Bus.add_transmitters (sections_of Bus.BO_TX_BU_ secs) b ;;
  b <- foldM Bus.add_comment (sections_of Bus.CM_ secs) b ;;
  b <- foldM Bus.add_typedef (sections_of Bus.BA_DEF_ secs) b ;;
  b <- foldM Bus.add_default (sections_of Bus.BA_DEF_DEF_ secs) b ;;
  b <- foldM Bus.add_attribute (sections_of Bus.BA_ secs) b ;;
  b <- foldM Bus.add_value_descriptions (sections_of Bus.VAL_ secs) b ;;
  b <- foldM Bus.add_signal_group (sections_of Bus.SIG_GROUP_ secs) b ;;
  foldM Bus.set_signal_value_type (sections_of Bus.SIG_VALTYPE_ secs) b.

(** Two signals with the same multiplexing: multiplex value,
    multiplexor mark, size and switch. *)
Definition wired_alike (s s' : Signal.t) : Prop :=
  Signal.multiplex_value s' = Signal.multiplex_value s /\
  Signal.is_multiplexor s' = Signal.is_multiplexor s /\
  Signal.numbits s' = Signal.numbits s /\
  Signal.switch s' = Signal.switch s.

(** The message [b] is the message [a] but for what the steps before
    the multiplexing steps change. *)
Definition same_wiring (a b : Message.t) : Prop :=
  Message.signals b = Message.signals a /\
  List.length (Message.objs b) = List.length (Message.objs a) /\
  (forall ref s,
      nth_error (Message.objs a) ref = Some s ->
      exists s', nth_error (Message.objs b) ref = Some s' /\
                 wired_alike s s').

(** The message [b] is the message [a] after further multiplexing
    steps: signals have left the top-level list and switches have got
    further entries. *)
Definition grown (a b : Message.t) : Prop :=
  incl (Message.signals b) (Message.signals a) /\
  (forall ref s,
      nth_error (Message.objs a) ref = Some s ->
      exists s' more,
        nth_error (Message.objs b) ref = Some s' /\
        Signal.switch s' = (Signal.switch s ++ more)%list).

(** A step of the builder that keeps every message under its id and
    changes it within the relation [R]. *)
Definition messages_step (R : Message.t -> Message.t -> Prop)
           (s s' : Bus.t) : Prop :=
  forall id msg,
    dict_get N.eqb id (Bus.messages s) = Some msg ->
    exists msg', dict_get N.eqb id (Bus.messages s') = Some msg' /\
                 R msg msg'.
End BeforeOrganize.
(** * Properties *)

(** ** Range *)

Lemma Qlt_bool_iff (x y : Q) : Range.Qlt_bool x y = true <-> (x < y)%Q.
Proof.
  unfold Range.Qlt_bool. rewrite negb_true_iff.
  split; intro H.
  - apply Qnot_le_lt. intro L. apply Qle_bool_iff in L. congruence.
  - destruct (Qle_bool y x) eqn:E; [|reflexivity].
    apply Qle_bool_iff in E. exfalso. exact (Qlt_not_le _ _ H E).
Qed.

Lemma Qlt_bool_false_iff (x y : Q) : Range.Qlt_bool x y = false <-> (y <= x)%Q.
Proof.
  unfold Range.Qlt_bool. rewrite negb_false_iff. apply Qle_bool_iff.
Qed.

Lemma within_iff (a b x : Q) :
  Range.within (Range.Range a b) x = true <-> (a <= x /\ x <= b)%Q.
Proof.
  unfold Range.within; simpl.
  rewrite andb_true_iff, !Qle_bool_iff. tauto.
Qed.

Lemma intersection_None_iff (r1 r2 : Range.t Q) :
  Range.intersection r1 r2 = None <->
  (Range.maxval r2 < Range.minval r1 \/ Range.maxval r1 < Range.minval r2)%Q.
Proof.
  unfold Range.intersection.
  destruct (Range.Qlt_bool (Range.maxval r2) (Range.minval r1)) eqn:E1;
  destruct (Range.Qlt_bool (Range.maxval r1) (Range.minval r2)) eqn:E2; simpl;
    rewrite ?Qlt_bool_iff, ?Qlt_bool_false_iff in *.
  - tauto.
  - tauto.
  - tauto.
  - split; [discriminate|].
    intros [H|H]; exfalso; eapply Qlt_not_le; eauto.
Qed.

Lemma py_min_comm (a b : Q) : (Range.py_min a b == Range.py_min b a)%Q.
Proof.
  unfold Range.py_min.
  destruct (Range.Qlt_bool b a) eqn:E1; destruct (Range.Qlt_bool a b) eqn:E2;
    rewrite ?Qlt_bool_iff, ?Qlt_bool_false_iff in *; try reflexivity.
  - exfalso. apply (Qlt_irrefl a). eapply Qlt_trans; eauto.
  - apply Qle_antisym; assumption.
Qed.

Lemma py_max_comm (a b : Q) : (Range.py_max a b == Range.py_max b a)%Q.
Proof.
  unfold Range.py_max.
  destruct (Range.Qlt_bool b a) eqn:E1; destruct (Range.Qlt_bool a b) eqn:E2;
    rewrite ?Qlt_bool_iff, ?Qlt_bool_false_iff in *; try reflexivity.
  - exfalso. apply (Qlt_irrefl a). eapply Qlt_trans; eauto.
  - apply Qle_antisym; assumption.
Qed.

Lemma intersection_comm (r1 r2 : Range.t Q) :
  Range.result_eqb (Range.intersection r1 r2) (Range.intersection r2 r1) = true.
Proof.
  destruct (Range.intersection r1 r2) as [r|] eqn:E12.
  - destruct (Range.intersection r2 r1) as [r'|] eqn:E21.
    + unfold Range.intersection in E12, E21.
      destruct (_ || _) in E12; [discriminate|].
      destruct (_ || _) in E21; [discriminate|].
      injection E12 as <-. injection E21 as <-.
      unfold Range.result_eqb, Range.eqb; simpl.
      rewrite andb_true_iff, !Qeq_bool_iff.
      split; [apply py_max_comm | apply py_min_comm].
    + exfalso. apply intersection_None_iff in E21.
      assert (Range.intersection r1 r2 = None) as C
          by (apply intersection_None_iff; tauto).
      congruence.
  - apply intersection_None_iff in E12.
    assert (Range.intersection r2 r1 = None) as ->
        by (apply intersection_None_iff; tauto).
    reflexivity.
Qed.

Lemma within_unfold (r : Range.t Q) (x : Q) :
  Range.within r x = true <-> (Range.minval r <= x /\ x <= Range.maxval r)%Q.
Proof. destruct r as [a b]. apply within_iff. Qed.

Lemma intersection_None_disjoint (r1 r2 : Range.t Q) :
  (Range.minval r1 <= Range.maxval r1)%Q ->
  (Range.minval r2 <= Range.maxval r2)%Q ->
  (Range.intersection r1 r2 = None <-> Range.disjoint r1 r2).
Proof.
  intros W1 W2. rewrite intersection_None_iff. unfold Range.disjoint.
  split.
  - intros H [x [H1 H2]].
    apply within_unfold in H1. apply within_unfold in H2.
    destruct H1 as [L1 U1], H2 as [L2 U2].
    destruct H as [H|H]; eapply Qlt_not_le; try exact H.
    + eapply Qle_trans; eauto.
    + eapply Qle_trans; eauto.
  - intros D.
    destruct (Qlt_le_dec (Range.maxval r2) (Range.minval r1)) as [|L1];
      [tauto|].
    destruct (Qlt_le_dec (Range.maxval r1) (Range.minval r2)) as [|L2];
      [tauto|].
    exfalso. apply D.
    destruct (Qlt_le_dec (Range.minval r1) (Range.minval r2)) as [L|L].
    + exists (Range.minval r2). rewrite !within_unfold.
      repeat split; auto using Qle_refl, Qlt_le_weak.
    + exists (Range.minval r1). rewrite !within_unfold.
      repeat split; auto using Qle_refl.
Qed.

(** C8, as the code has it: [within] is the closed-interval test, and
    [intersection] is commutative up to [==]; the result is [None] exactly
    for disjoint intervals when both ranges have [minval <= maxval]. *)
Theorem range_semantics :
  (forall a b x : Q,
      Range.within (Range.Range a b) x = true <-> (a <= x /\ x <= b)%Q) /\
  (forall r1 r2 : Range.t Q,
      Range.result_eqb (Range.intersection r1 r2) (Range.intersection r2 r1)
      = true) /\
  (forall r1 r2 : Range.t Q,
      (Range.minval r1 <= Range.maxval r1)%Q ->
      (Range.minval r2 <= Range.maxval r2)%Q ->
      (Range.intersection r1 r2 = None <-> Range.disjoint r1 r2)).
Proof.
  split; [exact within_iff|].
  split; [exact intersection_comm|].
  exact intersection_None_disjoint.
Qed.

(** C8 as stated fails on a range whose bounds are swapped: [Range(5, 3)]
    holds no number, so it is disjoint from [Range(0, 10)], yet their
    intersection is the range [Range(5, 3)] and not [None]. *)
Lemma range_intersection_swapped_bounds :
  Range.disjoint (Range.Range 5%Q 3%Q) (Range.Range 0%Q 10%Q) /\
  Range.intersection (Range.Range 5%Q 3%Q) (Range.Range 0%Q 10%Q)
  = Some (Range.Range 5%Q 3%Q) /\
  ~ (forall r1 r2 : Range.t Q,
        Range.intersection r1 r2 = None <-> Range.disjoint r1 r2).
Proof.
  assert (D : Range.disjoint (Range.Range 5%Q 3%Q) (Range.Range 0%Q 10%Q)).
  { intros [x [H _]]. apply within_iff in H. destruct H as [L U].
    assert (C : (5 <= 3)%Q) by (eapply Qle_trans; eauto).
    revert C. unfold Qle; simpl. lia. }
  split; [exact D|]. split; [reflexivity|].
  intros H. apply H in D. discriminate D.
Qed.

Lemma range_semantics_witness :
  Range.intersection (Range.Range 0%Q 1%Q) (Range.Range 2%Q 3%Q) = None <->
  Range.disjoint (Range.Range 0%Q 1%Q) (Range.Range 2%Q 3%Q).
Proof.
  apply (proj2 (proj2 range_semantics)); unfold Qle; simpl; lia.
Defined.

(** ** Loops, lists and stores *)

Lemma bind_Ok {A B : Type} (m : Res A) (k : A -> Res B) (b : B) :
  bind m k = Ok b -> exists a, m = Ok a /\ k a = Ok b.
Proof. destruct m as [a|e]; simpl; [eauto | discriminate]. Qed.

Lemma foldM_inv {A S : Type} (P : S -> Prop) (step : S -> A -> Res S)
      (l : list A) :
  (forall s x s', In x l -> P s -> step s x = Ok s' -> P s') ->
  forall s s', P s -> foldM step l s = Ok s' -> P s'.
Proof.
  induction l as [|x l IH]; intros Hstep s s' Hs Hrun; simpl in Hrun.
  - injection Hrun as <-. exact Hs.
  - apply bind_Ok in Hrun. destruct Hrun as [s1 [H1 H2]].
    apply (IH (fun s0 y s0' Hy => Hstep s0 y s0' (or_intror Hy)) s1 s').
    + apply (Hstep s x s1); [left; reflexivity | exact Hs | exact H1].
    + exact H2.
Qed.

Section Stores.
Context `{FloatModel}.

Lemma update_nth_length (ref : nat) (f : Signal.t -> Signal.t)
      (l : list Signal.t) :
  List.length (Message.update_nth ref f l) = List.length l.
Proof.
  revert ref. induction l as [|s l IH]; intros [|ref]; simpl; auto.
Qed.

Lemma nth_error_update_nth (ref ref' : nat) (f : Signal.t -> Signal.t)
      (l : list Signal.t) :
  nth_error (Message.update_nth ref f l) ref' =
  if Nat.eqb ref' ref then option_map f (nth_error l ref')
  else nth_error l ref'.
Proof.
  revert ref ref'. induction l as [|s l IH]; intros ref ref'.
  - destruct ref, ref'; simpl; try reflexivity;
      destruct (Nat.eqb _ _); reflexivity.
  - destruct ref as [|ref], ref' as [|ref']; simpl; try reflexivity.
    apply IH.
Qed.

Lemma update_nth_ext (ref : nat) (f g : Signal.t -> Signal.t)
      (l : list Signal.t) :
  (forall s, f s = g s) ->
  Message.update_nth ref f l = Message.update_nth ref g l.
Proof.
  intros E. revert ref. induction l as [|s l IH]; intros [|ref]; simpl;
    try reflexivity.
  - now rewrite E.
  - now rewrite IH.
Qed.

Lemma update_nth_twice (ref : nat) (f g : Signal.t -> Signal.t)
      (l : list Signal.t) :
  Message.update_nth ref g (Message.update_nth ref f l) =
  Message.update_nth ref (fun s => g (f s)) l.
Proof.
  revert ref. induction l as [|s l IH]; intros [|ref]; simpl;
    try reflexivity.
  now rewrite IH.
Qed.

Lemma obj_Ok (msg : Message.t) (ref : nat) (s : Signal.t) :
  Message.obj msg ref = Ok s <-> nth_error (Message.objs msg) ref = Some s.
Proof.
  unfold Message.obj. destruct (nth_error _ _); split; intros E;
    try discriminate; injection E as ->; reflexivity.
Qed.

Lemma obj_valid (msg : Message.t) (ref : nat) :
  valid_ref msg ref -> exists s, Message.obj msg ref = Ok s.
Proof.
  unfold valid_ref, Message.obj. intros V.
  destruct (nth_error (Message.objs msg) ref) eqn:E; [eauto|].
  apply nth_error_None in E. lia.
Qed.

Lemma obj_Ok_valid (msg : Message.t) (ref : nat) (s : Signal.t) :
  Message.obj msg ref = Ok s -> valid_ref msg ref.
Proof.
  intros E. apply obj_Ok in E. unfold valid_ref.
  apply nth_error_Some. congruence.
Qed.

Lemma set_switch_twice (a b : Switch.t) (s : Signal.t) :
  Signal.set_switch a (Signal.set_switch b s) = Signal.set_switch a s.
Proof. reflexivity. Qed.
End Stores.

(** [l.remove(x)] on a list without repeats leaves the other entries. *)
Lemma list_remove_NoDup (x : nat) (l : list nat) :
  NoDup l -> In x l ->
  Bus.list_remove x l = Ok (filter (fun y => negb (Nat.eqb y x)) l).
Proof.
  induction l as [|y l IH]; intros ND Hin; [destruct Hin|].
  inversion ND as [|? ? Hy ND']; subst. simpl.
  destruct (Nat.eqb_spec y x) as [->|Hne]; simpl.
  - f_equal. symmetry. apply forallb_filter_id.
    apply forallb_forall. intros z Hz.
    destruct (Nat.eqb_spec z x) as [->|]; [contradiction | reflexivity].
  - destruct Hin as [->|Hin]; [contradiction|].
    rewrite (IH ND' Hin). reflexivity.
Qed.

(** ** The parser *)

Lemma str_from_get (text : string) (k : nat) (c : ascii) :
  String.get k text = Some c ->
  str_from k text = String c (str_from (S k) text).
Proof.
  revert k. induction text as [|a text IH]; intros k Hget.
  - destruct k; discriminate Hget.
  - destruct k as [|k]; simpl in *.
    + injection Hget as ->. destruct text; reflexivity.
    + rewrite (IH k Hget). reflexivity.
Qed.

(** C6, what the code does: when the character at the cursor is neither
    of the two the atom knows, [endian] (and likewise [signed]) raises
    nothing; it answers [None] and leaves the cursor where it was. *)
Theorem endian_signed_fall_through (text : string) (s : Parser.pos)
        (c : ascii) :
  String.get (Parser.n s) text = Some c ->
  (c <> "0"%char -> c <> "1"%char ->
   Parser.endian text s = Ok (None, s)) /\
  (c <> "+"%char -> c <> "-"%char ->
   Parser.signed text s = Ok (None, s)).
Proof.
  intros Hget. split; intros H1 H2.
  - unfold Parser.endian, Parser.pbind, Parser.peek. rewrite Hget.
    destruct (Ascii.eqb_spec c "1"); [contradiction|].
    destruct (Ascii.eqb_spec c "0"); [contradiction|].
    reflexivity.
  - unfold Parser.signed, Parser.pbind, Parser.peek. rewrite Hget.
    destruct (Ascii.eqb_spec c "+"); [contradiction|].
    destruct (Ascii.eqb_spec c "-"); [contradiction|].
    reflexivity.
Qed.

Lemma endian_signed_fall_through_witness :
  Parser.endian "2" (Parser.Pos 0 1 0) = Ok (None, Parser.Pos 0 1 0) /\
  Parser.signed "2" (Parser.Pos 0 1 0) = Ok (None, Parser.Pos 0 1 0).
Proof.
  destruct (endian_signed_fall_through "2" (Parser.Pos 0 1 0) "2" eq_refl)
    as [He Hs].
  split; [apply He | apply Hs]; discriminate.
Defined.

(** A signal line without the byte-order digit is read without error:
    its [little_endian] is [None]. *)
Example signal_without_endian_is_read :
  option_map (@sd_little_endian literal_floats)
    (match @Parser.signal literal_floats
             (" SG_ S : 0|8@+ (1,0) [0|1] " ++ dq ++ dq ++ " N")
             (Parser.Pos 0 1 0) with
     | Ok (d, _) => Some d
     | Raise _ => None
     end) = Some None.
Proof. vm_compute. reflexivity. Qed.




(** ** The builder, the serializer and diff on concrete inputs *)

Section ExampleProperties.
#[local] Existing Instance literal_floats.

(** C1 at a database with baud rate 0: the text is parsed and built,
    its serialization is parsed and built again, and [diff] of the two
    buses reports the baud rate, [0] against [None]. *)
Theorem roundtrip_loses_zero_baudrate :
  exists secs b secs' b',
    Parser.parse zero_baudrate_text = Ok secs /\
    Bus.init secs = Ok b /\
    Bus.baudrate b = Some 0%N /\
    Bus.dbc b = Ok zero_baudrate_dbc /\
    Parser.parse zero_baudrate_dbc = Ok secs' /\
    Bus.init secs' = Ok b' /\
    Bus.diff b b' = Ok (Some (Bus.DiffBaudrate (Some 0%N) None)).
Proof.
  do 4 eexists.
  split; [vm_compute; reflexivity|].
  split; [vm_compute; reflexivity|].
  split; [reflexivity|].
  split; [vm_compute; reflexivity|].
  split; [vm_compute; reflexivity|].
  split; [vm_compute; reflexivity|].
  vm_compute; reflexivity.
Qed.

(** C3 at [BA_ "a" SG_ 1 S 5;]: the bus is built and the attributes of
    signal [S] of message 1 are still empty. *)
Theorem signal_attribute_is_not_assigned :
  exists b,
    Bus.init (header ++ [message_1 ["S"];
                         SecBA "a" (RefSG 1 "S") (LitInt 5)])%list = Ok b /\
    signal_attributes b 1 "S" = Some [].
Proof. eexists. split; vm_compute; reflexivity. Qed.

(** C5 at a group defined twice and at a group that lists an unknown
    signal: both raise a [NameError], for [goup_name] and for
    [groupname], and no [DatabaseError]. *)
Theorem signal_group_errors_are_name_errors :
  Bus.init (header ++ [message_1 ["S"];
                       SecSIG_GROUP 1 "g" 1 ["S"];
                       SecSIG_GROUP 1 "g" 1 ["S"]])%list
  = Raise (NameError "goup_name") /\
  Bus.init (header ++ [message_1 ["S"];
                       SecSIG_GROUP 1 "g" 1 ["T"]])%list
  = Raise (NameError "groupname").
Proof. split; vm_compute; reflexivity. Qed.

End ExampleProperties.

(** The [SG_] branch of the [BA_] step changes nothing, whatever the
    attribute and the signal. *)
Lemma add_attribute_SG_changes_nothing `{FloatModel} (self self' : Bus.t)
      (name : string) (id : N) (signame : string) (val : Literal) :
  Bus.add_attribute self (name, RefSG id signame, val) = Ok self' ->
  self' = self.
Proof.
  unfold Bus.add_attribute.
  destruct (dict_get N.eqb id (Bus.messages self)) as [msg|]; [|discriminate].
  destruct (dict_get String.eqb signame (Message.signals_dict msg))
    as [ref|]; [|discriminate].
  destruct (Message.obj msg ref) as [s|e]; simpl; [|discriminate].
  destruct (dict_mem String.eqb name (Signal.attributes s)); [discriminate|].
  intros E. injection E as <-. reflexivity.
Qed.

(** ** Messages with one multiplexor *)

Section SingleMultiplexor.
Context `{FloatModel}.

(** The first loop of the step: the last multiplexor met, the signals
    with a multiplex value, and the number of multiplexors. *)
Lemma scan_loop (msg : Message.t) (l : list nat) (mux0 : option nat)
      (mpx0 : list nat) (k0 : nat) :
  Forall (valid_ref msg) l ->
  foldM (fun (acc : option nat * list nat * nat) sig =>
           let '(mux, multiplexed, num_muxes) := acc in
           s <- Message.obj msg sig ;;
           let mux' := if Signal.is_multiplexor s then Some sig
                       else mux in
           let num_muxes' := if Signal.is_multiplexor s then S num_muxes
                             else num_muxes in
           let multiplexed' :=
             match Signal.multiplex_value s with
             | Some _ => (multiplexed ++ [sig])%list
             | None => multiplexed
             end in
           Ok (mux', multiplexed', num_muxes'))
        l (mux0, mpx0, k0)
  = Ok (match rev (filter (is_mux msg) l) with
        | r :: _ => Some r
        | [] => mux0
        end,
        (mpx0 ++ filter (has_selector msg) l)%list,
        k0 + List.length (filter (is_mux msg) l)).
Proof.
  revert mux0 mpx0 k0.
  induction l as [|r l IH]; intros mux0 mpx0 k0 V; simpl.
  - now rewrite app_nil_r, Nat.add_0_r.
  - inversion V as [|? ? Vr Vl]; subst.
    destruct (obj_valid msg r Vr) as [s Hs]. rewrite Hs. simpl.
    rewrite (IH _ _ _ Vl).
    apply obj_Ok in Hs. unfold is_mux at 3 6, has_selector at 2.
    rewrite Hs.
    destruct (Signal.is_multiplexor s); destruct (Signal.multiplex_value s);
      simpl; rewrite <- ?app_assoc; simpl;
      repeat f_equal; try lia.
    + destruct (rev (filter (is_mux msg) l)); reflexivity.
    + destruct (rev (filter (is_mux msg) l)); reflexivity.
Qed.

Lemma scan_spec (msg : Message.t) :
  Forall (valid_ref msg) (Message.signals msg) ->
  Bus.scan msg =
  Ok (match rev (filter (is_mux msg) (Message.signals msg)) with
      | r :: _ => Some r
      | [] => None
      end,
      filter (has_selector msg) (Message.signals msg),
      List.length (filter (is_mux msg) (Message.signals msg))).
Proof. intros V. unfold Bus.scan. now rewrite scan_loop. Qed.

Lemma in_loop_obj (msg : Message.t) (mux : nat) (L : list nat)
      (sw : Switch.t) (r : nat) :
  nth_error (Message.objs (in_loop msg mux L sw)) r =
  if Nat.eqb r mux
  then option_map (Signal.set_switch sw) (nth_error (Message.objs msg) r)
  else nth_error (Message.objs msg) r.
Proof. unfold in_loop; simpl. apply nth_error_update_nth. Qed.

Lemma attach_step (msg : Message.t) (mux : nat) (m : Signal.t)
      (L : list nat) (sw : Switch.t) (r : nat) :
  nth_error (Message.objs msg) mux = Some m ->
  Signal.is_multiplexor m = true ->
  has_selector msg r = true ->
  NoDup L -> In r L ->
  ((selector msg r < 2 ^ Signal.numbits m)%N ->
   Bus.attach mux (in_loop msg mux L sw) r =
   Ok (in_loop msg mux (filter (fun y => negb (Nat.eqb y r)) L)
               (switch_step msg sw r))) /\
  ((2 ^ Signal.numbits m <= selector msg r)%N ->
   exists text,
     Bus.attach mux (in_loop msg mux L sw) r = Raise (DatabaseError text)).
Proof.
  intros Hm Hmux Hsel ND Hin.
  unfold has_selector in Hsel. unfold switch_step, selector.
  destruct (nth_error (Message.objs msg) r) as [s0|] eqn:Hr;
    [|discriminate].
  destruct (Signal.multiplex_value s0) as [v|] eqn:Hv; [|discriminate].
  assert (Hobj_r : exists s, Message.obj (in_loop msg mux L sw) r = Ok s
                             /\ Signal.multiplex_value s = Some v).
  { unfold Message.obj. rewrite in_loop_obj, Hr.
    destruct (Nat.eqb r mux); simpl; eauto. }
  destruct Hobj_r as [s [Hs Hsv]].
  assert (Hobj_m : Message.obj (in_loop msg mux L sw) mux
                   = Ok (Signal.set_switch sw m)).
  { unfold Message.obj. rewrite in_loop_obj, Nat.eqb_refl, Hm.
    reflexivity. }
  unfold Bus.attach. rewrite Hs, Hobj_m. simpl. rewrite Hsv.
  unfold Signal.multiplexes. simpl. rewrite Hmux. simpl.
  split; intros Hrange.
  - apply N.ltb_lt in Hrange. rewrite Hrange.
    rewrite (list_remove_NoDup r L ND Hin). simpl.
    unfold in_loop, Message.set_signals, Message.update_obj,
      Message.set_objs; simpl.
    f_equal. f_equal.
    rewrite update_nth_twice. apply update_nth_ext.
    intros x. reflexivity.
  - apply N.ltb_ge in Hrange. rewrite Hrange. eauto.
Qed.

Lemma filter_filter_not_in (r : nat) (l L : list nat) :
  filter (fun y => negb (existsb (Nat.eqb y) l))
         (filter (fun y => negb (Nat.eqb y r)) L) =
  filter (fun y => negb (existsb (Nat.eqb y) (r :: l))) L.
Proof.
  induction L as [|x L IH]; simpl; [reflexivity|].
  destruct (Nat.eqb x r); simpl; rewrite IH; reflexivity.
Qed.

Lemma attach_loop (msg : Message.t) (mux : nat) (m : Signal.t) :
  nth_error (Message.objs msg) mux = Some m ->
  Signal.is_multiplexor m = true ->
  forall (l L : list nat) (sw : Switch.t),
    NoDup L -> NoDup l -> incl l L ->
    Forall (fun r => has_selector msg r = true) l ->
    Forall (fun r => (selector msg r < 2 ^ Signal.numbits m)%N) l ->
    foldM (Bus.attach mux) l (in_loop msg mux L sw) =
    Ok (in_loop msg mux
                (filter (fun y => negb (existsb (Nat.eqb y) l)) L)
                (fold_left (switch_step msg) l sw)).
Proof.
  intros Hm Hmux.
  induction l as [|r l IH]; intros L sw NDL NDl Hincl Hsel Hrange; simpl.
  - f_equal. f_equal. symmetry. apply forallb_filter_id.
    apply forallb_forall. reflexivity.
  - inversion NDl as [|? ? Hr NDl']; subst.
    inversion Hsel as [|? ? Hsr Hsl]; subst.
    inversion Hrange as [|? ? Hrr Hrl]; subst.
    assert (Hin : In r L) by (apply Hincl; left; reflexivity).
    destruct (attach_step msg mux m L sw r Hm Hmux Hsr NDL Hin)
      as [Hok _].
    rewrite (Hok Hrr). simpl.
    rewrite IH; auto.
    + now rewrite filter_filter_not_in.
    + now apply NoDup_filter.
    + intros x Hx. apply filter_In. split.
      * apply Hincl. now right.
      * destruct (Nat.eqb_spec x r) as [->|]; [contradiction|reflexivity].
Qed.

Lemma attach_loop_raises (msg : Message.t) (mux : nat) (m : Signal.t) :
  nth_error (Message.objs msg) mux = Some m ->
  Signal.is_multiplexor m = true ->
  forall (l L : list nat) (sw : Switch.t),
    NoDup L -> NoDup l -> incl l L ->
    Forall (fun r => has_selector msg r = true) l ->
    Exists (fun r => (2 ^ Signal.numbits m <= selector msg r)%N) l ->
    exists text,
      foldM (Bus.attach mux) l (in_loop msg mux L sw) =
      Raise (DatabaseError text).
Proof.
  intros Hm Hmux.
  induction l as [|r l IH]; intros L sw NDL NDl Hincl Hsel Hex.
  - inversion Hex.
  - inversion NDl as [|? ? Hr NDl']; subst.
    inversion Hsel as [|? ? Hsr Hsl]; subst.
    assert (Hin : In r L) by (apply Hincl; left; reflexivity).
    destruct (attach_step msg mux m L sw r Hm Hmux Hsr NDL Hin)
      as [Hok Hbad].
    destruct (N.lt_ge_cases (selector msg r) (2 ^ Signal.numbits m))
      as [Hlt|Hge].
    + simpl. rewrite (Hok Hlt). simpl.
      apply IH; auto.
      * now apply NoDup_filter.
      * intros x Hx. apply filter_In. split.
        -- apply Hincl. now right.
        -- destruct (Nat.eqb_spec x r) as [->|];
             [contradiction|reflexivity].
      * inversion Hex as [? ? Hhd|? ? Htl]; subst; [|exact Htl].
        exfalso. apply (N.lt_irrefl (selector msg r)).
        eapply N.lt_le_trans; eauto.
    + destruct (Hbad Hge) as [text Htext].
      exists text. simpl. rewrite Htext. reflexivity.
Qed.

(** The message before the second loop is the message in the loop with
    nothing done yet. *)
Lemma in_loop_start (msg : Message.t) (mux : nat) (m : Signal.t) :
  nth_error (Message.objs msg) mux = Some m ->
  in_loop msg mux (Message.signals msg) (Signal.switch m) = msg.
Proof.
  intros Hm. unfold in_loop, Message.set_signals, Message.update_obj,
               Message.set_objs. destruct msg as [i n s t o sg sd c a g].
  simpl in *. f_equal.
  revert mux Hm. induction o as [|x o IH]; intros [|mux] Hm; simpl in *;
    try discriminate.
  - injection Hm as ->. destruct m; reflexivity.
  - f_equal. now apply IH.
Qed.

Lemma append_fresh (sw : Switch.t) (rg : Range.t N) (r : nat) :
  ~ In r (map snd sw) -> Switch.append rg r sw = (sw ++ [(rg, r)])%list.
Proof.
  intros Hfresh. unfold Switch.append.
  destruct (existsb _ sw) eqn:E; [|reflexivity].
  exfalso. apply existsb_exists in E. destruct E as [e [He Hb]].
  apply andb_true_iff in Hb. destruct Hb as [_ Hb].
  apply Nat.eqb_eq in Hb. subst r.
  apply Hfresh. now apply in_map.
Qed.

Lemma switch_steps_fresh (msg : Message.t) (l : list nat) (sw : Switch.t) :
  NoDup l -> (forall r, In r l -> ~ In r (map snd sw)) ->
  fold_left (switch_step msg) l sw =
  (sw ++ map (fun r => (Range.Range (selector msg r) (selector msg r), r))
         l)%list.
Proof.
  revert sw. induction l as [|r l IH]; intros sw ND Hfresh; simpl.
  - now rewrite app_nil_r.
  - inversion ND as [|? ? Hr ND']; subst.
    unfold switch_step at 2.
    rewrite append_fresh by (apply Hfresh; now left).
    rewrite IH; auto.
    + now rewrite <- app_assoc.
    + intros x Hx Hin. rewrite map_app in Hin. apply in_app_or in Hin.
      destruct Hin as [Hin|Hin].
      * apply (Hfresh x); [now right | exact Hin].
      * simpl in Hin. destruct Hin as [<-|[]]. contradiction.
Qed.

Lemma filter_not_in_filter (f : nat -> bool) (L : list nat) :
  filter (fun y => negb (existsb (Nat.eqb y) (filter f L))) L =
  filter (fun y => negb (f y)) L.
Proof.
  apply filter_ext_in. intros y Hy. f_equal.
  destruct (f y) eqn:Hf.
  - apply existsb_exists. exists y. split.
    + apply filter_In. now split.
    + apply Nat.eqb_refl.
  - destruct (existsb _ _) eqn:E; [|reflexivity].
    apply existsb_exists in E. destruct E as [z [Hz Hyz]].
    apply Nat.eqb_eq in Hyz. subst z.
    apply filter_In in Hz. destruct Hz as [_ Hz]. congruence.
Qed.

(** The step for a message whose top-level signals hold exactly one
    multiplexor [mux]: it puts every signal [s] that has a multiplex
    value [v] into the switch of [mux], as the pair [(Range(v, v), s)]
    and in the order of the signals, and takes it out of the top-level
    list, if all these values are below [2 ** mux.numbits]; if one is
    not, the step raises a [DatabaseError]. *)
Lemma organize_single_multiplexor (msg : Message.t) (mux : nat)
        (m : Signal.t) :
  Forall (valid_ref msg) (Message.signals msg) ->
  NoDup (Message.signals msg) ->
  filter (is_mux msg) (Message.signals msg) = [mux] ->
  Message.obj msg mux = Ok m ->
  Signal.switch m = [] ->
  let multiplexed := filter (has_selector msg) (Message.signals msg) in
  (Forall (fun s => (selector msg s < 2 ^ Signal.numbits m)%N)
          multiplexed ->
   Bus.organize msg =
   Ok (Message.set_signals
         (filter (fun s => negb (has_selector msg s)) (Message.signals msg))
         (Message.update_obj mux
            (Signal.set_switch
               (map (fun s => (Range.Range (selector msg s)
                                           (selector msg s), s))
                    multiplexed))
            msg))) /\
  (Exists (fun s => (2 ^ Signal.numbits m <= selector msg s)%N)
          multiplexed ->
   exists text, Bus.organize msg = Raise (DatabaseError text)).
Proof.
  intros V ND Hone Hobj Hsw multiplexed.
  apply obj_Ok in Hobj.
  assert (Hmux : Signal.is_multiplexor m = true).
  { assert (Hin : In mux (filter (is_mux msg) (Message.signals msg)))
      by (rewrite Hone; now left).
    apply filter_In in Hin. destruct Hin as [_ Hin].
    unfold is_mux in Hin. now rewrite Hobj in Hin. }
  assert (NDm : NoDup multiplexed) by now apply NoDup_filter.
  assert (Hincl : incl multiplexed (Message.signals msg)).
  { intros x Hx. apply filter_In in Hx. tauto. }
  assert (Hsel : Forall (fun r => has_selector msg r = true) multiplexed).
  { apply Forall_forall. intros x Hx. apply filter_In in Hx. tauto. }
  unfold Bus.organize. rewrite (scan_spec msg V), Hone. simpl.
  fold multiplexed.
  assert (Hrun : foldM (Bus.attach mux) multiplexed msg =
                 foldM (Bus.attach mux) multiplexed
                       (in_loop msg mux (Message.signals msg)
                                (Signal.switch m)))
    by (now rewrite (in_loop_start msg mux m Hobj)).
  rewrite Hrun. clear Hrun.
  split.
  - intros Hrange.
    rewrite (attach_loop msg mux m Hobj Hmux multiplexed _ _ ND NDm Hincl
                         Hsel Hrange).
    unfold in_loop. f_equal. f_equal.
    + apply filter_not_in_filter.
    + f_equal. f_equal.
      rewrite switch_steps_fresh; auto.
      * now rewrite Hsw.
      * intros r _. now rewrite Hsw.
  - intros Hex.
    apply (attach_loop_raises msg mux m Hobj Hmux multiplexed _ _ ND NDm
                              Hincl Hsel Hex).
Qed.
End SingleMultiplexor.

(** ** The messages of a constructed bus *)

Section Construction.
Context `{FloatModel}.
Variable secs : list Sec.

Lemma Forall_dict_set {K V : Type} (keq : K -> K -> bool)
      (P : K * V -> Prop) (k : K) (v : V) (d : dict K V) :
  (forall k', P (k', v)) -> Forall P d -> Forall P (dict_set keq k v d).
Proof.
  intros Hv. induction d as [|[k' v'] d IH]; intros Hd; simpl.
  - constructor; auto.
  - inversion Hd; subst. destruct (keq k k'); constructor; auto.
Qed.

Lemma dict_get_In {K V : Type} (keq : K -> K -> bool) (k : K) (v : V)
      (d : dict K V) :
  dict_get keq k d = Some v -> exists k', In (k', v) d.
Proof.
  induction d as [|[k' v'] d IH]; simpl; [discriminate|].
  destruct (keq k k').
  - intros E. injection E as ->. exists k'. now left.
  - intros E. destruct (IH E) as [k'' Hin]. exists k''. now right.
Qed.

Lemma on_message_built (self self' : Bus.t) (id : N) (missing : exn)
      (f : Message.t -> Res Message.t) :
  (forall msg msg', built secs msg -> f msg = Ok msg' -> built secs msg') ->
  Bus.on_message self id missing f = Ok self' ->
  keeps_built secs self self'.
Proof.
  intros Hf Hrun Hall. unfold Bus.on_message in Hrun.
  destruct (dict_get N.eqb id (Bus.messages self)) as [msg|] eqn:Hget;
    [|discriminate].
  apply bind_Ok in Hrun. destruct Hrun as [msg' [Hmsg' E]].
  injection E as <-. unfold all_built; simpl.
  apply Forall_dict_set; [|exact Hall].
  intros k'. simpl. apply (Hf msg msg'); [|exact Hmsg'].
  destruct (dict_get_In _ _ _ _ Hget) as [k Hin].
  unfold all_built in Hall. rewrite Forall_forall in Hall.
  apply (Hall _ Hin).
Qed.

Lemma on_signal_built (msg msg' : Message.t) (signame : string)
      (missing : exn) (f : Signal.t -> Signal.t) :
  decoration f -> built secs msg ->
  Bus.on_signal msg signame missing f = Ok msg' -> built secs msg'.
Proof.
  intros Hf Hb. unfold Bus.on_signal.
  destruct (dict_get _ _ _); [|discriminate].
  intros E. injection E as <-. now apply built_decorated.
Qed.

Lemma add_table_built self tab self' :
  Bus.add_table self tab = Ok self' -> keeps_built secs self self'.
Proof.
  unfold Bus.add_table. destruct (dict_mem _ _ _); [discriminate|].
  intros E. injection E as <-. intros Hall. exact Hall.
Qed.

Lemma add_message_built self d self' :
  In (SecBO d) secs ->
  Bus.add_message self d = Ok self' -> keeps_built secs self self'.
Proof.
  intros Hin. unfold Bus.add_message.
  destruct (dict_mem _ _ _); [discriminate|].
  intros E. injection E as <-. intros Hall. unfold all_built; simpl.
  apply Forall_dict_set; [|exact Hall].
  intros k'. simpl. now apply built_new.
Qed.

Lemma add_transmitters_built self bo self' :
  Bus.add_transmitters self bo = Ok self' -> keeps_built secs self self'.
Proof.
  unfold Bus.add_transmitters. apply on_message_built.
  intros msg msg' Hb Hrun.
  apply (foldM_inv (built secs) _ _
           (fun m tx m' _ Hm Hstep => built_transmitter secs m _ tx m' Hm Hstep)
           msg msg' Hb Hrun).
Qed.

Lemma add_comment_built self c self' :
  Bus.add_comment self c = Ok self' -> keeps_built secs self self'.
Proof.
  unfold Bus.add_comment. destruct c as [[name|id|id name|name|] text];
    simpl.
  - destruct (dict_get _ _ _); [|discriminate].
    intros E. injection E as <-. intros Hall. exact Hall.
  - apply on_message_built. intros msg msg' Hb E. injection E as <-.
    now apply built_comments.
  - apply on_message_built. intros msg msg' Hb.
    apply on_signal_built; [|exact Hb].
    intros s. repeat split.
  - discriminate.
  - intros E. injection E as <-. intros Hall. exact Hall.
Qed.

Lemma add_typedef_built self c self' :
  Bus.add_typedef self c = Ok self' -> keeps_built secs self self'.
Proof.
  unfold Bus.add_typedef. destruct c as [[ct name] typ].
  destruct (dict_get _ _ _); [|discriminate].
  destruct (dict_mem _ _ _); [discriminate|].
  intros E. injection E as <-. intros Hall. exact Hall.
Qed.

Lemma add_default_built self c self' :
  Bus.add_default self c = Ok self' -> keeps_built secs self self'.
Proof.
  unfold Bus.add_default. destruct c as [name val].
  destruct (dict_mem _ _ _); [discriminate|].
  intros E. injection E as <-. intros Hall. exact Hall.
Qed.

Lemma add_attribute_built self c self' :
  Bus.add_attribute self c = Ok self' -> keeps_built secs self self'.
Proof.
  unfold Bus.add_attribute.
  destruct c as [[name [node|id|id signame|ev|]] val].
  - destruct (dict_get _ _ _); [|discriminate].
    destruct (dict_mem _ _ _); [discriminate|].
    intros E. injection E as <-. intros Hall. exact Hall.
  - apply on_message_built. intros msg msg' Hb.
    destruct (dict_mem _ _ _); [discriminate|].
    intros E. injection E as <-. now apply built_attributes.
  - destruct (dict_get N.eqb id _); [|discriminate].
    destruct (dict_get String.eqb signame _); [|discriminate].
    destruct (Message.obj _ _); simpl; [|discriminate].
    destruct (dict_mem _ _ _); [discriminate|].
    intros E. injection E as <-. intros Hall. exact Hall.
  - discriminate.
  - destruct (dict_mem _ _ _); [discriminate|].
    intros E. injection E as <-. intros Hall. exact Hall.
Qed.

Lemma add_value_descriptions_built self c self' :
  Bus.add_value_descriptions self c = Ok self' -> keeps_built secs self self'.
Proof.
  unfold Bus.add_value_descriptions. destruct c as [[id signame] vals].
  apply on_message_built. intros msg msg' Hb.
  apply on_signal_built; [|exact Hb].
  intros s. repeat split.
Qed.

Lemma add_signal_group_built self c self' :
  Bus.add_signal_group self c = Ok self' -> keeps_built secs self self'.
Proof.
  unfold Bus.add_signal_group.
  destruct c as [[[id group_name] number] sigs].
  apply on_message_built. intros msg msg' Hb.
  destruct (dict_mem _ _ _); [discriminate|].
  destruct (nonempty _); [discriminate|].
  intros E. injection E as <-. now apply built_signal_groups.
Qed.

Lemma set_signal_value_type_built self c self' :
  Bus.set_signal_value_type self c = Ok self' -> keeps_built secs self self'.
Proof.
  unfold Bus.set_signal_value_type. destruct c as [[id signame] tn].
  apply on_message_built. intros msg msg' Hb.
  apply on_signal_built; [|exact Hb].
  intros s. repeat split.
Qed.

Lemma add_mul_val_built self c self' :
  In (SecSG_MUL_VAL (fst (fst (fst c))) (snd (fst (fst c))) (snd (fst c))
                    (snd c)) secs ->
  Bus.add_mul_val self c = Ok self' -> keeps_built secs self self'.
Proof.
  unfold Bus.add_mul_val. destruct c as [[[id signame] muxname] ranges].
  simpl. intros Hin.
  apply on_message_built. intros msg msg' Hb Hrun.
  now apply (built_multiplexed secs msg msg' id signame muxname ranges).
Qed.

Lemma each_message_built (ms ms' : dict N Message.t) :
  Forall (fun kv => built secs (snd kv)) ms ->
  Bus.each_message Bus.organize ms = Ok ms' ->
  Forall (fun kv => built secs (snd kv)) ms'.
Proof.
  revert ms'. induction ms as [|[id msg] ms IH]; intros ms' Hall; simpl.
  - intros E. injection E as <-. constructor.
  - inversion Hall; subst. intros Hrun.
    apply bind_Ok in Hrun. destruct Hrun as [msg' [Hmsg' Hrun]].
    apply bind_Ok in Hrun. destruct Hrun as [rest [Hrest E]].
    injection E as <-. constructor.
    + simpl in *. now apply (built_organized secs msg msg').
    + now apply IH.
Qed.

Lemma xtract_In {A : Type} (sel : Sec -> option A) (l : list Sec) (a : A) :
  In a (fst (Bus.xtract_sec sel l)) -> exists s, In s l /\ sel s = Some a.
Proof.
  unfold Bus.xtract_sec; simpl. intros Hin.
  apply in_flat_map in Hin. destruct Hin as [s [Hs Ha]].
  exists s. split; [exact Hs|].
  destruct (sel s) as [a'|]; [|destruct Ha].
  destruct Ha as [->|[]]. reflexivity.
Qed.

Lemma xtract_rest_incl {A : Type} (sel : Sec -> option A) (l : list Sec) :
  incl (snd (Bus.xtract_sec sel l)) l.
Proof.
  unfold Bus.xtract_sec; simpl. intros s Hs.
  apply filter_In in Hs. tauto.
Qed.

Lemma run_built {A : Type} (sel : Sec -> option A)
      (handle : Bus.t -> A -> Res Bus.t) (st st' : Bus.t * list Sec) :
  (forall self a self',
      (exists s, In s secs /\ sel s = Some a) ->
      handle self a = Ok self' -> keeps_built secs self self') ->
  Bus.run sel handle st = Ok st' ->
  all_built secs (fst st) /\ incl (snd st) secs ->
  all_built secs (fst st') /\ incl (snd st') secs.
Proof.
  intros Hh Hrun [Hall Hincl]. unfold Bus.run in Hrun.
  destruct (Bus.xtract_sec sel (snd st)) as [sl seclist] eqn:Hx.
  apply bind_Ok in Hrun. destruct Hrun as [self [Hfold E]].
  injection E as <-. simpl. split.
  - apply (foldM_inv (all_built secs) handle sl) with (s := fst st);
      [|exact Hall|exact Hfold].
    intros s0 a s0' Ha Hs0 Hstep.
    apply (Hh s0 a s0'); [|exact Hstep|exact Hs0].
    assert (Ha' : In a (fst (Bus.xtract_sec sel (snd st))))
      by now rewrite Hx.
    destruct (xtract_In _ _ _ Ha') as [s [Hs Hsel]].
    exists s. split; [now apply Hincl | exact Hsel].
  - intros s Hs. apply Hincl.
    apply (xtract_rest_incl sel (snd st)). now rewrite Hx.
Qed.

Lemma init_head_built (st : Bus.t * list Sec) :
  Bus.init_head secs = Ok st ->
  all_built secs (fst st) /\ incl (snd st) secs.
Proof.
  unfold Bus.init_head, Bus.xtract_sec. cbv zeta. simpl.
  intros Hrun.
  apply bind_Ok in Hrun. destruct Hrun as [version [_ Hrun]].
  apply bind_Ok in Hrun. destruct Hrun as [t [_ Hrun]].
  apply bind_Ok in Hrun. destruct Hrun as [nl [_ Hrun]].
  apply bind_Ok in Hrun. destruct Hrun as [newsymbols [_ E]].
  injection E as <-. simpl. split; [constructor|].
  intros s Hs.
  repeat (apply filter_In in Hs; destruct Hs as [Hs _]).
  exact Hs.
Qed.

Lemma BO_sections self a self' :
  (exists s, In s secs /\ Bus.BO_ s = Some a) ->
  Bus.add_message self a = Ok self' -> keeps_built secs self self'.
Proof.
  intros [s [Hs Hsel]]. apply add_message_built.
  destruct s; try discriminate Hsel. injection Hsel as ->. exact Hs.
Qed.

Lemma SG_MUL_VAL_sections self a self' :
  (exists s, In s secs /\ Bus.SG_MUL_VAL_ s = Some a) ->
  Bus.add_mul_val self a = Ok self' -> keeps_built secs self self'.
Proof.
  intros [s [Hs Hsel]]. apply add_mul_val_built.
  destruct s; try discriminate Hsel. injection Hsel as <-. exact Hs.
Qed.

(** Every message of a constructed bus is a message made from a [BO_]
    section and changed by the steps of the builder. *)
Lemma init_built (b : Bus.t) :
  Bus.init secs = Ok b -> all_built secs b.
Proof.
  unfold Bus.init. intros Hrun.
  apply bind_Ok in Hrun. destruct Hrun as [st0 [H0 Hrun]].
  apply init_head_built in H0.
  apply bind_Ok in Hrun. destruct Hrun as [st1 [H1 Hrun]].
  apply (run_built _ _ _ _
           (fun self a self' _ => add_table_built self a self')) in H1;
    [clear H0|exact H0].
  apply bind_Ok in Hrun. destruct Hrun as [st2 [H2 Hrun]].
  apply (run_built _ _ _ _ BO_sections) in H2; [clear H1|exact H1].
  apply bind_Ok in Hrun. destruct Hrun as [st3 [H3 Hrun]].
  apply (run_built _ _ _ _
           (fun self a self' _ => add_transmitters_built self a self'))
    in H3; [clear H2|exact H2].
  apply bind_Ok in Hrun. destruct Hrun as [st4 [H4 Hrun]].
  apply (run_built _ _ _ _
           (fun self a self' _ => add_comment_built self a self')) in H4;
    [clear H3|exact H3].
  apply bind_Ok in Hrun. destruct Hrun as [st5 [H5 Hrun]].
  apply (run_built _ _ _ _
           (fun self a self' _ => add_typedef_built self a self')) in H5;
    [clear H4|exact H4].
  apply bind_Ok in Hrun. destruct Hrun as [st6 [H6 Hrun]].
  apply (run_built _ _ _ _
           (fun self a self' _ => add_default_built self a self')) in H6;
    [clear H5|exact H5].
  apply bind_Ok in Hrun. destruct Hrun as [st7 [H7 Hrun]].
  apply (run_built _ _ _ _
           (fun self a self' _ => add_attribute_built self a self')) in H7;
    [clear H6|exact H6].
  apply bind_Ok in Hrun. destruct Hrun as [st8 [H8 Hrun]].
  apply (run_built _ _ _ _
           (fun self a self' _ =>
              add_value_descriptions_built self a self')) in H8;
    [clear H7|exact H7].
  apply bind_Ok in Hrun. destruct Hrun as [st9 [H9 Hrun]].
  apply (run_built _ _ _ _
           (fun self a self' _ => add_signal_group_built self a self'))
    in H9; [clear H8|exact H8].
  apply bind_Ok in Hrun. destruct Hrun as [st10 [H10 Hrun]].
  apply (run_built _ _ _ _
           (fun self a self' _ =>
              set_signal_value_type_built self a self')) in H10;
    [clear H9|exact H9].
  apply bind_Ok in Hrun. destruct Hrun as [ms [Hms Hrun]].
  destruct H10 as [Hall Hincl].
  apply each_message_built in Hms; [|exact Hall].
  apply bind_Ok in Hrun. destruct Hrun as [st11 [H11 Hrun]].
  apply (run_built _ _ _ _ SG_MUL_VAL_sections) in H11;
    [|exact (conj Hms Hincl)].
  apply bind_Ok in Hrun. destruct Hrun as [_ [_ Hrun]].
  destruct (nonempty (snd st11)); [discriminate|].
  injection Hrun as <-. apply H11.
Qed.
End Construction.

(** ** The two multiplexing steps *)

Section Rewiring.
Context `{FloatModel}.

Lemma update_nth_at (ref : nat) (f g : Signal.t -> Signal.t)
      (l : list Signal.t) (x : Signal.t) :
  nth_error l ref = Some x -> f x = g x ->
  Message.update_nth ref f l = Message.update_nth ref g l.
Proof.
  revert ref. induction l as [|s l IH]; intros [|ref] Hx E; simpl in *;
    try discriminate.
  - injection Hx as ->. now rewrite E.
  - f_equal. now apply IH.
Qed.

Lemma append_incl (rg : Range.t N) (r : nat) (sw : Switch.t) :
  incl sw (Switch.append rg r sw).
Proof.
  unfold Switch.append. destruct (existsb _ sw).
  - apply incl_refl.
  - apply incl_appl, incl_refl.
Qed.

Lemma append_new (rg : Range.t N) (r : nat) (sw : Switch.t) (e : _) :
  In e (Switch.append rg r sw) -> In e sw \/ snd e = r.
Proof.
  unfold Switch.append. destruct (existsb _ sw); [now left|].
  intros Hin. apply in_app_or in Hin.
  destruct Hin as [Hin|[<-|[]]]; [now left | now right].
Qed.

Lemma append_placed (rg : Range.t N) (r : nat) (sw : Switch.t) :
  In r (map snd (Switch.append rg r sw)).
Proof.
  unfold Switch.append. destruct (existsb _ sw) eqn:E.
  - apply existsb_exists in E. destruct E as [e [He Hb]].
    apply andb_true_iff in Hb. destruct Hb as [_ Hb].
    apply Nat.eqb_eq in Hb. subst r. now apply in_map.
  - rewrite map_app. apply in_or_app. right. now left.
Qed.

Lemma attach_rewired (mux : nat) (msg msg' : Message.t) (r : nat) :
  Bus.attach mux msg r = Ok msg' -> rewired true msg msg'.
Proof.
  unfold Bus.attach. intros Hrun.
  apply bind_Ok in Hrun. destruct Hrun as [s [Hs Hrun]].
  apply bind_Ok in Hrun. destruct Hrun as [m [Hm Hrun]].
  destruct (Signal.multiplex_value s) as [v|]; [|discriminate].
  destruct (Signal.multiplexes m v); [|discriminate].
  apply bind_Ok in Hrun. destruct Hrun as [L' [HL E]].
  injection E as <-. simpl in HL.
  exists mux, r, m,
    (Switch.append (Range.Range v v) r (Signal.switch m)), L'.
  repeat split.
  - exact Hm.
  - exact HL.
  - apply append_incl.
  - apply append_new.
  - intros _. apply append_placed.
  - unfold Message.set_signals, Message.update_obj, Message.set_objs;
      simpl. f_equal.
    apply obj_Ok in Hm. now apply (update_nth_at _ _ _ _ m Hm).
Qed.

Lemma appends_incl (r : nat) (ranges : list (N * N)) (sw : Switch.t) :
  incl sw (fold_left (fun sw r0 =>
                        Switch.append (Range.Range (fst r0) (snd r0)) r sw)
                     ranges sw).
Proof.
  revert sw. induction ranges as [|r0 ranges IH]; intros sw; simpl.
  - apply incl_refl.
  - eapply incl_tran; [apply append_incl | apply IH].
Qed.

Lemma appends_new (r : nat) (ranges : list (N * N)) (sw : Switch.t) e :
  In e (fold_left (fun sw r0 =>
                     Switch.append (Range.Range (fst r0) (snd r0)) r sw)
                  ranges sw) ->
  In e sw \/ snd e = r.
Proof.
  revert sw. induction ranges as [|r0 ranges IH]; intros sw; simpl.
  - now left.
  - intros Hin. destruct (IH _ Hin) as [Hold|Hnew]; [|now right].
    now apply append_new in Hold.
Qed.

Lemma appends_placed (r : nat) (ranges : list (N * N)) (sw : Switch.t) :
  ranges <> [] ->
  In r (map snd (fold_left
                   (fun sw r0 =>
                      Switch.append (Range.Range (fst r0) (snd r0)) r sw)
                   ranges sw)).
Proof.
  destruct ranges as [|r0 ranges]; [congruence|]. intros _. simpl.
  assert (Hin := append_placed (Range.Range (fst r0) (snd r0)) r sw).
  apply in_map_iff in Hin. destruct Hin as [e [He Hin]].
  apply in_map_iff. exists e. split; [exact He|].
  now apply appends_incl.
Qed.

Lemma multiplex_by_rewired (signame muxname : string)
      (ranges : list (N * N)) (msg msg' : Message.t) :
  Bus.multiplex_by signame muxname ranges msg = Ok msg' ->
  rewired (nonempty ranges) msg msg'.
Proof.
  unfold Bus.multiplex_by. intros Hrun.
  destruct (dict_get String.eqb signame _) as [sig|]; [|discriminate].
  destruct (dict_get String.eqb muxname _) as [mux|]; [|discriminate].
  apply bind_Ok in Hrun. destruct Hrun as [m [Hm Hrun]].
  destruct (negb (Signal.is_multiplexor m)); [discriminate|].
  destruct (existsb _ _); [|discriminate].
  apply bind_Ok in Hrun. destruct Hrun as [L' [HL E]].
  injection E as <-.
  exists mux, sig, m,
    (fold_left (fun sw r0 =>
                  Switch.append (Range.Range (fst r0) (snd r0)) sig sw)
               ranges (Signal.switch m)), L'.
  repeat split.
  - exact Hm.
  - exact HL.
  - apply appends_incl.
  - apply appends_new.
  - intros Hne. apply appends_placed.
    destruct ranges; [discriminate Hne | congruence].
  - unfold Message.set_signals, Message.update_obj, Message.set_objs;
      simpl. f_equal.
    apply obj_Ok in Hm. now apply (update_nth_at _ _ _ _ m Hm).
Qed.

(** A property kept by every round of the second loop is kept by the
    step for messages with one multiplexor. *)
Lemma organize_inv (P : Message.t -> Prop) (msg msg' : Message.t) :
  (forall m m', P m -> rewired true m m' -> P m') ->
  P msg -> Bus.organize msg = Ok msg' -> P msg'.
Proof.
  intros HP Hmsg. unfold Bus.organize. intros Hrun.
  apply bind_Ok in Hrun. destruct Hrun as [[[mux multiplexed] k] [_ Hrun]].
  destruct (Nat.eqb k 1).
  - destruct mux as [mux|]; [|discriminate].
    apply (foldM_inv P (Bus.attach mux) multiplexed) with (s := msg);
      [|exact Hmsg|exact Hrun].
    intros m r m' _ Hm Hstep. apply (HP m m' Hm).
    now apply (attach_rewired mux m m' r).
  - injection Hrun as <-. exact Hmsg.
Qed.

Lemma list_remove_Ok (x : nat) (l l' : list nat) :
  Bus.list_remove x l = Ok l' ->
  In x l /\ incl l' l /\ (forall y, In y l -> y = x \/ In y l').
Proof.
  revert l'. induction l as [|y l IH]; intros l'; simpl; [discriminate|].
  destruct (Nat.eqb_spec y x) as [->|Hne].
  - intros E. injection E as <-. repeat split.
    + now left.
    + apply incl_tl, incl_refl.
    + intros z [<-|Hz]; [now left | now right].
  - intros Hrun. apply bind_Ok in Hrun. destruct Hrun as [l'' [Hl'' E]].
    injection E as <-. destruct (IH _ Hl'') as [Hin [Hincl Hcov]].
    repeat split.
    + now right.
    + intros z [<-|Hz]; [now left | right; now apply Hincl].
    + intros z [<-|Hz]; [right; now left|].
      destruct (Hcov z Hz) as [->|Hz']; [now left | right; now right].
Qed.
End Rewiring.

(** ** Transmitters *)

Section Transmitters.
Context `{FloatModel}.

Lemma append_loop_transmitters (l : list signal_dict) (m : Message.t) :
  Message.transmitters
    (fold_left (fun msg sig_d => Message.append (Signal.init sig_d) msg)
               l m)
  = Message.transmitters m.
Proof.
  revert m. induction l as [|x l IH]; intros m; simpl; [reflexivity|].
  now rewrite IH.
Qed.

Lemma rewired_transmitters (placed : bool) (msg msg' : Message.t) :
  rewired placed msg msg' ->
  Message.transmitters msg' = Message.transmitters msg.
Proof.
  intros [mux [r [m [sw' [L' [_ [_ [_ [_ [_ ->]]]]]]]]]]. reflexivity.
Qed.

Lemma str_in_In (x : string) (l : list string) :
  str_in x l = true <-> In x l.
Proof.
  unfold str_in. rewrite existsb_exists. split.
  - intros [y [Hy E]]. apply String.eqb_eq in E. now subst.
  - intros Hx. exists x. split; [exact Hx | apply String.eqb_refl].
Qed.

Lemma built_transmitters_NoDup (secs : list Sec) (msg : Message.t) :
  built secs msg -> NoDup (Message.transmitters msg).
Proof.
  induction 1 as [d Hd | msg nodes tx msg' Hb IH Hstep | msg c Hb IH
                  | msg a Hb IH | msg g Hb IH | msg ref f Hb IH Hf
                  | msg msg' Hb IH Hstep
                  | msg msg' id sn mn ranges Hin Hb IH Hstep].
  - unfold Bus.new_message. rewrite append_loop_transmitters. simpl.
    constructor; [intros [] | constructor].
  - unfold Bus.add_transmitter in Hstep.
    destruct (negb (dict_mem _ _ _)); [discriminate|].
    destruct (str_in tx (Message.transmitters msg)) eqn:Hin; simpl in Hstep;
      injection Hstep as <-; [exact IH|]. simpl.
    apply NoDup_app; [exact IH | constructor; [intros []|constructor] |].
    intros x Hx [<-|[]].
    apply str_in_In in Hx. congruence.
  - exact IH.
  - exact IH.
  - exact IH.
  - exact IH.
  - apply (organize_inv (fun m => NoDup (Message.transmitters m)) msg msg');
      [|exact IH|exact Hstep].
    intros m m' Hm Hr. now rewrite (rewired_transmitters _ _ _ Hr).
  - apply multiplex_by_rewired in Hstep.
    now rewrite (rewired_transmitters _ _ _ Hstep).
Qed.

(** C10: in a constructed bus the transmitters of every message are
    pairwise distinct. *)
Theorem transmitters_are_distinct (secs : list Sec) (b : Bus.t) :
  Bus.init secs = Ok b ->
  forall (id : N) (msg : Message.t),
    In (id, msg) (Bus.messages b) -> NoDup (Message.transmitters msg).
Proof.
  intros Hinit id msg Hin.
  apply (built_transmitters_NoDup secs).
  assert (Hall := init_built secs b Hinit).
  unfold all_built in Hall. rewrite Forall_forall in Hall.
  apply (Hall _ Hin).
Qed.
End Transmitters.

Lemma transmitters_are_distinct_witness :
  match @Bus.init literal_floats repeated_transmitters with
  | Ok b => Forall (fun kv => NoDup (Message.transmitters (snd kv)))
                   (Bus.messages b)
               /\ option_map (@Message.transmitters literal_floats)
                             (dict_get N.eqb 1%N (Bus.messages b))
                  = Some ["N"; "N2"]
  | Raise _ => False
  end.
Proof.
  destruct (@Bus.init literal_floats repeated_transmitters) as [b|e] eqn:E.
  - split.
    + apply Forall_forall. intros [id msg] Hin.
      exact (@transmitters_are_distinct literal_floats
               repeated_transmitters b E id msg Hin).
    + vm_compute in E. injection E as <-. reflexivity.
  - vm_compute in E. discriminate E.
Defined.

(** ** References and names of the signals of a message *)

Section Index.
Context `{FloatModel}.

Lemma In_switch_refs (msg : Message.t) (x : nat) :
  In x (switch_refs msg) <->
  exists j s, nth_error (Message.objs msg) j = Some s /\
              In x (map snd (Signal.switch s)).
Proof.
  unfold switch_refs. rewrite in_flat_map. split.
  - intros [s [Hs Hx]]. apply In_nth_error in Hs. destruct Hs as [j Hj].
    eauto.
  - intros [j [s [Hj Hx]]]. apply nth_error_In in Hj. eauto.
Qed.

Lemma dict_set_keys {V : Type} (k : string) (v : V) (d : dict string V) :
  dict_keys (dict_set String.eqb k v d) =
  if str_in k (dict_keys d) then dict_keys d
  else (dict_keys d ++ [k])%list.
Proof.
  induction d as [|[k0 v0] d IH]; simpl; [reflexivity|].
  destruct (String.eqb_spec k k0) as [<-|Hne]; simpl; [reflexivity|].
  unfold dict_keys in *. rewrite IH.
  destruct (str_in k (map fst d)); reflexivity.
Qed.

Lemma dict_set_NoDup {V : Type} (k : string) (v : V) (d : dict string V) :
  NoDup (dict_keys d) -> NoDup (dict_keys (dict_set String.eqb k v d)).
Proof.
  intros ND. rewrite dict_set_keys.
  destruct (str_in k (dict_keys d)) eqn:E; [exact ND|].
  apply NoDup_app; [exact ND | constructor; [intros []|constructor] |].
  intros x Hx [<-|[]]. apply str_in_In in Hx. congruence.
Qed.

Lemma dict_set_entries {V : Type} (k : string) (v : V) (d : dict string V)
      (k' : string) (v' : V) :
  In (k', v') (dict_set String.eqb k v d) ->
  (k' = k /\ v' = v) \/ In (k', v') d.
Proof.
  induction d as [|[k0 v0] d IH]; simpl.
  - intros [E|[]]. injection E as <- <-. now left.
  - destruct (String.eqb_spec k k0) as [<-|Hne].
    + intros [E|Hin]; [injection E as <- <-; now left|].
      right. now right.
    + intros [E|Hin]; [right; now left|].
      destruct (IH Hin) as [Hnew|Hold]; [now left | right; now right].
Qed.

Lemma dict_set_key_In {V : Type} (k : string) (v : V) (d : dict string V) :
  In k (dict_keys (dict_set String.eqb k v d)).
Proof.
  rewrite dict_set_keys. destruct (str_in k (dict_keys d)) eqn:E.
  - now apply str_in_In.
  - apply in_or_app. right. now left.
Qed.

Lemma dict_set_keys_incl {V : Type} (k : string) (v : V)
      (d : dict string V) :
  incl (dict_keys d) (dict_keys (dict_set String.eqb k v d)).
Proof.
  rewrite dict_set_keys. destruct (str_in k (dict_keys d)).
  - apply incl_refl.
  - apply incl_appl, incl_refl.
Qed.

(** *** Message.append *)

Lemma append_refs_valid (sg : Signal.t) (msg : Message.t) :
  Signal.switch sg = [] ->
  refs_valid msg -> refs_valid (Message.append sg msg).
Proof.
  intros Hsw [Hs [Hw Hd]].
  assert (Hgrow : forall r, valid_ref msg r ->
                            valid_ref (Message.append sg msg) r).
  { unfold valid_ref; simpl. intros r Hr. rewrite length_app. simpl. lia. }
  assert (Hnew : valid_ref (Message.append sg msg)
                           (List.length (Message.objs msg))).
  { unfold valid_ref; simpl. rewrite length_app. simpl. lia. }
  repeat split.
  - simpl. apply Forall_app. split.
    + eapply Forall_impl; [|exact Hs]. exact Hgrow.
    + constructor; [exact Hnew | constructor].
  - unfold switch_refs; simpl. rewrite flat_map_app. simpl.
    rewrite Hsw. simpl. rewrite app_nil_r.
    eapply Forall_impl; [|exact Hw]. exact Hgrow.
  - simpl. apply Forall_forall. intros [k r] Hin.
    apply dict_set_entries in Hin. destruct Hin as [[_ ->]|Hin].
    + exact Hnew.
    + rewrite Forall_forall in Hd. apply Hgrow. apply (Hd _ Hin).
Qed.

Lemma append_names_indexed (sg : Signal.t) (msg : Message.t) :
  refs_valid msg ->
  names_indexed msg -> names_indexed (Message.append sg msg).
Proof.
  intros [_ [_ Hd]] [ND [Hname Hkey]]. repeat split.
  - simpl. now apply dict_set_NoDup.
  - simpl. intros k ref Hin. unfold name_of; simpl.
    apply dict_set_entries in Hin. destruct Hin as [[-> ->]|Hin].
    + rewrite nth_error_app2 by lia. rewrite Nat.sub_diag. reflexivity.
    + rewrite Forall_forall in Hd. assert (V := Hd _ Hin).
      unfold valid_ref in V. simpl in V.
      rewrite nth_error_app1 by exact V. apply (Hname _ _ Hin).
  - simpl. intros ref s Hs.
    destruct (Nat.lt_ge_cases ref (List.length (Message.objs msg)))
      as [Hlt|Hge].
    + rewrite nth_error_app1 in Hs by exact Hlt.
      apply dict_set_keys_incl. apply (Hkey _ _ Hs).
    + rewrite nth_error_app2 in Hs by exact Hge.
      destruct (ref - List.length (Message.objs msg)) as [|n] eqn:E;
        simpl in Hs.
      * injection Hs as <-. apply dict_set_key_In.
      * destruct n; discriminate Hs.
Qed.

Lemma new_message_indexed (d : message_dict) :
  refs_valid (Bus.new_message d) /\ names_indexed (Bus.new_message d).
Proof.
  unfold Bus.new_message.
  assert (Hloop : forall l m,
             refs_valid m /\ names_indexed m ->
             refs_valid (fold_left
                           (fun msg sig_d =>
                              Message.append (Signal.init sig_d) msg) l m)
             /\ names_indexed
                  (fold_left
                     (fun msg sig_d =>
                        Message.append (Signal.init sig_d) msg) l m)).
  { induction l as [|x l IH]; intros m [Hv Hn]; simpl; [now split|].
    apply IH. split.
    - now apply append_refs_valid.
    - now apply append_names_indexed. }
  apply Hloop. split.
  - repeat split; constructor.
  - repeat split; simpl.
    + constructor.
    + intros k ref [].
    + intros [|ref] s Hs; discriminate Hs.
Qed.

(** *** A change of one object *)

Lemma update_obj_valid (ref : nat) (f : Signal.t -> Signal.t)
      (msg : Message.t) (r : nat) :
  valid_ref (Message.update_obj ref f msg) r <-> valid_ref msg r.
Proof.
  unfold valid_ref; simpl. now rewrite update_nth_length.
Qed.

Lemma update_obj_name_of (ref : nat) (f : Signal.t -> Signal.t)
      (msg : Message.t) (r : nat) :
  (forall s, Signal.name (f s) = Signal.name s) ->
  name_of (Message.update_obj ref f msg) r = name_of msg r.
Proof.
  intros Hf. unfold name_of; simpl. rewrite nth_error_update_nth.
  destruct (Nat.eqb r ref); [|reflexivity].
  destruct (nth_error (Message.objs msg) r); simpl; [|reflexivity].
  now rewrite Hf.
Qed.

Lemma update_obj_names (ref : nat) (f : Signal.t -> Signal.t)
      (msg : Message.t) :
  (forall s, Signal.name (f s) = Signal.name s) ->
  map Signal.name (Message.objs (Message.update_obj ref f msg)) =
  map Signal.name (Message.objs msg).
Proof.
  intros Hf. simpl. generalize (Message.objs msg). intros l.
  revert ref. induction l as [|s l IH]; intros [|ref]; simpl;
    try reflexivity.
  - now rewrite Hf.
  - now rewrite IH.
Qed.

(** The switches after the switch of [mux] was replaced by [sw']. *)
Lemma switch_refs_rewired (mux : nat) (sw' : Switch.t) (msg : Message.t)
      (m : Signal.t) (x : nat) :
  nth_error (Message.objs msg) mux = Some m ->
  (In x (switch_refs (Message.update_obj mux (Signal.set_switch sw') msg))
   <->
   In x (map snd sw') \/
   exists j s, j <> mux /\ nth_error (Message.objs msg) j = Some s /\
               In x (map snd (Signal.switch s))).
Proof.
  intros Hm. rewrite In_switch_refs. simpl. split.
  - intros [j [s [Hj Hx]]]. rewrite nth_error_update_nth in Hj.
    destruct (Nat.eqb_spec j mux) as [->|Hne].
    + rewrite Hm in Hj. simpl in Hj. injection Hj as <-. now left.
    + right. eauto.
  - intros [Hx|[j [s [Hne [Hj Hx]]]]].
    + exists mux, (Signal.set_switch sw' m).
      rewrite nth_error_update_nth, Nat.eqb_refl, Hm. now split.
    + exists j, s. rewrite nth_error_update_nth.
      destruct (Nat.eqb_spec j mux); [contradiction|]. now split.
Qed.

Lemma switch_refs_decorated (ref : nat) (f : Signal.t -> Signal.t)
      (msg : Message.t) :
  (forall s, Signal.switch (f s) = Signal.switch s) ->
  switch_refs (Message.update_obj ref f msg) = switch_refs msg.
Proof.
  intros Hf. unfold switch_refs; simpl.
  generalize (Message.objs msg). intros l.
  revert ref. induction l as [|s l IH]; intros [|ref]; simpl;
    try reflexivity.
  - now rewrite Hf.
  - now rewrite IH.
Qed.

Lemma decorated_refs_valid (ref : nat) (f : Signal.t -> Signal.t)
      (msg : Message.t) :
  decoration f -> refs_valid msg ->
  refs_valid (Message.update_obj ref f msg).
Proof.
  intros Hf [Hs [Hw Hd]]. repeat split.
  - simpl. eapply Forall_impl; [|exact Hs].
    intros r. apply update_obj_valid.
  - rewrite switch_refs_decorated by (intros s; apply Hf).
    eapply Forall_impl; [|exact Hw]. intros r. apply update_obj_valid.
  - simpl. eapply Forall_impl; [|exact Hd].
    intros kv. apply (update_obj_valid ref f msg).
Qed.

Lemma decorated_names_indexed (ref : nat) (f : Signal.t -> Signal.t)
      (msg : Message.t) :
  (forall s, Signal.name (f s) = Signal.name s) ->
  names_indexed msg -> names_indexed (Message.update_obj ref f msg).
Proof.
  intros Hf [ND [Hname Hkey]]. repeat split.
  - exact ND.
  - intros k r Hin. rewrite update_obj_name_of by exact Hf.
    now apply Hname.
  - simpl. intros r s Hs. rewrite nth_error_update_nth in Hs.
    destruct (Nat.eqb r ref).
    + destruct (nth_error (Message.objs msg) r) as [s0|] eqn:E;
        [|discriminate]. simpl in Hs. injection Hs as <-.
      rewrite Hf. now apply (Hkey r).
    + now apply (Hkey r).
Qed.

Lemma rewired_refs_valid (placed : bool) (msg msg' : Message.t) :
  rewired placed msg msg' -> refs_valid msg -> refs_valid msg'.
Proof.
  intros [mux [r [m [sw' [L' [Hm [HL [Hincl [Hnew [_ ->]]]]]]]]]]
         [Hs [Hw Hd]].
  apply obj_Ok in Hm.
  apply list_remove_Ok in HL. destruct HL as [Hr [HL _]].
  rewrite Forall_forall in Hs, Hw.
  repeat split.
  - simpl. apply Forall_forall. intros x Hx.
    apply (update_obj_valid mux _ msg). apply Hs. now apply HL.
  - apply Forall_forall. intros x Hx.
    apply (update_obj_valid mux (Signal.set_switch sw') msg).
    change (switch_refs
              (Message.set_signals L'
                 (Message.update_obj mux (Signal.set_switch sw') msg)))
      with (switch_refs
              (Message.update_obj mux (Signal.set_switch sw') msg)) in Hx.
    apply (switch_refs_rewired mux sw' msg m x Hm) in Hx.
    destruct Hx as [Hx|[j [s [_ [Hj Hx]]]]].
    + apply in_map_iff in Hx. destruct Hx as [e [<- He]].
      destruct (Hnew e He) as [Hold | ->].
      * apply Hw. apply In_switch_refs. exists mux, m. split; [exact Hm|].
        now apply in_map.
      * now apply Hs.
    + apply Hw. apply In_switch_refs. eauto.
  - simpl. eapply Forall_impl; [|exact Hd].
    intros kv. apply (update_obj_valid mux _ msg).
Qed.

Lemma rewired_names_indexed (placed : bool) (msg msg' : Message.t) :
  rewired placed msg msg' -> names_indexed msg -> names_indexed msg'.
Proof.
  intros [mux [r [m [sw' [L' [_ [_ [_ [_ [_ ->]]]]]]]]]] Hn.
  apply (decorated_names_indexed mux (Signal.set_switch sw') msg) in Hn;
    [exact Hn | reflexivity].
Qed.

(** The references of a message of the builder are valid, and its
    dictionary indexes its signals by name. *)
Lemma built_indexed (secs : list Sec) (msg : Message.t) :
  built secs msg -> refs_valid msg /\ names_indexed msg.
Proof.
  induction 1 as [d Hd | msg nodes tx msg' Hb IH Hstep | msg c Hb IH
                  | msg a Hb IH | msg g Hb IH | msg ref f Hb IH Hf
                  | msg msg' Hb IH Hstep
                  | msg msg' id sn mn ranges Hin Hb IH Hstep].
  - apply new_message_indexed.
  - unfold Bus.add_transmitter in Hstep.
    destruct (negb (dict_mem _ _ _)); [discriminate|].
    destruct (negb (str_in _ _)); injection Hstep as <-; exact IH.
  - exact IH.
  - exact IH.
  - exact IH.
  - destruct IH as [Hv Hn]. split.
    + now apply decorated_refs_valid.
    + apply decorated_names_indexed; [|exact Hn]. intros s. apply Hf.
  - apply (organize_inv (fun m => refs_valid m /\ names_indexed m)
                        msg msg'); [|exact IH|exact Hstep].
    intros m m' [Hv Hn] Hr. split.
    + now apply (rewired_refs_valid true m m').
    + now apply (rewired_names_indexed true m m').
  - apply multiplex_by_rewired in Hstep. destruct IH as [Hv Hn]. split.
    + exact (rewired_refs_valid _ msg msg' Hstep Hv).
    + exact (rewired_names_indexed _ msg msg' Hstep Hn).
Qed.
End Index.

(** ** Signal names *)

Section Names.
Context `{FloatModel}.
Variable secs : list Sec.

Lemma append_loop_objs (l : list signal_dict) (m : Message.t) :
  Message.objs
    (fold_left (fun msg sig_d => Message.append (Signal.init sig_d) msg)
               l m)
  = (Message.objs m ++ map Signal.init l)%list.
Proof.
  revert m. induction l as [|x l IH]; intros m; simpl.
  - now rewrite app_nil_r.
  - rewrite IH. simpl. now rewrite <- app_assoc.
Qed.

Lemma append_placed_all (sg : Signal.t) (msg : Message.t) :
  all_placed msg -> all_placed (Message.append sg msg).
Proof.
  intros Hp ref V. unfold valid_ref in V. simpl in V.
  rewrite length_app in V. simpl in V.
  unfold placed_refs, switch_refs. simpl. rewrite flat_map_app.
  destruct (Nat.eq_dec ref (List.length (Message.objs msg))) as [->|Hne].
  - apply in_or_app. left. apply in_or_app. right. now left.
  - assert (V' : valid_ref msg ref) by (unfold valid_ref; lia).
    apply Hp in V'. unfold placed_refs in V'. apply in_app_or in V'.
    apply in_or_app. destruct V' as [Hs|Hw].
    + left. apply in_or_app. now left.
    + right. apply in_or_app. now left.
Qed.

Lemma new_message_placed (d : message_dict) :
  all_placed (Bus.new_message d).
Proof.
  unfold Bus.new_message.
  assert (Hloop : forall l m,
             all_placed m ->
             all_placed (fold_left
                           (fun msg sig_d =>
                              Message.append (Signal.init sig_d) msg) l m)).
  { induction l as [|x l IH]; intros m Hm; simpl; [exact Hm|].
    apply IH. now apply append_placed_all. }
  apply Hloop. intros ref V. unfold valid_ref in V. simpl in V. lia.
Qed.

Lemma rewired_placed (msg msg' : Message.t) :
  rewired true msg msg' -> all_placed msg -> all_placed msg'.
Proof.
  intros [mux [r [m [sw' [L' [Hm [HL [Hincl [Hnew [Hin ->]]]]]]]]]] Hp.
  apply obj_Ok in Hm.
  apply list_remove_Ok in HL. destruct HL as [Hr [HL Hcov]].
  intros ref V.
  apply (update_obj_valid mux (Signal.set_switch sw') msg) in V.
  apply Hp in V. unfold placed_refs in *. apply in_app_or in V.
  apply in_or_app.
  change (switch_refs
            (Message.set_signals L'
               (Message.update_obj mux (Signal.set_switch sw') msg)))
    with (switch_refs
            (Message.update_obj mux (Signal.set_switch sw') msg)).
  rewrite (switch_refs_rewired mux sw' msg m ref Hm). simpl.
  destruct V as [Hs|Hw].
  - destruct (Hcov ref Hs) as [->|Hl]; [|now left].
    right. left. now apply Hin.
  - right. apply In_switch_refs in Hw. destruct Hw as [j [s [Hj Hx]]].
    destruct (Nat.eq_dec j mux) as [->|Hne].
    + left. rewrite Hm in Hj. injection Hj as <-.
      apply in_map_iff in Hx. destruct Hx as [e [He Hx]].
      apply in_map_iff. exists e. split; [exact He | now apply Hincl].
    + right. eauto.
Qed.

Lemma built_placed (msg : Message.t) :
  ranges_given secs -> built secs msg -> all_placed msg.
Proof.
  intros Hranges.
  induction 1 as [d Hd | msg nodes tx msg' Hb IH Hstep | msg c Hb IH
                  | msg a Hb IH | msg g Hb IH | msg ref f Hb IH Hf
                  | msg msg' Hb IH Hstep
                  | msg msg' id sn mn ranges Hin Hb IH Hstep].
  - apply new_message_placed.
  - unfold Bus.add_transmitter in Hstep.
    destruct (negb (dict_mem _ _ _)); [discriminate|].
    destruct (negb (str_in _ _)); injection Hstep as <-; exact IH.
  - exact IH.
  - exact IH.
  - exact IH.
  - intros r V. apply update_obj_valid in V. apply IH in V.
    unfold placed_refs in *.
    rewrite switch_refs_decorated by (intros s; apply Hf). exact V.
  - apply (organize_inv all_placed msg msg'); [|exact IH|exact Hstep].
    intros m m' Hm Hr. now apply (rewired_placed m m').
  - apply multiplex_by_rewired in Hstep.
    assert (Hne : nonempty ranges = true).
    { specialize (Hranges _ _ _ _ Hin). destruct ranges; [congruence|].
      reflexivity. }
    rewrite Hne in Hstep. now apply (rewired_placed msg msg').
Qed.

Lemma rewired_names_distinct (placed : bool) (msg msg' : Message.t) :
  rewired placed msg msg' -> names_distinct msg -> names_distinct msg'.
Proof.
  intros [mux [r [m [sw' [L' [_ [_ [_ [_ [_ ->]]]]]]]]]] Hn.
  unfold names_distinct in *.
  change (Message.objs
            (Message.set_signals L'
               (Message.update_obj mux (Signal.set_switch sw') msg)))
    with (Message.objs
            (Message.update_obj mux (Signal.set_switch sw') msg)).
  rewrite update_obj_names; [exact Hn | reflexivity].
Qed.

Lemma built_names_distinct (msg : Message.t) :
  distinct_signal_names secs -> built secs msg -> names_distinct msg.
Proof.
  intros Hnames.
  induction 1 as [d Hd | msg nodes tx msg' Hb IH Hstep | msg c Hb IH
                  | msg a Hb IH | msg g Hb IH | msg ref f Hb IH Hf
                  | msg msg' Hb IH Hstep
                  | msg msg' id sn mn ranges Hin Hb IH Hstep].
  - unfold names_distinct, Bus.new_message. rewrite append_loop_objs.
    simpl. rewrite map_map. simpl. apply (Hnames d Hd).
  - unfold Bus.add_transmitter in Hstep.
    destruct (negb (dict_mem _ _ _)); [discriminate|].
    destruct (negb (str_in _ _)); injection Hstep as <-; exact IH.
  - exact IH.
  - exact IH.
  - exact IH.
  - unfold names_distinct. rewrite update_obj_names; [exact IH|].
    intros s. apply Hf.
  - apply (organize_inv names_distinct msg msg'); [|exact IH|exact Hstep].
    intros m m' Hm Hr. now apply (rewired_names_distinct true m m').
  - apply multiplex_by_rewired in Hstep.
    exact (rewired_names_distinct _ msg msg' Hstep IH).
Qed.

Lemma placed_reachable (msg : Message.t) :
  all_placed msg -> no_cycle msg ->
  forall ref, valid_ref msg ref -> reachable msg ref.
Proof.
  intros Hp [depth Hdepth].
  assert (Hall : forall k ref, depth ref < k -> valid_ref msg ref ->
                               reachable msg ref).
  { induction k as [|k IH]; intros ref Hk V; [lia|].
    assert (Hin := Hp ref V). unfold placed_refs in Hin.
    apply in_app_or in Hin. destruct Hin as [Htop|Hsw].
    - now apply reachable_top.
    - apply In_switch_refs in Hsw. destruct Hsw as [mux [m [Hm Hx]]].
      apply in_map_iff in Hx. destruct Hx as [e [<- He]].
      apply (reachable_switch msg mux m e); [|exact Hm|exact He].
      apply IH.
      + specialize (Hdepth mux m e Hm He). lia.
      + unfold valid_ref. apply nth_error_Some. congruence. }
  intros ref V. apply (Hall (S (depth ref)) ref); [lia | exact V].
Qed.

(** C2, as the code has it: when the [BO_] sections give the signals of
    each message distinct names and every [SG_MUL_VAL_] section has a
    range, then in every message of the constructed bus whose switches
    hold no cycle the keys of [signals_dict] are distinct, they are the
    names of the signals that are reachable from the top-level list
    through the switches, and no two of these signals have the same
    name. *)
Theorem signal_names_index_reachable_signals (b : Bus.t) :
  distinct_signal_names secs -> ranges_given secs ->
  Bus.init secs = Ok b ->
  forall (id : N) (msg : Message.t),
    In (id, msg) (Bus.messages b) ->
    no_cycle msg ->
    NoDup (dict_keys (Message.signals_dict msg)) /\
    (forall k,
        In k (dict_keys (Message.signals_dict msg)) <->
        exists ref, reachable msg ref /\ name_of msg ref = Some k) /\
    (forall r1 r2 k,
        reachable msg r1 -> reachable msg r2 ->
        name_of msg r1 = Some k -> name_of msg r2 = Some k -> r1 = r2).
Proof.
  intros Hnames Hranges Hinit id msg Hin Hacyclic.
  assert (Hb : built secs msg).
  { assert (Hall := init_built secs b Hinit).
    unfold all_built in Hall. rewrite Forall_forall in Hall.
    apply (Hall _ Hin). }
  destruct (built_indexed secs msg Hb) as [[_ [_ Hd]] [ND [Hname Hkey]]].
  assert (Hp := built_placed msg Hranges Hb).
  assert (Hreach := placed_reachable msg Hp Hacyclic).
  assert (Hdist := built_names_distinct msg Hnames Hb).
  split; [exact ND|]. split.
  - intros k. split.
    + intros Hk. unfold dict_keys in Hk. apply in_map_iff in Hk.
      destruct Hk as [[k' ref] [E Hk]]. simpl in E. subst k'.
      exists ref. split; [|now apply Hname].
      apply Hreach. rewrite Forall_forall in Hd. apply (Hd _ Hk).
    + intros [ref [_ Hk]]. unfold name_of in Hk.
      destruct (nth_error (Message.objs msg) ref) as [s|] eqn:E;
        [|discriminate]. simpl in Hk. injection Hk as <-.
      now apply (Hkey ref).
  - intros r1 r2 k _ _ H1 H2. unfold name_of in H1, H2.
    unfold names_distinct in Hdist.
    rewrite <- nth_error_map in H1, H2.
    rewrite NoDup_nth_error in Hdist. apply Hdist.
    + apply nth_error_Some. congruence.
    + congruence.
Qed.

Lemma nothing_reachable (msg : Message.t) :
  Message.signals msg = [] -> forall ref, ~ reachable msg ref.
Proof.
  intros Hnil ref Hr.
  induction Hr as [ref Hin | mux m e Hr IH Hm He]; [|exact IH].
  rewrite Hnil in Hin. destruct Hin.
Qed.
End Names.

Lemma signal_names_index_reachable_signals_witness :
  match built_message scenario_3_AB 100 with
  | Some msg =>
      Message.signals msg = [0] /\
      dict_keys (Message.signals_dict msg) = ["Sel"; "A"; "B"] /\
      (forall k,
          In k (dict_keys (Message.signals_dict msg)) <->
          exists ref,
            @reachable literal_floats msg ref /\ name_of msg ref = Some k)
  | None => False
  end.
Proof.
  unfold built_message.
  destruct (@Bus.init literal_floats scenario_3_AB) as [b|e] eqn:E.
  - destruct (dict_get N.eqb 100%N (Bus.messages b)) as [msg|] eqn:Hget.
    + assert (Hin : In (100%N, msg) (Bus.messages b)).
      { vm_compute in E. injection E as <-. vm_compute in Hget.
        injection Hget as <-. left. reflexivity. }
      assert (Hnames : @distinct_signal_names literal_floats scenario_3_AB).
      { intros d [D|[D|[D|[D|[]]]]]; try discriminate D.
        injection D as <-. simpl.
        repeat constructor; simpl; intuition discriminate. }
      assert (Hranges : @ranges_given literal_floats scenario_3_AB).
      { intros id sn mn ranges [D|[D|[D|[D|[]]]]]; discriminate D. }
      assert (Hacyclic : @no_cycle literal_floats msg).
      { vm_compute in E. injection E as <-. vm_compute in Hget.
        injection Hget as <-.
        exists (fun r => match r with 0 => 0 | _ => 1 end).
        intros [|[|[|mux]]] m e Hm He; simpl in Hm;
          try (injection Hm as <-; simpl in He);
          try discriminate Hm.
        - destruct He as [<-|[<-|[]]]; simpl; lia.
        - destruct He.
        - destruct He.
        - destruct mux; discriminate Hm. }
      destruct (@signal_names_index_reachable_signals literal_floats
                  scenario_3_AB b Hnames Hranges E 100%N msg Hin Hacyclic)
        as [_ [Hbij _]].
      vm_compute in E. injection E as <-. vm_compute in Hget.
      injection Hget as <-.
      split; [reflexivity|]. split; [reflexivity|]. exact Hbij.
    + vm_compute in E. injection E as <-. vm_compute in Hget.
      discriminate Hget.
  - vm_compute in E. discriminate E.
Defined.

(** C2 as stated fails at the third scenario of the specification: the
    two signals of message 100 that are in the switch of [Sel] are both
    named [A], and [signals_dict] has the two keys [Sel] and [A] for the
    three signals.  It fails when a [SG_MUL_VAL_] section without range
    takes a signal out of the top-level list: [P] is a key of
    [signals_dict], and no signal is left in the list or in a switch
    under that name.  And it fails, for section lists with distinct
    signal names and ranges in every [SG_MUL_VAL_] section, when
    switches hold a cycle: a multiplexor that has a multiplex value is
    put into its own switch, two multiplexors can be put into the
    switch of each other, and then the top-level list is empty and no
    signal is reachable, while [signals_dict] has their names. *)
Lemma signal_names_without_reachable_signals :
  (exists msg,
      built_message scenario_3 100 = Some msg /\
      placed_refs msg = [0; 1; 2] /\
      reachable msg 1 /\ reachable msg 2 /\
      name_of msg 1 = Some "A" /\ name_of msg 2 = Some "A" /\
      dict_keys (Message.signals_dict msg) = ["Sel"; "A"]) /\
  (exists msg,
      built_message no_ranges 100 = Some msg /\
      placed_refs msg = [0] /\
      (forall ref, reachable msg ref -> ref = 0) /\
      name_of msg 0 = Some "Sel" /\
      dict_keys (Message.signals_dict msg) = ["Sel"; "P"]) /\
  (distinct_signal_names self_multiplexed /\
   ranges_given self_multiplexed /\
   exists msg,
     built_message self_multiplexed 100 = Some msg /\
     Message.signals msg = [] /\
     (forall ref, ~ reachable msg ref) /\
     dict_keys (Message.signals_dict msg) = ["Sel"]) /\
  (distinct_signal_names multiplexed_in_a_cycle /\
   ranges_given multiplexed_in_a_cycle /\
   exists msg,
     built_message multiplexed_in_a_cycle 100 = Some msg /\
     Message.signals msg = [] /\
     (forall ref, ~ reachable msg ref) /\
     dict_keys (Message.signals_dict msg) = ["A"; "B"]).
Proof.
  split; [|split; [|split]].
  - eexists. split; [vm_compute; reflexivity|].
    split; [reflexivity|].
    assert (H0 : @reachable literal_floats
                   (Message.set_signals [0]
                      (Message.update_obj 0
                         (Signal.set_switch [(Range.Range 0%N 0%N, 1);
                                             (Range.Range 2%N 2%N, 2)])
                         (Bus.new_message message_100))) 0)
      by (apply reachable_top; left; reflexivity).
    split; [|split].
    + exact (reachable_switch _ 0 _ (Range.Range 0%N 0%N, 1) H0 eq_refl
                              (or_introl eq_refl)).
    + exact (reachable_switch _ 0 _ (Range.Range 2%N 2%N, 2) H0 eq_refl
                              (or_intror (or_introl eq_refl))).
    + repeat split; reflexivity.
  - eexists. split; [vm_compute; reflexivity|].
    split; [reflexivity|]. split; [|split; reflexivity].
    intros ref Hr.
    induction Hr as [ref Hin | mux m e Hr IH Hm He].
    + destruct Hin as [<-|[]]. reflexivity.
    + subst mux. simpl in Hm. injection Hm as <-. destruct He.
  - split; [|split].
    + intros d [D|[D|[D|[D|[]]]]]; try discriminate D.
      injection D as <-. simpl. repeat constructor. intros [].
    + intros id sn mn ranges [D|[D|[D|[D|[]]]]]; discriminate D.
    + eexists. split; [vm_compute; reflexivity|].
      split; [reflexivity|]. split; [|reflexivity].
      now apply nothing_reachable.
  - split; [|split].
    + intros d [D|[D|[D|[D|[D|[D|[]]]]]]]; try discriminate D.
      injection D as <-. simpl.
      repeat constructor; simpl; intuition discriminate.
    + intros id sn mn ranges [D|[D|[D|[D|[D|[D|[]]]]]]];
        try discriminate D; injection D as _ _ _ <-; discriminate.
    + eexists. split; [vm_compute; reflexivity|].
      split; [reflexivity|]. split; [|reflexivity].
      now apply nothing_reachable.
Qed.

(** ** diff *)

Section Comparisons.
Context {A : Type} (eqb : A -> A -> bool).
Hypothesis eqb_spec : forall x y, eqb x y = true <-> x = y.

Lemma set_diff_nil_incl (a b : list A) :
  set_diff eqb a b = [] <-> incl a b.
Proof.
  unfold set_diff. induction a as [|x a IH]; simpl.
  - split; [intros _ y [] | reflexivity].
  - destruct (existsb (eqb x) b) eqn:E; simpl.
    + rewrite IH. apply existsb_exists in E. destruct E as [y [Hy E]].
      apply eqb_spec in E. subst y. split.
      * intros Hincl z [<-|Hz]; [exact Hy | now apply Hincl].
      * intros Hincl z Hz. apply Hincl. now right.
    + split; [discriminate|]. intros Hincl. exfalso.
      assert (Hx : In x b) by (apply Hincl; now left).
      assert (E' : existsb (eqb x) b = true).
      { apply existsb_exists. exists x. split; [exact Hx|].
        now apply eqb_spec. }
      congruence.
Qed.

Lemma nonempty_false (l : list A) : nonempty l = false <-> l = [].
Proof. destruct l; simpl; split; congruence. Qed.

(** [unique_own or unique_other] is false exactly when the two sets
    are the same. *)
Lemma sets_same (a b : list A) :
  nonempty (set_diff eqb a b) || nonempty (set_diff eqb b a) = false <->
  incl a b /\ incl b a.
Proof.
  rewrite orb_false_iff, !nonempty_false, !set_diff_nil_incl. tauto.
Qed.
End Comparisons.

Section DictEquality.
Context {K V : Type} (keq : K -> K -> bool) (veq : V -> V -> bool).

Lemma opt_eqb_refl (x : option V) :
  (forall v, veq v v = true) -> opt_eqb veq x x = true.
Proof. intros Hv. destruct x; simpl; auto. Qed.

Lemma opt_eqb_sym (x y : option V) :
  (forall v w, veq v w = veq w v) -> opt_eqb veq x y = opt_eqb veq y x.
Proof. intros Hv. destruct x, y; simpl; auto. Qed.

Lemma dict_eqb_refl (d : dict K V) :
  (forall v, veq v v = true) -> dict_eqb keq veq d d = true.
Proof.
  intros Hv. unfold dict_eqb. apply forallb_forall.
  intros k _. now apply opt_eqb_refl.
Qed.

Lemma dict_eqb_sym (a b : dict K V) :
  (forall v w, veq v w = veq w v) ->
  dict_eqb keq veq a b = dict_eqb keq veq b a.
Proof.
  intros Hv. unfold dict_eqb. apply eq_true_iff_eq.
  rewrite !forallb_forall. split; intros Hall k Hk.
  - rewrite opt_eqb_sym by exact Hv. apply Hall.
    apply in_or_app. apply in_app_or in Hk. tauto.
  - rewrite opt_eqb_sym by exact Hv. apply Hall.
    apply in_or_app. apply in_app_or in Hk. tauto.
Qed.
End DictEquality.

Lemma strs_eqb_refl (l : list string) : Message.strs_eqb l l = true.
Proof. unfold Message.strs_eqb. destruct (list_eq_dec _ l l); congruence. Qed.

Lemma strs_eqb_sym (a b : list string) :
  Message.strs_eqb a b = Message.strs_eqb b a.
Proof.
  unfold Message.strs_eqb.
  destruct (list_eq_dec _ a b), (list_eq_dec _ b a); congruence.
Qed.

Lemma string_append_nonempty (a b : string) :
  a <> EmptyString -> (a ++ b)%string <> EmptyString.
Proof. destruct a; simpl; congruence. Qed.

Section Values.
Context `{FloatModel}.

Lemma lit_eqb_refl (v : Literal) : Message.lit_eqb v v = true.
Proof.
  destruct v; simpl.
  - apply Z.eqb_refl.
  - apply float_eqb_refl.
  - apply String.eqb_refl.
Qed.

Lemma lit_eqb_sym (v w : Literal) :
  Message.lit_eqb v w = Message.lit_eqb w v.
Proof.
  destruct v, w; simpl; try reflexivity.
  - apply Z.eqb_sym.
  - apply float_eqb_sym.
  - apply String.eqb_sym.
Qed.

Lemma node_eqb_refl (n : Bus.node) : Bus.node_eqb n n = true.
Proof.
  unfold Bus.node_eqb. rewrite strs_eqb_refl. simpl.
  apply dict_eqb_refl. exact lit_eqb_refl.
Qed.

Lemma node_eqb_sym (n n' : Bus.node) :
  Bus.node_eqb n n' = Bus.node_eqb n' n.
Proof.
  unfold Bus.node_eqb. rewrite strs_eqb_sym. f_equal.
  apply dict_eqb_sym. exact lit_eqb_sym.
Qed.

Lemma attr_type_eqb_refl (t : attr_type) : Bus.attr_type_eqb t t = true.
Proof.
  destruct t; simpl; rewrite ?Z.eqb_refl, ?float_eqb_refl, ?strs_eqb_refl;
    reflexivity.
Qed.

Lemma attr_type_eqb_sym (t t' : attr_type) :
  Bus.attr_type_eqb t t' = Bus.attr_type_eqb t' t.
Proof.
  destruct t, t'; simpl; try reflexivity.
  - now rewrite (Z.eqb_sym lo), (Z.eqb_sym hi).
  - now rewrite (Z.eqb_sym lo), (Z.eqb_sym hi).
  - now rewrite (float_eqb_sym lo), (float_eqb_sym hi).
  - apply strs_eqb_sym.
Qed.

(** [Signal.diff] answers [''] exactly for signals with the same
    line. *)
Lemma signal_diff_empty (s s' : Signal.t) :
  Signal.diff s s' = EmptyString <-> Signal.dbc s = Signal.dbc s'.
Proof.
  unfold Signal.diff.
  destruct (String.eqb_spec (Signal.dbc s) (Signal.dbc s')) as [E|E];
    simpl.
  - tauto.
  - split; [discriminate | contradiction].
Qed.

Lemma group_diff_empty (g g' : SignalGroup.t) :
  SignalGroup.diff g g' = EmptyString <->
  SignalGroup.set_neq (SignalGroup.names g) (SignalGroup.names g') = false.
Proof.
  unfold SignalGroup.diff.
  destruct (SignalGroup.set_neq _ _); simpl.
  - split; discriminate.
  - tauto.
Qed.
End Values.

Section DiffEmpty.
Context `{FloatModel}.

Lemma diff_signals_None (a b : Message.t) (ks : list string) :
  Message.diff_signals a b ks = Ok None <->
  (forall k, In k ks ->
             exists sa sb, Message.signal_named a k = Ok sa /\
                           Message.signal_named b k = Ok sb /\
                           Signal.dbc sa = Signal.dbc sb).
Proof.
  induction ks as [|k ks IH]; simpl.
  - split; [intros _ k [] | reflexivity].
  - destruct (Message.signal_named a k) as [sa|e] eqn:Ea; simpl.
    + destruct (Message.signal_named b k) as [sb|e] eqn:Eb; simpl.
      * destruct (String.eqb_spec (Signal.diff sa sb) EmptyString)
          as [E|E]; simpl.
        -- rewrite IH. apply signal_diff_empty in E. split.
           ++ intros Hall k' [<-|Hk']; [eauto | now apply Hall].
           ++ intros Hall k' Hk'. apply Hall. now right.
        -- split; [discriminate|]. intros Hall. exfalso.
           destruct (Hall k (or_introl eq_refl)) as [sa' [sb' [E1 [E2 E3]]]].
           rewrite Ea in E1. rewrite Eb in E2.
           injection E1 as <-. injection E2 as <-.
           apply E. now apply signal_diff_empty.
      * split; [discriminate|]. intros Hall. exfalso.
        destruct (Hall k (or_introl eq_refl)) as [sa' [sb' [_ [E2 _]]]].
        rewrite Eb in E2. discriminate E2.
    + split; [discriminate|]. intros Hall. exfalso.
      destruct (Hall k (or_introl eq_refl)) as [sa' [sb' [E1 _]]].
      rewrite Ea in E1. discriminate E1.
Qed.

Lemma diff_groups_None (a b : Message.t) (ks : list string) :
  Message.diff_groups a b ks = Ok None <->
  (forall k, In k ks ->
             exists ga gb, Message.group_named a k = Ok ga /\
                           Message.group_named b k = Ok gb /\
                           SignalGroup.set_neq (SignalGroup.names ga)
                                               (SignalGroup.names gb)
                           = false).
Proof.
  induction ks as [|k ks IH]; simpl.
  - split; [intros _ k [] | reflexivity].
  - destruct (Message.group_named a k) as [ga|e] eqn:Ea; simpl.
    + destruct (Message.group_named b k) as [gb|e] eqn:Eb; simpl.
      * destruct (String.eqb_spec (SignalGroup.diff ga gb) EmptyString)
          as [E|E]; simpl.
        -- rewrite IH. apply group_diff_empty in E. split.
           ++ intros Hall k' [<-|Hk']; [eauto | now apply Hall].
           ++ intros Hall k' Hk'. apply Hall. now right.
        -- split; [discriminate|]. intros Hall. exfalso.
           destruct (Hall k (or_introl eq_refl)) as [ga' [gb' [E1 [E2 E3]]]].
           rewrite Ea in E1. rewrite Eb in E2.
           injection E1 as <-. injection E2 as <-.
           apply E. now apply group_diff_empty.
      * split; [discriminate|]. intros Hall. exfalso.
        destruct (Hall k (or_introl eq_refl)) as [ga' [gb' [_ [E2 _]]]].
        rewrite Eb in E2. discriminate E2.
    + split; [discriminate|]. intros Hall. exfalso.
      destruct (Hall k (or_introl eq_refl)) as [ga' [gb' [E1 _]]].
      rewrite Ea in E1. discriminate E1.
Qed.

(** [Message.diff] answers [''] exactly when every check passes. *)
Lemma message_diff_None (a b : Message.t) :
  Message.diff a b = Ok None <->
  N.eqb (Message.id a) (Message.id b) = true /\
  String.eqb (Message.name a) (Message.name b) = true /\
  N.eqb (Message.size a) (Message.size b) = true /\
  Message.sets_differ (Message.transmitters a) (Message.transmitters b)
  = false /\
  Message.sets_differ (dict_keys (Message.signals_dict a))
                      (dict_keys (Message.signals_dict b)) = false /\
  Message.diff_signals a b (dict_keys (Message.signals_dict a)) = Ok None /\
  Message.strs_eqb (Message.comments a) (Message.comments b) = true /\
  dict_eqb String.eqb Message.lit_eqb (Message.attributes a)
           (Message.attributes b) = true /\
  Message.sets_differ (dict_keys (Message.signal_groups a))
                      (dict_keys (Message.signal_groups b)) = false /\
  Message.diff_groups a b (dict_keys (Message.signal_groups a)) = Ok None.
Proof.
  unfold Message.diff.
  destruct (N.eqb (Message.id a) (Message.id b)); simpl;
    [|split; [discriminate | intuition discriminate]].
  destruct (String.eqb (Message.name a) (Message.name b)); simpl;
    [|split; [discriminate | intuition discriminate]].
  destruct (N.eqb (Message.size a) (Message.size b)); simpl;
    [|split; [discriminate | intuition discriminate]].
  destruct (Message.sets_differ (Message.transmitters a) _); simpl;
    [split; [discriminate | intuition discriminate]|].
  destruct (Message.sets_differ (dict_keys (Message.signals_dict a)) _);
    simpl; [split; [discriminate | intuition discriminate]|].
  destruct (Message.diff_signals a b _) as [[d|]|e]; simpl;
    [split; [discriminate | intuition discriminate]| |
     split; [discriminate | intuition discriminate]].
  destruct (Message.strs_eqb (Message.comments a) _); simpl;
    [|split; [discriminate | intuition discriminate]].
  destruct (dict_eqb String.eqb Message.lit_eqb _ _); simpl;
    [|split; [discriminate | intuition discriminate]].
  destruct (Message.sets_differ (dict_keys (Message.signal_groups a)) _);
    simpl; [split; [discriminate | intuition discriminate]|].
  intuition.
Qed.
End DiffEmpty.

Lemma dict_get_of_key {K V : Type} (keq : K -> K -> bool) (k : K)
      (d : dict K V) :
  (forall x y, keq x y = true <-> x = y) ->
  In k (dict_keys d) -> exists v, dict_get keq k d = Some v /\ In (k, v) d.
Proof.
  intros Hspec. induction d as [|[k' v'] d IH]; simpl; [intros []|].
  intros Hin. destruct (keq k k') eqn:E.
  - apply Hspec in E. subst k'. exists v'. split; [reflexivity | now left].
  - destruct Hin as [->|Hin].
    + assert (E' : keq k k = true) by now apply Hspec. congruence.
    + destruct (IH Hin) as [v [Hget Hv]]. exists v. split; [exact Hget|].
      now right.
Qed.

Section DiffLaws.
Context `{FloatModel}.

Lemma sets_differ_sym (a b : list string) :
  Message.sets_differ a b = Message.sets_differ b a.
Proof. unfold Message.sets_differ. apply orb_comm. Qed.

Lemma sets_differ_refl (a : list string) : Message.sets_differ a a = false.
Proof.
  unfold Message.sets_differ.
  apply (sets_same String.eqb String.eqb_eq). split; apply incl_refl.
Qed.

Lemma sets_differ_incl (a b : list string) :
  Message.sets_differ a b = false -> incl a b /\ incl b a.
Proof.
  unfold Message.sets_differ. apply (sets_same String.eqb String.eqb_eq).
Qed.

Lemma set_neq_sym (a b : list string) :
  SignalGroup.set_neq a b = SignalGroup.set_neq b a.
Proof. unfold SignalGroup.set_neq. apply orb_comm. Qed.

Lemma set_neq_refl (a : list string) : SignalGroup.set_neq a a = false.
Proof.
  unfold SignalGroup.set_neq.
  apply (sets_same String.eqb String.eqb_eq). split; apply incl_refl.
Qed.

Lemma message_diff_sym (a b : Message.t) :
  Message.diff a b = Ok None -> Message.diff b a = Ok None.
Proof.
  rewrite !message_diff_None.
  intros [Hid [Hname [Hsize [Htx [Hkeys [Hsig [Hcom [Hattr [Hgk Hgr]]]]]]]]].
  rewrite N.eqb_sym, String.eqb_sym, (N.eqb_sym (Message.size b)).
  rewrite (sets_differ_sym (Message.transmitters b)).
  rewrite (sets_differ_sym (dict_keys (Message.signals_dict b))).
  rewrite strs_eqb_sym.
  rewrite (dict_eqb_sym String.eqb Message.lit_eqb _ _ lit_eqb_sym).
  rewrite (sets_differ_sym (dict_keys (Message.signal_groups b))).
  repeat split; try assumption.
  - apply diff_signals_None. intros k Hk.
    apply sets_differ_incl in Hkeys. destruct Hkeys as [_ Hba].
    rewrite diff_signals_None in Hsig.
    destruct (Hsig k (Hba k Hk)) as [sa [sb [Ea [Eb E]]]].
    exists sb, sa. repeat split; congruence.
  - apply diff_groups_None. intros k Hk.
    apply sets_differ_incl in Hgk. destruct Hgk as [_ Hba].
    rewrite diff_groups_None in Hgr.
    destruct (Hgr k (Hba k Hk)) as [ga [gb [Ea [Eb E]]]].
    exists gb, ga. repeat split; try assumption.
    now rewrite set_neq_sym.
Qed.

Lemma message_diff_refl (a : Message.t) :
  refs_valid a -> Message.diff a a = Ok None.
Proof.
  intros [_ [_ Hd]]. rewrite message_diff_None.
  rewrite !N.eqb_refl, String.eqb_refl, !sets_differ_refl, strs_eqb_refl.
  rewrite (dict_eqb_refl String.eqb Message.lit_eqb _ lit_eqb_refl).
  repeat split.
  - apply diff_signals_None. intros k Hk.
    destruct (dict_get_of_key String.eqb k _ String.eqb_eq Hk)
      as [ref [Hget Hin]].
    rewrite Forall_forall in Hd. specialize (Hd _ Hin). simpl in Hd.
    destruct (obj_valid a ref Hd) as [s Hs].
    exists s, s. unfold Message.signal_named. rewrite Hget.
    repeat split; assumption.
  - apply diff_groups_None. intros k Hk.
    destruct (dict_get_of_key String.eqb k _ String.eqb_eq Hk)
      as [g [Hget _]].
    exists g, g. unfold Message.group_named. rewrite Hget.
    repeat split. apply set_neq_refl.
Qed.

Lemma diff_messages_None (a b : Bus.t) (ks : list N) :
  Bus.diff_messages a b ks = Ok None <->
  (forall k, In k ks ->
             exists ma mb, Bus.message_of a k = Ok ma /\
                           Bus.message_of b k = Ok mb /\
                           Message.diff ma mb = Ok None).
Proof.
  induction ks as [|k ks IH]; simpl.
  - split; [intros _ k [] | reflexivity].
  - destruct (Bus.message_of a k) as [ma|e] eqn:Ea; simpl.
    + destruct (Bus.message_of b k) as [mb|e] eqn:Eb; simpl.
      * destruct (Message.diff ma mb) as [[d|]|e] eqn:E; simpl.
        -- split; [discriminate|]. intros Hall. exfalso.
           destruct (Hall k (or_introl eq_refl)) as [ma' [mb' [E1 [E2 E3]]]].
           rewrite Ea in E1. rewrite Eb in E2.
           injection E1 as <-. injection E2 as <-. congruence.
        -- rewrite IH. split.
           ++ intros Hall k' [<-|Hk']; [eauto | now apply Hall].
           ++ intros Hall k' Hk'. apply Hall. now right.
        -- split; [discriminate|]. intros Hall. exfalso.
           destruct (Hall k (or_introl eq_refl)) as [ma' [mb' [E1 [E2 E3]]]].
           rewrite Ea in E1. rewrite Eb in E2.
           injection E1 as <-. injection E2 as <-. congruence.
      * split; [discriminate|]. intros Hall. exfalso.
        destruct (Hall k (or_introl eq_refl)) as [ma' [mb' [_ [E2 _]]]].
        rewrite Eb in E2. discriminate E2.
    + split; [discriminate|]. intros Hall. exfalso.
      destruct (Hall k (or_introl eq_refl)) as [ma' [mb' [E1 _]]].
      rewrite Ea in E1. discriminate E1.
Qed.

(** [Bus.diff] answers [''] exactly when every check passes. *)
Lemma bus_diff_None (a b : Bus.t) :
  Bus.diff a b = Ok None <->
  String.eqb (Bus.version a) (Bus.version b) = true /\
  Bus.opt_N_eqb (Bus.baudrate a) (Bus.baudrate b) = true /\
  Bus.diff_btr (Bus.btr a) (Bus.btr b) = Ok None /\
  Message.sets_differ (dict_keys (Bus.nodes a)) (dict_keys (Bus.nodes b))
  = false /\
  existsb (fun k => negb (opt_eqb Bus.node_eqb
                            (dict_get String.eqb k (Bus.nodes a))
                            (dict_get String.eqb k (Bus.nodes b))))
          (dict_keys (Bus.nodes a)) = false /\
  Message.sets_differ (Bus.newsymbols a) (Bus.newsymbols b) = false /\
  dict_eqb String.eqb (dict_eqb Z.eqb String.eqb)
           (Bus.global_values a) (Bus.global_values b) = true /\
  Bus.ids_differ (dict_keys (Bus.messages a)) (dict_keys (Bus.messages b))
  = false /\
  Bus.diff_messages a b (dict_keys (Bus.messages a)) = Ok None /\
  Message.strs_eqb (Bus.comments a) (Bus.comments b) = true /\
  dict_eqb scope_eqb (dict_eqb String.eqb Bus.attr_type_eqb)
           (Bus.attrib_typedefs a) (Bus.attrib_typedefs b) = true /\
  dict_eqb String.eqb Message.lit_eqb
           (Bus.attrib_defaults a) (Bus.attrib_defaults b) = true /\
  dict_eqb String.eqb Message.lit_eqb
           (Bus.attributes a) (Bus.attributes b) = true.
Proof.
  unfold Bus.diff.
  destruct (String.eqb (Bus.version a) (Bus.version b)); simpl;
    [|split; [discriminate | intuition discriminate]].
  destruct (Bus.opt_N_eqb (Bus.baudrate a) (Bus.baudrate b)); simpl;
    [|split; [discriminate | intuition discriminate]].
  destruct (Bus.diff_btr (Bus.btr a) (Bus.btr b)) as [[d|]|e]; simpl;
    [split; [discriminate | intuition discriminate]| |
     split; [discriminate | intuition discriminate]].
  destruct (Message.sets_differ (dict_keys (Bus.nodes a)) _); simpl;
    [split; [discriminate | intuition discriminate]|].
  destruct (existsb _ (dict_keys (Bus.nodes a))); simpl;
    [split; [discriminate | intuition discriminate]|].
  destruct (Message.sets_differ (Bus.newsymbols a) _); simpl;
    [split; [discriminate | intuition discriminate]|].
  destruct (dict_eqb String.eqb (dict_eqb Z.eqb String.eqb) _ _); simpl;
    [|split; [discriminate | intuition discriminate]].
  destruct (Bus.ids_differ _ _); simpl;
    [split; [discriminate | intuition discriminate]|].
  destruct (Bus.diff_messages a b _) as [[d|]|e]; simpl;
    [split; [discriminate | intuition discriminate]| |
     split; [discriminate | intuition discriminate]].
  destruct (Message.strs_eqb (Bus.comments a) _); simpl;
    [|split; [discriminate | intuition discriminate]].
  destruct (dict_eqb scope_eqb _ _ _); simpl;
    [|split; [discriminate | intuition discriminate]].
  destruct (dict_eqb String.eqb Message.lit_eqb (Bus.attrib_defaults a) _);
    simpl; [|split; [discriminate | intuition discriminate]].
  destruct (dict_eqb String.eqb Message.lit_eqb (Bus.attributes a) _);
    simpl; [|split; [discriminate | intuition discriminate]].
  intuition.
Qed.
End DiffLaws.

Lemma existsb_false {A : Type} (f : A -> bool) (l : list A) :
  existsb f l = false <-> forall x, In x l -> f x = false.
Proof.
  induction l as [|y l IH]; simpl.
  - split; [intros _ x [] | reflexivity].
  - rewrite orb_false_iff, IH. split.
    + intros [Hy Hl] x [<-|Hx]; [exact Hy | now apply Hl].
    + intros Hall. split; [apply Hall; now left|].
      intros x Hx. apply Hall. now right.
Qed.

Section BusDiffLaws.
Context `{FloatModel}.

Lemma opt_N_eqb_sym (a b : option N) :
  Bus.opt_N_eqb a b = Bus.opt_N_eqb b a.
Proof. destruct a, b; simpl; try reflexivity. apply N.eqb_sym. Qed.

Lemma opt_N_eqb_refl (a : option N) : Bus.opt_N_eqb a a = true.
Proof. destruct a; simpl; [apply N.eqb_refl | reflexivity]. Qed.

Lemma diff_btr_sym (a b : option (N * N)) :
  Bus.diff_btr a b = Ok None -> Bus.diff_btr b a = Ok None.
Proof.
  destruct a as [[a1 a2]|], b as [[b1 b2]|]; simpl; try discriminate;
    try reflexivity.
  rewrite (N.eqb_sym b1), (N.eqb_sym b2).
  destruct (N.eqb a1 b1); simpl; [|discriminate].
  destruct (N.eqb a2 b2); simpl; [reflexivity | discriminate].
Qed.

Lemma diff_btr_refl (a : option (N * N)) : Bus.diff_btr a a = Ok None.
Proof.
  destruct a as [[a1 a2]|]; simpl; [|reflexivity].
  now rewrite !N.eqb_refl.
Qed.

Lemma ids_differ_sym (a b : list N) :
  Bus.ids_differ a b = Bus.ids_differ b a.
Proof. unfold Bus.ids_differ. apply orb_comm. Qed.

Lemma ids_differ_refl (a : list N) : Bus.ids_differ a a = false.
Proof.
  unfold Bus.ids_differ.
  apply (sets_same N.eqb N.eqb_eq). split; apply incl_refl.
Qed.

Lemma ids_differ_incl (a b : list N) :
  Bus.ids_differ a b = false -> incl a b /\ incl b a.
Proof. unfold Bus.ids_differ. apply (sets_same N.eqb N.eqb_eq). Qed.

Lemma table_eqb_sym (v w : dict Z string) :
  dict_eqb Z.eqb String.eqb v w = dict_eqb Z.eqb String.eqb w v.
Proof. apply dict_eqb_sym. exact String.eqb_sym. Qed.

Lemma typedefs_eqb_sym (v w : dict string attr_type) :
  dict_eqb String.eqb Bus.attr_type_eqb v w =
  dict_eqb String.eqb Bus.attr_type_eqb w v.
Proof. apply dict_eqb_sym. exact attr_type_eqb_sym. Qed.

Lemma bus_diff_sym (a b : Bus.t) :
  Bus.diff a b = Ok None -> Bus.diff b a = Ok None.
Proof.
  rewrite !bus_diff_None.
  intros [Hver [Hbaud [Hbtr [Hnk [Hnv [Hns [Hgv [Hids [Hmsg [Hcom
           [Htd [Hdef Hattr]]]]]]]]]]]].
  rewrite String.eqb_sym, opt_N_eqb_sym.
  rewrite (sets_differ_sym (dict_keys (Bus.nodes b))).
  rewrite (sets_differ_sym (Bus.newsymbols b)).
  rewrite (dict_eqb_sym String.eqb _ (Bus.global_values b) _ table_eqb_sym).
  rewrite (ids_differ_sym (dict_keys (Bus.messages b))).
  rewrite strs_eqb_sym.
  rewrite (dict_eqb_sym scope_eqb _ (Bus.attrib_typedefs b) _
                        typedefs_eqb_sym).
  rewrite (dict_eqb_sym String.eqb Message.lit_eqb (Bus.attrib_defaults b)
                        _ lit_eqb_sym).
  rewrite (dict_eqb_sym String.eqb Message.lit_eqb (Bus.attributes b)
                        _ lit_eqb_sym).
  repeat split; try assumption.
  - now apply diff_btr_sym.
  - apply existsb_false. intros k Hk.
    apply sets_differ_incl in Hnk. destruct Hnk as [_ Hba].
    rewrite existsb_false in Hnv. specialize (Hnv k (Hba k Hk)).
    rewrite (opt_eqb_sym Bus.node_eqb _ _ node_eqb_sym). exact Hnv.
  - apply diff_messages_None. intros k Hk.
    apply ids_differ_incl in Hids. destruct Hids as [_ Hba].
    rewrite diff_messages_None in Hmsg.
    destruct (Hmsg k (Hba k Hk)) as [ma [mb [Ea [Eb E]]]].
    exists mb, ma. repeat split; try assumption.
    now apply message_diff_sym.
Qed.

Lemma bus_diff_refl (a : Bus.t) :
  Forall (fun kv => refs_valid (snd kv)) (Bus.messages a) ->
  Bus.diff a a = Ok None.
Proof.
  intros Hvalid. rewrite bus_diff_None.
  rewrite String.eqb_refl, opt_N_eqb_refl, diff_btr_refl,
    !sets_differ_refl, ids_differ_refl, strs_eqb_refl.
  rewrite !(dict_eqb_refl String.eqb Message.lit_eqb _ lit_eqb_refl).
  repeat split.
  - apply existsb_false. intros k _. apply negb_false_iff.
    apply opt_eqb_refl. exact node_eqb_refl.
  - apply dict_eqb_refl. intros v. apply dict_eqb_refl.
    exact String.eqb_refl.
  - apply diff_messages_None. intros k Hk.
    destruct (dict_get_of_key N.eqb k _ N.eqb_eq Hk) as [m [Hget Hin]].
    exists m, m. unfold Bus.message_of. rewrite Hget.
    repeat split. apply message_diff_refl.
    rewrite Forall_forall in Hvalid. apply (Hvalid _ Hin).
  - apply dict_eqb_refl. intros v. apply dict_eqb_refl.
    exact attr_type_eqb_refl.
Qed.

(** C7: [diff] of a constructed bus with itself answers [''], and for
    two constructed buses [b1.diff(b2)] answers [''] exactly when
    [b2.diff(b1)] does. *)
Theorem diff_reflexive_and_symmetric :
  (forall (secs : list Sec) (b : Bus.t),
      Bus.init secs = Ok b -> Bus.diff b b = Ok None) /\
  (forall (secs1 secs2 : list Sec) (b1 b2 : Bus.t),
      Bus.init secs1 = Ok b1 -> Bus.init secs2 = Ok b2 ->
      (Bus.diff b1 b2 = Ok None <-> Bus.diff b2 b1 = Ok None)).
Proof.
  split.
  - intros secs b Hinit. apply bus_diff_refl.
    assert (Hall := init_built secs b Hinit).
    unfold all_built in Hall.
    eapply Forall_impl; [|exact Hall].
    intros kv Hb. apply (built_indexed secs _ Hb).
  - intros secs1 secs2 b1 b2 _ _. split; apply bus_diff_sym.
Qed.
End BusDiffLaws.

Lemma diff_reflexive_and_symmetric_witness :
  match @Bus.init literal_floats scenario_3,
        @Bus.init literal_floats scenario_3_AB with
  | Ok b1, Ok b2 =>
      Bus.diff b1 b1 = Ok None /\
      (Bus.diff b1 b2 = Ok None <-> Bus.diff b2 b1 = Ok None)
  | _, _ => False
  end.
Proof.
  destruct (@Bus.init literal_floats scenario_3) as [b1|e] eqn:E1.
  - destruct (@Bus.init literal_floats scenario_3_AB) as [b2|e] eqn:E2.
    + split.
      * exact (proj1 (@diff_reflexive_and_symmetric literal_floats)
                     scenario_3 b1 E1).
      * exact (proj2 (@diff_reflexive_and_symmetric literal_floats)
                     scenario_3 scenario_3_AB b1 b2 E1 E2).
    + vm_compute in E2. discriminate E2.
  - vm_compute in E1. discriminate E1.
Defined.

(** * Further properties *)

(** ** Ranges, switches and signal groups *)

(** X1: The range [intersection] answers holds the numbers that lie within
    both ranges, and [None] is answered only when there is no such
    number: for every [x], [x] is within the result exactly when it is
    within [r1] and within [r2]. *)
Theorem intersection_holds_common_numbers (r1 r2 : Range.t Q) (x : Q) :
  match Range.intersection r1 r2 with
  | Some r => Range.within r x
  | None => false
  end = Range.within r1 x && Range.within r2 x.
Proof.
  destruct r1 as [a1 b1], r2 as [a2 b2].
  unfold Range.intersection; simpl.
  destruct (Range.Qlt_bool b2 a1) eqn:E1;
    [|destruct (Range.Qlt_bool b1 a2) eqn:E2]; simpl.
  - apply Qlt_bool_iff in E1. symmetry. apply not_true_is_false.
    rewrite andb_true_iff, !within_iff. intros [[H1 _] [_ H2]].
    apply (Qlt_not_le _ _ E1). now apply Qle_trans with x.
  - apply Qlt_bool_iff in E2. symmetry. apply not_true_is_false.
    rewrite andb_true_iff, !within_iff. intros [[_ H1] [H2 _]].
    apply (Qlt_not_le _ _ E2). now apply Qle_trans with x.
  - apply Qlt_bool_false_iff in E1, E2.
    apply eq_true_iff_eq.
    rewrite andb_true_iff, !within_iff.
    unfold Range.py_max, Range.py_min.
    destruct (Range.Qlt_bool a1 a2) eqn:Ea;
      destruct (Range.Qlt_bool b2 b1) eqn:Eb;
      rewrite ?Qlt_bool_iff, ?Qlt_bool_false_iff in *;
      repeat split; intuition eauto using Qle_trans, Qlt_le_weak.
Qed.

Lemma switch_append_In (r : Range.t N) (sig : nat) (sw : Switch.t) :
  existsb (fun e => Range.eqb N.eqb r (fst e) && Nat.eqb sig (snd e)) sw
  = true <-> In (r, sig) sw.
Proof.
  rewrite existsb_exists. split.
  - intros [[[a b] s] [Hin Heq]]. destruct r as [a' b']. simpl in Heq.
    unfold Range.eqb in Heq; simpl in Heq.
    rewrite !andb_true_iff, !N.eqb_eq, Nat.eqb_eq in Heq.
    destruct Heq as [[-> ->] ->]. exact Hin.
  - intros Hin. exists (r, sig). split; [exact Hin|].
    destruct r as [a b]. unfold Range.eqb; simpl.
    now rewrite !N.eqb_refl, Nat.eqb_refl.
Qed.

Lemma switch_append_spec (r : Range.t N) (sig : nat) (sw : Switch.t) :
  NoDup sw ->
  NoDup (Switch.append r sig sw) /\
  (forall e, In e (Switch.append r sig sw) <-> e = (r, sig) \/ In e sw).
Proof.
  intros ND. unfold Switch.append.
  destruct (existsb _ sw) eqn:E.
  - apply switch_append_In in E. split; [exact ND|].
    intros e. split; [tauto|]. intros [->|He]; assumption.
  - assert (Hnot : ~ In (r, sig) sw).
    { intros Hin. apply switch_append_In in Hin. congruence. }
    split.
    + apply NoDup_app; [exact ND | repeat constructor; intros [] |].
      intros e He [<-|[]]. contradiction.
    + intros e. rewrite in_app_iff. simpl. intuition.
Qed.

(** X2: A switch filled by [append] holds every pair of range and signal
    that was appended, and holds it once, however often the pair was
    appended. *)
Theorem switch_holds_each_pair_once (l : list (Range.t N * nat)) :
  let sw := fold_left (fun sw e => Switch.append (fst e) (snd e) sw)
                      l Switch.init in
  NoDup sw /\ (forall e, In e sw <-> In e l).
Proof.
  cbv zeta. unfold Switch.init.
  assert (G : forall sw0,
             NoDup sw0 ->
             NoDup (fold_left
                      (fun sw e => Switch.append (fst e) (snd e) sw) l sw0)
             /\ (forall e,
                    In e (fold_left
                            (fun sw e => Switch.append (fst e) (snd e) sw)
                            l sw0)
                    <-> In e sw0 \/ In e l)).
  { induction l as [|[r s] l IH]; intros sw0 ND; simpl.
    - split; [exact ND|]. intros e. tauto.
    - destruct (switch_append_spec r s sw0 ND) as [ND' Hin].
      destruct (IH _ ND') as [ND'' Hin']. split; [exact ND''|].
      intros e. rewrite Hin', Hin. intuition. }
  destruct (G [] (NoDup_nil _)) as [ND Hin]. split; [exact ND|].
  intros e. rewrite Hin. simpl. tauto.
Qed.

(** X3: [SignalGroup.diff] answers [''] exactly when the two groups name
    the same signals: the number of repetitions, the order of the names
    and their multiplicity are not compared. *)
Theorem signal_group_diff_compares_names_as_sets (g g' : SignalGroup.t) :
  SignalGroup.diff g g' = EmptyString <->
  (forall signame, In signame (SignalGroup.names g) <->
                   In signame (SignalGroup.names g')).
Proof.
  rewrite group_diff_empty. unfold SignalGroup.set_neq.
  rewrite (sets_same String.eqb String.eqb_eq). unfold incl.
  split.
  - intros [H1 H2] x. split; auto.
  - intros Hx. split; intros x; apply Hx.
Qed.

(** ** Messages *)

Section MessageFacts.
Context `{FloatModel}.

(** The line [Signal.dbc] writes does not show the comments, the value
    descriptions, the value type or the switch of the signal. *)
Lemma dbc_of_decorated (c : list string) (v : dict Z string)
      (t : option N) (sw : Switch.t) (s : Signal.t) :
  Signal.dbc (Signal.set_switch sw
                (Signal.set_value_type t
                   (Signal.set_value_descriptions v
                      (Signal.set_comments c s)))) = Signal.dbc s.
Proof. reflexivity. Qed.

Lemma signal_named_update (a : Message.t) (ref : nat)
      (f : Signal.t -> Signal.t) (l : list nat) (k : string) :
  Message.signal_named
    (Message.set_signals l (Message.update_obj ref f a)) k =
  match Message.signal_named a k with
  | Ok s => Ok (if match dict_get String.eqb k (Message.signals_dict a) with
                   | Some r => Nat.eqb r ref
                   | None => false
                   end then f s else s)
  | Raise e => Raise e
  end.
Proof.
  unfold Message.signal_named, Message.obj; simpl.
  destruct (dict_get String.eqb k (Message.signals_dict a)) as [r|];
    [|reflexivity].
  rewrite nth_error_update_nth.
  destruct (Nat.eqb r ref); destruct (nth_error (Message.objs a) r);
    reflexivity.
Qed.

Lemma diff_signals_same_lines (a a' b b' : Message.t) (ks : list string) :
  (forall k, match Message.signal_named a' k, Message.signal_named a k with
             | Ok s', Ok s => Signal.dbc s' = Signal.dbc s
             | Raise e', Raise e => e' = e
             | _, _ => False
             end) ->
  (forall k, match Message.signal_named b' k, Message.signal_named b k with
             | Ok s', Ok s => Signal.dbc s' = Signal.dbc s
             | Raise e', Raise e => e' = e
             | _, _ => False
             end) ->
  Message.diff_signals a' b' ks = Message.diff_signals a b ks.
Proof.
  intros Ha Hb. induction ks as [|k ks IH]; simpl; [reflexivity|].
  specialize (Ha k). specialize (Hb k).
  destruct (Message.signal_named a' k) as [sa'|ea'];
    destruct (Message.signal_named a k) as [sa|ea]; try contradiction;
    simpl; [|now subst].
  destruct (Message.signal_named b' k) as [sb'|eb'];
    destruct (Message.signal_named b k) as [sb|eb]; try contradiction;
    simpl; [|now subst].
  unfold Signal.diff. rewrite Ha, Hb, IH. reflexivity.
Qed.

Lemma signal_named_same_line (a : Message.t) (ref : nat)
      (f : Signal.t -> Signal.t) (l : list nat) :
  (forall s, Signal.dbc (f s) = Signal.dbc s) ->
  forall k,
    match Message.signal_named
            (Message.set_signals l (Message.update_obj ref f a)) k,
          Message.signal_named a k with
    | Ok s', Ok s => Signal.dbc s' = Signal.dbc s
    | Raise e', Raise e => e' = e
    | _, _ => False
    end.
Proof.
  intros Hf k. rewrite signal_named_update.
  destruct (Message.signal_named a k) as [s|e]; [|reflexivity].
  destruct (match dict_get String.eqb k (Message.signals_dict a) with
            | Some r => Nat.eqb r ref
            | None => false
            end); [apply Hf | reflexivity].
Qed.

Lemma signal_named_refl_line (a : Message.t) (k : string) :
  match Message.signal_named a k, Message.signal_named a k with
  | Ok s', Ok s => Signal.dbc s' = Signal.dbc s
  | Raise e', Raise e => e' = e
  | _, _ => False
  end.
Proof. destruct (Message.signal_named a k); reflexivity. Qed.

Lemma diff_groups_same_groups (a a' b b' : Message.t) (ks : list string) :
  Message.signal_groups a' = Message.signal_groups a ->
  Message.signal_groups b' = Message.signal_groups b ->
  Message.diff_groups a' b' ks = Message.diff_groups a b ks.
Proof.
  intros Ha Hb. induction ks as [|k ks IH]; simpl; [reflexivity|].
  unfold Message.group_named. rewrite Ha, Hb, IH. reflexivity.
Qed.

Lemma message_diff_same_lines (a a' b b' : Message.t) :
  same_but_signals a' a -> same_but_signals b' b ->
  Message.diff a' b' = Message.diff a b.
Proof.
  intros [Ai [An [As [At [Ad [Ac [Aa [Ag Al]]]]]]]]
         [Bi [Bn [Bs [Bt [Bd [Bc [Ba [Bg Bl]]]]]]]].
  unfold Message.diff.
  rewrite Ai, An, As, At, Ad, Ac, Aa, Ag, Bi, Bn, Bs, Bt, Bd, Bc, Ba, Bg.
  rewrite (diff_signals_same_lines a a' b b' _ Al Bl).
  rewrite (diff_groups_same_groups a a' b b' _ Ag Bg).
  reflexivity.
Qed.

Lemma same_but_signals_refl (a : Message.t) : same_but_signals a a.
Proof.
  repeat split. apply signal_named_refl_line.
Qed.

Lemma same_but_signals_changed (a : Message.t) (ref : nat)
      (f : Signal.t -> Signal.t) (l : list nat) :
  (forall s, Signal.dbc (f s) = Signal.dbc s) ->
  same_but_signals (Message.set_signals l (Message.update_obj ref f a)) a.
Proof.
  intros Hf. repeat split. now apply signal_named_same_line.
Qed.

(** X4: [Message.diff] does not see the comments, the value descriptions,
    the value type or the switch of a signal, nor the top-level list
    [signals]: a message in which these were changed for one signal
    compares as the message before, on either side of [diff]. *)
Theorem message_diff_ignores_signal_details
        (a b : Message.t) (ref : nat) (c : list string)
        (v : dict Z string) (t : option N) (sw : Switch.t)
        (l : list nat) :
  let changed :=
    Message.set_signals l
      (Message.update_obj ref
         (fun s => Signal.set_switch sw
                     (Signal.set_value_type t
                        (Signal.set_value_descriptions v
                           (Signal.set_comments c s))))
         a) in
  Message.diff changed b = Message.diff a b /\
  Message.diff b changed = Message.diff b a.
Proof.
  cbv zeta. split.
  - apply message_diff_same_lines; [|apply same_but_signals_refl].
    apply same_but_signals_changed. apply dbc_of_decorated.
  - apply message_diff_same_lines; [apply same_but_signals_refl|].
    apply same_but_signals_changed. apply dbc_of_decorated.
Qed.

Lemma dict_get_set_same {V : Type} (k : string) (v : V)
      (d : dict string V) :
  dict_get String.eqb k (dict_set String.eqb k v d) = Some v.
Proof.
  induction d as [|[k' v'] d IH]; simpl.
  - now rewrite String.eqb_refl.
  - destruct (String.eqb k k') eqn:E; simpl; rewrite E; auto.
Qed.

Lemma dict_get_set_other {V : Type} (k k0 : string) (v : V)
      (d : dict string V) :
  k0 <> k ->
  dict_get String.eqb k0 (dict_set String.eqb k v d) =
  dict_get String.eqb k0 d.
Proof.
  intros Hne. induction d as [|[k' v'] d IH]; simpl.
  - destruct (String.eqb_spec k0 k); [contradiction | reflexivity].
  - destruct (String.eqb k k') eqn:E; simpl.
    + apply String.eqb_eq in E. subst k'.
      destruct (String.eqb_spec k0 k); [contradiction | reflexivity].
    + now rewrite IH.
Qed.

(** After [append], the name of the appended signal leads to that
    signal in [signals_dict], also when the name led to another signal
    before; the signal is the last of [signals]; and every other name
    leads where it led before. *)
Lemma append_signal_named (sg : Signal.t) (self : Message.t) :
  Forall (fun kv => valid_ref self (snd kv)) (Message.signals_dict self) ->
  let self' := Message.append sg self in
  Message.signal_named self' (Signal.name sg) = Ok sg /\
  (exists ref, Message.signals self' = (Message.signals self ++ [ref])%list
               /\ Message.obj self' ref = Ok sg) /\
  (forall signame, signame <> Signal.name sg ->
                   Message.signal_named self' signame =
                   Message.signal_named self signame).
Proof.
  intros Hvalid. cbv zeta.
  assert (Hlast : Message.obj (Message.append sg self)
                              (List.length (Message.objs self)) = Ok sg).
  { unfold Message.obj; simpl.
    rewrite nth_error_app2, Nat.sub_diag; [reflexivity | lia]. }
  split; [|split].
  - unfold Message.signal_named. simpl. rewrite dict_get_set_same.
    exact Hlast.
  - exists (List.length (Message.objs self)). split; [reflexivity|].
    exact Hlast.
  - intros k Hne. unfold Message.signal_named. simpl.
    rewrite (dict_get_set_other _ _ _ _ Hne).
    destruct (dict_get String.eqb k (Message.signals_dict self))
      as [ref|] eqn:Hget; [|reflexivity].
    unfold Message.obj; simpl.
    destruct (dict_get_In _ _ _ _ Hget) as [k' Hin].
    rewrite Forall_forall in Hvalid. specialize (Hvalid _ Hin).
    unfold valid_ref in Hvalid; simpl in Hvalid.
    now rewrite nth_error_app1.
Qed.

Lemma append_keeps_objects (sg : Signal.t) (self : Message.t) (ref : nat)
      (s : Signal.t) :
  Message.obj self ref = Ok s ->
  Message.obj (Message.append sg self) ref = Ok s.
Proof.
  intros Hs. apply obj_Ok. apply obj_Ok in Hs. simpl.
  rewrite nth_error_app1; [exact Hs|].
  apply nth_error_Some. congruence.
Qed.

Lemma append_loop_index (l : list signal_dict) (m : Message.t) :
  Message.signals m = [] -> Message.signals_dict m = [] ->
  let msg := fold_left (fun msg sig_d =>
                          Message.append (Signal.init sig_d) msg) l m in
  Forall (fun kv => valid_ref msg (snd kv)) (Message.signals_dict msg) /\
  Forall2 (fun ref sd => Message.obj msg ref = Ok (Signal.init sd))
          (Message.signals msg) l /\
  (forall name,
      match find (fun sd => String.eqb (sd_name sd) name) (rev l) with
      | Some sd => Message.signal_named msg name = Ok (Signal.init sd)
      | None =>
          dict_get String.eqb name (Message.signals_dict msg) = None
      end).
Proof.
  intros Hs Hd. cbv zeta.
  induction l as [|x l IH] using rev_ind.
  - simpl. rewrite Hs, Hd. repeat split; constructor.
  - rewrite fold_left_app. simpl.
    set (msg := fold_left (fun msg sig_d =>
                             Message.append (Signal.init sig_d) msg) l m)
      in *.
    destruct IH as [Hvalid [Hall Hnames]].
    destruct (append_signal_named (Signal.init x) msg Hvalid)
      as [Hnew [[ref [Hsig Hlast]] Hother]].
    split; [|split].
    + simpl. apply Forall_forall. intros [k r] Hin.
      apply dict_set_entries in Hin. unfold valid_ref. simpl.
      rewrite length_app. simpl. destruct Hin as [[_ ->]|Hin]; [lia|].
      rewrite Forall_forall in Hvalid. specialize (Hvalid _ Hin).
      unfold valid_ref in Hvalid. simpl in Hvalid. lia.
    + simpl in Hsig. apply app_inv_head in Hsig. injection Hsig as <-.
      apply Forall2_app.
      * eapply Forall2_impl; [|exact Hall].
        intros r sd Hr. now apply append_keeps_objects.
      * constructor; [exact Hlast | constructor].
    + intros name. rewrite rev_app_distr. simpl.
      destruct (String.eqb_spec (sd_name x) name) as [<-|Hne].
      * exact Hnew.
      * specialize (Hnames name).
        destruct (find (fun sd => String.eqb (sd_name sd) name) (rev l))
          as [sd|].
        -- rewrite Hother by (simpl; congruence). exact Hnames.
        -- simpl. rewrite dict_get_set_other by (simpl; congruence).
           exact Hnames.
Qed.

(** X5: A new message holds the signals of its [BO_] section in
    [signals], in the order of the section; [signals_dict] binds every
    name to the last signal of the section that has this name, also
    when several signals of the section have it, and has no other
    key. *)
Theorem new_message_indexes_the_last_signal_of_a_name (d : message_dict) :
  let msg := Bus.new_message d in
  Forall2 (fun ref sd => Message.obj msg ref = Ok (Signal.init sd))
          (Message.signals msg) (md_signals d) /\
  (forall name,
      match find (fun sd => String.eqb (sd_name sd) name)
                 (rev (md_signals d)) with
      | Some sd => Message.signal_named msg name = Ok (Signal.init sd)
      | None =>
          dict_get String.eqb name (Message.signals_dict msg) = None
      end).
Proof.
  cbv zeta. unfold Bus.new_message.
  destruct (append_loop_index
              (md_signals d)
              (Message.init (md_id d) (md_name d) (md_size d)
                            (md_transmitter d)) eq_refl eq_refl)
    as [_ [Hall Hnames]].
  split; [exact Hall | exact Hnames].
Qed.
End MessageFacts.

Lemma new_message_indexes_the_last_signal_of_a_name_witness :
  let msg := @Bus.new_message literal_floats message_100 in
  Message.signals msg = [0; 1; 2] /\
  Message.obj msg 1 = Ok (Signal.init (selected_signal "A" 0)) /\
  Message.signal_named msg "A" = Ok (Signal.init (selected_signal "A" 2)) /\
  dict_get String.eqb "B" (Message.signals_dict msg) = None.
Proof.
  cbv zeta.
  destruct (@new_message_indexes_the_last_signal_of_a_name
              literal_floats message_100) as [Hall Hnames].
  split; [reflexivity|].
  split; [|split].
  - inversion Hall as [|r0 sd0 l0 l0' _ Hrest]; subst.
    inversion Hrest as [|r1 sd1 l1 l1' H1 _]; subst. exact H1.
  - exact (Hnames "A").
  - exact (Hnames "B").
Defined.

(** ** The atoms of the parser *)

From Stdlib Require DecimalN DecimalPos DecimalZ.

Lemma str_from_app (pre x : string) :
  str_from (String.length pre) (pre ++ x) = x.
Proof. induction pre as [|c pre IH]; simpl; [now destruct x | exact IH]. Qed.

Lemma str_from_length_app (k : nat) (a b : string) :
  str_from (String.length a + k) (a ++ b) = str_from k b.
Proof. induction a as [|c a IH]; simpl; [reflexivity | exact IH]. Qed.

Lemma length_app (a b : string) :
  String.length (a ++ b) = String.length a + String.length b.
Proof. induction a as [|c a IH]; simpl; [reflexivity | now rewrite IH]. Qed.

Lemma take_while_digits_of_uint (d : Decimal.uint) (post : string) :
  take_while Parser.is_digit (NilEmpty.string_of_uint d ++ post) =
  NilEmpty.string_of_uint d ++ take_while Parser.is_digit post.
Proof.
  induction d as [|d IH|d IH|d IH|d IH|d IH|d IH|d IH|d IH|d IH|d IH];
    simpl; [reflexivity|..]; now rewrite IH.
Qed.

Lemma int_of_digits_acc (d : Decimal.uint) (p : positive) :
  Parser.int_of_digits (N.pos p) (NilEmpty.string_of_uint d) =
  N.pos (Pos.of_uint_acc d p).
Proof.
  revert p.
  induction d as [|d IH|d IH|d IH|d IH|d IH|d IH|d IH|d IH|d IH|d IH];
    intros p;
    cbn [NilEmpty.string_of_uint Parser.int_of_digits Pos.of_uint_acc];
    [reflexivity|..];
    rewrite <- IH; f_equal;
    match goal with
    | |- context [Parser.digit_val ?c] =>
        let v := eval vm_compute in (Parser.digit_val c) in
        change (Parser.digit_val c) with v
    end; lia.
Qed.

Lemma int_of_digits_of_uint (d : Decimal.uint) :
  Parser.int_of_digits 0 (NilEmpty.string_of_uint d) = N.of_uint d.
Proof.
  unfold N.of_uint.
  induction d as [|d IH|d IH|d IH|d IH|d IH|d IH|d IH|d IH|d IH|d IH];
    cbn [NilEmpty.string_of_uint Parser.int_of_digits Pos.of_uint];
    [reflexivity | exact IH |..];
    rewrite <- int_of_digits_acc; f_equal.
Qed.

Lemma int_of_digits_str_N (k : N) : Parser.int_of_digits 0 (str_N k) = k.
Proof.
  unfold str_N. rewrite int_of_digits_of_uint.
  apply DecimalN.Unsigned.of_to.
Qed.

Lemma str_N_nonempty (k : N) : str_N k <> EmptyString.
Proof.
  unfold str_N. destruct k as [|p]; simpl; [discriminate|].
  assert (Hp := DecimalPos.Unsigned.to_uint_nonnil p).
  destruct (Pos.to_uint p); simpl; try discriminate. contradiction.
Qed.

Lemma str_N_starts_with_digit (k : N) :
  exists c ds, str_N k = String c ds /\ Parser.is_digit c = true.
Proof.
  unfold str_N. destruct k as [|p]; simpl.
  - exists "0"%char, EmptyString. split; reflexivity.
  - assert (Hp := DecimalPos.Unsigned.to_uint_nonnil p).
    destruct (Pos.to_uint p); simpl; try contradiction;
      eexists; eexists; split; reflexivity.
Qed.

(** X6: [uint] reads back what [str] writes for a number: at a cursor
    before the decimal text of [k], when the text goes on with a
    character that is no digit or ends, it answers [k] and moves the
    cursor to the end of the number, on the same line. *)
Theorem uint_reads_decimal_text (k : N) (pre post : string)
        (s : Parser.pos) :
  Parser.n s = String.length pre ->
  take_while Parser.is_digit post = EmptyString ->
  Parser.uint (pre ++ str_N k ++ post) s =
  Ok (k, Parser.Pos (Parser.n s + String.length (str_N k))
                    (Parser.line s)
                    (Parser.col s + String.length (str_N k))).
Proof.
  intros Hn Hpost.
  unfold Parser.uint, Parser.pbind, Parser.rest.
  rewrite Hn, str_from_app.
  unfold str_N at 1. rewrite take_while_digits_of_uint, Hpost.
  fold (str_N k).
  assert (E : str_N k ++ EmptyString = str_N k).
  { generalize (str_N k). intros x. induction x; simpl; congruence. }
  rewrite E.
  destruct (str_N k) as [|c ds] eqn:Ek.
  - exfalso. now apply (str_N_nonempty k).
  - unfold Parser.advance, Parser.ret. rewrite <- Ek, <- Hn.
    now rewrite int_of_digits_str_N.
Qed.

Lemma uint_reads_decimal_text_witness :
  Parser.uint "BO_ 2024 M" (Parser.Pos 4 1 4) =
  Ok (2024%N, Parser.Pos 8 1 8).
Proof.
  exact (uint_reads_decimal_text 2024 "BO_ " " M" (Parser.Pos 4 1 4)
                                 eq_refl eq_refl).
Defined.

Lemma str_Z_cases (z : Z) :
  (z < 0)%Z /\ str_Z z = String "-" (str_N (Z.to_N (- z)))
  \/ (0 <= z)%Z /\ str_Z z = str_N (Z.to_N z).
Proof.
  unfold str_Z, str_N. destruct z as [|p|p]; simpl.
  - right. split; [lia | reflexivity].
  - right. split; [lia|].
    assert (Hp := DecimalPos.Unsigned.to_uint_nonnil p).
    destruct (Pos.to_uint p); simpl; try reflexivity. contradiction.
  - left. split; [lia|].
    assert (Hp := DecimalPos.Unsigned.to_uint_nonnil p).
    destruct (Pos.to_uint p); simpl; try reflexivity. contradiction.
Qed.

Lemma app_empty (x : string) : x ++ EmptyString = x.
Proof. induction x; simpl; congruence. Qed.

Lemma take_while_str_N (k : N) (post : string) :
  take_while Parser.is_digit post = EmptyString ->
  take_while Parser.is_digit (str_N k ++ post) = str_N k.
Proof.
  intros Hpost. unfold str_N.
  now rewrite take_while_digits_of_uint, Hpost, app_empty.
Qed.

Lemma digit_is_no_sign (c : ascii) :
  Parser.is_digit c = true ->
  Parser.is_sign c = false /\ Ascii.eqb c "-" = false
  /\ Ascii.eqb c "+" = false.
Proof.
  intros Hc.
  destruct (Ascii.eqb_spec c "-") as [->|Hm]; [discriminate Hc|].
  destruct (Ascii.eqb_spec c "+") as [->|Hp]; [discriminate Hc|].
  repeat split. unfold Parser.is_sign, char_in. simpl.
  destruct (Ascii.eqb_spec c "-"); [contradiction|].
  destruct (Ascii.eqb_spec c "+"); [contradiction|]. reflexivity.
Qed.

Lemma match_sint_str_Z (z : Z) (post : string) :
  take_while Parser.is_digit post = EmptyString ->
  Parser.match_sint (str_Z z ++ post) = Some (str_Z z).
Proof.
  intros Hpost.
  destruct (str_Z_cases z) as [[Hz E]|[Hz E]]; rewrite E.
  - assert (Ht := take_while_str_N (Z.to_N (- z)) post Hpost).
    destruct (str_N_starts_with_digit (Z.to_N (- z))) as [c [ds [Ek Hc]]].
    rewrite Ek in Ht |- *. simpl String.append in *.
    unfold Parser.match_sint.
    change (Parser.is_sign "-") with true. cbv iota.
    now rewrite Ht.
  - assert (Ht := take_while_str_N (Z.to_N z) post Hpost).
    destruct (str_N_starts_with_digit (Z.to_N z)) as [c [ds [Ek Hc]]].
    rewrite Ek in Ht |- *. simpl String.append in *.
    unfold Parser.match_sint.
    destruct (digit_is_no_sign c Hc) as [-> _]. now rewrite Ht.
Qed.

Lemma int_of_text_str_Z (z : Z) : Parser.int_of_text (str_Z z) = z.
Proof.
  destruct (str_Z_cases z) as [[Hz E]|[Hz E]]; rewrite E.
  - unfold Parser.int_of_text. simpl.
    rewrite int_of_digits_str_N. lia.
  - destruct (str_N_starts_with_digit (Z.to_N z)) as [c [ds [Ek Hc]]].
    unfold Parser.int_of_text. rewrite Ek.
    destruct (digit_is_no_sign c Hc) as [_ [-> ->]].
    rewrite <- Ek, int_of_digits_str_N. lia.
Qed.

(** X7: [sint] reads back what [str] writes for an integer, with its sign
    when it is negative. *)
Theorem sint_reads_decimal_text (z : Z) (pre post : string)
        (s : Parser.pos) :
  Parser.n s = String.length pre ->
  take_while Parser.is_digit post = EmptyString ->
  Parser.sint (pre ++ str_Z z ++ post) s =
  Ok (z, Parser.Pos (Parser.n s + String.length (str_Z z))
                    (Parser.line s)
                    (Parser.col s + String.length (str_Z z))).
Proof.
  intros Hn Hpost.
  unfold Parser.sint, Parser.pbind, Parser.rest.
  rewrite Hn, str_from_app, (match_sint_str_Z z post Hpost).
  unfold Parser.advance, Parser.ret.
  now rewrite int_of_text_str_Z, Hn.
Qed.

Lemma sint_reads_decimal_text_witness :
  Parser.sint "VAL_ 1 S -12 x" (Parser.Pos 9 1 9) =
  Ok ((-12)%Z, Parser.Pos 12 1 12).
Proof.
  exact (sint_reads_decimal_text (-12) "VAL_ 1 S " " x" (Parser.Pos 9 1 9)
                                 eq_refl eq_refl).
Defined.

Lemma str_app_assoc (a b c : string) : (a ++ b) ++ c = a ++ b ++ c.
Proof. induction a as [|x a IH]; simpl; [reflexivity | now rewrite IH]. Qed.

Lemma get_app_head (pre x : string) (c : ascii) :
  String.get (String.length pre) (pre ++ String c x) = Some c.
Proof. induction pre as [|a pre IH]; simpl; [reflexivity | exact IH]. Qed.

Lemma str_from_app_tail (pre x : string) (c : ascii) :
  str_from (S (String.length pre)) (pre ++ String c x) = x.
Proof.
  induction pre as [|a pre IH]; simpl; [now destruct x | exact IH].
Qed.

Lemma string_loop_reads (str post acc : string) (s : Parser.pos) :
  plain_text str = true ->
  exists c,
    Parser.string_loop (str ++ dq ++ post) acc s =
    Ok (acc ++ str,
        Parser.Pos (Parser.n s + String.length str + 1)
                   (Parser.line s + Parser.count_nl str) c).
Proof.
  revert acc s. induction str as [|a str IH]; intros acc s Hplain.
  - simpl. exists (S (Parser.col s)).
    rewrite app_empty, !Nat.add_0_r, Nat.add_1_r. reflexivity.
  - unfold plain_text in Hplain. simpl in Hplain.
    apply andb_true_iff in Hplain. destruct Hplain as [Ha Hplain].
    apply andb_true_iff in Ha. destruct Ha as [Hq Hb].
    apply negb_true_iff in Hq, Hb.
    cbn [String.append Parser.string_loop Parser.count_nl].
    rewrite Hb, Hq, andb_false_r.
    match goal with
    | |- context [Parser.string_loop _ _ ?s1] =>
        destruct (IH (acc ++ String a EmptyString) s1 Hplain) as [c Hc]
    end.
    exists c. rewrite Hc. rewrite str_app_assoc. simpl.
    f_equal. f_equal.
    destruct (Ascii.eqb a nl); simpl; f_equal; lia.
Qed.

(** X8: [string] reads back a text written between double quotes, when
    the text holds no double quote and no backslash: it answers the
    text, moves the cursor behind the closing quote and counts the
    newlines of the text as lines. *)
Theorem string_reads_quoted_text (str pre post : string)
        (s : Parser.pos) :
  Parser.n s = String.length pre ->
  plain_text str = true ->
  exists c,
    Parser.string_ (pre ++ Bus.quoted str ++ post) s =
    Ok (str, Parser.Pos (Parser.n s + String.length str + 2)
                        (Parser.line s + Parser.count_nl str) c).
Proof.
  intros Hn Hplain.
  assert (Et : pre ++ Bus.quoted str ++ post =
               pre ++ String "034" (str ++ dq ++ post)).
  { unfold Bus.quoted, dq. simpl. now rewrite str_app_assoc. }
  rewrite Et.
  destruct (string_loop_reads str post EmptyString
              (Parser.Pos (S (String.length pre)) (Parser.line s)
                          (S (Parser.col s))) Hplain) as [c Hc].
  exists c.
  unfold Parser.string_, Parser.pbind, Parser.peek.
  rewrite Hn, get_app_head, Ascii.eqb_refl. cbn [negb].
  rewrite Hn, str_from_app_tail, Hc. simpl.
  f_equal. f_equal. f_equal. lia.
Qed.

Lemma string_reads_quoted_text_witness :
  exists c,
    Parser.string_ ("VERSION " ++ Bus.quoted "a b" ++ " ")
                   (Parser.Pos 8 1 8) =
    Ok ("a b", Parser.Pos 13 1 c).
Proof.
  exact (string_reads_quoted_text "a b" "VERSION " " " (Parser.Pos 8 1 8)
                                  eq_refl eq_refl).
Defined.

Lemma string_loop_answers (rest acc r : string) (s s' : Parser.pos) :
  Parser.string_loop rest acc s = Ok (r, s') ->
  exists str post,
    rest = str ++ dq ++ post /\ r = acc ++ str /\
    plain_text str = true /\
    Parser.n s' = Parser.n s + String.length str + 1 /\
    Parser.line s' = Parser.line s + Parser.count_nl str.
Proof.
  revert acc s. induction rest as [|a rest IH]; intros acc s Hrun.
  - discriminate Hrun.
  - cbn [Parser.string_loop] in Hrun.
    destruct (negb (Ascii.eqb a nl) && Ascii.eqb a backslash) eqn:Hb;
      [discriminate Hrun|].
    destruct (Ascii.eqb a "034") eqn:Hq.
    + injection Hrun as <- <-. apply Ascii.eqb_eq in Hq. subst a.
      exists EmptyString, rest. simpl.
      rewrite app_empty, !Nat.add_0_r, Nat.add_1_r.
      repeat split.
    + destruct (IH _ _ Hrun) as [str [post [-> [-> [Hp [Hn Hl]]]]]].
      exists (String a str), post. simpl in Hn, Hl.
      repeat split.
      * now rewrite str_app_assoc.
      * unfold plain_text. simpl. rewrite Hq. simpl.
        assert (Hbs : Ascii.eqb a backslash = false).
        { destruct (Ascii.eqb a backslash) eqn:E; [|reflexivity].
          apply Ascii.eqb_eq in E. subst a. discriminate Hb. }
        rewrite Hbs. exact Hp.
      * simpl. rewrite Hn. destruct (Ascii.eqb a nl); simpl; lia.
      * simpl. rewrite Hl. destruct (Ascii.eqb a nl); simpl; lia.
Qed.

Lemma escape_dq_plain (str : string) :
  plain_text str = true -> escape_dq str = str.
Proof.
  unfold plain_text. induction str as [|a str IH]; simpl; [reflexivity|].
  intros Hp. apply andb_true_iff in Hp. destruct Hp as [Ha Hp].
  apply andb_true_iff in Ha. destruct Ha as [Hq _].
  apply negb_true_iff in Hq. rewrite Hq, (IH Hp). reflexivity.
Qed.

(** X9: What [string] answers is the text between the double quote at the
    cursor and the next one; it holds no double quote and no backslash,
    so that the escaping [Bus.dbc] applies to comments leaves it as it
    is; the cursor ends behind the closing quote, and the newlines of
    the text are counted as lines. *)
Theorem string_answers_text_between_quotes
        (text str : string) (s s' : Parser.pos) :
  Parser.string_ text s = Ok (str, s') ->
  (exists post, str_from (Parser.n s) text = Bus.quoted str ++ post) /\
  plain_text str = true /\
  escape_dq str = str /\
  Parser.n s' = Parser.n s + String.length str + 2 /\
  Parser.line s' = Parser.line s + Parser.count_nl str.
Proof.
  unfold Parser.string_, Parser.pbind, Parser.peek.
  destruct (String.get (Parser.n s) text) as [c|] eqn:Hget;
    [|discriminate].
  destruct (Ascii.eqb c "034") eqn:Hq; cbn [negb]; [|discriminate].
  apply Ascii.eqb_eq in Hq. subst c.
  intros Hrun. apply string_loop_answers in Hrun.
  destruct Hrun as [str' [post [Hrest [Hr [Hp [Hn Hl]]]]]].
  simpl in Hr, Hn, Hl. subst str'.
  split; [|split; [exact Hp | split; [now apply escape_dq_plain|]]].
  - exists post. rewrite (str_from_get _ _ _ Hget), Hrest.
    unfold Bus.quoted, dq. simpl. now rewrite str_app_assoc.
  - split; [lia | exact Hl].
Qed.

Lemma string_answers_text_between_quotes_witness :
  plain_text "km/h" = true /\ escape_dq "km/h" = "km/h".
Proof.
  destruct (string_answers_text_between_quotes
              ("[0|1] " ++ Bus.quoted "km/h" ++ " N") "km/h"
              (Parser.Pos 6 1 6) (Parser.Pos 12 1 12) eq_refl)
    as [_ [Hp [He _]]].
  exact (conj Hp He).
Defined.

Lemma take_while_split (f : ascii -> bool) (r : string) :
  exists post, r = take_while f r ++ post /\ take_while f post = EmptyString.
Proof.
  induction r as [|c r IH]; simpl.
  - exists EmptyString. split; reflexivity.
  - destruct (f c) eqn:Hc.
    + destruct IH as [post [E Hpost]]. exists post. split; [|exact Hpost].
      simpl. now rewrite <- E.
    + exists (String c r). split; [reflexivity|]. simpl. now rewrite Hc.
Qed.

Lemma take_while_all (f : ascii -> bool) (r : string) :
  forallb f (list_ascii_of_string (take_while f r)) = true.
Proof.
  induction r as [|c r IH]; simpl; [reflexivity|].
  destruct (f c) eqn:Hc; simpl; [now rewrite Hc | reflexivity].
Qed.

Lemma take_while_app (f : ascii -> bool) (a post : string) :
  forallb f (list_ascii_of_string a) = true ->
  take_while f post = EmptyString ->
  take_while f (a ++ post) = a.
Proof.
  intros Ha Hpost. induction a as [|c a IH]; simpl in *; [exact Hpost|].
  apply andb_true_iff in Ha. destruct Ha as [-> Ha]. now rewrite IH.
Qed.

(** X10: [identifier] answers [str] exactly when [str] is the whole run of
    letters, digits and underscores at the cursor, is not empty, does
    not begin with a digit and is not one of the reserved words; the
    cursor then moves behind the run, on the same line. *)
Theorem identifier_answers_the_whole_word
        (text : string) (reserved : list string) (str : string)
        (s s' : Parser.pos) :
  Parser.identifier text reserved s = Ok (str, s') <->
  (exists post,
      str_from (Parser.n s) text = str ++ post /\
      take_while Parser.idchar post = EmptyString) /\
  forallb Parser.idchar (list_ascii_of_string str) = true /\
  Parser.isidentifier str = true /\
  str_in str reserved = false /\
  s' = Parser.Pos (Parser.n s + String.length str) (Parser.line s)
                  (Parser.col s + String.length str).
Proof.
  unfold Parser.identifier, Parser.pbind, Parser.rest.
  set (r := str_from (Parser.n s) text).
  split.
  - destruct (Parser.isidentifier (take_while Parser.idchar r)) eqn:Hid;
      destruct (str_in (take_while Parser.idchar r) reserved) eqn:Hres;
      simpl; try discriminate.
    unfold Parser.advance, Parser.ret. intros E. injection E as <- <-.
    destruct (take_while_split Parser.idchar r) as [post [Er Hpost]].
    repeat split; try assumption.
    + exists post. split; assumption.
    + apply take_while_all.
  - intros [[post [Er Hpost]] [Hall [Hid [Hres ->]]]].
    rewrite Er, (take_while_app _ _ _ Hall Hpost), Hid, Hres. reflexivity.
Qed.

(** ** The cursor *)

Lemma str_from_add (a b : nat) (t : string) :
  str_from (a + b) t = str_from b (str_from a t).
Proof.
  revert t. induction a as [|a IH]; intros t; simpl; [reflexivity|].
  destruct t as [|c t]; [now destruct b | apply IH].
Qed.

Lemma eat_whitespace_loop_spec (rest : string) (s : Parser.pos) :
  let skipped := take_while is_whitespace rest in
  Parser.n (Parser.eat_whitespace_loop rest s) =
    Parser.n s + String.length skipped /\
  Parser.line (Parser.eat_whitespace_loop rest s) =
    Parser.line s + Parser.count_nl skipped.
Proof.
  cbv zeta. revert s. induction rest as [|c rest IH]; intros s.
  - simpl. split; lia.
  - cbn [Parser.eat_whitespace_loop take_while].
    fold (is_whitespace c). destruct (is_whitespace c) eqn:Hc.
    + match goal with
      | |- context [Parser.eat_whitespace_loop rest ?s3] =>
          destruct (IH s3) as [Hn Hl]
      end.
      rewrite Hn, Hl. cbn [String.length Parser.count_nl].
      destruct (Ascii.eqb c " "); destruct (Ascii.eqb c nl); simpl;
        split; lia.
    + simpl. split; lia.
Qed.

Lemma str_from_skipped (f : ascii -> bool) (rest : string) :
  take_while f (str_from (String.length (take_while f rest)) rest)
  = EmptyString.
Proof.
  destruct (take_while_split f rest) as [post [E Hpost]].
  rewrite E at 2. now rewrite str_from_app.
Qed.

(** X11: [eat_whitespace] never raises.  It moves the cursor forward over
    the whitespace at the cursor and counts every newline it passes as
    a line; where it stops, the text ends or goes on with a character
    that is no whitespace, so that a second [eat_whitespace] changes
    nothing. *)
Theorem eat_whitespace_skips_to_text (text : string) (s : Parser.pos) :
  exists s',
    Parser.eat_whitespace text s = Ok (tt, s') /\
    (let skipped := take_while is_whitespace (str_from (Parser.n s) text) in
     Parser.n s' = Parser.n s + String.length skipped /\
     Parser.line s' = Parser.line s + Parser.count_nl skipped) /\
    take_while is_whitespace (str_from (Parser.n s') text) = EmptyString /\
    Parser.eat_whitespace text s' = Ok (tt, s').
Proof.
  unfold Parser.eat_whitespace.
  set (rest := str_from (Parser.n s) text).
  exists (Parser.eat_whitespace_loop rest s).
  destruct (eat_whitespace_loop_spec rest s) as [Hn Hl].
  assert (Hstop : take_while is_whitespace
                    (str_from (Parser.n (Parser.eat_whitespace_loop rest s))
                              text) = EmptyString).
  { rewrite Hn, str_from_add. apply str_from_skipped. }
  split; [reflexivity|]. split; [split; assumption|].
  split; [exact Hstop|].
  f_equal. f_equal.
  destruct (str_from (Parser.n (Parser.eat_whitespace_loop rest s)) text)
    as [|c r]; [reflexivity|].
  cbn [take_while] in Hstop. cbn [Parser.eat_whitespace_loop].
  fold (is_whitespace c). destruct (is_whitespace c);
    [discriminate Hstop | reflexivity].
Qed.

(** ** The combinators *)

Section Combinators.
Variable text : string.

Lemma any_number_of_loop_no_parse_error {A : Type} (k : nat)
      (rule : Parser.parser A) (s : Parser.pos) (e : exn) :
  Parser.any_number_of_loop text k rule s = Raise e ->
  is_ParseError e = false /\
  (e = ModelError "fuel" \/ exists s0, rule s0 = Raise e).
Proof.
  revert s. induction k as [|k IH]; intros s; simpl.
  - destruct (Nat.ltb _ _); [|discriminate].
    intros E. injection E as <-. split; [reflexivity | now left].
  - destruct (Nat.ltb _ _); [|discriminate].
    destruct (rule s) as [[res0 s1]|e0] eqn:Hrule.
    + destruct (Parser.any_number_of_loop text k rule s1)
        as [[res s2]|e1] eqn:Hloop; [discriminate|].
      intros E. injection E as <-. now apply (IH s1).
    + destruct e0; try discriminate;
        intros E; injection E as <-;
        (split; [reflexivity | right; now exists s]).
Qed.

Lemma any_number_of_loop_ends {A : Type} (k : nat)
      (rule : Parser.parser A) (s : Parser.pos) :
  (forall s0 a s1, rule s0 = Ok (a, s1) -> Parser.n s0 < Parser.n s1) ->
  String.length text - Parser.n s < k ->
  Parser.any_number_of_loop text k rule s <> Raise (ModelError "fuel") \/
  exists s0, rule s0 = Raise (ModelError "fuel").
Proof.
  intros Hadv. revert s. induction k as [|k IH]; intros s Hk; [lia|].
  simpl. destruct (Nat.ltb (Parser.n s) (String.length text)) eqn:Hlt;
    [|left; discriminate].
  apply Nat.ltb_lt in Hlt.
  destruct (rule s) as [[res0 s1]|e0] eqn:Hrule.
  - assert (Hs1 := Hadv _ _ _ Hrule).
    destruct (IH s1) as [Hok|Hr]; [lia| |right; exact Hr].
    left. destruct (Parser.any_number_of_loop text k rule s1)
      as [[res s2]|e1]; [discriminate|].
    intros E. apply Hok. exact E.
  - destruct e0; try (left; discriminate).
    destruct (string_dec what "fuel") as [->|Hne].
    + right. now exists s.
    + left. intros E. injection E as E. contradiction.
Qed.

(** X12: [any_number_of] never raises a [ParseError]: the failure of its
    rule ends the repetition.  An exception it raises is one its rule
    raised; and with a rule that moves the cursor forward whenever it
    answers, the repetition ends within the length of the text. *)
Theorem any_number_of_ends_without_parse_error
        {A : Type} (rule : Parser.parser A) (s : Parser.pos) :
  (forall s0 a s1, rule s0 = Ok (a, s1) -> Parser.n s0 < Parser.n s1) ->
  match Parser.any_number_of text rule s with
  | Ok _ => True
  | Raise e => is_ParseError e = false /\ exists s0, rule s0 = Raise e
  end.
Proof.
  intros Hadv. unfold Parser.any_number_of.
  destruct (Parser.any_number_of_loop text (S (String.length text)) rule s)
    as [r|e] eqn:Hrun; [exact I|].
  destruct (any_number_of_loop_no_parse_error _ _ _ _ Hrun)
    as [Hpe [->|Hr]]; [|split; assumption].
  split; [reflexivity|].
  destruct (any_number_of_loop_ends (S (String.length text)) rule s Hadv)
    as [Hok|Hr]; [lia | contradiction | exact Hr].
Qed.

Lemma one_of_loop_first_success {A : Type}
      (before : list (Parser.parser A)) (rule : Parser.parser A)
      (after : list (Parser.parser A)) (s : Parser.pos)
      (r : A * Parser.pos) (best : nat * nat * option exn) :
  Forall (fun p => exists e, p s = Raise e /\ is_ParseError e = true)
         before ->
  rule s = Ok r ->
  Parser.one_of_loop (before ++ rule :: after)%list best s = Ok r.
Proof.
  intros Hbefore Hrule. revert best.
  induction Hbefore as [|p before [e [Hp He]] _ IH]; intros best; simpl.
  - now rewrite Hrule.
  - rewrite Hp. destruct e; try discriminate He.
    destruct best as [[ln cn] ex].
    destruct (_ || _); apply IH.
Qed.

Lemma one_of_loop_furthest {A : Type} (rules : list (Parser.parser A))
      (s : Parser.pos) (seen : list exn) (ln cn : nat) (ex : option exn) :
  Forall (fun p => exists ln0 cn0 msg args,
                     p s = Raise (ParseError ln0 cn0 msg args)
                     /\ 1 <= ln0) rules ->
  match ex with
  | Some e => In e seen /\ (exists msg args, e = ParseError ln cn msg args)
              /\ forall e', In e' seen -> not_behind e' e
  | None => seen = [] /\ ln = 0 /\ cn = 0
  end ->
  (rules <> [] \/ ex <> None) ->
  exists e,
    @Parser.one_of_loop A rules (ln, cn, ex) s = Raise e /\
    (In e seen \/ exists p, In p rules /\ p s = Raise e) /\
    (forall e', In e' seen -> not_behind e' e) /\
    (forall p e', In p rules -> p s = Raise e' -> not_behind e' e).
Proof.
  intros Hrules. revert seen ln cn ex.
  induction Hrules as [|p rules [ln0 [cn0 [msg [args [Hp Hln]]]]] _ IH];
    intros seen ln cn ex Hbest Hne.
  - simpl. destruct ex as [e|]; [|destruct Hne; contradiction].
    destruct Hbest as [Hin [_ Hmax]].
    exists e. repeat split; auto. intros p e' [].
  - cbn [Parser.one_of_loop]. rewrite Hp.
    set (e0 := ParseError ln0 cn0 msg args).
    destruct (Nat.ltb ln ln0 || (Nat.eqb ln0 ln && Nat.ltb cn cn0))
      eqn:Hcmp.
    + destruct (IH (e0 :: seen) ln0 cn0 (Some e0)) as [e [He [Hor [Hs Hr]]]].
      * split; [now left|]. split; [now exists msg, args|].
        intros e' [<-|He']; [simpl; lia|].
        destruct ex as [eb|].
        -- destruct Hbest as [_ [[m [a ->]] Hmax]].
           specialize (Hmax e' He'). destruct e'; try contradiction.
           simpl in *.
           apply orb_true_iff in Hcmp. destruct Hcmp as [Hc|Hc].
           ++ apply Nat.ltb_lt in Hc. lia.
           ++ apply andb_true_iff in Hc. destruct Hc as [Hc1 Hc2].
              apply Nat.eqb_eq in Hc1. apply Nat.ltb_lt in Hc2. lia.
        -- destruct Hbest as [-> _]. destruct He'.
      * right. discriminate.
      * exists e. split; [exact He|]. split; [|split].
        -- destruct Hor as [[<-|Hin]|[q [Hq Hqe]]].
           ++ right. exists p. split; [now left | exact Hp].
           ++ now left.
           ++ right. exists q. split; [now right | exact Hqe].
        -- intros e' He'. apply Hs. now right.
        -- intros q e' [<-|Hq] Hqe.
           ++ rewrite Hp in Hqe. injection Hqe as <-. apply Hs. now left.
           ++ now apply (Hr q).
    + destruct ex as [eb|].
      * destruct Hbest as [Hin [[m [a ->]] Hmax]].
        destruct (IH (e0 :: seen) ln cn (Some (ParseError ln cn m a)))
          as [e [He [Hor [Hs Hr]]]].
        -- split; [now right|]. split; [now exists m, a|].
           intros e' [<-|He']; [|now apply Hmax].
           simpl. apply orb_false_iff in Hcmp. destruct Hcmp as [Hc1 Hc2].
           apply Nat.ltb_ge in Hc1.
           apply andb_false_iff in Hc2.
           destruct Hc2 as [Hc2|Hc2].
           ++ apply Nat.eqb_neq in Hc2. lia.
           ++ apply Nat.ltb_ge in Hc2. lia.
        -- right. discriminate.
        -- exists e. split; [exact He|]. split; [|split].
           ++ destruct Hor as [[<-|Hi]|[q [Hq Hqe]]].
              ** right. exists p. split; [now left | exact Hp].
              ** now left.
              ** right. exists q. split; [now right | exact Hqe].
           ++ intros e' He'. apply Hs. now right.
           ++ intros q e' [<-|Hq] Hqe.
              ** rewrite Hp in Hqe. injection Hqe as <-. apply Hs. now left.
              ** now apply (Hr q).
      * exfalso. destruct Hbest as [_ [-> ->]].
        apply orb_false_iff in Hcmp. destruct Hcmp as [Hc _].
        apply Nat.ltb_ge in Hc. lia.
Qed.

(** X13: [one_of] answers what its first rule that answers does, when the
    rules before it raise a [ParseError]; and when every rule raises a
    [ParseError], it raises the one of them whose position is furthest
    into the text, by line and then by column. *)
Theorem one_of_first_answer_or_furthest_error
        {A : Type} (rules : list (Parser.parser A)) (s : Parser.pos) :
  (forall before rule after r,
      rules = (before ++ rule :: after)%list ->
      Forall (fun p => exists e, p s = Raise e /\ is_ParseError e = true)
             before ->
      rule s = Ok r ->
      Parser.one_of rules s = Ok r) /\
  (rules <> [] ->
   Forall (fun p => exists ln cn msg args,
                      p s = Raise (ParseError ln cn msg args) /\ 1 <= ln)
          rules ->
   exists e,
     Parser.one_of rules s = Raise e /\
     (exists p, In p rules /\ p s = Raise e) /\
     (forall p e', In p rules -> p s = Raise e' -> not_behind e' e)).
Proof.
  split.
  - intros before rule after r -> Hbefore Hrule.
    now apply one_of_loop_first_success.
  - intros Hne Hall.
    destruct (one_of_loop_furthest rules s [] 0 0 None Hall)
      as [e [He [Hor [_ Hr]]]]; [repeat split | now left |].
    exists e. split; [exact He|]. split; [|exact Hr].
    destruct Hor as [[]|Hp]. exact Hp.
Qed.
End Combinators.

Lemma uint_moves_forward (text : string) (s0 : Parser.pos) (a : N)
      (s1 : Parser.pos) :
  Parser.uint text s0 = Ok (a, s1) -> Parser.n s0 < Parser.n s1.
Proof.
  unfold Parser.uint, Parser.pbind, Parser.rest.
  destruct (take_while Parser.is_digit (str_from (Parser.n s0) text));
    [discriminate|].
  unfold Parser.advance, Parser.ret. intros E. injection E as _ <-.
  simpl. lia.
Qed.

Lemma any_number_of_ends_without_parse_error_witness :
  match Parser.any_number_of "12 a" (Parser.uint "12 a")
                             (Parser.Pos 0 1 0) with
  | Ok _ => True
  | Raise e => is_ParseError e = false /\
               exists s0, Parser.uint "12 a" s0 = Raise e
  end.
Proof.
  exact (any_number_of_ends_without_parse_error
           "12 a" (Parser.uint "12 a") (Parser.Pos 0 1 0)
           (uint_moves_forward "12 a")).
Defined.

(** ** Sections *)

Lemma prefix_of_prefix (a b r : string) :
  String.prefix a r = true -> String.prefix b r = true ->
  String.length a <= String.length b -> String.prefix a b = true.
Proof.
  revert b r. induction a as [|x a IH]; intros b r Ha Hb Hlen;
    [destruct b; reflexivity|].
  destruct b as [|y b]; [simpl in Hlen; lia|].
  destruct r as [|z r]; [discriminate Ha|].
  simpl in *.
  destruct (ascii_dec x z) as [->|]; [|discriminate Ha].
  destruct (ascii_dec y z) as [->|]; [|discriminate Hb].
  destruct (ascii_dec z z); [|contradiction].
  apply (IH b r); [assumption | assumption | lia].
Qed.

Lemma slice_is_prefix (str r : string) :
  String.eqb (str_slice 0 (String.length str) r) str = String.prefix str r.
Proof.
  unfold str_slice.
  destruct (String.prefix str r) eqn:Hp.
  - apply String.prefix_correct in Hp. rewrite Hp. apply String.eqb_refl.
  - apply String.eqb_neq. intros E.
    apply String.prefix_correct in E. congruence.
Qed.

Lemma section_keyword_loop_longest (text : string) (strs : list string)
      (s s' : Parser.pos) (kw : string) :
  longest_first strs = true ->
  Parser.section_keyword_loop text strs s = Ok (kw, s') ->
  In kw strs /\
  String.prefix kw (str_from (Parser.n s) text) = true /\
  (forall kw', In kw' strs ->
               String.prefix kw' (str_from (Parser.n s) text) = true ->
               String.length kw' <= String.length kw) /\
  s' = Parser.Pos (Parser.n s + String.length kw) (Parser.line s)
                  (Parser.col s + String.length kw).
Proof.
  induction strs as [|str strs IH]; intros Hlf Hrun.
  - discriminate Hrun.
  - cbn [Parser.section_keyword_loop] in Hrun.
    unfold Parser.pbind at 1 in Hrun. unfold Parser.rest at 1 in Hrun.
    rewrite slice_is_prefix in Hrun.
    cbn [longest_first] in Hlf. apply andb_true_iff in Hlf.
    destruct Hlf as [Hhead Htail].
    destruct (String.prefix str (str_from (Parser.n s) text)) eqn:Hp.
    + unfold Parser.pbind, Parser.advance, Parser.ret in Hrun.
      injection Hrun as <- <-.
      split; [now left|]. split; [exact Hp|]. split; [|reflexivity].
      intros kw' [<-|Hin] Hp'; [lia|].
      destruct (Nat.le_gt_cases (String.length kw') (String.length str))
        as [Hle|Hgt]; [exact Hle|].
      exfalso.
      assert (Hpre : String.prefix str kw' = true)
        by (apply (prefix_of_prefix _ _ _ Hp Hp'); lia).
      rewrite forallb_forall in Hhead. specialize (Hhead kw' Hin).
      rewrite Hpre in Hhead. simpl in Hhead.
      apply String.eqb_eq in Hhead. subst kw'. lia.
    + destruct (IH Htail Hrun) as [Hin [Hpk [Hmax Hs']]].
      split; [now right|]. split; [exact Hpk|]. split; [|exact Hs'].
      intros kw' [<-|Hin'] Hp'; [congruence|]. now apply Hmax.
Qed.

(** X14: The keyword [section_keyword] answers is the longest of the section
    keywords the text at the cursor begins with, as the order of
    [Parser.sections] is meant to achieve. *)
Theorem section_keyword_is_longest_match
        (text : string) (s s' : Parser.pos) (kw : string) :
  Parser.section_keyword text s = Ok (kw, s') ->
  In kw Parser.sections /\
  String.prefix kw (str_from (Parser.n s) text) = true /\
  (forall kw', In kw' Parser.sections ->
               String.prefix kw' (str_from (Parser.n s) text) = true ->
               String.length kw' <= String.length kw) /\
  s' = Parser.Pos (Parser.n s + String.length kw) (Parser.line s)
                  (Parser.col s + String.length kw).
Proof.
  apply section_keyword_loop_longest. vm_compute. reflexivity.
Qed.

Lemma section_keyword_is_longest_match_witness :
  String.prefix "BA_DEF_DEF_" "BA_DEF_DEF_ x" = true /\
  String.length "BA_DEF_" <= String.length "BA_DEF_DEF_".
Proof.
  destruct (section_keyword_is_longest_match
              "BA_DEF_DEF_ x" (Parser.Pos 0 1 0) (Parser.Pos 11 1 11)
              "BA_DEF_DEF_" eq_refl) as [_ [Hp [Hmax _]]].
  split; [exact Hp|].
  apply Hmax; [vm_compute; tauto | reflexivity].
Defined.

Section Values.
Context `{FloatModel}.
Variable text : string.

Lemma no_double_no_integer (r : string) :
  Parser.match_double r = None ->
  take_while Parser.is_digit r = EmptyString /\ Parser.match_sint r = None.
Proof.
  assert (Hm : forall x, Parser.match_mantissa x = None ->
                         take_while Parser.is_digit x = EmptyString).
  { intros x. unfold Parser.match_mantissa.
    destruct (take_while Parser.is_digit x) as [|c d1]; [reflexivity|].
    destruct (str_from _ x) as [|c' x']; [discriminate|].
    destruct (Ascii.eqb c' "."); [|discriminate].
    destruct (take_while Parser.is_digit x'); discriminate. }
  unfold Parser.match_double, Parser.match_sint.
  destruct r as [|c r]; [split; reflexivity|].
  destruct (Parser.is_sign c) eqn:Hc.
  - destruct (Parser.match_mantissa r) eqn:E; [discriminate|].
    intros _. rewrite (Hm _ E). split; [|reflexivity].
    simpl. destruct (Parser.is_digit c) eqn:Hd; [|reflexivity].
    destruct (digit_is_no_sign c Hd) as [Hs _]. congruence.
  - destruct (Parser.match_mantissa (String c r)) eqn:E; [discriminate|].
    intros _. rewrite (Hm _ E). split; reflexivity.
Qed.

Lemma lit_double_cases (s : Parser.pos) :
  (exists x s1, Parser.lit_double text s = Ok (LitFloat x, s1)) \/
  (exists msg args,
      Parser.lit_double text s =
      Raise (ParseError (Parser.line s) (Parser.col s) msg args) /\
      Parser.match_double (str_from (Parser.n s) text) = None).
Proof.
  unfold Parser.lit_double, Parser.double, Parser.pbind, Parser.rest.
  destruct (Parser.match_double (str_from (Parser.n s) text)) eqn:Hd.
  - left. eexists. eexists. reflexivity.
  - right. eexists. eexists. split; reflexivity.
Qed.

Lemma lit_uint_raises (s : Parser.pos) :
  take_while Parser.is_digit (str_from (Parser.n s) text) = EmptyString ->
  exists msg args,
    Parser.lit_uint text s =
    Raise (ParseError (Parser.line s) (Parser.col s) msg args).
Proof.
  intros Hu.
  unfold Parser.lit_uint, Parser.uint, Parser.pbind, Parser.rest.
  rewrite Hu. eexists. eexists. reflexivity.
Qed.

Lemma lit_sint_raises (s : Parser.pos) :
  Parser.match_sint (str_from (Parser.n s) text) = None ->
  exists msg args,
    Parser.lit_sint text s =
    Raise (ParseError (Parser.line s) (Parser.col s) msg args).
Proof.
  intros Hs.
  unfold Parser.lit_sint, Parser.sint, Parser.pbind, Parser.rest.
  rewrite Hs. eexists. eexists. reflexivity.
Qed.

Lemma lit_string_answers (s s1 : Parser.pos) (val : Literal) :
  Parser.lit_string text s = Ok (val, s1) -> exists str, val = LitStr str.
Proof.
  unfold Parser.lit_string, Parser.pbind.
  destruct (Parser.string_ text s) as [[str s2]|e]; [|discriminate].
  unfold Parser.ret. intros E. injection E as <- _. now exists str.
Qed.

Lemma one_of_loop_answer {A : Type} (rules : list (Parser.parser A))
      (best : nat * nat * option exn) (s : Parser.pos)
      (r : A * Parser.pos) :
  Parser.one_of_loop rules best s = Ok r ->
  exists before rule after,
    rules = (before ++ rule :: after)%list /\ rule s = Ok r /\
    Forall (fun p => exists e, p s = Raise e /\ is_ParseError e = true)
           before.
Proof.
  revert best. induction rules as [|p rules IH]; intros best; simpl.
  - destruct best as [[ln cn] [ex|]]; discriminate.
  - destruct (p s) as [r0|e] eqn:Hp.
    + intros E. injection E as <-.
      exists [], p, rules. repeat split; [exact Hp | constructor].
    + destruct e; try discriminate.
      destruct best as [[ln cn] ex].
      destruct (_ || _); intros Hrun;
        destruct (IH _ Hrun) as [before [rule [after [-> [Hr Hb]]]]];
        exists (p :: before), rule, after;
        (repeat split; [exact Hr|]);
        (constructor; [|exact Hb]);
        eexists; (split; [exact Hp | reflexivity]).
Qed.

Lemma value_of_BA_is_no_integer (s s' : Parser.pos) (val : Literal) :
  Parser.one_of [Parser.lit_double text; Parser.lit_uint text;
                 Parser.lit_sint text; Parser.lit_string text] s
  = Ok (val, s') ->
  match val with LitInt _ => False | _ => True end.
Proof.
  unfold Parser.one_of. intros Hrun.
  apply one_of_loop_answer in Hrun.
  destruct Hrun as [before [rule [after [Hrules [Hr Hb]]]]].
  destruct before as [|p0 before].
  - injection Hrules as <- _.
    destruct (lit_double_cases s) as [[x [s1 E]]|[msg [args [E _]]]];
      rewrite E in Hr; [|discriminate].
    injection Hr as <- _. exact I.
  - injection Hrules as <- Hrules.
    inversion Hb as [|? ? [e [He _]] Hb']; subst.
    destruct (lit_double_cases s) as [[x [s1 E]]|[msg [args [E Hd]]]];
      [rewrite E in He; discriminate|].
    destruct (no_double_no_integer _ Hd) as [Hu Hs].
    destruct (lit_uint_raises s Hu) as [mu [au Eu]].
    destruct (lit_sint_raises s Hs) as [ms [as_ Es]].
    destruct before as [|p1 before].
    + injection Hrules as <- _. rewrite Eu in Hr. discriminate.
    + injection Hrules as <- Hrules.
      destruct before as [|p2 before].
      * injection Hrules as <- _. rewrite Es in Hr. discriminate.
      * injection Hrules as <- Hrules.
        destruct before as [|p3 before].
        -- injection Hrules as <- _.
           destruct (lit_string_answers _ _ _ Hr) as [str ->]. exact I.
        -- destruct before; discriminate Hrules.
Qed.

(** X15: The value a [BA_] section is read with is a floating-point number
    or a string, never an integer: [double] is the first alternative
    and matches every text [uint] or [sint] would match. *)
Theorem BA_value_is_never_an_integer
        (s s' : Parser.pos) (name : string) (desc : objref)
        (val : Literal) :
  Parser.section_body_BA_ text s = Ok (SecBA name desc val, s') ->
  match val with LitInt _ => False | _ => True end.
Proof.
  unfold Parser.section_body_BA_.
  unfold Parser.pbind at 1. unfold Parser.eat_whitespace at 1.
  unfold Parser.pbind at 1.
  destruct (Parser.string_ text _) as [[name0 s1]|e]; [|discriminate].
  unfold Parser.pbind at 1. unfold Parser.eat_whitespace at 1.
  unfold Parser.pbind at 1.
  destruct (Parser.one_of _ _) as [[desc0 s2]|e]; [|discriminate].
  unfold Parser.pbind at 1. unfold Parser.eat_whitespace at 1.
  unfold Parser.pbind at 1.
  destruct (Parser.one_of _ _) as [[val0 s3]|e] eqn:Hval; [|discriminate].
  apply value_of_BA_is_no_integer in Hval.
  unfold Parser.pbind at 1. unfold Parser.eat_whitespace at 1.
  unfold Parser.pbind at 1.
  destruct (Parser.charmatch text ";" _) as [[u s4]|e]; [|discriminate].
  unfold Parser.ret. intros E. injection E as _ _ <- _. exact Hval.
Qed.
End Values.

Lemma BA_value_is_never_an_integer_witness :
  match @LitFloat literal_floats (@float_of_text literal_floats "5") with
  | LitInt _ => False
  | _ => True
  end.
Proof.
  exact (@BA_value_is_never_an_integer literal_floats
           (" " ++ Bus.quoted "a" ++ " BO_ 7 5;")
           (Parser.Pos 0 1 0) (Parser.Pos 13 1 13)
           "a" (RefBO 7)
           (LitFloat (@float_of_text literal_floats "5")) eq_refl).
Defined.

(** ** Whole texts *)

Lemma get_at_end (t : string) : String.get (String.length t) t = None.
Proof. induction t as [|c t IH]; simpl; [reflexivity | exact IH]. Qed.

Lemma eat_whitespace_over (text ws post : string) (s : Parser.pos) :
  blank ws = true ->
  take_while is_whitespace post = EmptyString ->
  str_from (Parser.n s) text = ws ++ post ->
  Parser.n (Parser.eat_whitespace_loop (str_from (Parser.n s) text) s)
  = Parser.n s + String.length ws.
Proof.
  intros Hws Hpost E.
  destruct (eat_whitespace_loop_spec (str_from (Parser.n s) text) s)
    as [Hn _].
  rewrite Hn, E. now rewrite (take_while_app _ _ _ Hws Hpost).
Qed.

Section WholeTexts.
Context `{FloatModel}.

(** X16: [parse] answers the empty list of sections for the empty text and
    for every text of whitespace only. *)
Theorem parse_of_blank_text_is_empty (text : string) :
  blank text = true -> Parser.parse text = Ok [].
Proof.
  intros Hblank.
  assert (Hn : Parser.n (Parser.eat_whitespace_loop
                           (str_from (Parser.n Parser.initial) text)
                           Parser.initial) = String.length text).
  { rewrite (eat_whitespace_over text text EmptyString Parser.initial
               Hblank eq_refl); [reflexivity|].
    simpl. now rewrite app_empty. }
  set (s1 := Parser.eat_whitespace_loop
               (str_from (Parser.n Parser.initial) text) Parser.initial)
    in *.
  unfold Parser.parse, Parser.start, Parser.pbind, Parser.eat_whitespace.
  fold s1. cbn [Parser.start_loop]. rewrite Hn, Nat.ltb_irrefl.
  unfold Parser.assert_at_end, Parser.pbind, Parser.more.
  rewrite Hn, Nat.ltb_irrefl. reflexivity.
Qed.
End WholeTexts.

Lemma parse_of_blank_text_is_empty_witness :
  @Parser.parse literal_floats (String nl "  ") = Ok [].
Proof.
  exact (@parse_of_blank_text_is_empty literal_floats (String nl "  ")
                                       eq_refl).
Defined.

Lemma section_keyword_loop_skips (text : string) (str : string)
      (strs : list string) (s : Parser.pos) :
  String.prefix str (str_from (Parser.n s) text) = false ->
  Parser.section_keyword_loop text (str :: strs) s =
  Parser.section_keyword_loop text strs s.
Proof.
  intros Hp. cbn [Parser.section_keyword_loop].
  unfold Parser.pbind at 1. unfold Parser.rest at 1.
  now rewrite slice_is_prefix, Hp.
Qed.

Lemma section_keyword_loop_takes (text : string) (str : string)
      (strs : list string) (s : Parser.pos) :
  String.prefix str (str_from (Parser.n s) text) = true ->
  Parser.section_keyword_loop text (str :: strs) s =
  Ok (str, Parser.Pos (Parser.n s + String.length str) (Parser.line s)
                      (Parser.col s + String.length str)).
Proof.
  intros Hp. cbn [Parser.section_keyword_loop].
  unfold Parser.pbind at 1. unfold Parser.rest at 1.
  now rewrite slice_is_prefix, Hp.
Qed.

Lemma section_keyword_VERSION (text post : string) (s : Parser.pos) :
  str_from (Parser.n s) text = "VERSION" ++ post ->
  Parser.section_keyword text s =
  Ok ("VERSION", Parser.Pos (Parser.n s + 7) (Parser.line s)
                            (Parser.col s + 7)).
Proof.
  intros E. unfold Parser.section_keyword, Parser.sections.
  repeat (rewrite section_keyword_loop_skips; [|rewrite E; reflexivity]).
  rewrite section_keyword_loop_takes; [reflexivity|].
  rewrite E. destruct post; reflexivity.
Qed.

Lemma section_keyword_NS_ (text post : string) (s : Parser.pos) :
  str_from (Parser.n s) text = "NS_" ++ post ->
  Parser.section_keyword text s =
  Ok ("NS_", Parser.Pos (Parser.n s + 3) (Parser.line s)
                        (Parser.col s + 3)).
Proof.
  intros E. unfold Parser.section_keyword, Parser.sections.
  repeat (rewrite section_keyword_loop_skips; [|rewrite E; reflexivity]).
  rewrite section_keyword_loop_takes; [reflexivity|].
  rewrite E. destruct post; reflexivity.
Qed.

Section Truncated.
Context `{FloatModel}.

Lemma peek_at_end (text ws : string) (s : Parser.pos) :
  blank ws = true ->
  str_from (Parser.n s) text = ws ->
  Parser.n s + String.length ws = String.length text ->
  Parser.peek text (Parser.eat_whitespace_loop (str_from (Parser.n s) text) s)
  = Raise IndexError.
Proof.
  intros Hws E Hlen. unfold Parser.peek.
  rewrite (eat_whitespace_over text ws EmptyString s Hws eq_refl);
    [|now rewrite app_empty].
  now rewrite Hlen, get_at_end.
Qed.

Lemma parse_truncated (kw ws1 ws2 : string) (body : Parser.parser Sec) :
  blank ws1 = true -> blank ws2 = true ->
  take_while is_whitespace kw = EmptyString ->
  0 < String.length kw ->
  (forall s,
      str_from (Parser.n s) (ws1 ++ kw ++ ws2) = kw ++ ws2 ->
      Parser.section_keyword (ws1 ++ kw ++ ws2) s =
      Ok (kw, Parser.Pos (Parser.n s + String.length kw) (Parser.line s)
                         (Parser.col s + String.length kw))) ->
  Parser.section_body (ws1 ++ kw ++ ws2) kw = Some body ->
  (forall s,
      str_from (Parser.n s) (ws1 ++ kw ++ ws2) = ws2 ->
      Parser.n s + String.length ws2 = String.length (ws1 ++ kw ++ ws2) ->
      body s = Raise IndexError) ->
  Parser.parse (ws1 ++ kw ++ ws2) = Raise IndexError.
Proof.
  intros H1 H2 Hkw Hlen Hkeyword Hbody Hraise.
  set (text := ws1 ++ kw ++ ws2) in *.
  set (s1 := Parser.eat_whitespace_loop
               (str_from (Parser.n Parser.initial) text) Parser.initial).
  assert (Hpost : take_while is_whitespace (kw ++ ws2) = EmptyString).
  { destruct kw as [|c kw]; [simpl in Hlen; lia|].
    simpl in *. destruct (is_whitespace c); [discriminate Hkw|reflexivity]. }
  assert (Hn1 : Parser.n s1 = String.length ws1).
  { unfold s1.
    now rewrite (eat_whitespace_over text ws1 (kw ++ ws2) Parser.initial
                   H1 Hpost eq_refl). }
  assert (Hrest1 : str_from (Parser.n s1) text = kw ++ ws2).
  { rewrite Hn1. apply str_from_app. }
  assert (Hlt : Nat.ltb (Parser.n s1) (String.length text) = true).
  { apply Nat.ltb_lt. unfold text. rewrite Hn1, !length_app. lia. }
  unfold Parser.parse, Parser.start.
  unfold Parser.pbind at 1. unfold Parser.pbind at 1.
  unfold Parser.eat_whitespace at 1. fold s1.
  cbn [Parser.start_loop]. rewrite Hlt.
  unfold Parser.pbind at 1. unfold Parser.section at 1.
  unfold Parser.pbind at 1.
  rewrite (Hkeyword s1 Hrest1), Hbody.
  rewrite Hraise; [reflexivity | |].
  - simpl Parser.n. rewrite Hn1.
    unfold text at 1. rewrite str_from_length_app, str_from_app.
    reflexivity.
  - simpl Parser.n. unfold text. rewrite Hn1, !length_app. lia.
Qed.

(** X17: A text that ends behind the keyword [VERSION] or [NS_], with
    nothing but whitespace around it, makes [parse] raise an
    [IndexError]: [string] and [section_body_NS_] read the character at
    the cursor without asking whether the text has ended. *)
Theorem parse_of_truncated_text_raises_IndexError (ws1 ws2 : string) :
  blank ws1 = true -> blank ws2 = true ->
  Parser.parse (ws1 ++ "VERSION" ++ ws2) = Raise IndexError /\
  Parser.parse (ws1 ++ "NS_" ++ ws2) = Raise IndexError.
Proof.
  intros H1 H2. split.
  - apply (parse_truncated "VERSION" ws1 ws2
             (Parser.section_body_VERSION (ws1 ++ "VERSION" ++ ws2)));
      try reflexivity; try assumption.
    + simpl. lia.
    + intros s E. now apply (section_keyword_VERSION _ ws2).
    + intros s E Hlen.
      unfold Parser.section_body_VERSION.
      unfold Parser.pbind at 1. unfold Parser.eat_whitespace at 1.
      unfold Parser.pbind at 1. unfold Parser.string_.
      unfold Parser.pbind at 1.
      now rewrite (peek_at_end _ ws2 s H2 E Hlen).
  - apply (parse_truncated "NS_" ws1 ws2
             (Parser.section_body_NS_ (ws1 ++ "NS_" ++ ws2)));
      try reflexivity; try assumption.
    + simpl. lia.
    + intros s E. now apply (section_keyword_NS_ _ ws2).
    + intros s E Hlen.
      unfold Parser.section_body_NS_.
      unfold Parser.pbind at 1. unfold Parser.eat_whitespace at 1.
      unfold Parser.pbind at 1.
      now rewrite (peek_at_end _ ws2 s H2 E Hlen).
Qed.
End Truncated.

Lemma parse_of_truncated_text_raises_IndexError_witness :
  @Parser.parse literal_floats (String nl "VERSION ") = Raise IndexError.
Proof.
  exact (proj1 (@parse_of_truncated_text_raises_IndexError literal_floats
                  (String nl EmptyString) " " eq_refl eq_refl)).
Defined.

(** ** The steps of the builder *)

Section Chain.
Context `{FloatModel}.

Lemma sections_of_rest {A B : Type} (sel : Sec -> option A)
      (sel' : Sec -> option B) (l : list Sec) :
  (forall s, sel s = None \/ sel' s = None) ->
  sections_of sel' (snd (Bus.xtract_sec sel l)) = sections_of sel' l.
Proof.
  intros Hdis. unfold sections_of, Bus.xtract_sec. simpl.
  induction l as [|s l IH]; simpl; [reflexivity|].
  destruct (Hdis s) as [E|E].
  - rewrite E. simpl. now rewrite IH.
  - destruct (sel s); simpl; rewrite E; simpl; exact IH.
Qed.

Lemma run_is_fold {A : Type} (sel : Sec -> option A)
      (handle : Bus.t -> A -> Res Bus.t) (self : Bus.t)
      (rest : list Sec) :
  Bus.run sel handle (self, rest) =
  (b <- foldM handle (sections_of sel rest) self ;;
   Ok (b, snd (Bus.xtract_sec sel rest))).
Proof. reflexivity. Qed.

Lemma bind_assoc {A B C : Type} (m : Res A) (f : A -> Res B)
      (g : B -> Res C) :
  bind (bind m f) g = bind m (fun a => bind (f a) g).
Proof. destruct m; reflexivity. Qed.

Lemma bind_ext {A B : Type} (m : Res A) (f g : A -> Res B) :
  (forall a, f a = g a) -> bind m f = bind m g.
Proof. intros E. destruct m; simpl; auto. Qed.

Lemma init_head_rest (secs : list Sec) (st : Bus.t * list Sec) :
  Bus.init_head secs = Ok st ->
  snd st =
  snd (Bus.xtract_sec Bus.NS_
         (snd (Bus.xtract_sec Bus.BU_
                 (snd (Bus.xtract_sec Bus.BS_
                         (snd (Bus.xtract_sec Bus.VERSION secs))))))).
Proof.
  unfold Bus.init_head. cbv zeta.
  unfold Bus.xtract_sec at 1.
  intros Hrun.
  apply bind_Ok in Hrun. destruct Hrun as [v [_ Hrun]].
  unfold Bus.xtract_sec at 1 in Hrun.
  apply bind_Ok in Hrun. destruct Hrun as [t [_ Hrun]].
  unfold Bus.xtract_sec at 1 in Hrun.
  apply bind_Ok in Hrun. destruct Hrun as [nl [_ Hrun]].
  unfold Bus.xtract_sec at 1 in Hrun.
  apply bind_Ok in Hrun. destruct Hrun as [ns [_ Hrun]].
  injection Hrun as <-. reflexivity.
Qed.

Lemma nothing_left (l : list Sec) :
  snd (Bus.xtract_sec Bus.SG_MUL_VAL_
  (snd (Bus.xtract_sec Bus.SIG_VALTYPE_
  (snd (Bus.xtract_sec Bus.SIG_GROUP_
  (snd (Bus.xtract_sec Bus.VAL_
  (snd (Bus.xtract_sec Bus.BA_
  (snd (Bus.xtract_sec Bus.BA_DEF_DEF_
  (snd (Bus.xtract_sec Bus.BA_DEF_
  (snd (Bus.xtract_sec Bus.CM_
  (snd (Bus.xtract_sec Bus.BO_TX_BU_
  (snd (Bus.xtract_sec Bus.BO_
  (snd (Bus.xtract_sec Bus.VAL_TABLE_
  (snd (Bus.xtract_sec Bus.NS_
  (snd (Bus.xtract_sec Bus.BU_
  (snd (Bus.xtract_sec Bus.BS_
  (snd (Bus.xtract_sec Bus.VERSION l))))))))))))))))))))))))))))) = [].
Proof.
  unfold Bus.xtract_sec. cbn [snd].
  induction l as [|a l IH]; [reflexivity|].
  destruct a; simpl; exact IH.
Qed.

(** The sections are taken from the list kind by kind, so that each
    step handles the sections of its kind in the order they have in the
    list [Bus.__init__] was given, and no section is left over. *)
Lemma init_is_chain (secs : list Sec) : Bus.init secs = init_chain secs.
Proof.
  unfold Bus.init, init_chain.
  destruct (Bus.init_head secs) as [[b0 rest0]|e] eqn:Hhead;
    [|reflexivity].
  apply init_head_rest in Hhead. cbn [snd] in Hhead. subst rest0.
  cbn [bind fst snd].
  repeat (rewrite run_is_fold, bind_assoc;
          rewrite !sections_of_rest by (intros []; simpl; auto);
          apply bind_ext; intros ?b; cbn [bind fst snd]).
  apply bind_ext; intros ms.
  rewrite run_is_fold, bind_assoc.
  rewrite !sections_of_rest by (intros []; simpl; auto).
  apply bind_ext; intros b11. cbn [bind fst snd].
  apply bind_ext; intros _.
  now rewrite nothing_left.
Qed.
End Chain.

Section GenericDict.
Context {K V : Type} (keq : K -> K -> bool).
Hypothesis keq_eq : forall a b, keq a b = true <-> a = b.

Lemma dict_mem_In (k : K) (d : dict K V) :
  dict_mem keq k d = true <-> In k (dict_keys d).
Proof.
  unfold dict_mem. induction d as [|[k' v'] d IH]; simpl.
  - split; [discriminate | intros []].
  - destruct (keq k k') eqn:E.
    + apply keq_eq in E. subst k'. split; [now left | reflexivity].
    + rewrite IH. split; [now right|].
      intros [->|Hin]; [|exact Hin].
      assert (keq k k = true) by now apply keq_eq. congruence.
Qed.

Lemma dict_set_keys_any (k : K) (v : V) (d : dict K V) :
  dict_keys (dict_set keq k v d) =
  if dict_mem keq k d then dict_keys d else (dict_keys d ++ [k])%list.
Proof.
  unfold dict_mem. induction d as [|[k' v'] d IH]; simpl; [reflexivity|].
  destruct (keq k k') eqn:E; simpl; [reflexivity|].
  unfold dict_keys in *. rewrite IH.
  destruct (dict_get keq k d); reflexivity.
Qed.

Lemma dict_get_entry (k : K) (v : V) (d : dict K V) :
  dict_get keq k d = Some v -> In (k, v) d.
Proof.
  induction d as [|[k' v'] d IH]; simpl; [discriminate|].
  destruct (keq k k') eqn:E.
  - apply keq_eq in E. subst k'. intros E'. injection E' as <-. now left.
  - intros Hget. right. now apply IH.
Qed.

Lemma dict_set_Forall (P : K * V -> Prop) (k : K) (v : V) (d : dict K V) :
  P (k, v) -> Forall P d -> Forall P (dict_set keq k v d).
Proof.
  intros Hv. induction d as [|[k' v'] d IH]; intros Hd; simpl.
  - constructor; auto.
  - inversion Hd; subst. destruct (keq k k') eqn:E.
    + apply keq_eq in E. subst k'. constructor; auto.
    + constructor; auto.
Qed.
End GenericDict.

Lemma N_eqb_eq (a b : N) : N.eqb a b = true <-> a = b.
Proof. apply N.eqb_eq. Qed.

Lemma foldM_all {A S : Type} (step : S -> A -> Res S) (l : list A)
      (s s' : S) :
  foldM step l s = Ok s' ->
  forall x, In x l -> exists s0 s1, step s0 x = Ok s1.
Proof.
  revert s. induction l as [|y l IH]; intros s Hrun x Hin;
    [destruct Hin|].
  simpl in Hrun. apply bind_Ok in Hrun. destruct Hrun as [s1 [H1 H2]].
  destruct Hin as [<-|Hin]; [now exists s, s1|].
  now apply (IH s1 H2 x).
Qed.

Section Frames.
Context `{FloatModel}.

Lemma keeps_frame_refl (a : Bus.t) : keeps_frame a a.
Proof. repeat split; auto. Qed.

Lemma keeps_frame_trans (a b c : Bus.t) :
  keeps_frame a b -> keeps_frame b c -> keeps_frame a c.
Proof.
  intros [[A1 [A2 [A3 [A4 A5]]]] [A6 A7]] [[B1 [B2 [B3 [B4 B5]]]] [B6 B7]].
  repeat split; try congruence. auto.
Qed.

Lemma foldM_keeps_frame {A : Type} (handle : Bus.t -> A -> Res Bus.t)
      (l : list A) (a b : Bus.t) :
  (forall s x s', handle s x = Ok s' -> keeps_frame s s') ->
  foldM handle l a = Ok b -> keeps_frame a b.
Proof.
  intros Hh.
  apply (foldM_inv (keeps_frame a) handle l);
    [|apply keeps_frame_refl].
  intros s x s' _ Hs Hstep.
  apply (keeps_frame_trans a s s'); [exact Hs | now apply (Hh s x)].
Qed.

Lemma on_message_frame (self self' : Bus.t) (id : N) (missing : exn)
      (f : Message.t -> Res Message.t) :
  (forall msg msg', f msg = Ok msg' -> Message.id msg' = Message.id msg) ->
  Bus.on_message self id missing f = Ok self' ->
  keeps_frame self self'.
Proof.
  intros Hf. unfold Bus.on_message.
  destruct (dict_get N.eqb id (Bus.messages self)) as [msg|] eqn:Hget;
    [|discriminate].
  intros Hrun. apply bind_Ok in Hrun. destruct Hrun as [msg' [Hmsg' E]].
  injection E as <-.
  assert (Hin := dict_get_entry N.eqb N_eqb_eq _ _ _ Hget).
  split; [repeat split|split].
  - simpl. rewrite (dict_set_keys_any N.eqb).
    unfold dict_mem. now rewrite Hget.
  - unfold keyed. simpl. intros Hk.
    apply (dict_set_Forall N.eqb N_eqb_eq); [|exact Hk].
    simpl. rewrite (Hf _ _ Hmsg').
    rewrite Forall_forall in Hk. apply (Hk _ Hin).
Qed.

Lemma on_signal_id (msg msg' : Message.t) (signame : string)
      (missing : exn) (f : Signal.t -> Signal.t) :
  Bus.on_signal msg signame missing f = Ok msg' ->
  Message.id msg' = Message.id msg.
Proof.
  unfold Bus.on_signal. destruct (dict_get _ _ _); [|discriminate].
  intros E. injection E as <-. reflexivity.
Qed.

Lemma add_transmitter_id (nodes : dict string Bus.node)
      (msg msg' : Message.t) (tx : string) :
  Bus.add_transmitter nodes msg tx = Ok msg' ->
  Message.id msg' = Message.id msg.
Proof.
  unfold Bus.add_transmitter.
  destruct (negb (dict_mem _ _ _)); [discriminate|].
  destruct (negb (str_in _ _)); intros E; injection E as <-; reflexivity.
Qed.

Lemma attach_id (mux : nat) (msg msg' : Message.t) (sig : nat) :
  Bus.attach mux msg sig = Ok msg' -> Message.id msg' = Message.id msg.
Proof.
  unfold Bus.attach. intros Hrun.
  apply bind_Ok in Hrun. destruct Hrun as [s [_ Hrun]].
  apply bind_Ok in Hrun. destruct Hrun as [m [_ Hrun]].
  destruct (Signal.multiplex_value s); [|discriminate].
  destruct (Signal.multiplexes m _); [|discriminate].
  apply bind_Ok in Hrun. destruct Hrun as [l [_ E]].
  injection E as <-. reflexivity.
Qed.

Lemma organize_id (msg msg' : Message.t) :
  Bus.organize msg = Ok msg' -> Message.id msg' = Message.id msg.
Proof.
  unfold Bus.organize. intros Hrun.
  apply bind_Ok in Hrun. destruct Hrun as [[[mux mpx] k] [_ Hrun]].
  destruct (Nat.eqb k 1); [|injection Hrun as <-; reflexivity].
  destruct mux as [mux|]; [|discriminate].
  apply (foldM_inv (fun m => Message.id m = Message.id msg)
                   (Bus.attach mux) mpx) with (s := msg);
    [|reflexivity|exact Hrun].
  intros m x m' _ Hm Hstep. rewrite <- Hm. now apply (attach_id mux m m' x).
Qed.

Lemma multiplex_by_id (signame muxname : string) (ranges : list (N * N))
      (msg msg' : Message.t) :
  Bus.multiplex_by signame muxname ranges msg = Ok msg' ->
  Message.id msg' = Message.id msg.
Proof.
  unfold Bus.multiplex_by.
  destruct (dict_get _ signame _); [|discriminate].
  destruct (dict_get _ muxname _); [|discriminate].
  intros Hrun. apply bind_Ok in Hrun. destruct Hrun as [m [_ Hrun]].
  destruct (negb _); [discriminate|].
  destruct (existsb _ _); [|discriminate].
  apply bind_Ok in Hrun. destruct Hrun as [l [_ E]].
  injection E as <-. reflexivity.
Qed.

Lemma add_table_frame self c self' :
  Bus.add_table self c = Ok self' -> keeps_frame self self'.
Proof.
  unfold Bus.add_table. destruct (dict_mem _ _ _); [discriminate|].
  intros E. injection E as <-. repeat split; auto.
Qed.

Lemma add_transmitters_frame self c self' :
  Bus.add_transmitters self c = Ok self' -> keeps_frame self self'.
Proof.
  unfold Bus.add_transmitters. apply on_message_frame.
  intros msg msg' Hrun.
  apply (foldM_inv (fun m => Message.id m = Message.id msg)
                   (Bus.add_transmitter (Bus.nodes self)) (snd c))
    with (s := msg); [|reflexivity|exact Hrun].
  intros m x m' _ Hm Hstep. rewrite <- Hm.
  now apply (add_transmitter_id (Bus.nodes self) m m' x).
Qed.

Lemma dict_set_present_keys {V : Type} (k : string) (v v' : V)
      (d : dict string V) :
  dict_get String.eqb k d = Some v' ->
  dict_keys (dict_set String.eqb k v d) = dict_keys d.
Proof.
  intros Hget. rewrite (dict_set_keys_any String.eqb).
  unfold dict_mem. now rewrite Hget.
Qed.

Lemma add_comment_frame self c self' :
  Bus.add_comment self c = Ok self' -> keeps_frame self self'.
Proof.
  unfold Bus.add_comment. destruct c as [[name|id|id name|name|] text];
    simpl.
  - destruct (dict_get String.eqb name (Bus.nodes self)) as [nd|] eqn:E;
      [|discriminate].
    intros R. injection R as <-. repeat split; auto. simpl.
    now apply (dict_set_present_keys _ _ nd).
  - apply on_message_frame. intros msg msg' R. injection R as <-.
    reflexivity.
  - apply on_message_frame. intros msg msg'. apply on_signal_id.
  - discriminate.
  - intros R. injection R as <-. repeat split; auto.
Qed.

Lemma add_typedef_frame self c self' :
  Bus.add_typedef self c = Ok self' -> keeps_frame self self'.
Proof.
  unfold Bus.add_typedef. destruct c as [[ct name] typ].
  destruct (dict_get _ _ _); [|discriminate].
  destruct (dict_mem _ _ _); [discriminate|].
  intros R. injection R as <-. repeat split; auto.
Qed.

Lemma add_default_frame self c self' :
  Bus.add_default self c = Ok self' -> keeps_frame self self'.
Proof.
  unfold Bus.add_default. destruct c as [name val].
  destruct (dict_mem _ _ _); [discriminate|].
  intros R. injection R as <-. repeat split; auto.
Qed.

Lemma add_attribute_frame self c self' :
  Bus.add_attribute self c = Ok self' -> keeps_frame self self'.
Proof.
  unfold Bus.add_attribute.
  destruct c as [[name [node|id|id signame|ev|]] val].
  - destruct (dict_get String.eqb node (Bus.nodes self)) as [nd|] eqn:E;
      [|discriminate].
    destruct (dict_mem _ _ _); [discriminate|].
    intros R. injection R as <-. repeat split; auto. simpl.
    now apply (dict_set_present_keys _ _ nd).
  - apply on_message_frame. intros msg msg'.
    destruct (dict_mem _ _ _); [discriminate|].
    intros R. injection R as <-. reflexivity.
  - destruct (dict_get N.eqb id (Bus.messages self)); [|discriminate].
    destruct (dict_get String.eqb signame _); [|discriminate].
    intros Hrun. apply bind_Ok in Hrun. destruct Hrun as [s [_ Hrun]].
    destruct (dict_mem _ _ _); [discriminate|].
    injection Hrun as <-. apply keeps_frame_refl.
  - discriminate.
  - destruct (dict_mem _ _ _); [discriminate|].
    intros R. injection R as <-. repeat split; auto.
Qed.

Lemma add_value_descriptions_frame self c self' :
  Bus.add_value_descriptions self c = Ok self' -> keeps_frame self self'.
Proof.
  unfold Bus.add_value_descriptions. destruct c as [[id signame] vals].
  apply on_message_frame. intros msg msg'. apply on_signal_id.
Qed.

Lemma add_signal_group_frame self c self' :
  Bus.add_signal_group self c = Ok self' -> keeps_frame self self'.
Proof.
  unfold Bus.add_signal_group. destruct c as [[[id gname] number] sigs].
  apply on_message_frame. intros msg msg'.
  destruct (dict_mem _ _ _); [discriminate|].
  destruct (nonempty _); [discriminate|].
  intros R. injection R as <-. reflexivity.
Qed.

Lemma set_signal_value_type_frame self c self' :
  Bus.set_signal_value_type self c = Ok self' -> keeps_frame self self'.
Proof.
  unfold Bus.set_signal_value_type. destruct c as [[id signame] tn].
  apply on_message_frame. intros msg msg'. apply on_signal_id.
Qed.

Lemma add_mul_val_frame self c self' :
  Bus.add_mul_val self c = Ok self' -> keeps_frame self self'.
Proof.
  unfold Bus.add_mul_val. destruct c as [[[id signame] muxname] ranges].
  apply on_message_frame. intros msg msg'. apply multiplex_by_id.
Qed.

Lemma each_message_organize_frame (ms ms' : dict N Message.t) :
  Bus.each_message Bus.organize ms = Ok ms' ->
  dict_keys ms' = dict_keys ms /\
  (Forall (fun kv => Message.id (snd kv) = fst kv) ms ->
   Forall (fun kv => Message.id (snd kv) = fst kv) ms').
Proof.
  revert ms'. induction ms as [|[id msg] ms IH]; intros ms'; simpl.
  - intros E. injection E as <-. split; [reflexivity | auto].
  - intros Hrun.
    apply bind_Ok in Hrun. destruct Hrun as [msg' [Hmsg' Hrun]].
    apply bind_Ok in Hrun. destruct Hrun as [rest [Hrest E]].
    injection E as <-. destruct (IH _ Hrest) as [Hk Hf].
    split; [simpl; now rewrite Hk|].
    intros Hall. inversion Hall; subst. constructor; [|auto].
    simpl in *. now rewrite (organize_id _ _ Hmsg').
Qed.
End Frames.

(** ** Where the objects of a bus come from *)

Section Origin.
Context `{FloatModel}.
Variable secs : list Sec.

Lemma append_loop_fields (l : list signal_dict) (m : Message.t) :
  let m' := fold_left (fun msg sig_d =>
                         Message.append (Signal.init sig_d) msg) l m in
  Message.id m' = Message.id m /\ Message.name m' = Message.name m /\
  Message.size m' = Message.size m.
Proof.
  cbv zeta. revert m. induction l as [|x l IH]; intros m; simpl;
    [repeat split|].
  destruct (IH (Message.append (Signal.init x) m)) as [A [B C]].
  now rewrite A, B, C.
Qed.

Lemma new_message_made_from (d : message_dict) :
  made_from d (Bus.new_message d).
Proof.
  unfold made_from, Bus.new_message.
  destruct (append_loop_fields (md_signals d)
              (Message.init (md_id d) (md_name d) (md_size d)
                            (md_transmitter d))) as [A [B C]].
  rewrite A, B, C, append_loop_transmitters, append_loop_objs. simpl.
  repeat split. - now exists []. - now rewrite map_map.
Qed.

Lemma rewired_made_from (placed : bool) (d : message_dict)
      (msg msg' : Message.t) :
  rewired placed msg msg' -> made_from d msg -> made_from d msg'.
Proof.
  intros [mux [r [m [sw' [L' [_ [_ [_ [_ [_ ->]]]]]]]]]]
         [A [B [C [D E]]]].
  unfold made_from. simpl. repeat split; try assumption.
  rewrite <- E.
  apply (update_obj_names mux (Signal.set_switch sw') msg).
  reflexivity.
Qed.

Lemma built_made_from (msg : Message.t) :
  built secs msg -> exists d, In (SecBO d) secs /\ made_from d msg.
Proof.
  induction 1 as [d Hd | msg nodes tx msg' Hb IH Hstep | msg c Hb IH
                  | msg a Hb IH | msg g Hb IH | msg ref f Hb IH Hf
                  | msg msg' Hb IH Hstep
                  | msg msg' id sn mn ranges Hin Hb IH Hstep].
  - exists d. split; [exact Hd | apply new_message_made_from].
  - destruct IH as [d [Hd [A [B [C [[more D] E]]]]]].
    exists d. split; [exact Hd|].
    unfold Bus.add_transmitter in Hstep.
    destruct (negb (dict_mem _ _ _)); [discriminate|].
    destruct (negb (str_in _ _)); injection Hstep as <-.
    + unfold made_from. simpl. repeat split; try assumption.
      exists (more ++ [tx])%list. now rewrite D.
    + repeat split; try assumption. now exists more.
  - exact IH.
  - exact IH.
  - exact IH.
  - destruct IH as [d [Hd [A [B [C [D E]]]]]].
    exists d. split; [exact Hd|].
    unfold made_from. simpl. repeat split; try assumption.
    rewrite <- E. apply (update_obj_names ref f msg).
    intros s. apply Hf.
  - destruct IH as [d [Hd Hm]]. exists d. split; [exact Hd|].
    apply (organize_inv (made_from d) msg msg'); [|exact Hm|exact Hstep].
    intros m m' Hmm Hr. now apply (rewired_made_from true d m m').
  - destruct IH as [d [Hd Hm]]. exists d. split; [exact Hd|].
    apply multiplex_by_rewired in Hstep.
    exact (rewired_made_from _ d msg msg' Hstep Hm).
Qed.

Lemma well_formed_step (s s' : Bus.t) :
  keeps_built secs s s' -> keeps_frame s s' ->
  well_formed secs s -> well_formed secs s'.
Proof.
  intros Hb [[_ [_ [_ [_ Hnodes]]]] [_ Hk]] [Hall [Hkeyed Hn]].
  split; [now apply Hb|]. split; [now apply Hk|].
  now rewrite Hnodes.
Qed.

Lemma fold_handled {A : Type} (sel : Sec -> option A)
      (handle : Bus.t -> A -> Res Bus.t) (P : Bus.t -> Prop)
      (b b' : Bus.t) :
  (forall s x s',
      (exists sec, In sec secs /\ sel sec = Some x) ->
      P s -> handle s x = Ok s' -> P s') ->
  P b -> foldM handle (sections_of sel secs) b = Ok b' ->
  P b' /\
  (forall x, In x (sections_of sel secs) ->
             exists s s', P s /\ handle s x = Ok s').
Proof.
  intros Hstep.
  assert (Hsec : forall x, In x (sections_of sel secs) ->
                           exists sec, In sec secs /\ sel sec = Some x).
  { intros x Hx. now apply xtract_In. }
  revert Hsec b. generalize (sections_of sel secs). intros l.
  induction l as [|y l IH]; intros Hsec b Hb Hrun; simpl in Hrun.
  - injection Hrun as <-. split; [exact Hb | intros x []].
  - apply bind_Ok in Hrun. destruct Hrun as [b1 [H1 H2]].
    assert (Hb1 : P b1).
    { apply (Hstep b y b1); [apply Hsec; now left | exact Hb | exact H1]. }
    destruct (IH (fun x Hx => Hsec x (or_intror Hx)) b1 Hb1 H2)
      as [Hb' Hall].
    split; [exact Hb'|].
    intros x [<-|Hx]; [now exists b, b1 | now apply Hall].
Qed.

Lemma section_of_BO (d : message_dict) :
  (exists sec, In sec secs /\ Bus.BO_ sec = Some d) -> In (SecBO d) secs.
Proof.
  intros [sec [Hin Hsel]]. destruct sec; try discriminate Hsel.
  injection Hsel as ->. exact Hin.
Qed.

Lemma section_of_SG_MUL_VAL (c : N * string * string * list (N * N)) :
  (exists sec, In sec secs /\ Bus.SG_MUL_VAL_ sec = Some c) ->
  In (SecSG_MUL_VAL (fst (fst (fst c))) (snd (fst (fst c))) (snd (fst c))
                    (snd c)) secs.
Proof.
  intros [sec [Hin Hsel]]. destruct sec; try discriminate Hsel.
  injection Hsel as <-. exact Hin.
Qed.
End Origin.

(** ** The mandatory sections *)

Lemma str_in_iff (x : string) (l : list string) :
  str_in x l = true <-> In x l.
Proof.
  unfold str_in. rewrite existsb_exists. split.
  - intros [y [Hy E]]. apply String.eqb_eq in E. now subst.
  - intros Hin. exists x. split; [exact Hin | apply String.eqb_refl].
Qed.

Lemma str_in_app (x : string) (a b : list string) :
  str_in x (a ++ b)%list = str_in x a || str_in x b.
Proof. unfold str_in. apply existsb_app. Qed.

Lemma dedup_from_spec (seen l : list string) :
  NoDup (dedup_from seen l) /\
  (forall x, In x (dedup_from seen l) <->
             In x l /\ str_in x seen = false).
Proof.
  revert seen. induction l as [|y l IH]; intros seen; simpl.
  - split; [constructor | intros x; tauto].
  - destruct (str_in y seen) eqn:Hy.
    + destruct (IH seen) as [ND Hin]. split; [exact ND|].
      intros x. rewrite Hin. split; [tauto|].
      intros [[<-|Hx] Hs]; [congruence | tauto].
    + destruct (IH (y :: seen)) as [ND Hin]. split.
      * constructor; [|exact ND]. rewrite Hin. simpl.
        rewrite String.eqb_refl. simpl. intros [_ C]. discriminate C.
      * intros x. simpl. rewrite Hin. simpl.
        destruct (String.eqb_spec x y) as [->|Hne]; simpl.
        -- split; [intros _; tauto | intros _; now left].
        -- split.
           ++ intros [E|[Hx Hs]]; [congruence | tauto].
           ++ intros [[E|Hx] Hs]; [congruence | right; tauto].
Qed.

Lemma dedup_from_fixed (seen L : list string) :
  NoDup L -> (forall x, In x L -> str_in x seen = false) ->
  dedup_from seen L = L.
Proof.
  revert seen. induction L as [|y L IH]; intros seen ND Hs; simpl;
    [reflexivity|].
  rewrite (Hs y (or_introl eq_refl)).
  inversion ND as [|? ? Hy ND']; subst.
  rewrite IH; [reflexivity | exact ND' |].
  intros x Hx. simpl. rewrite (Hs x (or_intror Hx)).
  destruct (String.eqb_spec x y) as [->|]; [contradiction | reflexivity].
Qed.

Lemma dedup_idempotent (l : list string) : dedup (dedup l) = dedup l.
Proof.
  unfold dedup. destruct (dedup_from_spec [] l) as [ND _].
  apply dedup_from_fixed; [exact ND | reflexivity].
Qed.

Lemma dedup_In (l : list string) (x : string) : In x (dedup l) <-> In x l.
Proof.
  unfold dedup. destruct (dedup_from_spec [] l) as [_ Hin].
  rewrite Hin. simpl. tauto.
Qed.

Section Head.
Context `{FloatModel}.

Lemma node_keys (v : Bus.node) (l seen : list string)
      (d0 : dict string Bus.node) :
  (forall x, str_in x seen = str_in x (dict_keys d0)) ->
  dict_keys (fold_left (fun d node => dict_set String.eqb node v d) l d0)
  = (dict_keys d0 ++ dedup_from seen l)%list.
Proof.
  revert seen d0. induction l as [|y l IH]; intros seen d0 Hseen; simpl.
  - now rewrite app_nil_r.
  - assert (Hk := dict_set_keys_any String.eqb y v d0).
    assert (Hmem : dict_mem String.eqb y d0 = str_in y seen).
    { rewrite Hseen.
      destruct (dict_mem String.eqb y d0) eqn:E.
      - apply (dict_mem_In String.eqb String.eqb_eq) in E.
        symmetry. now apply str_in_iff.
      - destruct (str_in y (dict_keys d0)) eqn:E'; [|reflexivity].
        apply str_in_iff in E'.
        apply (dict_mem_In String.eqb String.eqb_eq) in E'. congruence. }
    rewrite Hmem in Hk. destruct (str_in y seen) eqn:Hy.
    + rewrite (IH seen); [now rewrite Hk|].
      intros x. now rewrite Hk.
    + rewrite (IH (y :: seen)).
      * rewrite Hk, <- app_assoc. reflexivity.
      * intros x. rewrite Hk, str_in_app. simpl.
        rewrite Hseen, orb_false_r. apply orb_comm.
Qed.

Lemma exactly_one_Ok {A : Type} (sec : string) (sl : list A) (x : A) :
  Bus.exactly_one sec sl = Ok x -> sl = [x].
Proof.
  destruct sl as [|y [|z sl]]; simpl; try discriminate.
  intros E. now injection E as ->.
Qed.

Lemma exactly_one_Raise {A : Type} (sec : string) (sl : list A) :
  List.length sl <> 1 ->
  exists msg, Bus.exactly_one sec sl = Raise (DatabaseError msg).
Proof.
  destruct sl as [|y [|z sl]]; simpl; intros Hl.
  - eexists; reflexivity.
  - contradiction.
  - eexists; reflexivity.
Qed.

Lemma init_head_Ok (secs : list Sec) (st : Bus.t * list Sec) :
  Bus.init_head secs = Ok st ->
  exists v t nl,
    sections_of Bus.VERSION secs = [v] /\
    sections_of Bus.BS_ secs = [t] /\
    sections_of Bus.BU_ secs = [nl] /\
    Bus.version (fst st) = v /\
    Bus.baudrate (fst st) = option_map (fun x => fst (fst x)) t /\
    Bus.btr (fst st) = option_map (fun x => (snd (fst x), snd x)) t /\
    dict_keys (Bus.nodes (fst st)) = dedup nl /\
    match sections_of Bus.NS_ secs with
    | [] => Bus.newsymbols (fst st) = []
    | [ns] => Bus.newsymbols (fst st) = ns
    | _ => False
    end /\
    Bus.messages (fst st) = [].
Proof.
  unfold Bus.init_head. cbv zeta.
  change (Bus.xtract_sec Bus.VERSION secs)
    with (sections_of Bus.VERSION secs,
          snd (Bus.xtract_sec Bus.VERSION secs)).
  cbv iota. intros Hrun.
  apply bind_Ok in Hrun. destruct Hrun as [v [Hv Hrun]].
  apply exactly_one_Ok in Hv.
  set (r1 := snd (Bus.xtract_sec Bus.VERSION secs)) in *.
  change (Bus.xtract_sec Bus.BS_ r1)
    with (sections_of Bus.BS_ r1, snd (Bus.xtract_sec Bus.BS_ r1)) in Hrun.
  cbv iota in Hrun.
  apply bind_Ok in Hrun. destruct Hrun as [t [Ht Hrun]].
  apply exactly_one_Ok in Ht.
  set (r2 := snd (Bus.xtract_sec Bus.BS_ r1)) in *.
  change (Bus.xtract_sec Bus.BU_ r2)
    with (sections_of Bus.BU_ r2, snd (Bus.xtract_sec Bus.BU_ r2)) in Hrun.
  cbv iota in Hrun.
  apply bind_Ok in Hrun. destruct Hrun as [nl [Hnl Hrun]].
  apply exactly_one_Ok in Hnl.
  set (r3 := snd (Bus.xtract_sec Bus.BU_ r2)) in *.
  change (Bus.xtract_sec Bus.NS_ r3)
    with (sections_of Bus.NS_ r3, snd (Bus.xtract_sec Bus.NS_ r3)) in Hrun.
  cbv iota in Hrun.
  apply bind_Ok in Hrun. destruct Hrun as [ns [Hns Hrun]].
  injection Hrun as <-.
  unfold r1 in Ht. unfold r2, r1 in Hnl. unfold r3, r2, r1 in Hns.
  rewrite !sections_of_rest in Ht by (intros []; simpl; auto).
  rewrite !sections_of_rest in Hnl by (intros []; simpl; auto).
  rewrite !sections_of_rest in Hns by (intros []; simpl; auto).
  exists v, t, nl. cbn [fst Bus.version Bus.baudrate Bus.btr Bus.nodes
                        Bus.newsymbols Bus.messages].
  repeat split; try assumption.
  - destruct t as [[[b b1] b2]|]; reflexivity.
  - destruct t as [[[b b1] b2]|]; reflexivity.
  - rewrite (node_keys _ _ []); [|reflexivity]. simpl.
    destruct (Nat.eqb _ 0); [reflexivity | apply dedup_idempotent].
  - destruct (sections_of Bus.NS_ secs) as [|x [|y l]];
      [injection Hns as <-; reflexivity
      |injection Hns as <-; reflexivity
      |discriminate Hns].
Qed.
End Head.

(** ** The run of the builder *)

Section Trace.
Context `{FloatModel}.
Variable secs : list Sec.

Lemma same_head_trans (a b c : Bus.t) :
  same_head a b -> same_head b c -> same_head a c.
Proof.
  intros [A1 [A2 [A3 [A4 A5]]]] [B1 [B2 [B3 [B4 B5]]]].
  repeat split; congruence.
Qed.

Lemma add_message_step (s s' : Bus.t) (d : message_dict) :
  In (SecBO d) secs ->
  Bus.add_message s d = Ok s' ->
  (well_formed secs s -> well_formed secs s') /\
  same_head s s' /\
  dict_keys (Bus.messages s') = (dict_keys (Bus.messages s) ++ [md_id d])%list
  /\ ~ In (md_id d) (dict_keys (Bus.messages s)).
Proof.
  intros Hd Hrun.
  assert (Hb := add_message_built secs s d s' Hd Hrun).
  unfold Bus.add_message in Hrun.
  destruct (dict_mem N.eqb (md_id d) (Bus.messages s)) eqn:Hmem;
    [discriminate|].
  injection Hrun as <-.
  split; [|split; [repeat split|split]].
  - intros [Hall [Hk Hn]]. split; [now apply Hb|]. split; [|exact Hn].
    unfold keyed. simpl.
    apply (dict_set_Forall N.eqb N_eqb_eq); [|exact Hk].
    simpl. destruct (new_message_made_from d) as [A _]. exact A.
  - simpl. rewrite (dict_set_keys_any N.eqb). now rewrite Hmem.
  - intros Hin. apply (dict_mem_In N.eqb N_eqb_eq) in Hin. congruence.
Qed.

Lemma add_messages_steps (l : list message_dict) (s s' : Bus.t) :
  (forall d, In d l -> In (SecBO d) secs) ->
  foldM Bus.add_message l s = Ok s' ->
  (well_formed secs s -> well_formed secs s') /\
  same_head s s' /\
  dict_keys (Bus.messages s') = (dict_keys (Bus.messages s) ++ map md_id l)%list
  /\ (NoDup (dict_keys (Bus.messages s)) ->
      NoDup (dict_keys (Bus.messages s'))).
Proof.
  revert s. induction l as [|d l IH]; intros s Hl Hrun; simpl in Hrun.
  - injection Hrun as <-. simpl. rewrite app_nil_r.
    split; [auto|]. split; [repeat split|]. split; auto.
  - apply bind_Ok in Hrun. destruct Hrun as [s1 [H1 H2]].
    destruct (add_message_step s s1 d (Hl d (or_introl eq_refl)) H1)
      as [Hw [Hh [Hk Hnew]]].
    destruct (IH s1 (fun x Hx => Hl x (or_intror Hx)) H2)
      as [Hw' [Hh' [Hk' Hnd']]].
    split; [auto|]. split; [now apply (same_head_trans s s1 s')|].
    split.
    + rewrite Hk', Hk, <- app_assoc. reflexivity.
    + intros ND. apply Hnd'. rewrite Hk.
      apply NoDup_app; [exact ND | repeat constructor; intros [] |].
      intros x Hx [<-|[]]. contradiction.
Qed.

Lemma handled_step {A : Type} (sel : Sec -> option A)
      (handle : Bus.t -> A -> Res Bus.t) (base b b' : Bus.t) :
  (forall s x s',
      (exists sec, In sec secs /\ sel sec = Some x) ->
      handle s x = Ok s' -> keeps_built secs s s' /\ keeps_frame s s') ->
  well_formed secs b -> keeps_frame base b ->
  foldM handle (sections_of sel secs) b = Ok b' ->
  well_formed secs b' /\ keeps_frame base b' /\ handled secs sel handle.
Proof.
  intros Hh Hw Hf Hrun.
  destruct (fold_handled secs sel handle
              (fun s => well_formed secs s /\ keeps_frame base s) b b')
    as [[Hw' Hf'] Hall]; [| now split | exact Hrun |].
  - intros s x s' Hsec [Hws Hfs] Hstep.
    destruct (Hh s x s' Hsec Hstep) as [Hb Hk].
    split; [now apply (well_formed_step secs s s')|].
    now apply (keeps_frame_trans base s s').
  - split; [exact Hw'|]. split; [exact Hf'|].
    intros x Hx. destruct (Hall x Hx) as [s [s' [[Hws _] Hstep]]].
    now exists s, s'.
Qed.

Lemma init_trace (b : Bus.t) :
  Bus.init secs = Ok b ->
  exists st,
    Bus.init_head secs = Ok st /\
    same_head (fst st) b /\
    dict_keys (Bus.messages b) = map md_id (sections_of Bus.BO_ secs) /\
    NoDup (map md_id (sections_of Bus.BO_ secs)) /\
    well_formed secs b /\
    handled secs Bus.BO_TX_BU_ Bus.add_transmitters /\
    handled secs Bus.CM_ Bus.add_comment /\
    handled secs Bus.BA_ Bus.add_attribute /\
    handled secs Bus.VAL_ Bus.add_value_descriptions /\
    handled secs Bus.SIG_GROUP_ Bus.add_signal_group /\
    handled secs Bus.SIG_VALTYPE_ Bus.set_signal_value_type /\
    handled secs Bus.SG_MUL_VAL_ Bus.add_mul_val /\
    Bus.check_nonmuxed b = Ok tt.
Proof.
  rewrite init_is_chain. unfold init_chain. intros Hrun.
  apply bind_Ok in Hrun. destruct Hrun as [st [Hhead Hrun]].
  exists st. split; [exact Hhead|].
  destruct (init_head_Ok secs st Hhead)
    as [v [t [nl [_ [_ [Hnl [_ [_ [_ [Hnodes [_ Hmsgs]]]]]]]]]]].
  assert (Hw0 : well_formed secs (fst st)).
  { split; [|split].
    - unfold all_built. rewrite Hmsgs. constructor.
    - unfold keyed. rewrite Hmsgs. constructor.
    - intros name Hin. rewrite Hnodes in Hin.
      apply (proj1 (dedup_In _ _)) in Hin.
      exists nl. split; [|exact Hin].
      assert (Hx : In nl (sections_of Bus.BU_ secs))
        by (rewrite Hnl; now left).
      apply xtract_In in Hx. destruct Hx as [sec [Hsec Hsel]].
      destruct sec; try discriminate Hsel. injection Hsel as ->.
      exact Hsec. }
  apply bind_Ok in Hrun. destruct Hrun as [b1 [H1 Hrun]].
  destruct (handled_step Bus.VAL_TABLE_ Bus.add_table (fst st) (fst st) b1)
    as [Hw1 [Hf1 _]];
    [ intros s x s' _ Hs; split;
      [now apply (add_table_built secs s x) | now apply (add_table_frame s x)]
    | exact Hw0 | apply keeps_frame_refl | exact H1 |].
  apply bind_Ok in Hrun. destruct Hrun as [b2 [H2 Hrun]].
  destruct (add_messages_steps (sections_of Bus.BO_ secs) b1 b2)
    as [Hw2 [Hh2 [Hk2 Hnd2]]];
    [ intros d Hd; apply section_of_BO; now apply xtract_In
    | exact H2 |].
  specialize (Hw2 Hw1).
  destruct Hf1 as [Hh1 [Hk1 _]]. rewrite Hk1, Hmsgs in Hk2, Hnd2.
  simpl in Hk2. specialize (Hnd2 (NoDup_nil _)). rewrite Hk2 in Hnd2.
  apply bind_Ok in Hrun. destruct Hrun as [b3 [H3 Hrun]].
  destruct (handled_step Bus.BO_TX_BU_ Bus.add_transmitters b2 b2 b3)
    as [Hw3 [Hf3 Hd3]];
    [ intros s x s' _ Hs; split;
      [now apply (add_transmitters_built secs s x)
      |now apply (add_transmitters_frame s x)]
    | exact Hw2 | apply keeps_frame_refl | exact H3 |].
  apply bind_Ok in Hrun. destruct Hrun as [b4 [H4 Hrun]].
  destruct (handled_step Bus.CM_ Bus.add_comment b2 b3 b4)
    as [Hw4 [Hf4 Hd4]];
    [ intros s x s' _ Hs; split;
      [now apply (add_comment_built secs s x)
      |now apply (add_comment_frame s x)]
    | exact Hw3 | exact Hf3 | exact H4 |].
  apply bind_Ok in Hrun. destruct Hrun as [b5 [H5 Hrun]].
  destruct (handled_step Bus.BA_DEF_ Bus.add_typedef b2 b4 b5)
    as [Hw5 [Hf5 _]];
    [ intros s x s' _ Hs; split;
      [now apply (add_typedef_built secs s x)
      |now apply (add_typedef_frame s x)]
    | exact Hw4 | exact Hf4 | exact H5 |].
  apply bind_Ok in Hrun. destruct Hrun as [b6 [H6 Hrun]].
  destruct (handled_step Bus.BA_DEF_DEF_ Bus.add_default b2 b5 b6)
    as [Hw6 [Hf6 _]];
    [ intros s x s' _ Hs; split;
      [now apply (add_default_built secs s x)
      |now apply (add_default_frame s x)]
    | exact Hw5 | exact Hf5 | exact H6 |].
  apply bind_Ok in Hrun. destruct Hrun as [b7 [H7 Hrun]].
  destruct (handled_step Bus.BA_ Bus.add_attribute b2 b6 b7)
    as [Hw7 [Hf7 Hd7]];
    [ intros s x s' _ Hs; split;
      [now apply (add_attribute_built secs s x)
      |now apply (add_attribute_frame s x)]
    | exact Hw6 | exact Hf6 | exact H7 |].
  apply bind_Ok in Hrun. destruct Hrun as [b8 [H8 Hrun]].
  destruct (handled_step Bus.VAL_ Bus.add_value_descriptions b2 b7 b8)
    as [Hw8 [Hf8 Hd8]];
    [ intros s x s' _ Hs; split;
      [now apply (add_value_descriptions_built secs s x)
      |now apply (add_value_descriptions_frame s x)]
    | exact Hw7 | exact Hf7 | exact H8 |].
  apply bind_Ok in Hrun. destruct Hrun as [b9 [H9 Hrun]].
  destruct (handled_step Bus.SIG_GROUP_ Bus.add_signal_group b2 b8 b9)
    as [Hw9 [Hf9 Hd9]];
    [ intros s x s' _ Hs; split;
      [now apply (add_signal_group_built secs s x)
      |now apply (add_signal_group_frame s x)]
    | exact Hw8 | exact Hf8 | exact H9 |].
  apply bind_Ok in Hrun. destruct Hrun as [b10 [H10 Hrun]].
  destruct (handled_step Bus.SIG_VALTYPE_ Bus.set_signal_value_type
                         b2 b9 b10)
    as [Hw10 [Hf10 Hd10]];
    [ intros s x s' _ Hs; split;
      [now apply (set_signal_value_type_built secs s x)
      |now apply (set_signal_value_type_frame s x)]
    | exact Hw9 | exact Hf9 | exact H10 |].
  apply bind_Ok in Hrun. destruct Hrun as [ms [Hms Hrun]].
  assert (Hwm : well_formed secs (Bus.set_messages ms b10) /\
                keeps_frame b2 (Bus.set_messages ms b10)).
  { destruct Hw10 as [Hall [Hk Hn]].
    destruct (each_message_organize_frame _ _ Hms) as [Hkeys Hkeyed].
    destruct Hf10 as [Hh [Hids Hkk]].
    split; [split; [|split]|split; [|split]].
    - unfold all_built. simpl.
      now apply (each_message_built secs (Bus.messages b10)).
    - unfold keyed. simpl. now apply Hkeyed.
    - exact Hn.
    - exact Hh.
    - simpl. now rewrite Hkeys.
    - intros Hk2'. unfold keyed. simpl. now apply Hkeyed. }
  destruct Hwm as [Hwm Hfm].
  apply bind_Ok in Hrun. destruct Hrun as [b11 [H11 Hrun]].
  destruct (handled_step Bus.SG_MUL_VAL_ Bus.add_mul_val b2
                         (Bus.set_messages ms b10) b11)
    as [Hw11 [Hf11 Hd11]];
    [ intros s x s' Hsec Hs; split;
      [apply (add_mul_val_built secs s x); [|exact Hs];
       now apply section_of_SG_MUL_VAL
      |now apply (add_mul_val_frame s x)]
    | exact Hwm | exact Hfm | exact H11 |].
  apply bind_Ok in Hrun. destruct Hrun as [[] [Hcheck E]].
  injection E as <-.
  destruct Hf11 as [Hh11 [Hk11 _]].
  split; [apply (same_head_trans _ b1); [exact Hh1|];
          now apply (same_head_trans _ b2)|].
  split; [now rewrite Hk11|].
  split; [exact Hnd2|]. split; [exact Hw11|].
  repeat (split; [assumption|]). exact Hcheck.
Qed.
End Trace.

(** ** What a constructed bus holds *)

Section Constructed.
Context `{FloatModel}.

Lemma exactly_one_raises {A : Type} (sec : string) (sl : list A)
      (e : exn) :
  Bus.exactly_one sec sl = Raise e -> exists msg, e = DatabaseError msg.
Proof.
  destruct sl as [|y [|z sl]]; simpl; try discriminate;
    intros E; injection E as <-; eexists; reflexivity.
Qed.

Lemma init_head_raises (secs : list Sec) (e : exn) :
  Bus.init_head secs = Raise e -> exists msg, e = DatabaseError msg.
Proof.
  unfold Bus.init_head. cbv zeta. unfold Bus.xtract_sec.
  destruct (Bus.exactly_one "VERSION" _) as [v|e1] eqn:E1;
    [|intros E; injection E as <-; now apply exactly_one_raises in E1].
  cbn [bind].
  destruct (Bus.exactly_one "BS_" _) as [t|e2] eqn:E2;
    [|intros E; injection E as <-; now apply exactly_one_raises in E2].
  cbn [bind].
  destruct (Bus.exactly_one "BU_" _) as [nl|e3] eqn:E3;
    [|intros E; injection E as <-; now apply exactly_one_raises in E3].
  cbn [bind].
  match goal with
  | |- context [match ?l with [] => Ok [] | _ => _ end] =>
      destruct l as [|x [|y l']]
  end; cbn [bind]; try discriminate.
  intros E. injection E as <-. eexists; reflexivity.
Qed.

(** X18: Without exactly one [VERSION], one [BS_] and one [BU_] section, or
    with more than one [NS_] section, the construction of a bus raises
    a [DatabaseError]; this holds for the empty list of sections. *)
Theorem mandatory_sections_are_required (secs : list Sec) :
  List.length (sections_of Bus.VERSION secs) <> 1 \/
  List.length (sections_of Bus.BS_ secs) <> 1 \/
  List.length (sections_of Bus.BU_ secs) <> 1 \/
  1 < List.length (sections_of Bus.NS_ secs) ->
  exists msg, Bus.init secs = Raise (DatabaseError msg).
Proof.
  intros Hcount. unfold Bus.init.
  destruct (Bus.init_head secs) as [st|e] eqn:Hhead.
  - exfalso.
    destruct (init_head_Ok secs st Hhead)
      as [v [t [nl [Hv [Ht [Hnl [_ [_ [_ [_ [Hns _]]]]]]]]]]].
    rewrite Hv, Ht, Hnl in Hcount. simpl in Hcount.
    destruct Hcount as [C|[C|[C|C]]]; try now apply C.
    destruct (sections_of Bus.NS_ secs) as [|x [|y l]];
      simpl in C; try lia; exact Hns.
  - destruct (init_head_raises secs e Hhead) as [msg ->].
    now exists msg.
Qed.

(** X19: The version, the baud rate, the bit timing and the new symbols of
    a constructed bus are those of its one [VERSION], [BS_] and [NS_]
    section, and its nodes are the names of its one [BU_] section,
    each once, in the order of their first occurrence. *)
Theorem constructed_bus_has_the_header_of_its_sections
        (secs : list Sec) (b : Bus.t) :
  Bus.init secs = Ok b ->
  exists v t nl,
    sections_of Bus.VERSION secs = [v] /\
    sections_of Bus.BS_ secs = [t] /\
    sections_of Bus.BU_ secs = [nl] /\
    Bus.version b = v /\
    Bus.baudrate b = option_map (fun x => fst (fst x)) t /\
    Bus.btr b = option_map (fun x => (snd (fst x), snd x)) t /\
    dict_keys (Bus.nodes b) = dedup nl /\
    match sections_of Bus.NS_ secs with
    | [] => Bus.newsymbols b = []
    | [ns] => Bus.newsymbols b = ns
    | _ => False
    end.
Proof.
  intros Hinit.
  destruct (init_trace secs b Hinit)
    as [st [Hhead [[S1 [S2 [S3 [S4 S5]]]] _]]].
  destruct (init_head_Ok secs st Hhead)
    as [v [t [nl [Hv [Ht [Hnl [H1 [H2 [H3 [H4 [H5 _]]]]]]]]]]].
  exists v, t, nl. rewrite S1, S2, S3, S4, S5.
  repeat split; assumption.
Qed.

(** X20: The messages of a constructed bus are those of the [BO_] sections,
    in their order: the ids of these sections are pairwise distinct,
    and every message is kept under its id and has the name, the size,
    the first transmitter and the signal names of its section. *)
Theorem constructed_bus_has_the_messages_of_its_sections
        (secs : list Sec) (b : Bus.t) :
  Bus.init secs = Ok b ->
  dict_keys (Bus.messages b) = map md_id (sections_of Bus.BO_ secs) /\
  NoDup (map md_id (sections_of Bus.BO_ secs)) /\
  (forall id msg,
      In (id, msg) (Bus.messages b) ->
      exists d, In (SecBO d) secs /\ md_id d = id /\ made_from d msg).
Proof.
  intros Hinit.
  destruct (init_trace secs b Hinit)
    as [st [_ [_ [Hkeys [ND [[Hall [Hkeyed _]] _]]]]]].
  split; [exact Hkeys|]. split; [exact ND|].
  intros id msg Hin.
  unfold all_built in Hall. unfold keyed in Hkeyed.
  rewrite Forall_forall in Hall, Hkeyed.
  destruct (built_made_from secs msg (Hall _ Hin)) as [d [Hd Hm]].
  exists d. split; [exact Hd|]. split; [|exact Hm].
  destruct Hm as [A _]. rewrite <- A. exact (Hkeyed _ Hin).
Qed.



End Constructed.

Lemma mandatory_sections_are_required_witness :
  exists msg, @Bus.init literal_floats [] = Raise (DatabaseError msg).
Proof.
  apply (@mandatory_sections_are_required literal_floats []).
  left. simpl. lia.
Defined.

Lemma constructed_bus_has_the_header_of_its_sections_witness :
  match @Bus.init literal_floats repeated_transmitters with
  | Ok b => Bus.version b = EmptyString /\
            dict_keys (Bus.nodes b) = ["N"; "N2"]
  | Raise _ => False
  end.
Proof.
  destruct (@Bus.init literal_floats repeated_transmitters) as [b|e] eqn:E.
  - destruct (@constructed_bus_has_the_header_of_its_sections
                literal_floats repeated_transmitters b E)
      as [v [t [nl [Hv [_ [Hnl [Hversion [_ [_ [Hnodes _]]]]]]]]]].
    injection Hv as <-. injection Hnl as <-.
    split; [exact Hversion | exact Hnodes].
  - vm_compute in E. discriminate E.
Defined.

Lemma constructed_bus_has_the_messages_of_its_sections_witness :
  match @Bus.init literal_floats scenario_3 with
  | Ok b => dict_keys (Bus.messages b) = [100%N]
  | Raise _ => False
  end.
Proof.
  destruct (@Bus.init literal_floats scenario_3) as [b|e] eqn:E.
  - exact (proj1 (@constructed_bus_has_the_messages_of_its_sections
                    literal_floats scenario_3 b E)).
  - vm_compute in E. discriminate E.
Defined.


(** ** References between the sections *)

Section Refs.
Context `{FloatModel}.
Variable secs : list Sec.

Lemma section_In {A : Type} (sel : Sec -> option A) (sec : Sec) (x : A)
      (l : list Sec) :
  In sec l -> sel sec = Some x -> In x (sections_of sel l).
Proof.
  intros Hin Hsel. unfold sections_of, Bus.xtract_sec. simpl.
  apply in_flat_map. exists sec. split; [exact Hin|].
  rewrite Hsel. now left.
Qed.

Lemma on_message_inv (s s' : Bus.t) (id : N) (missing : exn)
      (f : Message.t -> Res Message.t) :
  Bus.on_message s id missing f = Ok s' ->
  exists msg msg',
    dict_get N.eqb id (Bus.messages s) = Some msg /\ f msg = Ok msg'.
Proof.
  unfold Bus.on_message.
  destruct (dict_get N.eqb id (Bus.messages s)) as [msg|]; [|discriminate].
  intros Hrun. apply bind_Ok in Hrun. destruct Hrun as [msg' [Hf _]].
  now exists msg, msg'.
Qed.

Lemma on_signal_inv (msg msg' : Message.t) (signame : string)
      (missing : exn) (f : Signal.t -> Signal.t) :
  Bus.on_signal msg signame missing f = Ok msg' ->
  In signame (dict_keys (Message.signals_dict msg)).
Proof.
  unfold Bus.on_signal.
  destruct (dict_get String.eqb signame (Message.signals_dict msg))
    as [ref|] eqn:E; [|discriminate].
  intros _. apply (dict_mem_In String.eqb String.eqb_eq).
  unfold dict_mem. now rewrite E.
Qed.

Lemma wf_message (s : Bus.t) (id : N) (msg : Message.t) :
  well_formed secs s ->
  dict_get N.eqb id (Bus.messages s) = Some msg ->
  built secs msg /\
  exists d, In (SecBO d) secs /\ md_id d = id /\ made_from d msg.
Proof.
  intros [Hall [Hk _]] Hget.
  assert (Hin := dict_get_entry N.eqb N_eqb_eq _ _ _ Hget).
  unfold all_built in Hall. unfold keyed in Hk.
  rewrite Forall_forall in Hall, Hk.
  assert (Hb := Hall _ Hin). split; [exact Hb|].
  destruct (built_made_from secs msg Hb) as [d [Hd Hm]].
  exists d. split; [exact Hd|]. split; [|exact Hm].
  destruct Hm as [A _]. rewrite <- A. exact (Hk _ Hin).
Qed.

Lemma wf_defined_message (s : Bus.t) (id : N) (msg : Message.t) :
  well_formed secs s ->
  dict_get N.eqb id (Bus.messages s) = Some msg ->
  defined_message secs id.
Proof.
  intros Hw Hget. destruct (wf_message s id msg Hw Hget)
    as [_ [d [Hd [Hid _]]]].
  now exists d.
Qed.

Lemma wf_defined_signal (s : Bus.t) (id : N) (msg : Message.t)
      (signame : string) :
  well_formed secs s ->
  dict_get N.eqb id (Bus.messages s) = Some msg ->
  In signame (dict_keys (Message.signals_dict msg)) ->
  defined_signal secs id signame.
Proof.
  intros Hw Hget Hkey.
  destruct (wf_message s id msg Hw Hget) as [Hb [d [Hd [Hid Hm]]]].
  exists d. split; [exact Hd|]. split; [exact Hid|].
  destruct Hm as [_ [_ [_ [_ E]]]]. rewrite <- E.
  destruct (built_indexed secs msg Hb) as [_ [_ [Hname _]]].
  destruct (dict_get_of_key String.eqb signame _ String.eqb_eq Hkey)
    as [ref [_ Hin]].
  specialize (Hname _ _ Hin). unfold name_of in Hname.
  destruct (nth_error (Message.objs msg) ref) as [s0|] eqn:Hnth;
    [|discriminate].
  simpl in Hname. injection Hname as <-.
  apply in_map. now apply (nth_error_In _ ref).
Qed.

Lemma wf_defined_node (s : Bus.t) (name : string) :
  well_formed secs s ->
  dict_mem String.eqb name (Bus.nodes s) = true ->
  defined_node secs name.
Proof.
  intros [_ [_ Hn]] Hmem. apply Hn.
  now apply (dict_mem_In String.eqb String.eqb_eq).
Qed.

Lemma add_comment_defined (s s' : Bus.t) (ref : objref) (text : string) :
  well_formed secs s -> Bus.add_comment s (ref, text) = Ok s' ->
  defined_ref secs ref.
Proof.
  intros Hw. unfold Bus.add_comment. destruct ref as [name|id|id name|ev|];
    simpl.
  - destruct (dict_get String.eqb name (Bus.nodes s)) eqn:E;
      [|discriminate].
    intros _. apply (wf_defined_node s); [exact Hw|].
    unfold dict_mem. now rewrite E.
  - intros Hrun. apply on_message_inv in Hrun.
    destruct Hrun as [msg [msg' [Hget _]]].
    now apply (wf_defined_message s id msg).
  - intros Hrun. apply on_message_inv in Hrun.
    destruct Hrun as [msg [msg' [Hget Hf]]].
    apply on_signal_inv in Hf.
    now apply (wf_defined_signal s id msg).
  - discriminate.
  - intros _. exact I.
Qed.

Lemma add_attribute_defined (s s' : Bus.t) (name : string) (ref : objref)
      (val : Literal) :
  well_formed secs s -> Bus.add_attribute s (name, ref, val) = Ok s' ->
  defined_ref secs ref.
Proof.
  intros Hw. unfold Bus.add_attribute.
  destruct ref as [node|id|id signame|ev|]; simpl.
  - destruct (dict_get String.eqb node (Bus.nodes s)) eqn:E;
      [|discriminate].
    intros _. apply (wf_defined_node s); [exact Hw|].
    unfold dict_mem. now rewrite E.
  - intros Hrun. apply on_message_inv in Hrun.
    destruct Hrun as [msg [msg' [Hget _]]].
    now apply (wf_defined_message s id msg).
  - destruct (dict_get N.eqb id (Bus.messages s)) as [msg|] eqn:Hget;
      [|discriminate].
    destruct (dict_get String.eqb signame (Message.signals_dict msg))
      as [r|] eqn:Hsig; [|discriminate].
    intros _. apply (wf_defined_signal s id msg); [exact Hw|exact Hget|].
    apply (dict_mem_In String.eqb String.eqb_eq).
    unfold dict_mem. now rewrite Hsig.
  - discriminate.
  - intros _. exact I.
Qed.

Lemma add_transmitters_defined (s s' : Bus.t) (id : N)
      (txs : list string) :
  well_formed secs s -> Bus.add_transmitters s (id, txs) = Ok s' ->
  defined_message secs id /\ forall tx, In tx txs -> defined_node secs tx.
Proof.
  intros Hw Hrun. unfold Bus.add_transmitters in Hrun. simpl in Hrun.
  apply on_message_inv in Hrun. destruct Hrun as [msg [msg' [Hget Hf]]].
  split; [now apply (wf_defined_message s id msg)|].
  intros tx Htx.
  destruct (foldM_all _ _ _ _ Hf tx Htx) as [m0 [m1 Hstep]].
  unfold Bus.add_transmitter in Hstep.
  destruct (dict_mem String.eqb tx (Bus.nodes s)) eqn:E;
    [|discriminate Hstep].
  now apply (wf_defined_node s).
Qed.

(** X22: When the construction of a bus succeeds, every [CM_] and [BA_]
    section is about the bus, a node of the [BU_] section, a message of
    a [BO_] section or a signal of such a message, and never about an
    [EV_] object; and every [BO_TX_BU_] section names a message of a
    [BO_] section and nodes of the [BU_] section. *)
Theorem comments_attributes_and_transmitters_have_their_objects
        (b : Bus.t) :
  Bus.init secs = Ok b ->
  (forall ref text, In (SecCM ref text) secs -> defined_ref secs ref) /\
  (forall name ref val,
      In (SecBA name ref val) secs -> defined_ref secs ref) /\
  (forall id txs,
      In (SecBO_TX_BU id txs) secs ->
      defined_message secs id /\
      forall tx, In tx txs -> defined_node secs tx).
Proof.
  intros Hinit.
  destruct (init_trace secs b Hinit)
    as [st [_ [_ [_ [_ [_ [Htx [Hcm [Hba _]]]]]]]]].
  split; [|split].
  - intros ref text Hin.
    destruct (Hcm (ref, text)) as [s [s' [Hw Hstep]]];
      [now apply (section_In Bus.CM_ (SecCM ref text))|].
    now apply (add_comment_defined s s' ref text).
  - intros name ref val Hin.
    destruct (Hba (name, ref, val)) as [s [s' [Hw Hstep]]];
      [now apply (section_In Bus.BA_ (SecBA name ref val))|].
    now apply (add_attribute_defined s s' name ref val).
  - intros id txs Hin.
    destruct (Htx (id, txs)) as [s [s' [Hw Hstep]]];
      [now apply (section_In Bus.BO_TX_BU_ (SecBO_TX_BU id txs))|].
    now apply (add_transmitters_defined s s' id txs).
Qed.

Lemma on_message_signal_defined (s s' : Bus.t) (id : N)
      (signame : string) (m1 m2 : exn) (f : Signal.t -> Signal.t) :
  well_formed secs s ->
  Bus.on_message s id m1 (fun msg => Bus.on_signal msg signame m2 f)
  = Ok s' ->
  defined_signal secs id signame.
Proof.
  intros Hw Hrun. apply on_message_inv in Hrun.
  destruct Hrun as [msg [msg' [Hget Hf]]].
  apply on_signal_inv in Hf. now apply (wf_defined_signal s id msg).
Qed.

Lemma add_signal_group_defined (s s' : Bus.t) (id : N) (name : string)
      (number : N) (sigs : list string) :
  well_formed secs s ->
  Bus.add_signal_group s (id, name, number, sigs) = Ok s' ->
  defined_message secs id /\
  forall signame, In signame sigs -> defined_signal secs id signame.
Proof.
  intros Hw Hrun. unfold Bus.add_signal_group in Hrun.
  apply on_message_inv in Hrun. destruct Hrun as [msg [msg' [Hget Hf]]].
  split; [now apply (wf_defined_message s id msg)|].
  intros signame Hin.
  destruct (dict_mem String.eqb name (Message.signal_groups msg));
    [discriminate Hf|].
  destruct (nonempty _) eqn:Hne; [discriminate Hf|].
  apply nonempty_false in Hne.
  apply (set_diff_nil_incl String.eqb String.eqb_eq) in Hne.
  apply (wf_defined_signal s id msg); [exact Hw | exact Hget|].
  apply Hne. now apply dedup_In.
Qed.

Lemma add_mul_val_defined (s s' : Bus.t) (id : N)
      (signame muxname : string) (ranges : list (N * N)) :
  well_formed secs s ->
  Bus.add_mul_val s (id, signame, muxname, ranges) = Ok s' ->
  defined_signal secs id signame /\ defined_signal secs id muxname.
Proof.
  intros Hw Hrun. unfold Bus.add_mul_val in Hrun.
  apply on_message_inv in Hrun. destruct Hrun as [msg [msg' [Hget Hf]]].
  unfold Bus.multiplex_by in Hf.
  destruct (dict_get String.eqb signame (Message.signals_dict msg))
    as [sig|] eqn:Hsig; [|discriminate Hf].
  destruct (dict_get String.eqb muxname (Message.signals_dict msg))
    as [mux|] eqn:Hmux; [|discriminate Hf].
  split; apply (wf_defined_signal s id msg); try assumption;
    apply (dict_mem_In String.eqb String.eqb_eq); unfold dict_mem.
  - now rewrite Hsig.
  - now rewrite Hmux.
Qed.

(** X23: When the construction of a bus succeeds, every [VAL_],
    [SIG_VALTYPE_], [SIG_GROUP_] and [SG_MUL_VAL_] section names a
    message of a [BO_] section, and every signal it names, the
    multiplexor of [SG_MUL_VAL_] among them, is a signal of that
    [BO_] section. *)
Theorem statements_about_signals_have_their_signals (b : Bus.t) :
  Bus.init secs = Ok b ->
  (forall id signame vals,
      In (SecVAL id signame vals) secs -> defined_signal secs id signame) /\
  (forall id signame tn,
      In (SecSIG_VALTYPE id signame tn) secs ->
      defined_signal secs id signame) /\
  (forall id name number sigs,
      In (SecSIG_GROUP id name number sigs) secs ->
      defined_message secs id /\
      forall signame, In signame sigs -> defined_signal secs id signame) /\
  (forall id signame muxname ranges,
      In (SecSG_MUL_VAL id signame muxname ranges) secs ->
      defined_signal secs id signame /\ defined_signal secs id muxname).
Proof.
  intros Hinit.
  destruct (init_trace secs b Hinit)
    as [st [_ [_ [_ [_ [_ [_ [_ [_ [Hval [Hgrp [Hvt [Hmul _]]]]]]]]]]]]].
  split; [|split; [|split]].
  - intros id signame vals Hin.
    destruct (Hval (id, signame, vals)) as [s [s' [Hw Hstep]]];
      [now apply (section_In Bus.VAL_ (SecVAL id signame vals))|].
    unfold Bus.add_value_descriptions in Hstep.
    exact (on_message_signal_defined s s' id signame _ _ _ Hw Hstep).
  - intros id signame tn Hin.
    destruct (Hvt (id, signame, tn)) as [s [s' [Hw Hstep]]];
      [now apply (section_In Bus.SIG_VALTYPE_
                             (SecSIG_VALTYPE id signame tn))|].
    unfold Bus.set_signal_value_type in Hstep.
    exact (on_message_signal_defined s s' id signame _ _ _ Hw Hstep).
  - intros id name number sigs Hin.
    destruct (Hgrp (id, name, number, sigs)) as [s [s' [Hw Hstep]]];
      [now apply (section_In Bus.SIG_GROUP_
                             (SecSIG_GROUP id name number sigs))|].
    now apply (add_signal_group_defined s s' id name number sigs).
  - intros id signame muxname ranges Hin.
    destruct (Hmul (id, signame, muxname, ranges)) as [s [s' [Hw Hstep]]];
      [now apply (section_In Bus.SG_MUL_VAL_
                             (SecSG_MUL_VAL id signame muxname ranges))|].
    now apply (add_mul_val_defined s s' id signame muxname ranges).
Qed.
End Refs.

Lemma comments_attributes_and_transmitters_have_their_objects_witness :
  @defined_ref literal_floats annotated (RefSG 100 "P") /\
  @defined_message literal_floats annotated 100.
Proof.
  destruct (@Bus.init literal_floats annotated) as [b|e] eqn:E.
  - destruct (@comments_attributes_and_transmitters_have_their_objects
                literal_floats annotated b E) as [Hcm [_ Htx]].
    split.
    + apply (Hcm (RefSG 100 "P") "a signal"). simpl. tauto.
    + apply (Htx 100%N ["N2"]). simpl. tauto.
  - vm_compute in E. discriminate E.
Defined.

Lemma statements_about_signals_have_their_signals_witness :
  @defined_signal literal_floats annotated 100 "P" /\
  @defined_signal literal_floats annotated 100 "Sel".
Proof.
  destruct (@Bus.init literal_floats annotated) as [b|e] eqn:E.
  - destruct (@statements_about_signals_have_their_signals
                literal_floats annotated b E) as [_ [_ [_ Hmul]]].
    apply (Hmul 100%N "P" "Sel" [(1, 1)%N]). simpl. tauto.
  - vm_compute in E. discriminate E.
Defined.

(** ** Value tables *)

Section Tables.
Context {V : Type}.

Lemma dict_get_app_Z (k : Z) (a b : dict Z V) :
  dict_get Z.eqb k (a ++ b)%list =
  match dict_get Z.eqb k a with
  | Some v => Some v
  | None => dict_get Z.eqb k b
  end.
Proof.
  induction a as [|[k' v'] a IH]; simpl; [reflexivity|].
  destruct (Z.eqb k k'); [reflexivity | exact IH].
Qed.

Lemma dict_get_set_Z (k k0 : Z) (v : V) (d : dict Z V) :
  dict_get Z.eqb k (dict_set Z.eqb k0 v d) =
  if Z.eqb k k0 then Some v else dict_get Z.eqb k d.
Proof.
  induction d as [|[k' v'] d IH]; simpl; [reflexivity|].
  destruct (Z.eqb_spec k0 k') as [->|Hne]; simpl.
  - destruct (Z.eqb k k'); reflexivity.
  - rewrite IH. destruct (Z.eqb_spec k k0) as [->|Hne'].
    + destruct (Z.eqb_spec k0 k'); [contradiction | reflexivity].
    + reflexivity.
Qed.

Lemma assignments_keep_the_last (l : list (Z * V)) (d0 : dict Z V) (k : Z) :
  dict_get Z.eqb k
    (fold_left (fun d t => dict_set Z.eqb (fst t) (snd t) d) l d0) =
  match dict_get Z.eqb k (rev l) with
  | Some v => Some v
  | None => dict_get Z.eqb k d0
  end.
Proof.
  revert d0. induction l as [|[kx vx] l IH]; intros d0; simpl;
    [reflexivity|].
  rewrite IH, dict_get_app_Z, dict_get_set_Z. simpl.
  destruct (dict_get Z.eqb k (rev l)); [reflexivity|].
  destruct (Z.eqb k kx); reflexivity.
Qed.

Lemma entries_of_insert_desc (k : Z) (x : Z * V) (l : list (Z * V)) :
  filter (fun t => Z.eqb k (fst t)) (insert_desc x l) =
  if Z.eqb k (fst x) then x :: filter (fun t => Z.eqb k (fst t)) l
  else filter (fun t => Z.eqb k (fst t)) l.
Proof.
  induction l as [|y l IH]; simpl.
  - destruct (Z.eqb k (fst x)); reflexivity.
  - destruct (Z.leb_spec (fst y) (fst x)) as [Hle|Hgt]; simpl.
    + destruct (Z.eqb k (fst x)); reflexivity.
    + rewrite IH. destruct (Z.eqb_spec k (fst x)) as [->|Hne].
      * destruct (Z.eqb_spec (fst x) (fst y)) as [E|_]; [lia|reflexivity].
      * reflexivity.
Qed.

Lemma entries_of_sort_desc (k : Z) (l : list (Z * V)) :
  filter (fun t => Z.eqb k (fst t)) (sort_desc l) =
  filter (fun t => Z.eqb k (fst t)) l.
Proof.
  unfold sort_desc. induction l as [|x l IH]; simpl; [reflexivity|].
  rewrite entries_of_insert_desc, IH. reflexivity.
Qed.

Lemma dict_get_of_entries (k : Z) (l : list (Z * V)) :
  dict_get Z.eqb k l =
  match filter (fun t => Z.eqb k (fst t)) l with
  | t :: _ => Some (snd t)
  | [] => None
  end.
Proof.
  induction l as [|[k' v'] l IH]; simpl; [reflexivity|].
  destruct (Z.eqb k k'); [reflexivity | exact IH].
Qed.

Lemma filter_rev_entries (f : Z * V -> bool) (l : list (Z * V)) :
  filter f (rev l) = rev (filter f l).
Proof.
  induction l as [|x l IH]; simpl; [reflexivity|].
  rewrite filter_app, IH. simpl. destruct (f x); simpl;
    [reflexivity | now rewrite app_nil_r].
Qed.
End Tables.

(** X24: The dictionary made of a [VAL_TABLE_] binds every value to the
    text of the last entry of the table that defines it, as the warning
    of the builder says, and binds no other value: sorting the table
    by value does not change which definition is the last one. *)
Theorem table_keeps_the_last_definition
        (table : list (Z * string)) (k : Z) :
  dict_get Z.eqb k (Bus.table_values table) =
  dict_get Z.eqb k (rev table).
Proof.
  unfold Bus.table_values. rewrite assignments_keep_the_last. simpl.
  assert (E : dict_get Z.eqb k (rev (sort_desc table)) =
              dict_get Z.eqb k (rev table)).
  { rewrite !dict_get_of_entries, !filter_rev_entries.
    now rewrite entries_of_sort_desc. }
  rewrite E. destruct (dict_get Z.eqb k (rev table)); reflexivity.
Qed.

(** ** Multiplexing statements *)

Section Multiplexing.
Context `{FloatModel}.
Variable secs : list Sec.

Lemma append_signals_NoDup (sg : Signal.t) (msg : Message.t) :
  Forall (valid_ref msg) (Message.signals msg) ->
  NoDup (Message.signals msg) ->
  Forall (valid_ref (Message.append sg msg))
         (Message.signals (Message.append sg msg)) /\
  NoDup (Message.signals (Message.append sg msg)).
Proof.
  intros V ND. unfold valid_ref in *. simpl. split.
  - apply Forall_app. split.
    + eapply Forall_impl; [|exact V]. intros r Hr. simpl in Hr.
      rewrite List.length_app. simpl. lia.
    + constructor; [|constructor]. rewrite List.length_app. simpl. lia.
  - apply NoDup_app; [exact ND | repeat constructor; intros [] |].
    intros x Hx [<-|[]].
    rewrite Forall_forall in V. specialize (V _ Hx). simpl in V. lia.
Qed.

Lemma new_message_signals_NoDup (d : message_dict) :
  NoDup (Message.signals (Bus.new_message d)).
Proof.
  unfold Bus.new_message.
  assert (Hloop : forall l m,
             Forall (valid_ref m) (Message.signals m) ->
             NoDup (Message.signals m) ->
             NoDup (Message.signals
                      (fold_left
                         (fun msg sig_d =>
                            Message.append (Signal.init sig_d) msg) l m))).
  { induction l as [|x l IH]; intros m V ND; simpl; [exact ND|].
    destruct (append_signals_NoDup (Signal.init x) m V ND) as [V' ND'].
    now apply IH. }
  apply Hloop; simpl; constructor.
Qed.

Lemma rewired_signals_NoDup (placed : bool) (msg msg' : Message.t) :
  rewired placed msg msg' ->
  NoDup (Message.signals msg) -> NoDup (Message.signals msg').
Proof.
  intros [mux [r [m [sw' [L' [_ [Hrem [_ [_ [_ ->]]]]]]]]]] ND. simpl.
  destruct (list_remove_Ok _ _ _ Hrem) as [Hin _].
  rewrite (list_remove_NoDup r _ ND Hin) in Hrem. injection Hrem as <-.
  now apply NoDup_filter.
Qed.

Lemma built_signals_NoDup (msg : Message.t) :
  built secs msg -> NoDup (Message.signals msg).
Proof.
  induction 1 as [d Hd | msg nodes tx msg' Hb IH Hstep | msg c Hb IH
                  | msg a Hb IH | msg g Hb IH | msg ref f Hb IH Hf
                  | msg msg' Hb IH Hstep
                  | msg msg' id sn mn ranges Hin Hb IH Hstep].
  - apply new_message_signals_NoDup.
  - unfold Bus.add_transmitter in Hstep.
    destruct (negb (dict_mem _ _ _)); [discriminate|].
    destruct (negb (str_in _ _)); injection Hstep as <-; exact IH.
  - exact IH.
  - exact IH.
  - exact IH.
  - exact IH.
  - apply (organize_inv (fun m => NoDup (Message.signals m)) msg msg');
      [|exact IH|exact Hstep].
    intros m m' Hm Hr. now apply (rewired_signals_NoDup true m m').
  - apply multiplex_by_rewired in Hstep.
    exact (rewired_signals_NoDup _ msg msg' Hstep IH).
Qed.

(** An extended multiplexing statement for a signal that is not in the
    top-level list is refused. *)
Lemma multiplex_by_off_top (msg : Message.t) (signame muxname : string)
      (ranges : list (N * N)) (sig : nat) :
  Forall (fun kv => valid_ref msg (snd kv)) (Message.signals_dict msg) ->
  dict_get String.eqb signame (Message.signals_dict msg) = Some sig ->
  ~ In sig (Message.signals msg) ->
  exists text,
    Bus.multiplex_by signame muxname ranges msg = Raise (DatabaseError text).
Proof.
  intros V Hget Hout. unfold Bus.multiplex_by. rewrite Hget.
  destruct (dict_get String.eqb muxname (Message.signals_dict msg))
    as [mux|] eqn:Hmux; [|eauto].
  destruct (dict_get_In _ _ _ _ Hmux) as [k Hk].
  rewrite Forall_forall in V. specialize (V _ Hk). simpl in V.
  destruct (obj_valid msg mux V) as [m Hm]. rewrite Hm. simpl.
  destruct (Signal.is_multiplexor m); simpl; [|eauto].
  destruct (existsb (Nat.eqb sig) (Message.signals msg)) eqn:E; [|eauto].
  exfalso. apply existsb_exists in E. destruct E as [x [Hx Hsx]].
  apply Nat.eqb_eq in Hsx. subst x. contradiction.
Qed.

(** What the step for a message with one multiplexor leaves of the
    top-level list and of the index. *)
Lemma organize_one_multiplexor (msg msg' : Message.t) :
  Forall (valid_ref msg) (Message.signals msg) ->
  NoDup (Message.signals msg) ->
  List.length (filter (is_mux msg) (Message.signals msg)) = 1 ->
  Bus.organize msg = Ok msg' ->
  Message.signals msg' =
    filter (fun s => negb (has_selector msg s)) (Message.signals msg) /\
  Message.signals_dict msg' = Message.signals_dict msg /\
  List.length (Message.objs msg') = List.length (Message.objs msg).
Proof.
  intros V ND Hone Hrun.
  destruct (filter (is_mux msg) (Message.signals msg)) as [|mux [|]] eqn:Hf;
    try discriminate Hone. clear Hone.
  assert (Hin : In mux (filter (is_mux msg) (Message.signals msg)))
    by (rewrite Hf; now left).
  apply filter_In in Hin. destruct Hin as [Hin Hmux].
  unfold is_mux in Hmux.
  destruct (nth_error (Message.objs msg) mux) as [m|] eqn:Hobj;
    [|discriminate].
  set (multiplexed := filter (has_selector msg) (Message.signals msg)).
  assert (NDm : NoDup multiplexed) by now apply NoDup_filter.
  assert (Hincl : incl multiplexed (Message.signals msg)).
  { intros x Hx. apply filter_In in Hx. tauto. }
  assert (Hsel : Forall (fun r => has_selector msg r = true) multiplexed).
  { apply Forall_forall. intros x Hx. apply filter_In in Hx. tauto. }
  unfold Bus.organize in Hrun. rewrite (scan_spec msg V), Hf in Hrun.
  simpl in Hrun. fold multiplexed in Hrun.
  rewrite <- (in_loop_start msg mux m Hobj) in Hrun at 1.
  destruct (Forall_Exists_dec
              (fun s => (selector msg s < 2 ^ Signal.numbits m)%N)
              (fun s => Bool.reflect_dec _ _ (N.ltb_spec0 _ _))
              multiplexed) as [Hrange|Hbad].
  - rewrite (attach_loop msg mux m Hobj Hmux multiplexed _ _ ND NDm Hincl
                         Hsel Hrange) in Hrun.
    injection Hrun as <-. unfold in_loop. simpl. split; [|split].
    + apply filter_not_in_filter.
    + reflexivity.
    + apply update_nth_length.
  - exfalso.
    assert (Hex : Exists (fun s => (2 ^ Signal.numbits m <= selector msg s)%N)
                         multiplexed).
    { eapply Exists_impl; [|exact Hbad]. simpl. intros a Ha. lia. }
    destruct (attach_loop_raises msg mux m Hobj Hmux multiplexed
                                 (Message.signals msg) (Signal.switch m)
                                 ND NDm Hincl Hsel Hex) as [text Htext].
    congruence.
Qed.

(** X25: A message that has no multiplexor, or more than one, is left as it
    is by the step that places the signals of a single multiplexor:
    its signals with a multiplex value stay in the top-level list. *)
Theorem organize_keeps_message_without_one_multiplexor (msg : Message.t) :
  built secs msg ->
  List.length (filter (is_mux msg) (Message.signals msg)) <> 1 ->
  Bus.organize msg = Ok msg.
Proof.
  intros Hb Hn.
  destruct (built_indexed secs msg Hb) as [[V _] _].
  unfold Bus.organize. rewrite (scan_spec msg V). simpl.
  destruct (Nat.eqb_spec
              (List.length (filter (is_mux msg) (Message.signals msg))) 1)
    as [E|_]; [contradiction | reflexivity].
Qed.

(** X26: In a message with one multiplexor, a signal with a multiplex value
    takes no extended multiplexing statement: once the step for single
    multiplexors has placed it, [SG_MUL_VAL_] for that signal raises
    a [DatabaseError], whatever multiplexor and ranges it names. *)
Theorem placed_signal_takes_no_ranges (msg msg' : Message.t)
        (signame : string) (sig : nat) :
  built secs msg ->
  List.length (filter (is_mux msg) (Message.signals msg)) = 1 ->
  Bus.organize msg = Ok msg' ->
  dict_get String.eqb signame (Message.signals_dict msg) = Some sig ->
  has_selector msg sig = true ->
  forall muxname ranges,
  exists text,
    Bus.multiplex_by signame muxname ranges msg' = Raise (DatabaseError text).
Proof.
  intros Hb Hone Hrun Hget Hsel muxname ranges.
  destruct (built_indexed secs msg Hb) as [[V [_ Vd]] _].
  assert (ND := built_signals_NoDup msg Hb).
  destruct (organize_one_multiplexor msg msg' V ND Hone Hrun)
    as [Hs [Hd Hl]].
  apply (multiplex_by_off_top msg' signame muxname ranges sig).
  - rewrite Hd. unfold valid_ref. rewrite Hl. exact Vd.
  - now rewrite Hd.
  - rewrite Hs. intros Hin. apply filter_In in Hin.
    destruct Hin as [_ Hin]. rewrite Hsel in Hin. discriminate.
Qed.

(** X27: A signal takes one extended multiplexing statement: after a
    [SG_MUL_VAL_] statement for it was accepted, every other one for
    the same signal raises a [DatabaseError], also when it names the
    same multiplexor with further ranges. *)
Theorem signal_takes_one_multiplexing_statement (msg msg' : Message.t)
        (signame muxname : string) (ranges : list (N * N)) :
  built secs msg ->
  Bus.multiplex_by signame muxname ranges msg = Ok msg' ->
  forall muxname' ranges',
  exists text,
    Bus.multiplex_by signame muxname' ranges' msg' =
    Raise (DatabaseError text).
Proof.
  intros Hb Hrun muxname' ranges'.
  destruct (built_indexed secs msg Hb) as [[V [_ Vd]] _].
  assert (ND := built_signals_NoDup msg Hb).
  unfold Bus.multiplex_by in Hrun.
  destruct (dict_get String.eqb signame (Message.signals_dict msg))
    as [sig|] eqn:Hsig; [|discriminate].
  destruct (dict_get String.eqb muxname (Message.signals_dict msg))
    as [mux|] eqn:Hmux; [|discriminate].
  apply bind_Ok in Hrun. destruct Hrun as [m [Hm Hrun]].
  destruct (negb (Signal.is_multiplexor m)); [discriminate|].
  destruct (existsb (Nat.eqb sig) (Message.signals msg)); [|discriminate].
  apply bind_Ok in Hrun. destruct Hrun as [L [Hrem Hrun]].
  injection Hrun as <-.
  destruct (list_remove_Ok _ _ _ Hrem) as [Hin _].
  rewrite (list_remove_NoDup sig _ ND Hin) in Hrem. injection Hrem as <-.
  apply (multiplex_by_off_top _ signame muxname' ranges' sig).
  - simpl. unfold valid_ref. simpl. rewrite update_nth_length. exact Vd.
  - exact Hsig.
  - simpl. intros Hin'. apply filter_In in Hin'. destruct Hin' as [_ Hin'].
    rewrite Nat.eqb_refl in Hin'. discriminate.
Qed.
End Multiplexing.

Lemma organize_keeps_message_without_one_multiplexor_witness :
  @Bus.organize literal_floats
    (@Bus.new_message literal_floats
       {| md_id := 1; md_name := "M"; md_size := 8; md_transmitter := "N";
          md_signals := [plain_signal "S"; selected_signal "A" 0] |}) =
  Ok (@Bus.new_message literal_floats
        {| md_id := 1; md_name := "M"; md_size := 8; md_transmitter := "N";
           md_signals := [plain_signal "S"; selected_signal "A" 0] |}).
Proof.
  apply (@organize_keeps_message_without_one_multiplexor literal_floats
           [SecBO {| md_id := 1; md_name := "M"; md_size := 8;
                     md_transmitter := "N";
                     md_signals := [plain_signal "S";
                                    selected_signal "A" 0] |}]).
  - apply built_new. left. reflexivity.
  - vm_compute. discriminate.
Defined.

Lemma placed_signal_takes_no_ranges_witness :
  exists text,
    @Bus.multiplex_by literal_floats "A" "Sel" [(0, 1)%N]
      (Message.set_signals [0]
         (Message.update_obj 0
            (Signal.set_switch [(Range.Range 0%N 0%N, 1);
                                (Range.Range 2%N 2%N, 2)])
            (@Bus.new_message literal_floats message_100_AB))) =
    Raise (DatabaseError text).
Proof.
  apply (@placed_signal_takes_no_ranges literal_floats
           [SecBO message_100_AB]
           (@Bus.new_message literal_floats message_100_AB) _ "A" 1).
  - apply built_new. left. reflexivity.
  - reflexivity.
  - reflexivity.
  - reflexivity.
  - reflexivity.
Defined.

Lemma signal_takes_one_multiplexing_statement_witness :
  exists text,
    @Bus.multiplex_by literal_floats "P" "Sel" [(2, 3)%N]
      (Message.update_obj 0
         (Signal.set_switch [(Range.Range 1%N 1%N, 1)])
         (Message.set_signals [0]
            (@Bus.new_message literal_floats message_100_P))) =
    Raise (DatabaseError text).
Proof.
  apply (@signal_takes_one_multiplexing_statement literal_floats
           [SecBO message_100_P]
           (@Bus.new_message literal_floats message_100_P) _
           "P" "Sel" [(1, 1)%N]).
  - apply built_new. left. reflexivity.
  - reflexivity.
Defined.

(** ** The script dbcdiff.py *)

Section ScriptLaws.
Context `{FloatModel}.

Lemma dbcdiff_Ok (t1 t2 : string) (d : option Bus.difference) :
  dbcdiff t1 t2 = Ok d <->
  exists secs1 b1 secs2 b2,
    Parser.parse t1 = Ok secs1 /\ Bus.init secs1 = Ok b1 /\
    Parser.parse t2 = Ok secs2 /\ Bus.init secs2 = Ok b2 /\
    Bus.diff b1 b2 = Ok d.
Proof.
  unfold dbcdiff. split.
  - intros Hrun.
    apply bind_Ok in Hrun. destruct Hrun as [secs1 [H1 Hrun]].
    apply bind_Ok in Hrun. destruct Hrun as [b1 [H2 Hrun]].
    apply bind_Ok in Hrun. destruct Hrun as [secs2 [H3 Hrun]].
    apply bind_Ok in Hrun. destruct Hrun as [b2 [H4 Hrun]].
    exists secs1, b1, secs2, b2. auto.
  - intros [secs1 [b1 [secs2 [b2 [H1 [H2 [H3 [H4 H5]]]]]]]].
    rewrite H1. simpl. rewrite H2. simpl. rewrite H3. simpl.
    rewrite H4. simpl. exact H5.
Qed.

(** X28: The script prints nothing when it is given twice a text that
    parses and from which a bus can be constructed, and whether it
    runs to its end without printing does not depend on the order of
    its two arguments. *)
Theorem dbcdiff_prints_nothing_for_equal_files :
  (forall (text : string) (secs : list Sec) (b : Bus.t),
      Parser.parse text = Ok secs -> Bus.init secs = Ok b ->
      dbcdiff text text = Ok None) /\
  (forall text1 text2 : string,
      dbcdiff text1 text2 = Ok None <-> dbcdiff text2 text1 = Ok None).
Proof.
  split.
  - intros text secs b Hp Hb. apply dbcdiff_Ok.
    exists secs, b, secs, b. repeat (split; [assumption|]).
    apply bus_diff_refl.
    assert (Hall := init_built secs b Hb). unfold all_built in Hall.
    eapply Forall_impl; [|exact Hall].
    intros kv Hkv. apply (built_indexed secs _ Hkv).
  - assert (Hone : forall t1 t2,
               dbcdiff t1 t2 = Ok None -> dbcdiff t2 t1 = Ok None).
    { intros t1 t2 Hrun. apply dbcdiff_Ok in Hrun.
      destruct Hrun as [secs1 [b1 [secs2 [b2 [H1 [H2 [H3 [H4 H5]]]]]]]].
      apply dbcdiff_Ok. exists secs2, b2, secs1, b1.
      repeat (split; [assumption|]). now apply bus_diff_sym. }
    intros text1 text2. split; apply Hone.
Qed.
End ScriptLaws.

Lemma dbcdiff_prints_nothing_for_equal_files_witness :
  @dbcdiff literal_floats zero_baudrate_text zero_baudrate_text = Ok None.
Proof.
  refine (proj1 (@dbcdiff_prints_nothing_for_equal_files literal_floats)
                zero_baudrate_text _ _ _ _).
  - vm_compute. reflexivity.
  - vm_compute. reflexivity.
Defined.

(** ** Taking the sections of one kind from the list *)

Section ExtractionLaws.
Context `{FloatModel}.
Variable p : Sec -> bool.

Lemma pop_middle {A : Type} (l t : list A) (x : A) :
  pop (List.length l) (l ++ x :: t) = Ok (x, (l ++ t)%list).
Proof.
  induction l as [|y l IH]; simpl; [reflexivity|]. now rewrite IH.
Qed.

Lemma indices_of_below (l : list Sec) :
  Forall (fun k => k < List.length l) (indices_of p l).
Proof.
  apply Forall_forall. intros k Hk. unfold indices_of in Hk.
  apply filter_In in Hk. destruct Hk as [Hk _].
  apply in_seq in Hk. lia.
Qed.

Lemma indices_of_app (l : list Sec) (x : Sec) :
  indices_of p (l ++ [x]) =
  (indices_of p l ++ (if p x then [List.length l] else []))%list.
Proof.
  unfold indices_of. rewrite List.length_app. simpl.
  rewrite seq_app, filter_app. simpl. f_equal.
  - apply filter_ext_in. intros k Hk. apply in_seq in Hk.
    rewrite nth_error_app1 by lia. reflexivity.
  - rewrite nth_error_app2 by lia. rewrite Nat.sub_diag. simpl.
    destruct (p x); reflexivity.
Qed.

Lemma sort_reverse_highest_last (a : list nat) (k : nat) :
  Forall (fun y => y < k) a ->
  sort_reverse (a ++ [k]) = k :: sort_reverse a.
Proof.
  unfold sort_reverse. induction a as [|y a IH]; intros Ha; simpl;
    [reflexivity|].
  inversion Ha as [|? ? Hy Ha']; subst. rewrite (IH Ha'). simpl.
  destruct (Nat.leb_spec k y); [lia | reflexivity].
Qed.

Lemma sorted_indices_app (l : list Sec) (x : Sec) :
  sort_reverse (indices_of p (l ++ [x])) =
  ((if p x then [List.length l] else []) ++ sort_reverse (indices_of p l))%list.
Proof.
  rewrite indices_of_app. destruct (p x); simpl.
  - apply sort_reverse_highest_last, indices_of_below.
  - now rewrite app_nil_r.
Qed.

Lemma pops_take_the_wanted (l t acc : list Sec) :
  foldM (fun (st : list Sec * list Sec) ii =>
           ' (x, seclist) <- pop ii (snd st) ;;
           Ok ((fst st ++ [x])%list, seclist))
        (sort_reverse (indices_of p l)) (acc, (l ++ t)%list) =
  Ok ((acc ++ rev (filter p l))%list,
      (filter (fun s => negb (p s)) l ++ t)%list).
Proof.
  revert t acc. induction l as [|x l IH] using rev_ind; intros t acc.
  - simpl. now rewrite app_nil_r.
  - rewrite sorted_indices_app, !filter_app. simpl.
    destruct (p x) eqn:Hx; simpl.
    + rewrite <- app_assoc. simpl. rewrite pop_middle. simpl.
      rewrite IH. rewrite rev_app_distr. simpl.
      rewrite <- !app_assoc. reflexivity.
    + rewrite <- !app_assoc. simpl. rewrite IH.
      now rewrite app_nil_r.
Qed.
End ExtractionLaws.

Section ExtractionOrder.
Context `{FloatModel}.

(** X29: [_xtract_sec], as it is written with indices and [pop], never
    raises: it answers the sections of the wanted kind in the order
    they have in the list, and leaves the other sections in the list
    in their order; these are the two lists [xtract_sec] answers. *)
Theorem xtract_sec_takes_the_sections_in_order {A : Type}
        (sel : Sec -> option A) (seclist : list Sec) :
  xtract_sec_by_index (wanted sel) seclist =
    Ok (filter (wanted sel) seclist,
        filter (fun s => negb (wanted sel s)) seclist) /\
  Bus.xtract_sec sel seclist =
    (flat_map (fun s => match sel s with Some a => [a] | None => [] end)
              (filter (wanted sel) seclist),
     filter (fun s => negb (wanted sel s)) seclist).
Proof.
  split.
  - unfold xtract_sec_by_index.
    assert (E := pops_take_the_wanted (wanted sel) seclist [] []).
    rewrite app_nil_r in E. rewrite E. simpl.
    now rewrite rev_involutive, app_nil_r.
  - unfold Bus.xtract_sec. f_equal.
    + induction seclist as [|s l IH]; simpl; [reflexivity|].
      assert (Hw : wanted sel s =
                   match sel s with Some _ => true | None => false end)
        by reflexivity.
      rewrite Hw. destruct (sel s) eqn:E; simpl; rewrite ?E; simpl;
        now rewrite IH.
    + apply filter_ext. intros s. unfold wanted. now destruct (sel s).
Qed.
End ExtractionOrder.

(** ** Separators *)

Lemma rfind_nl_None (w : string) :
  Parser.rfind_nl w = None -> Parser.count_nl w = 0.
Proof.
  induction w as [|c w IH]; simpl; [reflexivity|].
  destruct (Parser.rfind_nl w); [discriminate|].
  destruct (Ascii.eqb c nl); [discriminate|]. intros _. now rewrite IH.
Qed.

Lemma forallb_string_app (f : ascii -> bool) (a b : string) :
  forallb f (list_ascii_of_string (a ++ b)) =
  forallb f (list_ascii_of_string a) && forallb f (list_ascii_of_string b).
Proof.
  induction a as [|c a IH]; simpl; [reflexivity|].
  now rewrite IH, andb_assoc.
Qed.

Lemma spaces_are_separators (r : string) :
  forallb (fun c => char_in c " ,")
          (list_ascii_of_string (take_while Parser.is_space r)) = true.
Proof.
  induction r as [|c r IH]; simpl; [reflexivity|].
  unfold Parser.is_space at 1.
  destruct (Ascii.eqb_spec c " ") as [->|Hne]; simpl;
    [exact IH | reflexivity].
Qed.

(** What a separator pattern matches: a run of spaces and commas at
    the beginning of the text. *)
Lemma match_sep_spec (pattern : Parser.sep_pattern) (r : string) (k : nat) :
  Parser.match_sep pattern r = Some k ->
  exists skipped post,
    r = skipped ++ post /\ String.length skipped = k /\
    forallb (fun c => char_in c " ,") (list_ascii_of_string skipped) = true.
Proof.
  destruct pattern; simpl.
  - intros E. injection E as <-.
    destruct (take_while_split Parser.is_space r) as [post [E _]].
    exists (take_while Parser.is_space r), post.
    split; [exact E|]. split; [reflexivity | apply spaces_are_separators].
  - intros E. injection E as <-.
    destruct (take_while_split (fun c => char_in c " ,") r) as [post [E _]].
    exists (take_while (fun c => char_in c " ,") r), post.
    split; [exact E|]. split; [reflexivity | apply take_while_all].
  - destruct (take_while_split Parser.is_space r) as [post [E _]].
    assert (Ha := spaces_are_separators r).
    remember (take_while Parser.is_space r) as a eqn:Heqa. clear Heqa.
    assert (Hfrom : str_from (String.length a) r = post)
      by (rewrite E; apply str_from_app).
    rewrite Hfrom. destruct post as [|c post]; [discriminate|].
    destruct (Ascii.eqb_spec c ",") as [->|Hne]; [|discriminate].
    intros Ek. injection Ek as <-.
    destruct (take_while_split Parser.is_space post) as [post' [E' _]].
    assert (Hb := spaces_are_separators post).
    remember (take_while Parser.is_space post) as b eqn:Heqb. clear Heqb.
    exists (a ++ String "," b), post'. split; [|split].
    + rewrite E, E', str_app_assoc. reflexivity.
    + rewrite length_app. simpl. lia.
    + rewrite forallb_string_app. simpl. now rewrite Ha, Hb.
Qed.

(** X30: [eat_pattern] never raises and skips spaces and commas only, but
    it counts lines: the line number grows by the number of newlines
    among the characters that follow the separator it has skipped, as
    many of them as the separator is long. *)
Theorem eat_pattern_counts_newlines_behind_the_separator
        (text : string) (pattern : Parser.sep_pattern) (s : Parser.pos) :
  exists s' skipped post,
    Parser.eat_pattern text pattern s = Ok (tt, s') /\
    str_from (Parser.n s) text = skipped ++ post /\
    forallb (fun c => char_in c " ,") (list_ascii_of_string skipped) = true /\
    Parser.n s' = Parser.n s + String.length skipped /\
    Parser.line s' =
      Parser.line s
      + Parser.count_nl (str_slice 0 (String.length skipped) post).
Proof.
  unfold Parser.eat_pattern.
  destruct (Parser.match_sep pattern (str_from (Parser.n s) text))
    as [k|] eqn:Hm.
  - destruct (match_sep_spec _ _ _ Hm) as [skipped [post [E [Hk Hsep]]]].
    assert (Hpost : str_from (Parser.n s + k) text = post).
    { rewrite str_from_add, E, <- Hk. apply str_from_app. }
    rewrite Hpost, <- Hk.
    set (window := str_slice 0 (String.length skipped) post).
    destruct (Parser.count_nl window) as [|nln] eqn:Hc.
    + eexists; exists skipped, post.
      split; [reflexivity|]. simpl.
      split; [exact E|]. split; [exact Hsep|]. split; [reflexivity|].
      fold window. rewrite Hc. lia.
    + destruct (Parser.rfind_nl window) as [i|] eqn:Hr.
      * eexists; exists skipped, post.
        split; [reflexivity|]. simpl.
        split; [exact E|]. split; [exact Hsep|]. split; [reflexivity|].
        fold window. now rewrite Hc.
      * apply rfind_nl_None in Hr. congruence.
  - exists s, EmptyString, (str_from (Parser.n s) text).
    split; [reflexivity|]. simpl. repeat split; auto.
    destruct (str_from (Parser.n s) text); simpl; lia.
Qed.

(** ** The step for single multiplexors in the construction of a bus *)

(** ** The messages through the steps of the builder *)

Section DictLaws.
Context {K V : Type} (keq : K -> K -> bool).
Hypothesis keq_eq : forall a b, keq a b = true <-> a = b.

Lemma dict_get_set_eq (k : K) (v : V) (d : dict K V) :
  dict_get keq k (dict_set keq k v d) = Some v.
Proof.
  assert (Hk : keq k k = true) by now apply keq_eq.
  induction d as [|[k' v'] d IH]; simpl.
  - now rewrite Hk.
  - destruct (keq k k') eqn:E; simpl; rewrite E; auto.
Qed.

Lemma dict_get_set_neq (k k0 : K) (v : V) (d : dict K V) :
  k0 <> k ->
  dict_get keq k0 (dict_set keq k v d) = dict_get keq k0 d.
Proof.
  intros Hne.
  assert (Hk : keq k0 k = false).
  { destruct (keq k0 k) eqn:E; [|reflexivity].
    apply keq_eq in E. contradiction. }
  induction d as [|[k' v'] d IH]; simpl.
  - now rewrite Hk.
  - destruct (keq k k') eqn:E; simpl.
    + apply keq_eq in E. subst k'. now rewrite Hk.
    + now rewrite IH.
Qed.
End DictLaws.

Section Steps.
Context `{FloatModel}.

Lemma wired_alike_refl (s : Signal.t) : wired_alike s s.
Proof. repeat split. Qed.

Lemma wired_alike_trans (a b c : Signal.t) :
  wired_alike a b -> wired_alike b c -> wired_alike a c.
Proof.
  intros [A1 [A2 [A3 A4]]] [B1 [B2 [B3 B4]]]. repeat split; congruence.
Qed.

Lemma same_wiring_refl (a : Message.t) : same_wiring a a.
Proof.
  repeat split. intros ref s Hs. exists s. split; [exact Hs|].
  apply wired_alike_refl.
Qed.

Lemma same_wiring_trans (a b c : Message.t) :
  same_wiring a b -> same_wiring b c -> same_wiring a c.
Proof.
  intros [A1 [A2 A3]] [B1 [B2 B3]]. split; [congruence|].
  split; [congruence|].
  intros ref s Hs. destruct (A3 ref s Hs) as [s1 [Hs1 W1]].
  destruct (B3 ref s1 Hs1) as [s2 [Hs2 W2]].
  exists s2. split; [exact Hs2|]. now apply (wired_alike_trans s s1 s2).
Qed.

Lemma same_wiring_decorated (msg : Message.t) (ref : nat)
      (f : Signal.t -> Signal.t) :
  decoration f -> same_wiring msg (Message.update_obj ref f msg).
Proof.
  intros Hf. split; [reflexivity|]. split.
  - simpl. apply update_nth_length.
  - intros r s Hs. simpl. rewrite nth_error_update_nth, Hs.
    destruct (Nat.eqb r ref); simpl.
    + exists (f s). split; [reflexivity|].
      destruct (Hf s) as [_ [A [B [C [D _]]]]]. repeat split; assumption.
    + exists s. split; [reflexivity | apply wired_alike_refl].
Qed.

Lemma grown_refl (a : Message.t) : grown a a.
Proof.
  split; [apply incl_refl|]. intros ref s Hs. exists s, [].
  split; [exact Hs | now rewrite app_nil_r].
Qed.

Lemma grown_trans (a b c : Message.t) :
  grown a b -> grown b c -> grown a c.
Proof.
  intros [A1 A2] [B1 B2]. split.
  - intros x Hx. apply A1, B1, Hx.
  - intros ref s Hs. destruct (A2 ref s Hs) as [s1 [m1 [Hs1 E1]]].
    destruct (B2 ref s1 Hs1) as [s2 [m2 [Hs2 E2]]].
    exists s2, (m1 ++ m2)%list. split; [exact Hs2|].
    now rewrite E2, E1, app_assoc.
Qed.

Lemma messages_step_refl (R : Message.t -> Message.t -> Prop)
      (s s' : Bus.t) :
  (forall m, R m m) -> Bus.messages s' = Bus.messages s ->
  messages_step R s s'.
Proof.
  intros HR E id msg Hget. exists msg. rewrite E. split; [exact Hget|].
  apply HR.
Qed.

Lemma messages_step_trans (R : Message.t -> Message.t -> Prop)
      (a b c : Bus.t) :
  (forall x y z, R x y -> R y z -> R x z) ->
  messages_step R a b -> messages_step R b c -> messages_step R a c.
Proof.
  intros HR Hab Hbc id msg Hget.
  destruct (Hab id msg Hget) as [m1 [H1 R1]].
  destruct (Hbc id m1 H1) as [m2 [H2 R2]].
  exists m2. split; [exact H2|]. now apply (HR msg m1 m2).
Qed.

Lemma foldM_messages_step {A : Type} (R : Message.t -> Message.t -> Prop)
      (step : Bus.t -> A -> Res Bus.t) (l : list A) (a b : Bus.t) :
  (forall m, R m m) ->
  (forall x y z, R x y -> R y z -> R x z) ->
  (forall s x s', step s x = Ok s' -> messages_step R s s') ->
  foldM step l a = Ok b -> messages_step R a b.
Proof.
  intros Hrefl Htrans Hstep.
  apply (foldM_inv (messages_step R a) step l).
  - intros s x s' _ Hs Hrun.
    apply (messages_step_trans R a s s' Htrans Hs).
    now apply (Hstep s x s').
  - now apply messages_step_refl.
Qed.

Lemma on_message_step (R : Message.t -> Message.t -> Prop)
      (self self' : Bus.t) (id : N) (missing : exn)
      (f : Message.t -> Res Message.t) :
  (forall m, R m m) ->
  (forall msg msg', f msg = Ok msg' -> R msg msg') ->
  Bus.on_message self id missing f = Ok self' ->
  messages_step R self self'.
Proof.
  intros Hrefl Hf Hrun. unfold Bus.on_message in Hrun.
  destruct (dict_get N.eqb id (Bus.messages self)) as [msg|] eqn:Hget;
    [|discriminate].
  apply bind_Ok in Hrun. destruct Hrun as [msg' [Hmsg' E]].
  injection E as <-. intros id0 m0 Hget0. simpl.
  destruct (N.eq_dec id0 id) as [->|Hne].
  - rewrite (dict_get_set_eq N.eqb N_eqb_eq). exists msg'.
    split; [reflexivity|]. rewrite Hget in Hget0. injection Hget0 as <-.
    now apply Hf.
  - rewrite (dict_get_set_neq N.eqb N_eqb_eq) by exact Hne.
    exists m0. split; [exact Hget0 | apply Hrefl].
Qed.

Lemma on_signal_same_wiring (msg msg' : Message.t) (signame : string)
      (missing : exn) (f : Signal.t -> Signal.t) :
  decoration f ->
  Bus.on_signal msg signame missing f = Ok msg' -> same_wiring msg msg'.
Proof.
  intros Hf. unfold Bus.on_signal.
  destruct (dict_get _ _ _); [|discriminate].
  intros E. injection E as <-. now apply same_wiring_decorated.
Qed.

Lemma add_transmitters_same_wiring self bo self' :
  Bus.add_transmitters self bo = Ok self' ->
  messages_step same_wiring self self'.
Proof.
  unfold Bus.add_transmitters.
  apply on_message_step; [exact same_wiring_refl|].
  intros msg msg'.
  apply (foldM_inv (same_wiring msg)); [|apply same_wiring_refl].
  intros m tx m' _ Hm Hstep.
  apply (same_wiring_trans msg m m' Hm).
  unfold Bus.add_transmitter in Hstep.
  destruct (negb (dict_mem _ _ _)); [discriminate|].
  destruct (negb (str_in _ _)); injection Hstep as <-;
    repeat split; intros ref s Hs; exists s;
    (split; [exact Hs | apply wired_alike_refl]).
Qed.

Lemma add_comment_same_wiring self c self' :
  Bus.add_comment self c = Ok self' -> messages_step same_wiring self self'.
Proof.
  unfold Bus.add_comment. destruct c as [[name|id|id name|name|] text];
    simpl.
  - destruct (dict_get _ _ _); [|discriminate].
    intros E. injection E as <-.
    now apply messages_step_refl; [exact same_wiring_refl|].
  - apply on_message_step; [exact same_wiring_refl|].
    intros msg msg' E. injection E as <-.
    repeat split; intros ref s Hs; exists s;
      (split; [exact Hs | apply wired_alike_refl]).
  - apply on_message_step; [exact same_wiring_refl|].
    intros msg msg'. apply on_signal_same_wiring.
    intros s. repeat split.
  - discriminate.
  - intros E. injection E as <-.
    now apply messages_step_refl; [exact same_wiring_refl|].
Qed.

Lemma add_typedef_same_wiring self c self' :
  Bus.add_typedef self c = Ok self' -> messages_step same_wiring self self'.
Proof.
  unfold Bus.add_typedef. destruct c as [[ct name] typ].
  destruct (dict_get _ _ _); [|discriminate].
  destruct (dict_mem _ _ _); [discriminate|].
  intros E. injection E as <-.
  now apply messages_step_refl; [exact same_wiring_refl|].
Qed.

Lemma add_default_same_wiring self c self' :
  Bus.add_default self c = Ok self' -> messages_step same_wiring self self'.
Proof.
  unfold Bus.add_default. destruct c as [name val].
  destruct (dict_mem _ _ _); [discriminate|].
  intros E. injection E as <-.
  now apply messages_step_refl; [exact same_wiring_refl|].
Qed.

Lemma add_attribute_same_wiring self c self' :
  Bus.add_attribute self c = Ok self' ->
  messages_step same_wiring self self'.
Proof.
  unfold Bus.add_attribute.
  destruct c as [[name [node|id|id signame|ev|]] val].
  - destruct (dict_get _ _ _); [|discriminate].
    destruct (dict_mem _ _ _); [discriminate|].
    intros E. injection E as <-.
    now apply messages_step_refl; [exact same_wiring_refl|].
  - apply on_message_step; [exact same_wiring_refl|].
    intros msg msg'.
    destruct (dict_mem _ _ _); [discriminate|].
    intros E. injection E as <-.
    repeat split; intros ref s Hs; exists s;
      (split; [exact Hs | apply wired_alike_refl]).
  - destruct (dict_get N.eqb id _); [|discriminate].
    destruct (dict_get String.eqb signame _); [|discriminate].
    destruct (Message.obj _ _); simpl; [|discriminate].
    destruct (dict_mem _ _ _); [discriminate|].
    intros E. injection E as <-.
    now apply messages_step_refl; [exact same_wiring_refl|].
  - discriminate.
  - destruct (dict_mem _ _ _); [discriminate|].
    intros E. injection E as <-.
    now apply messages_step_refl; [exact same_wiring_refl|].
Qed.

Lemma add_value_descriptions_same_wiring self c self' :
  Bus.add_value_descriptions self c = Ok self' ->
  messages_step same_wiring self self'.
Proof.
  unfold Bus.add_value_descriptions. destruct c as [[id signame] vals].
  apply on_message_step; [exact same_wiring_refl|].
  intros msg msg'. apply on_signal_same_wiring.
  intros s. repeat split.
Qed.

Lemma add_signal_group_same_wiring self c self' :
  Bus.add_signal_group self c = Ok self' ->
  messages_step same_wiring self self'.
Proof.
  unfold Bus.add_signal_group.
  destruct c as [[[id group_name] number] sigs].
  apply on_message_step; [exact same_wiring_refl|].
  intros msg msg'.
  destruct (dict_mem _ _ _); [discriminate|].
  destruct (nonempty _); [discriminate|].
  intros E. injection E as <-.
  repeat split; intros ref s Hs; exists s;
    (split; [exact Hs | apply wired_alike_refl]).
Qed.

Lemma set_signal_value_type_same_wiring self c self' :
  Bus.set_signal_value_type self c = Ok self' ->
  messages_step same_wiring self self'.
Proof.
  unfold Bus.set_signal_value_type. destruct c as [[id signame] tn].
  apply on_message_step; [exact same_wiring_refl|].
  intros msg msg'. apply on_signal_same_wiring.
  intros s. repeat split.
Qed.
End Steps.

Section BeforeState.
Context `{FloatModel}.
Variable secs : list Sec.

Lemma add_messages_get (l : list message_dict) (s s' : Bus.t) :
  foldM Bus.add_message l s = Ok s' ->
  (forall d, In d l ->
             dict_get N.eqb (md_id d) (Bus.messages s') =
             Some (Bus.new_message d)) /\
  (forall id msg,
      dict_get N.eqb id (Bus.messages s) = Some msg ->
      dict_get N.eqb id (Bus.messages s') = Some msg).
Proof.
  revert s. induction l as [|d l IH]; intros s Hrun; simpl in Hrun.
  - injection Hrun as <-. split; [intros d [] | auto].
  - apply bind_Ok in Hrun. destruct Hrun as [s1 [H1 H2]].
    destruct (IH s1 H2) as [Hnew Hkeep].
    unfold Bus.add_message in H1.
    destruct (dict_mem N.eqb (md_id d) (Bus.messages s)) eqn:Hmem;
      [discriminate|].
    injection H1 as <-. split.
    + intros d0 [<-|Hin]; [|now apply Hnew].
      apply Hkeep. simpl. apply (dict_get_set_eq N.eqb N_eqb_eq).
    + intros id msg Hget. apply Hkeep. simpl.
      rewrite (dict_get_set_neq N.eqb N_eqb_eq); [exact Hget|].
      intros ->. unfold dict_mem in Hmem. rewrite Hget in Hmem.
      discriminate.
Qed.

Lemma fold_built {A : Type} (sel : Sec -> option A)
      (handle : Bus.t -> A -> Res Bus.t) (b b' : Bus.t) :
  (forall s x s',
      (exists sec, In sec secs /\ sel sec = Some x) ->
      handle s x = Ok s' -> keeps_built secs s s') ->
  all_built secs b ->
  foldM handle (sections_of sel secs) b = Ok b' ->
  all_built secs b'.
Proof.
  intros Hh Hb Hrun.
  destruct (fold_handled secs sel handle (all_built secs) b b')
    as [Hb' _]; [|exact Hb|exact Hrun|exact Hb'].
  intros s x s' Hsec Hs Hstep. now apply (Hh s x s' Hsec Hstep).
Qed.

(** The state of the builder when the step for single multiplexors
    begins: every [BO_] section has its message, with the signals, the
    multiplexing marks and the empty switches the section gives it. *)
Lemma before_organize_state (b0 : Bus.t) :
  init_before_organize secs = Ok b0 ->
  all_built secs b0 /\
  (forall d, In (SecBO d) secs ->
             exists msg1,
               dict_get N.eqb (md_id d) (Bus.messages b0) = Some msg1 /\
               same_wiring (Bus.new_message d) msg1).
Proof.
  unfold init_before_organize. intros Hrun.
  apply bind_Ok in Hrun. destruct Hrun as [st [Hhead Hrun]].
  destruct (init_head_Ok secs st Hhead)
    as [v [t [nl [_ [_ [_ [_ [_ [_ [_ [_ Hmsgs]]]]]]]]]]].
  assert (Hb0 : all_built secs (fst st)).
  { unfold all_built. rewrite Hmsgs. constructor. }
  apply bind_Ok in Hrun. destruct Hrun as [b1 [H1 Hrun]].
  assert (Hb1 : all_built secs b1).
  { apply (fold_built Bus.VAL_TABLE_ Bus.add_table (fst st) b1);
      [|exact Hb0|exact H1].
    intros s x s' _. apply add_table_built. }
  apply bind_Ok in Hrun. destruct Hrun as [b2 [H2 Hrun]].
  assert (Hb2 : all_built secs b2).
  { apply (fold_built Bus.BO_ Bus.add_message b1 b2); [|exact Hb1|exact H2].
    intros s x s' Hsec. apply add_message_built.
    now apply section_of_BO. }
  destruct (add_messages_get _ _ _ H2) as [Hnew _].
  apply bind_Ok in Hrun. destruct Hrun as [b3 [H3 Hrun]].
  assert (Hb3 : all_built secs b3).
  { apply (fold_built Bus.BO_TX_BU_ Bus.add_transmitters b2 b3);
      [|exact Hb2|exact H3].
    intros s x s' _. apply add_transmitters_built. }
  assert (S3 := foldM_messages_step same_wiring _ _ _ _
                  same_wiring_refl same_wiring_trans
                  add_transmitters_same_wiring H3).
  apply bind_Ok in Hrun. destruct Hrun as [b4 [H4 Hrun]].
  assert (Hb4 : all_built secs b4).
  { apply (fold_built Bus.CM_ Bus.add_comment b3 b4); [|exact Hb3|exact H4].
    intros s x s' _. apply add_comment_built. }
  assert (S4 := foldM_messages_step same_wiring _ _ _ _
                  same_wiring_refl same_wiring_trans
                  add_comment_same_wiring H4).
  apply bind_Ok in Hrun. destruct Hrun as [b5 [H5 Hrun]].
  assert (Hb5 : all_built secs b5).
  { apply (fold_built Bus.BA_DEF_ Bus.add_typedef b4 b5);
      [|exact Hb4|exact H5].
    intros s x s' _. apply add_typedef_built. }
  assert (S5 := foldM_messages_step same_wiring _ _ _ _
                  same_wiring_refl same_wiring_trans
                  add_typedef_same_wiring H5).
  apply bind_Ok in Hrun. destruct Hrun as [b6 [H6 Hrun]].
  assert (Hb6 : all_built secs b6).
  { apply (fold_built Bus.BA_DEF_DEF_ Bus.add_default b5 b6);
      [|exact Hb5|exact H6].
    intros s x s' _. apply add_default_built. }
  assert (S6 := foldM_messages_step same_wiring _ _ _ _
                  same_wiring_refl same_wiring_trans
                  add_default_same_wiring H6).
  apply bind_Ok in Hrun. destruct Hrun as [b7 [H7 Hrun]].
  assert (Hb7 : all_built secs b7).
  { apply (fold_built Bus.BA_ Bus.add_attribute b6 b7);
      [|exact Hb6|exact H7].
    intros s x s' _. apply add_attribute_built. }
  assert (S7 := foldM_messages_step same_wiring _ _ _ _
                  same_wiring_refl same_wiring_trans
                  add_attribute_same_wiring H7).
  apply bind_Ok in Hrun. destruct Hrun as [b8 [H8 Hrun]].
  assert (Hb8 : all_built secs b8).
  { apply (fold_built Bus.VAL_ Bus.add_value_descriptions b7 b8);
      [|exact Hb7|exact H8].
    intros s x s' _. apply add_value_descriptions_built. }
  assert (S8 := foldM_messages_step same_wiring _ _ _ _
                  same_wiring_refl same_wiring_trans
                  add_value_descriptions_same_wiring H8).
  apply bind_Ok in Hrun. destruct Hrun as [b9 [H9 Hrun]].
  assert (Hb9 : all_built secs b9).
  { apply (fold_built Bus.SIG_GROUP_ Bus.add_signal_group b8 b9);
      [|exact Hb8|exact H9].
    intros s x s' _. apply add_signal_group_built. }
  assert (S9 := foldM_messages_step same_wiring _ _ _ _
                  same_wiring_refl same_wiring_trans
                  add_signal_group_same_wiring H9).
  assert (Hb10 : all_built secs b0).
  { apply (fold_built Bus.SIG_VALTYPE_ Bus.set_signal_value_type b9 b0);
      [|exact Hb9|exact Hrun].
    intros s x s' _. apply set_signal_value_type_built. }
  assert (S10 := foldM_messages_step same_wiring _ _ _ _
                   same_wiring_refl same_wiring_trans
                   set_signal_value_type_same_wiring Hrun).
  split; [exact Hb10|].
  intros d Hd.
  assert (Hget : dict_get N.eqb (md_id d) (Bus.messages b2) =
                 Some (Bus.new_message d)).
  { apply Hnew. now apply (section_In Bus.BO_ (SecBO d)). }
  assert (Sall : messages_step same_wiring b2 b0).
  { apply (messages_step_trans _ b2 b3 b0 same_wiring_trans S3).
    apply (messages_step_trans _ b3 b4 b0 same_wiring_trans S4).
    apply (messages_step_trans _ b4 b5 b0 same_wiring_trans S5).
    apply (messages_step_trans _ b5 b6 b0 same_wiring_trans S6).
    apply (messages_step_trans _ b6 b7 b0 same_wiring_trans S7).
    apply (messages_step_trans _ b7 b8 b0 same_wiring_trans S8).
    apply (messages_step_trans _ b8 b9 b0 same_wiring_trans S9).
    exact S10. }
  exact (Sall _ _ Hget).
Qed.
End BeforeState.

Section OrganizeLaws.
Context `{FloatModel}.
Variable secs : list Sec.

Lemma same_wiring_nth (a b : Message.t) (ref : nat) :
  same_wiring a b ->
  match nth_error (Message.objs a) ref with
  | Some s => exists s', nth_error (Message.objs b) ref = Some s' /\
                         wired_alike s s'
  | None => nth_error (Message.objs b) ref = None
  end.
Proof.
  intros [_ [Hlen Hobjs]].
  destruct (nth_error (Message.objs a) ref) as [s|] eqn:E.
  - now apply Hobjs.
  - apply nth_error_None. apply nth_error_None in E. lia.
Qed.

Lemma same_wiring_notions (a b : Message.t) :
  same_wiring a b ->
  forall r, is_mux b r = is_mux a r /\
            has_selector b r = has_selector a r /\
            selector b r = selector a r.
Proof.
  intros Hw r. assert (Hr := same_wiring_nth a b r Hw).
  unfold is_mux, has_selector, selector.
  destruct (nth_error (Message.objs a) r) as [s|].
  - destruct Hr as [s' [-> [A [B _]]]]. rewrite A, B. auto.
  - rewrite Hr. auto.
Qed.

Lemma new_message_switch (d : message_dict) (ref : nat) (s : Signal.t) :
  nth_error (Message.objs (Bus.new_message d)) ref = Some s ->
  Signal.switch s = [].
Proof.
  unfold Bus.new_message. rewrite append_loop_objs. simpl.
  rewrite nth_error_map.
  destruct (nth_error (md_signals d) ref); simpl; [|discriminate].
  intros E. injection E as <-. reflexivity.
Qed.

(** The step for single multiplexors answers or raises a
    [DatabaseError], whatever message of the builder it is given. *)
Lemma organize_outcome (msg : Message.t) :
  built secs msg ->
  (exists msg', Bus.organize msg = Ok msg') \/
  (exists text, Bus.organize msg = Raise (DatabaseError text)).
Proof.
  intros Hb.
  destruct (built_indexed secs msg Hb) as [[V _] _].
  assert (ND := built_signals_NoDup secs msg Hb).
  unfold Bus.organize. rewrite (scan_spec msg V).
  cbv iota beta.
  destruct (filter (is_mux msg) (Message.signals msg)) as [|mux [|]] eqn:Hf;
    simpl; eauto.
  assert (Hin : In mux (filter (is_mux msg) (Message.signals msg)))
    by (rewrite Hf; now left).
  apply filter_In in Hin. destruct Hin as [Hin Hmux].
  unfold is_mux in Hmux.
  destruct (nth_error (Message.objs msg) mux) as [m|] eqn:Hobj;
    [|discriminate].
  set (multiplexed := filter (has_selector msg) (Message.signals msg)).
  assert (NDm : NoDup multiplexed) by now apply NoDup_filter.
  assert (Hincl : incl multiplexed (Message.signals msg)).
  { intros x Hx. apply filter_In in Hx. tauto. }
  assert (Hsel : Forall (fun r => has_selector msg r = true) multiplexed).
  { apply Forall_forall. intros x Hx. apply filter_In in Hx. tauto. }
  assert (Hstart : foldM (Bus.attach mux) multiplexed msg =
                   foldM (Bus.attach mux) multiplexed
                         (in_loop msg mux (Message.signals msg)
                                  (Signal.switch m)))
    by (now rewrite (in_loop_start msg mux m Hobj)).
  fold multiplexed.
  destruct (Forall_Exists_dec
              (fun s => (selector msg s < 2 ^ Signal.numbits m)%N)
              (fun s => Bool.reflect_dec _ _ (N.ltb_spec0 _ _))
              multiplexed) as [Hrange|Hbad].
  - left. eexists. rewrite Hstart.
    apply (attach_loop msg mux m Hobj Hmux multiplexed _ _ ND NDm
                       Hincl Hsel Hrange).
  - right.
    assert (Hex : Exists (fun s => (2 ^ Signal.numbits m <= selector msg s)%N)
                         multiplexed).
    { eapply Exists_impl; [|exact Hbad]. simpl. intros a Ha. lia. }
    destruct (attach_loop_raises msg mux m Hobj Hmux multiplexed
                                 (Message.signals msg) (Signal.switch m)
                                 ND NDm Hincl Hsel Hex) as [text Ht].
    exists text. rewrite Hstart. exact Ht.
Qed.

Lemma each_message_get (f : Message.t -> Res Message.t)
      (ms ms' : dict N Message.t) (id : N) (msg : Message.t) :
  Bus.each_message f ms = Ok ms' ->
  dict_get N.eqb id ms = Some msg ->
  exists msg', f msg = Ok msg' /\ dict_get N.eqb id ms' = Some msg'.
Proof.
  revert ms'. induction ms as [|[k m] ms IH]; intros ms' Hrun Hget;
    simpl in *; [discriminate|].
  apply bind_Ok in Hrun. destruct Hrun as [m' [Hm' Hrun]].
  apply bind_Ok in Hrun. destruct Hrun as [rest [Hrest E]].
  injection E as <-. simpl.
  destruct (N.eqb id k).
  - injection Hget as <-. now exists m'.
  - now apply IH.
Qed.

Lemma each_message_raises (f : Message.t -> Res Message.t)
      (ms : dict N Message.t) :
  Forall (fun kv => (exists m', f (snd kv) = Ok m') \/
                    (exists t, f (snd kv) = Raise (DatabaseError t))) ms ->
  Exists (fun kv => exists t, f (snd kv) = Raise (DatabaseError t)) ms ->
  exists t, Bus.each_message f ms = Raise (DatabaseError t).
Proof.
  induction ms as [|[k m] ms IH]; intros Hall Hex; [inversion Hex|].
  inversion Hall as [|? ? Hm Hrest]; subst. simpl in Hm. simpl.
  destruct Hm as [[m' Hm']|[t Ht]].
  - rewrite Hm'. simpl.
    inversion Hex as [? ? [t Ht]|? ? Htl]; subst.
    + simpl in Ht. congruence.
    + destruct (IH Hrest Htl) as [t Ht]. rewrite Ht. simpl. eauto.
  - rewrite Ht. simpl. eauto.
Qed.

(** The step for single multiplexors on the message of a [BO_]
    section with one multiplexor, as the builder has it when the step
    begins. *)
Lemma organize_unwired (d : message_dict) (msg1 : Message.t) (mux : nat)
      (m : Signal.t) :
  let msg0 := Bus.new_message d in
  same_wiring msg0 msg1 -> built secs msg1 ->
  filter (is_mux msg0) (Message.signals msg0) = [mux] ->
  Message.obj msg0 mux = Ok m ->
  let multiplexed := filter (has_selector msg0) (Message.signals msg0) in
  (Forall (fun s => (selector msg0 s < 2 ^ Signal.numbits m)%N)
          multiplexed ->
   Bus.organize msg1 =
   Ok (Message.set_signals
         (filter (fun s => negb (has_selector msg0 s))
                 (Message.signals msg0))
         (Message.update_obj mux
            (Signal.set_switch
               (map (fun s => (Range.Range (selector msg0 s)
                                           (selector msg0 s), s))
                    multiplexed))
            msg1))) /\
  (Exists (fun s => (2 ^ Signal.numbits m <= selector msg0 s)%N)
          multiplexed ->
   exists text, Bus.organize msg1 = Raise (DatabaseError text)).
Proof.
  intros msg0 Hw Hb Hone Hobj multiplexed.
  destruct (built_indexed secs msg1 Hb) as [[V _] _].
  assert (ND := built_signals_NoDup secs msg1 Hb).
  assert (Hn := same_wiring_notions msg0 msg1 Hw).
  destruct Hw as [Hsig [Hlen Hobjs]].
  apply obj_Ok in Hobj.
  destruct (Hobjs mux m Hobj) as [m1 [Hobj1 [_ [_ [Hbits Hsw]]]]].
  rewrite (new_message_switch d mux m Hobj) in Hsw.
  assert (Hone1 : filter (is_mux msg1) (Message.signals msg1) = [mux]).
  { rewrite Hsig, <- Hone. apply filter_ext. intros r. apply Hn. }
  assert (Hmpx : filter (has_selector msg1) (Message.signals msg1) =
                 multiplexed).
  { rewrite Hsig. apply filter_ext. intros r. apply Hn. }
  apply obj_Ok in Hobj1.
  destruct (organize_single_multiplexor msg1 mux m1 V ND Hone1 Hobj1 Hsw)
    as [Hok Hbad].
  rewrite Hmpx, Hbits in Hok, Hbad. split.
  - intros Hrange. rewrite Hok.
    + f_equal. f_equal.
      * rewrite Hsig. apply filter_ext. intros r.
        now destruct (Hn r) as [_ [-> _]].
      * f_equal. f_equal. apply map_ext. intros r.
        now destruct (Hn r) as [_ [_ ->]].
    + eapply Forall_impl; [|exact Hrange]. intros r Hr. simpl in Hr.
      now destruct (Hn r) as [_ [_ ->]].
  - intros Hex. apply Hbad.
    eapply Exists_impl; [|exact Hex]. intros r Hr. simpl in Hr.
    now destruct (Hn r) as [_ [_ ->]].
Qed.

Lemma appends_suffix (r : nat) (ranges : list (N * N)) (sw : Switch.t) :
  exists more,
    fold_left (fun sw r0 =>
                 Switch.append (Range.Range (fst r0) (snd r0)) r sw)
              ranges sw = (sw ++ more)%list.
Proof.
  revert sw. induction ranges as [|r0 ranges IH]; intros sw; simpl.
  - exists []. now rewrite app_nil_r.
  - unfold Switch.append at 2.
    destruct (existsb _ sw).
    + apply IH.
    + destruct (IH (sw ++ [(Range.Range (fst r0) (snd r0), r)])%list)
        as [more E].
      exists ((Range.Range (fst r0) (snd r0), r) :: more).
      rewrite E, <- app_assoc. reflexivity.
Qed.

Lemma multiplex_by_grown (signame muxname : string)
      (ranges : list (N * N)) (msg msg' : Message.t) :
  Bus.multiplex_by signame muxname ranges msg = Ok msg' -> grown msg msg'.
Proof.
  unfold Bus.multiplex_by. intros Hrun.
  destruct (dict_get String.eqb signame _) as [sig|]; [|discriminate].
  destruct (dict_get String.eqb muxname _) as [mux|]; [|discriminate].
  apply bind_Ok in Hrun. destruct Hrun as [m [Hm Hrun]].
  destruct (negb (Signal.is_multiplexor m)); [discriminate|].
  destruct (existsb _ _); [|discriminate].
  apply bind_Ok in Hrun. destruct Hrun as [L' [HL E]].
  injection E as <-. split.
  - simpl. now destruct (list_remove_Ok _ _ _ HL) as [_ [Hincl _]].
  - intros ref s Hs. simpl. rewrite nth_error_update_nth, Hs.
    destruct (Nat.eqb ref mux); simpl.
    + destruct (appends_suffix sig ranges (Signal.switch s)) as [more E].
      eexists; exists more. split; [reflexivity|]. simpl. exact E.
    + exists s, []. split; [reflexivity | now rewrite app_nil_r].
Qed.

Lemma add_mul_val_grown self c self' :
  Bus.add_mul_val self c = Ok self' -> messages_step grown self self'.
Proof.
  unfold Bus.add_mul_val. destruct c as [[[id signame] muxname] ranges].
  apply on_message_step; [exact grown_refl|].
  intros msg msg'. apply multiplex_by_grown.
Qed.
End OrganizeLaws.

Section Reconstruction.
Context `{FloatModel}.
Variable secs : list Sec.

Lemma init_from_before_organize :
  Bus.init secs =
  (b0 <- init_before_organize secs ;;
   ms <- Bus.each_message Bus.organize (Bus.messages b0) ;;
   b <- foldM Bus.add_mul_val (sections_of Bus.SG_MUL_VAL_ secs)
              (Bus.set_messages ms b0) ;;
   _ <- Bus.check_nonmuxed b ;;
   Ok b).
Proof.
  rewrite init_is_chain. unfold init_chain, init_before_organize.
  destruct (Bus.init_head secs) as [st|e]; [|reflexivity]. cbn [bind].
  repeat match goal with
         | |- context [bind (foldM ?h ?l ?b) _] =>
             destruct (foldM h l b); cbn [bind]; [|reflexivity]
         end.
  reflexivity.
Qed.

Lemma message_before_organize (b0 : Bus.t) (d : message_dict) :
  init_before_organize secs = Ok b0 -> In (SecBO d) secs ->
  Forall (fun kv => built secs (snd kv)) (Bus.messages b0) /\
  exists msg1,
    dict_get N.eqb (md_id d) (Bus.messages b0) = Some msg1 /\
    In (md_id d, msg1) (Bus.messages b0) /\
    same_wiring (Bus.new_message d) msg1 /\ built secs msg1.
Proof.
  intros Hb0 Hd.
  destruct (before_organize_state secs b0 Hb0) as [Hall Hstate].
  split; [exact Hall|].
  destruct (Hstate d Hd) as [msg1 [Hget Hw]].
  assert (Hin := dict_get_entry N.eqb N_eqb_eq _ _ _ Hget).
  exists msg1. split; [exact Hget|]. split; [exact Hin|].
  split; [exact Hw|].
  unfold all_built in Hall. rewrite Forall_forall in Hall.
  apply (Hall _ Hin).
Qed.

(** C4: for every [BO_] section whose signals hold exactly one
    multiplexor [mux], with [v] ranging over the multiplex values of
    its signals [s].  When the bus is constructed, every [v] is below
    [2 ** mux.numbits], the switch of [mux] in the message of the bus
    begins with the pairs [(Range(v, v), s)] in the order of the
    signals (what follows comes from [SG_MUL_VAL_] sections), and no
    such [s] is in the top-level list of the message.  When the
    sections before the step are read without error and every [v] is
    below [2 ** mux.numbits], the step makes these entries and takes
    these signals out of the list.  When some [v] is not, the
    construction raises: a [DatabaseError], unless a section read
    before the step has raised already. *)
Theorem single_multiplexor_reconstruction (d : message_dict) (mux : nat)
        (m : Signal.t) :
  In (SecBO d) secs ->
  let msg0 := Bus.new_message d in
  filter (is_mux msg0) (Message.signals msg0) = [mux] ->
  Message.obj msg0 mux = Ok m ->
  let multiplexed := filter (has_selector msg0) (Message.signals msg0) in
  let entries :=
    map (fun s => (Range.Range (selector msg0 s) (selector msg0 s), s))
        multiplexed in
  (forall b,
      Bus.init secs = Ok b ->
      Forall (fun s => (selector msg0 s < 2 ^ Signal.numbits m)%N)
             multiplexed /\
      exists msg m' more,
        dict_get N.eqb (md_id d) (Bus.messages b) = Some msg /\
        Message.obj msg mux = Ok m' /\
        Signal.switch m' = (entries ++ more)%list /\
        Forall (fun s => ~ In s (Message.signals msg)) multiplexed) /\
  (forall b0,
      init_before_organize secs = Ok b0 ->
      Forall (fun s => (selector msg0 s < 2 ^ Signal.numbits m)%N)
             multiplexed ->
      exists msg1,
        dict_get N.eqb (md_id d) (Bus.messages b0) = Some msg1 /\
        Message.signals msg1 = Message.signals msg0 /\
        Bus.organize msg1 =
        Ok (Message.set_signals
              (filter (fun s => negb (has_selector msg0 s))
                      (Message.signals msg0))
              (Message.update_obj mux (Signal.set_switch entries) msg1))) /\
  (Exists (fun s => (2 ^ Signal.numbits m <= selector msg0 s)%N)
          multiplexed ->
   (exists text, Bus.init secs = Raise (DatabaseError text)) \/
   (exists e, init_before_organize secs = Raise e /\
              Bus.init secs = Raise e)).
Proof.
  intros Hd msg0 Hone Hobj multiplexed entries.
  split; [|split].
  - intros b Hinit. rewrite init_from_before_organize in Hinit.
    apply bind_Ok in Hinit. destruct Hinit as [b0 [Hb0 Hinit]].
    apply bind_Ok in Hinit. destruct Hinit as [ms [Hms Hinit]].
    apply bind_Ok in Hinit. destruct Hinit as [b11 [H11 Hinit]].
    apply bind_Ok in Hinit. destruct Hinit as [[] [_ E]].
    injection E as <-.
    destruct (message_before_organize b0 d Hb0 Hd)
      as [_ [msg1 [Hget1 [_ [Hw Hb1]]]]].
    destruct (each_message_get _ _ _ _ _ Hms Hget1)
      as [msg2 [Horg Hget2]].
    destruct (organize_unwired secs d msg1 mux m Hw Hb1 Hone Hobj)
      as [Hok Hbad].
    fold msg0 multiplexed entries in Hok, Hbad.
    destruct (Forall_Exists_dec
                (fun s => (selector msg0 s < 2 ^ Signal.numbits m)%N)
                (fun s => Bool.reflect_dec _ _ (N.ltb_spec0 _ _))
                multiplexed) as [Hrange|Hout].
    + split; [exact Hrange|].
      rewrite (Hok Hrange) in Horg. injection Horg as <-.
      assert (Sg := foldM_messages_step grown _ _ _ _ grown_refl
                      grown_trans add_mul_val_grown H11).
      destruct (Sg (md_id d) _ Hget2) as [msg3 [Hget3 [Hincl Hobjs]]].
      destruct Hw as [_ [_ Hobjs1]].
      apply obj_Ok in Hobj.
      destruct (Hobjs1 mux m Hobj) as [m1 [Hm1 _]].
      destruct (Hobjs mux (Signal.set_switch entries m1))
        as [m' [more [Hm' Hsw]]].
      { simpl. rewrite nth_error_update_nth, Nat.eqb_refl, Hm1.
        reflexivity. }
      exists msg3, m', more. split; [exact Hget3|].
      split; [now apply obj_Ok|]. split; [exact Hsw|].
      apply Forall_forall. intros s Hs Hin.
      apply Hincl in Hin. simpl in Hin. apply filter_In in Hin.
      destruct Hin as [_ Hin]. apply filter_In in Hs.
      destruct Hs as [_ Hs]. rewrite Hs in Hin. discriminate.
    + exfalso.
      assert (Hex : Exists (fun s => (2 ^ Signal.numbits m
                                      <= selector msg0 s)%N) multiplexed).
      { eapply Exists_impl; [|exact Hout]. simpl. intros a Ha. lia. }
      destruct (Hbad Hex) as [text Ht]. congruence.
  - intros b0 Hb0 Hrange.
    destruct (message_before_organize b0 d Hb0 Hd)
      as [_ [msg1 [Hget1 [_ [Hw Hb1]]]]].
    destruct (organize_unwired secs d msg1 mux m Hw Hb1 Hone Hobj)
      as [Hok _].
    exists msg1. split; [exact Hget1|]. split; [apply Hw|].
    exact (Hok Hrange).
  - intros Hex.
    destruct (init_before_organize secs) as [b0|e] eqn:Hb0.
    + left.
      destruct (message_before_organize b0 d Hb0 Hd)
        as [Hall [msg1 [_ [Hin1 [Hw Hb1]]]]].
      destruct (organize_unwired secs d msg1 mux m Hw Hb1 Hone Hobj)
        as [_ Hbad].
      destruct (Hbad Hex) as [text Ht].
      destruct (each_message_raises Bus.organize (Bus.messages b0))
        as [t Hraise].
      * eapply Forall_impl; [|exact Hall].
        intros kv Hkv. now apply (organize_outcome secs).
      * apply Exists_exists. exists (md_id d, msg1).
        split; [exact Hin1|]. simpl. eauto.
      * exists t. rewrite init_from_before_organize, Hb0. simpl.
        rewrite Hraise. reflexivity.
    + right. exists e. split; [reflexivity|].
      rewrite init_from_before_organize, Hb0. reflexivity.
Qed.
End Reconstruction.

Lemma single_multiplexor_reconstruction_witness :
  (exists b msg m' more,
      @Bus.init literal_floats scenario_3_AB = Ok b /\
      dict_get N.eqb 100%N (Bus.messages b) = Some msg /\
      Message.obj msg 0 = Ok m' /\
      Signal.switch m' =
        ([(Range.Range 0%N 0%N, 1); (Range.Range 2%N 2%N, 2)] ++ more)%list /\
      Forall (fun s => ~ In s (Message.signals msg)) [1; 2]) /\
  (exists text,
      @Bus.init literal_floats out_of_range = Raise (DatabaseError text)).
Proof.
  split.
  - destruct (@Bus.init literal_floats scenario_3_AB) as [b|e] eqn:E;
      [|vm_compute in E; discriminate E].
    destruct (@single_multiplexor_reconstruction literal_floats
                scenario_3_AB message_100_AB 0
                (Signal.init (selector_signal "Sel")))
      as [Hbuilt _].
    + right. right. right. left. reflexivity.
    + reflexivity.
    + reflexivity.
    + destruct (Hbuilt b E) as [_ [msg [m' [more Hmsg]]]].
      exists b, msg, m', more. split; [reflexivity | exact Hmsg].
  - destruct (@single_multiplexor_reconstruction literal_floats
                out_of_range message_100_wide 0
                (Signal.init (selector_signal "Sel")))
      as [_ [_ Hraises]].
    + right. right. right. left. reflexivity.
    + reflexivity.
    + reflexivity.
    + destruct Hraises as [Hdb|[e [He _]]].
      * apply Exists_cons_tl. apply Exists_cons_hd. vm_compute.
        discriminate.
      * exact Hdb.
      * vm_compute in He. discriminate He.
Defined.
